(** * VulkanSceneGraph: the Viewer's frame loop and thread topology

    A shallow embedding of [src/vsg/viewer/Viewer.cpp].  The viewer is a
    record of its member variables, every member function is a function
    from viewer states to viewer states, and calls that leave the viewer
    (Vulkan, tasks, presentations, pagers) are appended to a call log.
    The worker threads started by [Viewer::setupThreading] are kept as
    data (which lambda, which captured arguments) and are given an
    interleaving semantics in the second half of the file. *)

From Stdlib Require Import ZArith Lia Bool Sorted.
From stdpp Require Import base option list gmap.

Open Scope Z_scope.

(** ** Machine integers *)

(** [uint32_t] arithmetic wraps modulo 2^32. *)
Definition wrap32 (z : Z) : Z := z mod 2 ^ 32.

(** [std::vector::size()] *)
Definition size {A} (l : list A) : Z := Z.of_nat (length l).

(** ** Vulkan result codes ([VkResult] is a C enum; values of vulkan_core.h) *)

Module Vk.
Definition VkResult := Z.
Definition VK_SUCCESS : VkResult := 0.
Definition VK_NOT_READY : VkResult := 1.
Definition VK_TIMEOUT : VkResult := 2.
Definition VK_SUBOPTIMAL_KHR : VkResult := 1000001003.
Definition VK_ERROR_OUT_OF_HOST_MEMORY : VkResult := -1.
Definition VK_ERROR_DEVICE_LOST : VkResult := -4.
Definition VK_ERROR_SURFACE_LOST_KHR : VkResult := -1000000000.
Definition VK_ERROR_OUT_OF_DATE_KHR : VkResult := -1000001004.
Definition VK_ERROR_FULL_SCREEN_EXCLUSIVE_MODE_LOST_EXT : VkResult := -1000255000.

(** The four results on which [acquireNextFrame] rebuilds the swapchain. *)
Definition recoverable (result : VkResult) : bool :=
  (result =? VK_ERROR_SURFACE_LOST_KHR) ||
  (result =? VK_ERROR_DEVICE_LOST) ||
  (result =? VK_ERROR_OUT_OF_DATE_KHR) ||
  (result =? VK_ERROR_FULL_SCREEN_EXCLUSIVE_MODE_LOST_EXT).
End Vk.
Import Vk.

(** ** Pointers and ordered containers of pointers *)

(** Raw pointers and Vulkan handles are addresses; [nullptr] is 0. *)
Definition ptr := Z.
Definition nullptr : ptr := 0.

(** [std::set<T*>::insert]: the set is kept as a strictly increasing list. *)
Fixpoint set_insert (x : ptr) (s : list ptr) : list ptr :=
  match s with
  | [] => [x]
  | y :: s' =>
      if x <? y then x :: y :: s'
      else if y <? x then y :: set_insert x s'
      else y :: s'
  end.

(** ** Frame stamps and events *)

Record FrameStamp := mkFrameStamp { time : Z; frameCount : Z }.

(** A [ref_ptr<FrameStamp>] is an index into the heap of frame stamps
    allocated so far; [None] is the null [ref_ptr]. *)
Definition stamp_ref := option nat.

Inductive Event :=
| FrameEvent (frameStamp : stamp_ref)
| UIEvent (payload : Z).

(** ** Windows

    [vsg::Window] is an abstract class implemented per platform; the viewer
    uses it through the member functions below. *)

Class WindowOps (W : Type) := {
  valid : W -> bool;
  visible : W -> bool;
  getDevice : W -> ptr;                          (* VkDevice handle, or nullptr *)
  window_pollEvents : W -> list Event -> bool * list Event * W;
  acquireNextImage : W -> VkResult * W;
  resize : W -> W
}.

(** ** Command graphs, tasks, presentations *)

Record CommandGraph := mkCommandGraph {
  cg_id : ptr;                (* address of the CommandGraph object *)
  _device : ptr;              (* ref_ptr<Device> *)
  _queueFamily : Z;           (* int *)
  _presentFamily : Z;         (* int *)
  window : ptr                (* Window* *)
}.

(** [device->getQueue(family)] *)
Record Queue := mkQueue { q_device : ptr; q_family : Z }.
Definition getQueue (device : ptr) (family : Z) : Queue := mkQueue device family.

Record RecordAndSubmitTask := mkTask {
  task_id : nat;                      (* identity of the created object *)
  task_device : ptr;
  commandGraphs : list CommandGraph;
  signalSemaphores : list nat;
  databasePager : option nat;         (* DatabasePager*, null when absent *)
  task_windows : list ptr;
  task_queue : Queue
}.

Record Presentation := mkPresentation {
  pres_id : nat;
  waitSemaphores : list nat;
  pres_windows : list ptr;
  pres_queue : Queue
}.

(** ** Synchronisation objects *)

(** Modelled from the spec: Barrier.h is not among the sources.  A barrier
    is [{ required; arrived; generation }]; [Barrier::create n] fixes
    [required] at construction. *)
Record Barrier := mkBarrier {
  barrier_id : nat;
  required : Z;
  arrived : Z;
  generation : Z
}.

Definition Barrier_create (id : nat) (num : Z) : Barrier :=
  mkBarrier id num 0 0.

(** Modelled from the spec: Barrier.h is not among the sources.  An arrival
    increments the counter; the arrival that makes it equal to [required]
    releases the waiters: the counter is reset and the generation advances. *)
Definition arrive (b : Barrier) : Barrier :=
  if arrived b + 1 =? required b
  then mkBarrier (barrier_id b) (required b) 0 (generation b + 1)
  else mkBarrier (barrier_id b) (required b) (arrived b + 1) (generation b).

(** Modelled from the spec: FrameBlock.h is not among the sources.  A frame
    block holds the most recently published frame stamp and shares the
    viewer's ActivityStatus. *)
Record FrameBlock := mkFrameBlock {
  fb_id : nat;
  fb_value : stamp_ref
}.

Definition FrameBlock_create (id : nat) : FrameBlock := mkFrameBlock id None.
Definition initial_value (fb : FrameBlock) : stamp_ref := None.

(** The [SharedData] struct local to [setupThreading]. *)
Record SharedData := mkSharedData {
  sd_task : RecordAndSubmitTask;
  sd_frameBlock : FrameBlock;
  sd_submissionCompletedBarrier : Barrier;
  sd_recordStartBarrier : Barrier;
  sd_recordCompletedBarrier : Barrier
}.

(** A [std::thread]: the lambda it runs and the arguments it was given. *)
Inductive Thread :=
| run (viewer_task : RecordAndSubmitTask) (viewer_frameBlock : FrameBlock)
      (submissionCompleted : Barrier)
| run_primary (data : SharedData) (commandGraph : CommandGraph)
| run_secondary (data : SharedData) (commandGraph : CommandGraph).

Definition is_primary (t : Thread) : bool :=
  match t with run_primary _ _ => true | _ => false end.
Definition is_secondary (t : Thread) : bool :=
  match t with run_secondary _ _ => true | _ => false end.
Definition is_run (t : Thread) : bool :=
  match t with run _ _ _ => true | _ => false end.

(** ** Calls that leave the viewer *)

Inductive Call :=
| vkDeviceWaitIdle (device : ptr)
| Warning_acquireNextImage (result : VkResult)
| FrameBlock_set (fb : nat) (frameStamp : stamp_ref)
| FrameBlock_wake (fb : nat)
| Barrier_arrive_and_wait (b : nat)
| Thread_join (t : Thread)
| Task_submit (task : nat) (frameStamp : stamp_ref)
| Presentation_present (p : nat)
| Pager_updateSceneGraph (pager : nat) (frameStamp : stamp_ref)
| Pager_start (pager : nat)
| Pager_assign_compileTraversal (pager : nat) (compile : nat)
| CommandGraph_accept_collectStats (cg : ptr) (device : ptr)
| CommandGraph_accept_compile (cg : ptr) (compile : nat)
| CompileTraversal_create (compile : nat) (device : ptr)
| Context_dispatch (compile : nat)
| Context_waitForCompletion (compile : nat)
| cout_setupThreading
| cout_stopThreading.

(** ** Streaming pagers

    A [DatabasePager] lives outside the viewer and is reached through a raw
    pointer that several tasks may share, so pagers are kept in a store. *)

Record DatabasePager := mkPager {
  compileTraversal : option nat;      (* ref_ptr<CompileTraversal> *)
  pager_started : bool
}.

(** ** The key of [assignRecordAndSubmitTaskAndPresentation]'s map *)

Record DeviceQueueFamily := mkDeviceQueueFamily {
  device : ptr;
  queueFamily : Z;
  presentFamily : Z
}.

(** [DeviceQueueFamily::operator<] *)
Definition dqf_lt (lhs rhs : DeviceQueueFamily) : bool :=
  if device lhs <? device rhs then true
  else if device lhs >? device rhs then false
  else if queueFamily lhs <? queueFamily rhs then true
  else if queueFamily lhs >? queueFamily rhs then false
  else presentFamily lhs <? presentFamily rhs.

Definition key_of (commandGraph : CommandGraph) : DeviceQueueFamily :=
  mkDeviceQueueFamily (_device commandGraph) (_queueFamily commandGraph)
                      (_presentFamily commandGraph).

(** [std::map<DeviceQueueFamily, CommandGraphs>]: entries in increasing key
    order.  [map[key].emplace_back(cg)] finds the entry whose key is
    equivalent to [key] (neither is less than the other) or inserts an
    empty one at its place in the order, and appends to it. *)
Definition CommandGraphsMap := list (DeviceQueueFamily * list CommandGraph).

Fixpoint map_emplace_back (key : DeviceQueueFamily) (cg : CommandGraph)
         (m : CommandGraphsMap) : CommandGraphsMap :=
  match m with
  | [] => [(key, [cg])]
  | (k, group) :: m' =>
      if dqf_lt key k then (key, [cg]) :: (k, group) :: m'
      else if dqf_lt k key then (k, group) :: map_emplace_back key cg m'
      else (k, group ++ [cg]) :: m'
  end.

(** Lines 287-291: the input command graphs placed into their groups. *)
Definition deviceCommandGraphsMap (in_commandGraphs : list CommandGraph)
  : CommandGraphsMap :=
  fold_left (fun m commandGraph =>
               map_emplace_back (key_of commandGraph) commandGraph m)
            in_commandGraphs [].

(** [std::set<Window*> uniqueWindows] of a group, as the [Windows] vector. *)
Definition uniqueWindows (commandGraphs : list CommandGraph) : list ptr :=
  fold_left (fun s commandGraph => set_insert (window commandGraph) s)
            commandGraphs [].

(** ** The map of [compile]: [std::map<vsg::Device*, DeviceResources>] *)

Record DeviceResources := mkDeviceResources {
  collectStats : list ptr;          (* command graphs the statistics visited *)
  dr_compile : option nat           (* ref_ptr<CompileTraversal> *)
}.

Definition DeviceResourceMap := list (ptr * DeviceResources).

(** [deviceResourceMap[device]] followed by an update [f] of the entry; a
    missing entry is default-constructed first. *)
Fixpoint drm_update (dev : ptr) (f : DeviceResources -> DeviceResources)
         (m : DeviceResourceMap) : DeviceResourceMap :=
  match m with
  | [] => [(dev, f (mkDeviceResources [] None))]
  | (d, r) :: m' =>
      if dev <? d then (dev, f (mkDeviceResources [] None)) :: (d, r) :: m'
      else if d <? dev then (d, r) :: drm_update dev f m'
      else (d, f r) :: m'
  end.

Fixpoint drm_lookup (dev : ptr) (m : DeviceResourceMap) : option DeviceResources :=
  match m with
  | [] => None
  | (d, r) :: m' => if d =? dev then Some r else drm_lookup dev m'
  end.

(** ** Counting the tasks and command graphs (lines 344-351) *)

Definition count_tasks (tasks : list RecordAndSubmitTask) : Z * Z :=
  fold_left (fun '(numValidTasks, numCommandGraphs) task =>
               (if 1 <=? size (commandGraphs task)
                then wrap32 (numValidTasks + 1) else numValidTasks,
                wrap32 (numCommandGraphs + size (commandGraphs task))))
            tasks (0, 0).

(** Lines 464-468: one thread per command graph of a multi-graph task.  The
    index is a [uint32_t], so the loop ends exactly when the vector has
    fewer than 2^32 elements; it then tests its condition [size + 1] times,
    which is the fuel it is run with (see [spawn_loop_diverges]). *)
Fixpoint spawn_loop (fuel : nat) (i : Z) (sharedData : SharedData)
         (cgs : list CommandGraph) (threads : list Thread) : option (list Thread) :=
  match fuel with
  | O => None
  | S fuel =>
      if i <? size cgs then
        cg ← cgs !! Z.to_nat i;
        spawn_loop fuel (wrap32 (i + 1)) sharedData cgs
                   (threads ++ [if i =? 0 then run_primary sharedData cg
                                else run_secondary sharedData cg])
      else Some threads
  end.

(** [SharedData::create(task, frameBlock, submissionCompleted, numThreads)];
    [numThreads] is a [uint32_t] parameter. *)
Definition SharedData_create (id : nat) (task : RecordAndSubmitTask)
           (frameBlock : FrameBlock) (submissionCompleted : Barrier)
           (numThreads : Z) : SharedData :=
  mkSharedData task frameBlock submissionCompleted
               (Barrier_create id (wrap32 numThreads))
               (Barrier_create (S id) (wrap32 numThreads)).

(** Lines 365-470: the threads of one task, appended to [threads];
    [next] is the next free object identity. *)
Definition spawn_task (frameBlock : FrameBlock) (submissionCompleted : Barrier)
           (task : RecordAndSubmitTask) (next : nat) (threads : list Thread)
  : option (nat * list Thread) :=
  if size (commandGraphs task) =? 1 then
    Some (next, threads ++ [run task frameBlock submissionCompleted])
  else if 1 <=? size (commandGraphs task) then
    let sharedData :=
      SharedData_create next task frameBlock submissionCompleted
                        (size (commandGraphs task)) in
    threads ← spawn_loop (S (length (commandGraphs task))) 0 sharedData
                         (commandGraphs task) threads;
    Some ((2 + next)%nat, threads)
  else Some (next, threads).

Fixpoint spawn_tasks (frameBlock : FrameBlock) (submissionCompleted : Barrier)
         (tasks : list RecordAndSubmitTask) (next : nat) (threads : list Thread)
  : option (nat * list Thread) :=
  match tasks with
  | [] => Some (next, threads)
  | task :: tasks =>
      '(next, threads) ← spawn_task frameBlock submissionCompleted task next threads;
      spawn_tasks frameBlock submissionCompleted tasks next threads
  end.

(** Lines 193-200 of [compile]: every command graph is visited by the
    statistics collector of its device. *)
Definition collect_task (st : DeviceResourceMap * list Call)
           (task : RecordAndSubmitTask) : DeviceResourceMap * list Call :=
  fold_left (fun '(m, l) commandGraph =>
               (drm_update (_device commandGraph)
                  (fun r => mkDeviceResources
                              (collectStats r ++ [cg_id commandGraph]) (dr_compile r))
                  m,
                l ++ [CommandGraph_accept_collectStats (cg_id commandGraph)
                                                       (_device commandGraph)]))
            (commandGraphs task) st.

Definition collect_devices (tasks : list RecordAndSubmitTask)
  : DeviceResourceMap * list Call :=
  fold_left collect_task tasks ([], []).

(** Lines 203-218: a [CompileTraversal] is created for every device of the
    map, in key order.  [device->getPhysicalDevice()] on a null key is a
    null dereference: [None]. *)
Fixpoint allocate_compile (m : DeviceResourceMap) (next : nat)
  : option (DeviceResourceMap * nat * list Call) :=
  match m with
  | [] => Some ([], next, [])
  | (dev, r) :: m' =>
      if dev =? nullptr then None
      else
        '(m', next', l) ← allocate_compile m' (S next);
        Some ((dev, mkDeviceResources (collectStats r) (Some next)) :: m',
              next', CompileTraversal_create next dev :: l)
  end.

(** Lines 225-232: the command graphs of a task are compiled with the
    traversal of their device. *)
Fixpoint compile_graphs (m : DeviceResourceMap) (cgs : list CommandGraph)
  : option (list Call) :=
  match cgs with
  | [] => Some []
  | commandGraph :: cgs =>
      deviceResource ← drm_lookup (_device commandGraph) m;
      compile ← dr_compile deviceResource;
      l ← compile_graphs m cgs;
      Some (CommandGraph_accept_compile (cg_id commandGraph) compile :: l)
  end.

(** Lines 234-243: the loop that breaks after its first iteration. *)
Definition pager_compileTraversal (m : DeviceResourceMap) (cgs : list CommandGraph)
  : option (option nat) :=
  match cgs with
  | [] => Some None
  | commandGraph :: _ =>
      deviceResource ← drm_lookup (_device commandGraph) m;
      Some (dr_compile deviceResource)
  end.

(** ** The thread topology in closed form *)

Fixpoint total_command_graphs (tasks : list RecordAndSubmitTask) : Z :=
  match tasks with
  | [] => 0
  | task :: tasks => size (commandGraphs task) + total_command_graphs tasks
  end.

Fixpoint valid_task_count (tasks : list RecordAndSubmitTask) : Z :=
  match tasks with
  | [] => 0
  | task :: tasks =>
      (if 1 <=? size (commandGraphs task) then 1 else 0) + valid_task_count tasks
  end.

(** The threads [spawn_task] adds for one task. *)
Definition task_threads (frameBlock : FrameBlock) (submissionCompleted : Barrier)
           (next : nat) (task : RecordAndSubmitTask) : list Thread :=
  match commandGraphs task with
  | [] => []
  | [_] => [run task frameBlock submissionCompleted]
  | cg0 :: rest =>
      let sharedData :=
        SharedData_create next task frameBlock submissionCompleted
                          (size (commandGraphs task)) in
      run_primary sharedData cg0 :: map (run_secondary sharedData) rest
  end.

Definition next_after (next : nat) (task : RecordAndSubmitTask) : nat :=
  match commandGraphs task with
  | _ :: _ :: _ => (2 + next)%nat
  | _ => next
  end.

Fixpoint tasks_threads (frameBlock : FrameBlock) (submissionCompleted : Barrier)
         (next : nat) (tasks : list RecordAndSubmitTask) : list Thread :=
  match tasks with
  | [] => []
  | task :: tasks =>
      task_threads frameBlock submissionCompleted next task ++
      tasks_threads frameBlock submissionCompleted (next_after next task) tasks
  end.

(** ** The thread topology as the specification words it

    A task shape is the number of command graphs of the task.  Fewer than
    two command graphs in total: no threads.  Otherwise a task with one
    command graph gets one thread, a task with K >= 2 gets one primary and
    K - 1 secondary threads, and a task without command graphs gets none. *)

Inductive ThreadKind := SingleThread | PrimaryThread | SecondaryThread.

Definition kind (t : Thread) : ThreadKind :=
  match t with
  | run _ _ _ => SingleThread
  | run_primary _ _ => PrimaryThread
  | run_secondary _ _ => SecondaryThread
  end.

Definition shape (task : RecordAndSubmitTask) : nat := length (commandGraphs task).

Definition shape_threads (k : nat) : list ThreadKind :=
  match k with
  | O => []
  | S O => [SingleThread]
  | S (S k') => PrimaryThread :: repeat SecondaryThread (S k')
  end.

Definition topology (shapes : list nat) : list ThreadKind :=
  if (list_sum shapes <=? 1)%nat then [] else flat_map shape_threads shapes.

(** ** The outcome of [assignRecordAndSubmitTaskAndPresentation], per group *)

#[export] Instance DeviceQueueFamily_eq_dec : EqDecision DeviceQueueFamily.
Proof. solve_decision. Defined.

(** The group of a key, or nothing when the map has no such key. *)
Fixpoint group_at (key : DeviceQueueFamily) (m : CommandGraphsMap) : list CommandGraph :=
  match m with
  | [] => []
  | (k, group) :: m' => if decide (k = key) then group else group_at key m'
  end.

(** The map is in strictly increasing key order. *)
Definition key_sorted (m : CommandGraphsMap) : Prop :=
  StronglySorted (fun e1 e2 => dqf_lt e1.1 e2.1 = true) m.

(** The command graphs of [cgs] with a given key, in their order in [cgs]. *)
Definition with_key (key : DeviceQueueFamily) (cgs : list CommandGraph)
  : list CommandGraph :=
  List.filter (fun cg => bool_decide (key_of cg = key)) cgs.

(** How a group of the map is served by a task and, possibly, a
    presentation: the task owns the group's command graphs on the group's
    device and queue; a group with a present family has a presentation
    that waits on the one semaphore the task signals and presents the
    task's windows on the present queue; a group without has none. *)
Definition served (pager : option nat)
           (entry : DeviceQueueFamily * list CommandGraph)
           (obj : RecordAndSubmitTask * option Presentation) : Prop :=
  let '(key, group) := entry in
  let '(task, presentation) := obj in
  commandGraphs task = group /\
  task_device task = device key /\
  task_queue task = getQueue (device key) (queueFamily key) /\
  databasePager task = pager /\
  match presentation with
  | Some p =>
      0 <= presentFamily key /\
      (exists renderFinished, signalSemaphores task = [renderFinished] /\
                              waitSemaphores p = [renderFinished]) /\
      task_windows task = uniqueWindows group /\
      pres_windows p = task_windows task /\
      pres_queue p = getQueue (device key) (presentFamily key)
  | None =>
      presentFamily key < 0 /\ signalSemaphores task = [] /\ task_windows task = []
  end.

(** The task and the presentation created for each group, when the first
    free object identity is [next]. *)
Fixpoint group_objects (databasePager : option nat) (next : nat) (m : CommandGraphsMap)
  : list (RecordAndSubmitTask * option Presentation) :=
  match m with
  | [] => []
  | (key, group) :: m' =>
      if 0 <=? presentFamily key then
        (mkTask (1 + next) (device key) group [next] databasePager
                (uniqueWindows group) (getQueue (device key) (queueFamily key)),
         Some (mkPresentation (2 + next) [next] (uniqueWindows group)
                              (getQueue (device key) (presentFamily key))))
          :: group_objects databasePager (3 + next) m'
      else
        (mkTask next (device key) group [] databasePager []
                (getQueue (device key) (queueFamily key)),
         None)
          :: group_objects databasePager (1 + next) m'
  end.

(** The claim as the specification words it: command graphs that share a
    device and a queue family are owned by one task. *)
Definition one_task_per_device_queue (cgs : list CommandGraph)
           (tasks : list RecordAndSubmitTask) : Prop :=
  forall cg1 cg2,
    In cg1 cgs -> In cg2 cgs ->
    _device cg1 = _device cg2 -> _queueFamily cg1 = _queueFamily cg2 ->
    exists task, In task tasks /\
                 In cg1 (commandGraphs task) /\ In cg2 (commandGraphs task).

(** ** Reading the outcome of [compile] *)

(** The [CompileTraversal] of a device in the device resource map. *)
Definition ct_of (m : DeviceResourceMap) (dev : ptr) : option nat :=
  drm_lookup dev m ≫= dr_compile.

(** The assignments to [databasePager->compileTraversal] found in a call
    log, oldest first, as pairs (pager, traversal). *)
Definition pager_assignments (l : list Call) : list (nat * nat) :=
  omap (fun c => match c with
                 | Pager_assign_compileTraversal pager compile => Some (pager, compile)
                 | _ => None
                 end) l.

(** The one assignment [compile] makes for a task: its pager, if it has
    one, gets the traversal of the device of its first command graph. *)
Definition first_device_assignment (m : DeviceResourceMap) (task : RecordAndSubmitTask)
  : list (nat * nat) :=
  match databasePager task, commandGraphs task with
  | Some pager, commandGraph :: _ =>
      match ct_of m (_device commandGraph) with
      | Some compile => [(pager, compile)]
      | None => []
      end
  | _, _ => []
  end.

(** The pager store after a sequence of assignments. *)
Definition assign_pager (ps : gmap nat DatabasePager) (a : nat * nat)
  : gmap nat DatabasePager :=
  alter (fun p => mkPager (Some a.2) (pager_started p)) a.1 ps.

(** The [CompileTraversal]s created in a call log, oldest first, as pairs
    (device, traversal). *)
Definition traversal_creations (l : list Call) : list (ptr * nat) :=
  omap (fun c => match c with
                 | CompileTraversal_create compile device => Some (device, compile)
                 | _ => None
                 end) l.

(** The traversal created for a device, in a list of creations. *)
Fixpoint traversal_of (created : list (ptr * nat)) (device : ptr) : option nat :=
  match created with
  | [] => None
  | (d, compile) :: created =>
      if d =? device then Some compile else traversal_of created device
  end.

(** The one assignment [compile] makes for a task, read from the
    creations: its pager, if it has one, gets the traversal created for
    the device of its first command graph. *)
Definition first_device_traversal (created : list (ptr * nat))
           (task : RecordAndSubmitTask) : list (nat * nat) :=
  match databasePager task, commandGraphs task with
  | Some pager, commandGraph :: _ =>
      match traversal_of created (_device commandGraph) with
      | Some compile => [(pager, compile)]
      | None => []
      end
  | _, _ => []
  end.

(** The claim as the specification words it: the traversal of a device
    that a task with a pager touches besides the device of its first
    command graph is never assigned to the pager. *)
Definition other_devices_never_assigned (tasks : list RecordAndSubmitTask)
           (created : list (ptr * nat)) (assigned : list (nat * nat)) : Prop :=
  forall task pager cg rest cg' ct',
    In task tasks -> databasePager task = Some pager ->
    commandGraphs task = cg :: rest ->
    In cg' rest -> _device cg' <> _device cg ->
    In (_device cg', ct') created ->
    ~ In (pager, ct') assigned.

(** ** A window driven by a script

    A concrete window for running the viewer: [acquireNextImage] returns the
    results of [sw_results] one after the other and succeeds once the
    script is used up; [pollEvents] hands over the buffered events. *)

Record ScriptedWindow := mkScriptedWindow {
  sw_valid : bool;
  sw_visible : bool;
  sw_device : ptr;
  sw_buffered : list Event;
  sw_results : list VkResult;
  sw_resizes : nat
}.

#[export] Instance ScriptedWindow_ops : WindowOps ScriptedWindow := {|
  valid := sw_valid;
  visible := sw_visible;
  getDevice := sw_device;
  window_pollEvents w events :=
    (negb (bool_decide (sw_buffered w = [])) , events ++ sw_buffered w,
     mkScriptedWindow (sw_valid w) (sw_visible w) (sw_device w) []
                      (sw_results w) (sw_resizes w));
  acquireNextImage w :=
    (hd VK_SUCCESS (sw_results w),
     mkScriptedWindow (sw_valid w) (sw_visible w) (sw_device w) (sw_buffered w)
                      (tl (sw_results w)) (sw_resizes w));
  resize w :=
    mkScriptedWindow (sw_valid w) (sw_visible w) (sw_device w) (sw_buffered w)
                     (sw_results w) (S (sw_resizes w))
|}.

(** ** The viewer *)

Section Viewer.

Context {W : Type} `{WindowOps W}.

(** Width in bits of [FrameStamp::frameCount]; FrameStamp.h is not among
    the sources and the specification only says "unsigned integer". *)
Variable frameCount_bits : Z.

Record Viewer := mkViewer {
  _close : bool;
  _status : bool;                     (* the shared ActivityStatus flag *)
  _windows : list W;
  _events : list Event;
  _frameStamp : stamp_ref;
  stamps : list FrameStamp;           (* heap of FrameStamp objects *)
  recordAndSubmitTasks : list RecordAndSubmitTask;
  presentations : list Presentation;
  _threading : bool;
  _frameBlock : option FrameBlock;
  _submissionCompleted : option Barrier;
  threads : list Thread;
  pagers : gmap nat DatabasePager;    (* heap of DatabasePager objects *)
  next_object : nat;                  (* next identity handed out by create() *)
  calls : list Call                   (* calls made so far, oldest first *)
}.

Definition set_close (x : bool) (v : Viewer) : Viewer :=
  mkViewer x (_status v) (_windows v) (_events v) (_frameStamp v) (stamps v)
    (recordAndSubmitTasks v) (presentations v) (_threading v) (_frameBlock v)
    (_submissionCompleted v) (threads v) (pagers v) (next_object v) (calls v).
Definition set_status (x : bool) (v : Viewer) : Viewer :=
  mkViewer (_close v) x (_windows v) (_events v) (_frameStamp v) (stamps v)
    (recordAndSubmitTasks v) (presentations v) (_threading v) (_frameBlock v)
    (_submissionCompleted v) (threads v) (pagers v) (next_object v) (calls v).
Definition set_windows (x : list W) (v : Viewer) : Viewer :=
  mkViewer (_close v) (_status v) x (_events v) (_frameStamp v) (stamps v)
    (recordAndSubmitTasks v) (presentations v) (_threading v) (_frameBlock v)
    (_submissionCompleted v) (threads v) (pagers v) (next_object v) (calls v).
Definition set_events (x : list Event) (v : Viewer) : Viewer :=
  mkViewer (_close v) (_status v) (_windows v) x (_frameStamp v) (stamps v)
    (recordAndSubmitTasks v) (presentations v) (_threading v) (_frameBlock v)
    (_submissionCompleted v) (threads v) (pagers v) (next_object v) (calls v).
Definition set_frameStamp (x : stamp_ref) (v : Viewer) : Viewer :=
  mkViewer (_close v) (_status v) (_windows v) (_events v) x (stamps v)
    (recordAndSubmitTasks v) (presentations v) (_threading v) (_frameBlock v)
    (_submissionCompleted v) (threads v) (pagers v) (next_object v) (calls v).
Definition set_stamps (x : list FrameStamp) (v : Viewer) : Viewer :=
  mkViewer (_close v) (_status v) (_windows v) (_events v) (_frameStamp v) x
    (recordAndSubmitTasks v) (presentations v) (_threading v) (_frameBlock v)
    (_submissionCompleted v) (threads v) (pagers v) (next_object v) (calls v).
Definition set_recordAndSubmitTasks (x : list RecordAndSubmitTask) (v : Viewer) : Viewer :=
  mkViewer (_close v) (_status v) (_windows v) (_events v) (_frameStamp v)
    (stamps v) x (presentations v) (_threading v) (_frameBlock v)
    (_submissionCompleted v) (threads v) (pagers v) (next_object v) (calls v).
Definition set_presentations (x : list Presentation) (v : Viewer) : Viewer :=
  mkViewer (_close v) (_status v) (_windows v) (_events v) (_frameStamp v)
    (stamps v) (recordAndSubmitTasks v) x (_threading v) (_frameBlock v)
    (_submissionCompleted v) (threads v) (pagers v) (next_object v) (calls v).
Definition set_threading (x : bool) (v : Viewer) : Viewer :=
  mkViewer (_close v) (_status v) (_windows v) (_events v) (_frameStamp v)
    (stamps v) (recordAndSubmitTasks v) (presentations v) x (_frameBlock v)
    (_submissionCompleted v) (threads v) (pagers v) (next_object v) (calls v).
Definition set_frameBlock (x : option FrameBlock) (v : Viewer) : Viewer :=
  mkViewer (_close v) (_status v) (_windows v) (_events v) (_frameStamp v)
    (stamps v) (recordAndSubmitTasks v) (presentations v) (_threading v) x
    (_submissionCompleted v) (threads v) (pagers v) (next_object v) (calls v).
Definition set_submissionCompleted (x : option Barrier) (v : Viewer) : Viewer :=
  mkViewer (_close v) (_status v) (_windows v) (_events v) (_frameStamp v)
    (stamps v) (recordAndSubmitTasks v) (presentations v) (_threading v)
    (_frameBlock v) x (threads v) (pagers v) (next_object v) (calls v).
Definition set_threads (x : list Thread) (v : Viewer) : Viewer :=
  mkViewer (_close v) (_status v) (_windows v) (_events v) (_frameStamp v)
    (stamps v) (recordAndSubmitTasks v) (presentations v) (_threading v)
    (_frameBlock v) (_submissionCompleted v) x (pagers v) (next_object v)
    (calls v).
Definition set_pagers (x : gmap nat DatabasePager) (v : Viewer) : Viewer :=
  mkViewer (_close v) (_status v) (_windows v) (_events v) (_frameStamp v)
    (stamps v) (recordAndSubmitTasks v) (presentations v) (_threading v)
    (_frameBlock v) (_submissionCompleted v) (threads v) x (next_object v)
    (calls v).
Definition set_next_object (x : nat) (v : Viewer) : Viewer :=
  mkViewer (_close v) (_status v) (_windows v) (_events v) (_frameStamp v)
    (stamps v) (recordAndSubmitTasks v) (presentations v) (_threading v)
    (_frameBlock v) (_submissionCompleted v) (threads v) (pagers v) x (calls v).
Definition set_calls (x : list Call) (v : Viewer) : Viewer :=
  mkViewer (_close v) (_status v) (_windows v) (_events v) (_frameStamp v)
    (stamps v) (recordAndSubmitTasks v) (presentations v) (_threading v)
    (_frameBlock v) (_submissionCompleted v) (threads v) (pagers v)
    (next_object v) x.

Definition log (c : list Call) (v : Viewer) : Viewer :=
  set_calls (calls v ++ c) v.

(** [Viewer::Viewer()]: the status is created active. *)
Definition Viewer_new : Viewer :=
  mkViewer false true [] [] None [] [] [] false None None [] ∅ 0%nat [].

(** [Viewer::deviceWaitIdle] *)
Definition deviceWaitIdle (v : Viewer) : Viewer :=
  let devices :=
    fold_left (fun devices window =>
                 if getDevice window =? nullptr then devices
                 else set_insert (getDevice window) devices)
              (_windows v) [] in
  log (map vkDeviceWaitIdle devices) v.

(** [Viewer::addWindow] *)
Definition addWindow (window : W) (v : Viewer) : Viewer :=
  set_windows (_windows v ++ [window]) v.

(** [Viewer::stopThreading] *)
Definition stopThreading (v : Viewer) : Viewer :=
  if negb (_threading v) then v
  else
    let v := set_threading false v in
    let v := log [cout_stopThreading] v in
    let v := set_status false v in
    let v := log (match _frameBlock v with
                  | Some fb => [FrameBlock_wake (fb_id fb)]
                  | None => []
                  end) v in
    let v := log (map Thread_join (threads v)) v in
    set_threads [] v.

(** [Viewer::close] *)
Definition close (v : Viewer) : Viewer :=
  let v := set_close true v in
  let v := set_status false v in
  stopThreading v.

(** [Viewer::active] *)
Definition active (v : Viewer) : bool * Viewer :=
  let viewerIsActive := negb (_close v) in
  let viewerIsActive :=
    if viewerIsActive
    then fold_left (fun act window => if negb (valid window) then false else act)
                   (_windows v) viewerIsActive
    else viewerIsActive in
  if negb viewerIsActive then (false, deviceWaitIdle v) else (true, v).

(** The loop of [Viewer::pollEvents] over the windows. *)
Fixpoint pollEvents_windows (ws : list W) (events : list Event) (result : bool)
  : bool * list Event * list W :=
  match ws with
  | [] => (result, events, [])
  | window :: ws' =>
      let '(r, events, window) := window_pollEvents window events in
      let result := if r then true else result in
      let '(result, events, ws') := pollEvents_windows ws' events result in
      (result, events, window :: ws')
  end.

(** [Viewer::pollEvents] *)
Definition pollEvents (discardPreviousEvents : bool) (v : Viewer) : bool * Viewer :=
  let events := if discardPreviousEvents then [] else _events v in
  let '(result, events, ws) := pollEvents_windows (_windows v) events false in
  (result, set_windows ws (set_events events v)).

(** [new vsg::FrameStamp(time, frameCount)], then the assignment to
    [_frameStamp] and the [FrameEvent] pushed for it. *)
Definition new_FrameStamp (now count : Z) (v : Viewer) : Viewer :=
  let ref := Some (length (stamps v)) in
  let v := set_stamps (stamps v ++ [mkFrameStamp now count]) v in
  set_frameStamp ref v.

(** [_frameStamp->frameCount + 1] in the width of [frameCount]. *)
Definition next_frameCount (prev : FrameStamp) : Z :=
  (frameCount prev + 1) mod 2 ^ frameCount_bits.

(** Lines 107-112 and 124-129: the stamp and the event of the new frame.
    A non-null [ref_ptr] always points to a live stamp; the model leaves
    the viewer unchanged on a dangling one, which [Reachable] excludes. *)
Definition stamp_frame (now : Z) (v : Viewer) : Viewer :=
  let v :=
    match _frameStamp v with
    | Some a =>
        match stamps v !! a with
        | Some prev => new_FrameStamp now (next_frameCount prev) v
        | None => v
        end
    | None => new_FrameStamp now 0 v
    end in
  set_events (_events v ++ [FrameEvent (_frameStamp v)]) v.

(** [Viewer::advance]; [now] is the value read from [vsg::clock::now()]. *)
Definition advance (now : Z) (v : Viewer) : Viewer :=
  let '(_, v) := pollEvents true v in
  stamp_frame now v.

(** The [while] loop of [Viewer::acquireNextFrame] for one window.  The
    loop has no bound of its own; [None] is "still looping after [fuel]
    acquires". *)
Fixpoint acquire_loop (fuel : nat) (window : W) (warnings : list Call)
  : option (VkResult * W * list Call) :=
  match fuel with
  | O => None
  | S fuel =>
      let '(result, window) := acquireNextImage window in
      if result =? VK_SUCCESS then Some (result, window, warnings)
      else if recoverable result then acquire_loop fuel (resize window) warnings
      else Some (result, window, warnings ++ [Warning_acquireNextImage result])
  end.

(** The [for] loop of [Viewer::acquireNextFrame] over the windows. *)
Fixpoint acquire_windows (fuel : nat) (ws : list W) (result : VkResult)
         (warnings : list Call) : option (VkResult * list W * list Call) :=
  match ws with
  | [] => Some (result, [], warnings)
  | window :: ws' =>
      if negb (visible window) then
        '(result, ws', warnings) ← acquire_windows fuel ws' result warnings;
        Some (result, window :: ws', warnings)
      else
        '(result, window, warnings) ← acquire_loop fuel window warnings;
        '(result, ws', warnings) ← acquire_windows fuel ws' result warnings;
        Some (result, window :: ws', warnings)
  end.

(** [Viewer::acquireNextFrame] *)
Definition acquireNextFrame (fuel : nat) (v : Viewer) : option (bool * Viewer) :=
  if _close v then Some (false, v)
  else
    '(result, ws, l) ← acquire_windows fuel (_windows v) VK_SUCCESS [];
    Some (result =? VK_SUCCESS, log l (set_windows ws v)).

(** [Viewer::advanceToNextFrame] *)
Definition advanceToNextFrame (fuel : nat) (now : Z) (v : Viewer)
  : option (bool * Viewer) :=
  let '(act, v) := active v in
  if negb act then Some (false, v)
  else
    let '(_, v) := pollEvents true v in
    '(acquired, v) ← acquireNextFrame fuel v;
    if negb acquired then Some (false, v)
    else Some (true, stamp_frame now v).

(** [Viewer::assignRecordAndSubmitTaskAndPresentation], the body of the loop
    over the groups (lines 294-335).  Every [create] takes a fresh
    identity from [next_object].  Both branches create their objects on
    [device] and call [device->getQueue] before they append anything
    (lines 308, 316 and 332): on a group whose device is null that is a
    null dereference, [None]. *)
Definition assign_group (databasePager : option nat) (v : Viewer)
           (entry : DeviceQueueFamily * list CommandGraph) : option Viewer :=
  let '(deviceQueueFamily, commandGraphs) := entry in
  let device := device deviceQueueFamily in
  if device =? nullptr then None
  else if 0 <=? presentFamily deviceQueueFamily then
    let windows := uniqueWindows commandGraphs in
    let renderFinishedSemaphore := next_object v in
    let recordAndSubmitTask :=
      mkTask (1 + next_object v) device commandGraphs [renderFinishedSemaphore]
             databasePager windows
             (getQueue device (queueFamily deviceQueueFamily)) in
    let presentation :=
      mkPresentation (2 + next_object v) [renderFinishedSemaphore] windows
                     (getQueue device (presentFamily deviceQueueFamily)) in
    Some (set_next_object (3 + next_object v)
            (set_presentations (presentations v ++ [presentation])
               (set_recordAndSubmitTasks
                  (recordAndSubmitTasks v ++ [recordAndSubmitTask]) v)))
  else
    let recordAndSubmitTask :=
      mkTask (next_object v) device commandGraphs [] databasePager []
             (getQueue device (queueFamily deviceQueueFamily)) in
    Some (set_next_object (1 + next_object v)
            (set_recordAndSubmitTasks
               (recordAndSubmitTasks v ++ [recordAndSubmitTask]) v)).

(** The loop over the groups (line 294), in the order of the map; it ends
    at the first group that cannot be served. *)
Fixpoint assign_groups (databasePager : option nat) (m : CommandGraphsMap)
         (v : Viewer) : option Viewer :=
  match m with
  | [] => Some v
  | entry :: m =>
      v ← assign_group databasePager v entry;
      assign_groups databasePager m v
  end.

Definition assignRecordAndSubmitTaskAndPresentation
           (in_commandGraphs : list CommandGraph) (databasePager : option nat)
           (v : Viewer) : option Viewer :=
  assign_groups databasePager (deviceCommandGraphsMap in_commandGraphs) v.

(** [Viewer::setupThreading]; [None] is the case in which the thread
    creation loop of some task never ends. *)
Definition setupThreading (v : Viewer) : option Viewer :=
  let v := log [cout_setupThreading] v in
  let v := stopThreading v in
  let '(numValidTasks, numCommandGraphs) := count_tasks (recordAndSubmitTasks v) in
  if numCommandGraphs <=? 1 then Some v
  else
    let v := set_threading true v in
    let frameBlock := FrameBlock_create (next_object v) in
    let submissionCompleted :=
      Barrier_create (S (next_object v)) (wrap32 (1 + numValidTasks)) in
    let v := set_frameBlock (Some frameBlock) v in
    let v := set_submissionCompleted (Some submissionCompleted) v in
    '(next, threads) ← spawn_tasks frameBlock submissionCompleted
                          (recordAndSubmitTasks v) (2 + next_object v)%nat (threads v);
    Some (set_next_object next (set_threads threads v)).

(** [Viewer::update] *)
Definition update (v : Viewer) : Viewer :=
  fold_left (fun v task =>
               match databasePager task with
               | Some pager => log [Pager_updateSceneGraph pager (_frameStamp v)] v
               | None => v
               end)
            (recordAndSubmitTasks v) v.

(** [Viewer::recordAndSubmit]; [None] is a call through a null
    [_frameBlock] or [_submissionCompleted]. *)
Definition recordAndSubmit (v : Viewer) : option Viewer :=
  if _threading v then
    frameBlock ← _frameBlock v;
    let v := log [FrameBlock_set (fb_id frameBlock) (_frameStamp v)]
                 (set_frameBlock (Some (mkFrameBlock (fb_id frameBlock) (_frameStamp v))) v) in
    submissionCompleted ← _submissionCompleted v;
    Some (log [Barrier_arrive_and_wait (barrier_id submissionCompleted)] v)
  else
    Some (fold_left (fun v recordAndSubmitTask =>
                       log [Task_submit (task_id recordAndSubmitTask) (_frameStamp v)] v)
                    (recordAndSubmitTasks v) v).

(** [Viewer::present] *)
Definition present (v : Viewer) : Viewer :=
  fold_left (fun v presentation => log [Presentation_present (pres_id presentation)] v)
            (presentations v) v.

(** Lines 221-244 of [Viewer::compile] for one task. *)
Definition compile_task (m : DeviceResourceMap) (v : Viewer)
           (task : RecordAndSubmitTask) : option Viewer :=
  l ← compile_graphs m (commandGraphs task);
  let v := log l v in
  match databasePager task with
  | Some pager =>
      assigned ← pager_compileTraversal m (commandGraphs task);
      match assigned with
      | Some compile =>
          Some (log [Pager_assign_compileTraversal pager compile]
                  (set_pagers
                     (alter (fun p => mkPager (Some compile) (pager_started p))
                            pager (pagers v)) v))
      | None => Some v
      end
  | None => Some v
  end.

Fixpoint compile_tasks (m : DeviceResourceMap) (v : Viewer)
         (tasks : list RecordAndSubmitTask) : option Viewer :=
  match tasks with
  | [] => Some v
  | task :: tasks => v ← compile_task m v task; compile_tasks m v tasks
  end.

(** Lines 259-265: the pagers are started. *)
Definition start_pagers (v : Viewer) : Viewer :=
  fold_left (fun v task =>
               match databasePager task with
               | Some pager =>
                   log [Pager_start pager]
                     (set_pagers
                        (alter (fun p => mkPager (compileTraversal p) true)
                               pager (pagers v)) v)
               | None => v
               end)
            (recordAndSubmitTasks v) v.

(** [Viewer::compile].  Descriptor statistics, descriptor pools and the
    transfers themselves belong to the collaborators and show up as calls. *)
Definition compile (v : Viewer) : option Viewer :=
  if bool_decide (recordAndSubmitTasks v = []) then Some v
  else
    let '(deviceResourceMap, l) := collect_devices (recordAndSubmitTasks v) in
    let v := log l v in
    '(deviceResourceMap, next, l) ← allocate_compile deviceResourceMap (next_object v);
    let v := log l (set_next_object next v) in
    v ← compile_tasks deviceResourceMap v (recordAndSubmitTasks v);
    let compiles := omap (fun dp => dr_compile dp.2) deviceResourceMap in
    let v := log (map Context_dispatch compiles) v in
    let v := log (map Context_waitForCompletion compiles) v in
    Some (start_pagers v).

(** ** Reachable viewer states

    The states a viewer goes through when it is constructed and then
    driven through its member functions, while the window system changes
    the windows and the application its pagers behind its back. *)

Inductive Reachable : Viewer -> Prop :=
| reach_new : Reachable Viewer_new
| reach_windows v ws : Reachable v -> Reachable (set_windows ws v)
| reach_addWindow v w : Reachable v -> Reachable (addWindow w v)
| reach_close v : Reachable v -> Reachable (close v)
| reach_active v : Reachable v -> Reachable (active v).2
| reach_pollEvents v d : Reachable v -> Reachable (pollEvents d v).2
| reach_advance v now : Reachable v -> Reachable (advance now v)
| reach_advanceToNextFrame v fuel now r v' :
    Reachable v -> advanceToNextFrame fuel now v = Some (r, v') ->
    Reachable v'
| reach_acquireNextFrame v fuel r v' :
    Reachable v -> acquireNextFrame fuel v = Some (r, v') -> Reachable v'
| reach_assign v cgs pager v' :
    Reachable v -> assignRecordAndSubmitTaskAndPresentation cgs pager v = Some v' ->
    Reachable v'
| reach_compile v v' : Reachable v -> compile v = Some v' -> Reachable v'
| reach_setupThreading v v' : Reachable v -> setupThreading v = Some v' -> Reachable v'
| reach_stopThreading v : Reachable v -> Reachable (stopThreading v)
| reach_update v : Reachable v -> Reachable (update v)
| reach_recordAndSubmit v v' : Reachable v -> recordAndSubmit v = Some v' -> Reachable v'
| reach_present v : Reachable v -> Reachable (present v)
| reach_pagers v ps : Reachable v -> Reachable (set_pagers ps v).

(** The part of the state that belongs to a threading session. *)
Definition session (v : Viewer) :=
  (_threading v, threads v, _frameBlock v, _submissionCompleted v).

(** While a session is on, the frame block and the barrier exist; while
    none is on, no thread exists. *)
Definition session_ok (v : Viewer) : Prop :=
  if _threading v
  then is_Some (_frameBlock v) /\ is_Some (_submissionCompleted v)
  else threads v = [].

(** What [advance] works on: the current stamp and the heap of stamps. *)
Definition frame_state (v : Viewer) := (_frameStamp v, stamps v).

(** What a new frame looks like from the state [v0] before it: a stamp at
    a fresh address holding [count], every older stamp left as it was, and
    the frame event of the new stamp at the end of the event queue. *)
Definition new_frame (now count : Z) (v0 v' : Viewer) : Prop :=
  exists a',
    a' = length (stamps v0) /\
    _frameStamp v' = Some a' /\
    stamps v0 !! a' = None /\
    stamps v' !! a' = Some (mkFrameStamp now count) /\
    (forall b fs, stamps v0 !! b = Some fs -> stamps v' !! b = Some fs) /\
    exists events, _events v' = events ++ [FrameEvent (Some a')].

End Viewer.

Arguments Viewer W : clear implicits.

(** ** The worker threads

    The three lambdas of [setupThreading] share one shape:
    [while (frameBlock->wait_for_change(frameStamp)) { body }].  A body is
    the sequence of calls of one iteration, in source order. *)

Inductive BarrierName := RecordStart | RecordCompleted | SubmissionCompleted.

#[export] Instance BarrierName_eq_dec : EqDecision BarrierName.
Proof. solve_decision. Defined.

Inductive Instr :=
| task_submit                       (* viewer_task->submit(frameStamp) *)
| task_start                        (* data->task->start() *)
| arrive_and_wait (b : BarrierName)
| arrive_and_drop (b : BarrierName)
| record                            (* commandGraph->record(local, ...) *)
| add                               (* data->add(local) *)
| task_finish                       (* data->task->finish(recorded) *)
| recorded_clear.                   (* data->recordedCommandBuffers.clear() *)

#[export] Instance Instr_eq_dec : EqDecision Instr.
Proof. solve_decision. Defined.

Definition body (t : Thread) : list Instr :=
  match t with
  | run _ _ _ =>
      [task_submit; arrive_and_drop SubmissionCompleted]
  | run_primary _ _ =>
      [task_start; arrive_and_wait RecordStart; record; add;
       arrive_and_wait RecordCompleted; task_finish; recorded_clear;
       arrive_and_wait SubmissionCompleted]
  | run_secondary _ _ =>
      [arrive_and_wait RecordStart; record; add; arrive_and_wait RecordCompleted]
  end.

(** Modelled from the spec: FrameBlock.h is not among the sources.
    [wait_for_change] returns [true] once the published stamp's frame count
    is greater than that of the stamp the caller saw last. *)
Definition newer (published seen : option FrameStamp) : bool :=
  match published, seen with
  | Some p, Some s => frameCount s <? frameCount p
  | Some _, None => true
  | None, _ => false
  end.

(** Where a worker stands in its loop. *)
Inductive Control :=
| AtFrameBlock                                      (* in [wait_for_change] *)
| Running (rest : list Instr)
| InBarrier (b : BarrierName) (gen : Z) (rest : list Instr)  (* in [arrive_and_wait] *)
| Exited.

Record Worker := mkWorker {
  w_thread : Thread;
  w_control : Control;
  w_frameStamp : option FrameStamp;     (* the local [frameStamp] *)
  w_iteration : nat                     (* iterations of the loop begun *)
}.

(** An entry of the trace: worker [i], in its [n]-th iteration, made the
    call [instr]. *)
Definition TraceEvent : Type := nat * nat * Instr.

(** The threads of one multi-graph task with the objects they share. *)
Record Group := mkGroup {
  g_status : bool;                      (* ActivityStatus *)
  g_value : option FrameStamp;          (* FrameBlock: the published stamp *)
  g_recordStart : Barrier;
  g_recordCompleted : Barrier;
  g_submissionCompleted : Barrier;
  g_recorded : list ptr;                (* command graphs whose buffers were added *)
  g_workers : list Worker;
  g_trace : list TraceEvent
}.

Definition barrier_of (g : Group) (b : BarrierName) : Barrier :=
  match b with
  | RecordStart => g_recordStart g
  | RecordCompleted => g_recordCompleted g
  | SubmissionCompleted => g_submissionCompleted g
  end.

Definition set_barrier (b : BarrierName) (x : Barrier) (g : Group) : Group :=
  match b with
  | RecordStart =>
      mkGroup (g_status g) (g_value g) x (g_recordCompleted g)
              (g_submissionCompleted g) (g_recorded g) (g_workers g) (g_trace g)
  | RecordCompleted =>
      mkGroup (g_status g) (g_value g) (g_recordStart g) x
              (g_submissionCompleted g) (g_recorded g) (g_workers g) (g_trace g)
  | SubmissionCompleted =>
      mkGroup (g_status g) (g_value g) (g_recordStart g) (g_recordCompleted g)
              x (g_recorded g) (g_workers g) (g_trace g)
  end.

Definition set_worker (i : nat) (w : Worker) (ev : list TraceEvent) (g : Group) : Group :=
  mkGroup (g_status g) (g_value g) (g_recordStart g) (g_recordCompleted g)
          (g_submissionCompleted g) (g_recorded g) (<[i := w]> (g_workers g))
          (g_trace g ++ ev).

Definition set_recorded (r : list ptr) (g : Group) : Group :=
  mkGroup (g_status g) (g_value g) (g_recordStart g) (g_recordCompleted g)
          (g_submissionCompleted g) r (g_workers g) (g_trace g).

Definition thread_graph (t : Thread) : ptr :=
  match t with
  | run _ _ _ => nullptr
  | run_primary _ cg | run_secondary _ cg => cg_id cg
  end.

Definition with_control (c : Control) (w : Worker) : Worker :=
  mkWorker (w_thread w) c (w_frameStamp w) (w_iteration w).

(** One step of worker [i]; [None] when the worker is blocked or gone. *)
Definition worker_step (i : nat) (g : Group) : option Group :=
  w ← g_workers g !! i;
  let ev instr := [(i, w_iteration w, instr)] in
  match w_control w with
  | AtFrameBlock =>
      if negb (g_status g) then Some (set_worker i (with_control Exited w) [] g)
      else if newer (g_value g) (w_frameStamp w) then
        Some (set_worker i (mkWorker (w_thread w) (Running (body (w_thread w)))
                                     (g_value g) (S (w_iteration w))) [] g)
      else None
  | Running [] => Some (set_worker i (with_control AtFrameBlock w) [] g)
  | Running (arrive_and_wait b :: rest) =>
      let gen := generation (barrier_of g b) in
      let g := set_barrier b (arrive (barrier_of g b)) g in
      if generation (barrier_of g b) =? gen
      then Some (set_worker i (with_control (InBarrier b gen rest) w)
                            (ev (arrive_and_wait b)) g)
      else Some (set_worker i (with_control (Running rest) w)
                            (ev (arrive_and_wait b)) g)
  | Running (arrive_and_drop b :: rest) =>
      let g := set_barrier b (arrive (barrier_of g b)) g in
      Some (set_worker i (with_control (Running rest) w) (ev (arrive_and_drop b)) g)
  | Running (add :: rest) =>
      let g := set_recorded (g_recorded g ++ [thread_graph (w_thread w)]) g in
      Some (set_worker i (with_control (Running rest) w) (ev add) g)
  | Running (recorded_clear :: rest) =>
      let g := set_recorded [] g in
      Some (set_worker i (with_control (Running rest) w) (ev recorded_clear) g)
  | Running (instr :: rest) =>
      Some (set_worker i (with_control (Running rest) w) (ev instr) g)
  | InBarrier b gen rest =>
      if generation (barrier_of g b) =? gen then None
      else Some (set_worker i (with_control (Running rest) w) [] g)
  | Exited => None
  end.

(** The steps of [worker_step], as a relation between the worker that
    moves, the group before and the group after. *)
Inductive worker_steps (i : nat) (g : Group) (w : Worker) : Group -> Prop :=
| ws_exit :
    w_control w = AtFrameBlock ->
    g_status g = false ->
    worker_steps i g w (set_worker i (with_control Exited w) [] g)
| ws_wake :
    w_control w = AtFrameBlock ->
    g_status g = true -> newer (g_value g) (w_frameStamp w) = true ->
    worker_steps i g w
      (set_worker i (mkWorker (w_thread w) (Running (body (w_thread w)))
                              (g_value g) (S (w_iteration w))) [] g)
| ws_loop :
    w_control w = Running [] ->
    worker_steps i g w (set_worker i (with_control AtFrameBlock w) [] g)
| ws_arrive b rest c :
    w_control w = Running (arrive_and_wait b :: rest) ->
    c = (if generation (arrive (barrier_of g b)) =? generation (barrier_of g b)
         then InBarrier b (generation (barrier_of g b)) rest
         else Running rest) ->
    worker_steps i g w
      (set_worker i (with_control c w) [(i, w_iteration w, arrive_and_wait b)]
                  (set_barrier b (arrive (barrier_of g b)) g))
| ws_drop b rest :
    w_control w = Running (arrive_and_drop b :: rest) ->
    worker_steps i g w
      (set_worker i (with_control (Running rest) w)
                  [(i, w_iteration w, arrive_and_drop b)]
                  (set_barrier b (arrive (barrier_of g b)) g))
| ws_call instr rest g0 :
    w_control w = Running (instr :: rest) ->
    (forall b, instr <> arrive_and_wait b) ->
    (forall b, instr <> arrive_and_drop b) ->
    g_workers g0 = g_workers g -> g_trace g0 = g_trace g ->
    (forall b, barrier_of g0 b = barrier_of g b) ->
    worker_steps i g w
      (set_worker i (with_control (Running rest) w) [(i, w_iteration w, instr)] g0)
| ws_release b gen rest :
    w_control w = InBarrier b gen rest ->
    generation (barrier_of g b) <> gen ->
    worker_steps i g w (set_worker i (with_control (Running rest) w) [] g).

(** What happens to a group: one of its workers takes a step, or the rest
    of the program acts on the shared objects (the viewer publishes a
    stamp or clears the status; some other party arrives at the
    submission-completed barrier). *)
Inductive Action :=
| Sched (i : nat)
| Publish (frameStamp : FrameStamp)
| Stop
| OtherArrival.

Definition group_step (a : Action) (g : Group) : option Group :=
  match a with
  | Sched i => worker_step i g
  | Publish fs =>
      Some (mkGroup (g_status g) (Some fs) (g_recordStart g) (g_recordCompleted g)
                    (g_submissionCompleted g) (g_recorded g) (g_workers g) (g_trace g))
  | Stop =>
      Some (mkGroup false (g_value g) (g_recordStart g) (g_recordCompleted g)
                    (g_submissionCompleted g) (g_recorded g) (g_workers g) (g_trace g))
  | OtherArrival =>
      Some (set_barrier SubmissionCompleted (arrive (g_submissionCompleted g)) g)
  end.

Fixpoint group_run (schedule : list Action) (g : Group) : option Group :=
  match schedule with
  | [] => Some g
  | a :: schedule => g ← group_step a g; group_run schedule g
  end.

(** The group as [setupThreading] leaves it: nothing published yet, and
    every thread about to call [wait_for_change] with the frame block's
    [initial_value], the null stamp.  Frame stamps are immutable, so the
    workers' references to them are kept as the stamps themselves. *)
Definition group_init (sharedData : SharedData) (threads : list Thread) : Group :=
  mkGroup true None
          (sd_recordStartBarrier sharedData) (sd_recordCompletedBarrier sharedData)
          (sd_submissionCompletedBarrier sharedData) []
          (map (fun t => mkWorker t AtFrameBlock None 0) threads)
          [].

(** ** Reading a group's state and trace *)

(** The calls a worker still has to make in its current iteration. *)
Definition remaining (w : Worker) : list Instr :=
  match w_control w with
  | Running rest | InBarrier _ _ rest => rest
  | AtFrameBlock | Exited => []
  end.

(** How often a worker has arrived at barrier [b]: once per iteration it
    began, less the arrival still ahead of it in the current one. *)
Definition pending (b : BarrierName) (w : Worker) : Z :=
  if in_dec Instr_eq_dec (arrive_and_wait b) (remaining w) then 1 else 0.

Definition arrived_at (b : BarrierName) (w : Worker) : Z :=
  Z.of_nat (w_iteration w) - pending b w.

Definition group_thread (t : Thread) : bool := is_primary t || is_secondary t.

(** A worker of a group runs one of the two group lambdas and is somewhere
    in its body. *)
Definition worker_ok (w : Worker) : Prop :=
  group_thread (w_thread w) = true /\
  (exists done, body (w_thread w) = done ++ remaining w) /\
  (remaining w <> [] -> (1 <= w_iteration w)%nat).

Definition count {A} (p : A -> bool) (l : list A) : Z := size (List.filter p l).

(** The state of barrier [b] against the workers: it was created for all
    of them; every worker has arrived as often as the barrier has released
    or once more; those one arrival ahead are blocked in the barrier and
    are the ones its counter counts. *)
Definition barrier_ok (b : BarrierName) (g : Group) : Prop :=
  let B := barrier_of g b in
  required B = size (g_workers g) /\
  (forall j w, g_workers g !! j = Some w ->
               generation B <= arrived_at b w <= generation B + 1) /\
  (forall j w, g_workers g !! j = Some w ->
               arrived_at b w = generation B + 1 ->
               exists rest, w_control w = InBarrier b (generation B) rest) /\
  arrived B = count (fun w => arrived_at b w =? generation B + 1) (g_workers g).

(** The trace against the workers: every entry is a call of the body of
    a worker, made in an iteration that worker has begun; the entries of
    the current iteration are calls the worker is past; and every arrival
    at [recordCompleted] that a worker's position implies was recorded. *)
Definition trace_ok (g : Group) : Prop :=
  (forall i n instr,
      In (i, n, instr) (g_trace g) ->
      exists w, g_workers g !! i = Some w /\
                In instr (body (w_thread w)) /\
                (n <= w_iteration w)%nat /\
                (n = w_iteration w -> ~ In instr (remaining w))) /\
  (forall j w n,
      g_workers g !! j = Some w ->
      (1 <= n)%nat -> Z.of_nat n <= arrived_at RecordCompleted w ->
      In (j, n, arrive_and_wait RecordCompleted) (g_trace g)).

(** The claims about a trace.  [task_start] and [task_finish] are called
    by worker 0, the primary, only. *)
Definition only_primary_submits (tr : list TraceEvent) : Prop :=
  forall i n instr,
    In (i, n, instr) tr -> instr = task_start \/ instr = task_finish -> i = 0%nat.

(** Before [task_finish] of an iteration, each of the [K] workers has
    arrived at [recordCompleted] in that iteration. *)
Definition finish_after_recordCompleted (K : nat) (tr : list TraceEvent) : Prop :=
  forall pre post i n,
    tr = pre ++ (i, n, task_finish) :: post ->
    forall j, (j < K)%nat -> In (j, n, arrive_and_wait RecordCompleted) pre.

(** [task_start] is the first call of its iteration: nothing of that
    worker's iteration comes before it, no arrival at a barrier either. *)
Definition start_opens_iteration (tr : list TraceEvent) : Prop :=
  forall pre post i n,
    tr = pre ++ (i, n, task_start) :: post ->
    forall instr, ~ In (i, n, instr) pre.

(** The claim as the specification words it, for [task_start]: it is
    called only after all [K] workers have arrived at [recordCompleted]. *)
Definition start_after_recordCompleted (K : nat) (tr : list TraceEvent) : Prop :=
  forall pre post i n,
    tr = pre ++ (i, n, task_start) :: post ->
    forall j, (j < K)%nat -> In (j, n, arrive_and_wait RecordCompleted) pre.

(** What the invariants need of a group: it consists of group threads,
    the primary first and only there, and its two recording barriers were
    created for as many parties as it has threads. *)
Definition group_ok (g : Group) : Prop :=
  Forall worker_ok (g_workers g) /\
  (forall i w, g_workers g !! i = Some w -> is_primary (w_thread w) = true -> i = 0%nat) /\
  barrier_ok RecordStart g /\
  barrier_ok RecordCompleted g /\
  trace_ok g.

(** How a step changes the worker that takes it: [w'] is the worker after,
    [ev] what the step adds to the trace. *)
Definition worker_moves (i : nat) (w w' : Worker) (ev : list TraceEvent) : Prop :=
  w_thread w' = w_thread w /\
  worker_ok w' /\
  (w_iteration w <= w_iteration w')%nat /\
  (w_iteration w' = w_iteration w ->
   forall instr, In instr (remaining w') -> In instr (remaining w)) /\
  (ev = [] \/ exists e, ev = [e]) /\
  (forall e, In e ev ->
     exists instr rest, e = (i, w_iteration w', instr) /\
                        w_iteration w' = w_iteration w /\
                        w_control w = Running (instr :: rest) /\
                        remaining w' = rest) /\
  (forall n, (1 <= n)%nat -> Z.of_nat n <= arrived_at RecordCompleted w' ->
             Z.of_nat n <= arrived_at RecordCompleted w \/
             In (i, n, arrive_and_wait RecordCompleted) ev).

(** The invariant of a running group. *)
Definition group_inv (g : Group) : Prop :=
  group_ok g /\
  only_primary_submits (g_trace g) /\
  finish_after_recordCompleted (length (g_workers g)) (g_trace g) /\
  start_opens_iteration (g_trace g).

(** ** The threading session: the viewer and all its threads

    A session has one thread group per task with command graphs: the
    single [run] thread of a one-graph task, or the primary and secondary
    threads of a multi-graph task.  The groups share the activity status,
    the frame block and the submission-completed barrier with the viewer,
    which goes through [recordAndSubmit] again and again: it publishes a
    stamp, arrives at the barrier and waits there. *)

(** Where the viewer stands in [recordAndSubmit]. *)
Inductive ViewerPhase :=
| OIdle                     (* outside [recordAndSubmit] *)
| OPublished                (* after [_frameBlock->set], before [arrive_and_wait] *)
| OWaiting (gen : Z).       (* inside [_submissionCompleted->arrive_and_wait] *)

(** The trace of a session: the viewer's [call]-th [recordAndSubmit]
    publishes, arrives and returns; worker [e.1.1] of group [group] makes a
    call. *)
Inductive SessionEvent :=
| SE_set (call : nat) (frameStamp : FrameStamp)
| SE_arrive (call : nat)
| SE_return (call : nat)
| SE_worker (group : nat) (e : TraceEvent).

Record Session := mkSession {
  s_status : bool;
  s_value : option FrameStamp;
  s_submissionCompleted : Barrier;
  s_orchestrator : ViewerPhase;
  s_calls : nat;                     (* calls of [recordAndSubmit] begun *)
  s_groups : list Group;             (* the groups with their own objects *)
  s_trace : list SessionEvent
}.

(** A group as its threads see it: its own barriers, buffers and workers,
    and the session's status, frame block and submission barrier. *)
Definition group_view (s : Session) (g : Group) : Group :=
  mkGroup (s_status s) (s_value s) (g_recordStart g) (g_recordCompleted g)
          (s_submissionCompleted s) (g_recorded g) (g_workers g) (g_trace g).

Inductive SessionAction :=
| SWorker (k i : nat)       (* worker [i] of group [k] takes a step *)
| SSet (frameStamp : FrameStamp)
| SArrive
| SReturn
| SStop.

Definition session_step (a : SessionAction) (s : Session) : option Session :=
  match a with
  | SWorker k i =>
      g ← s_groups s !! k;
      g' ← worker_step i (group_view s g);
      Some (mkSession (s_status s) (s_value s) (g_submissionCompleted g')
                      (s_orchestrator s) (s_calls s) (<[k := g']> (s_groups s))
                      (s_trace s ++
                       map (SE_worker k) (drop (length (g_trace g)) (g_trace g'))))
  | SSet frameStamp =>
      match s_orchestrator s with
      | OIdle =>
          Some (mkSession (s_status s) (Some frameStamp) (s_submissionCompleted s)
                          OPublished (S (s_calls s)) (s_groups s)
                          (s_trace s ++ [SE_set (S (s_calls s)) frameStamp]))
      | _ => None
      end
  | SArrive =>
      match s_orchestrator s with
      | OPublished =>
          let gen := generation (s_submissionCompleted s) in
          let sc := arrive (s_submissionCompleted s) in
          if generation sc =? gen
          then Some (mkSession (s_status s) (s_value s) sc (OWaiting gen) (s_calls s)
                               (s_groups s) (s_trace s ++ [SE_arrive (s_calls s)]))
          else Some (mkSession (s_status s) (s_value s) sc OIdle (s_calls s)
                               (s_groups s)
                               (s_trace s ++ [SE_arrive (s_calls s);
                                              SE_return (s_calls s)]))
      | _ => None
      end
  | SReturn =>
      match s_orchestrator s with
      | OWaiting gen =>
          if generation (s_submissionCompleted s) =? gen then None
          else Some (mkSession (s_status s) (s_value s) (s_submissionCompleted s)
                               OIdle (s_calls s) (s_groups s)
                               (s_trace s ++ [SE_return (s_calls s)]))
      | _ => None
      end
  | SStop =>
      Some (mkSession false (s_value s) (s_submissionCompleted s) (s_orchestrator s)
                      (s_calls s) (s_groups s) (s_trace s))
  end.

Fixpoint session_run (schedule : list SessionAction) (s : Session) : option Session :=
  match schedule with
  | [] => Some s
  | a :: schedule => s ← session_step a s; session_run schedule s
  end.

(** The group of a task as [setupThreading] leaves it.  A one-graph task
    has no recording barriers: the two slots of its group hold a barrier
    nobody arrives at. *)
Definition task_group (frameBlock : FrameBlock) (submissionCompleted : Barrier)
           (next : nat) (task : RecordAndSubmitTask) : list Group :=
  match commandGraphs task with
  | [] => []
  | [_] =>
      [mkGroup true None (Barrier_create 0 0) (Barrier_create 0 0) submissionCompleted []
               (map (fun t => mkWorker t AtFrameBlock None 0)
                    (task_threads frameBlock submissionCompleted next task))
               []]
  | _ =>
      [group_init (SharedData_create next task frameBlock submissionCompleted
                                     (size (commandGraphs task)))
                  (task_threads frameBlock submissionCompleted next task)]
  end.

Fixpoint session_groups (frameBlock : FrameBlock) (submissionCompleted : Barrier)
         (next : nat) (tasks : list RecordAndSubmitTask) : list Group :=
  match tasks with
  | [] => []
  | task :: tasks =>
      task_group frameBlock submissionCompleted next task ++
      session_groups frameBlock submissionCompleted (next_after next task) tasks
  end.

(** The session [setupThreading] starts for a viewer [v]: the objects and
    threads it creates, the viewer outside [recordAndSubmit], nothing
    published yet.  The status is the viewer's, as [stopThreading] left
    it. *)
Definition session_init {W} (v : Viewer W) : Session :=
  let tasks := recordAndSubmitTasks v in
  let frameBlock := FrameBlock_create (next_object v) in
  let submissionCompleted :=
    Barrier_create (S (next_object v)) (wrap32 (1 + (count_tasks tasks).1)) in
  mkSession (_status (stopThreading (log [cout_setupThreading] v))) None
            submissionCompleted OIdle 0
            (session_groups frameBlock submissionCompleted (2 + next_object v) tasks) [].

(** ** Reading a session *)

(** The call with which a thread arrives at the submission barrier. *)
Definition sc_arrival (t : Thread) : Instr :=
  match t with
  | run _ _ _ => arrive_and_drop SubmissionCompleted
  | _ => arrive_and_wait SubmissionCompleted
  end.

Definition sc_pending (w : Worker) : Z :=
  if in_dec Instr_eq_dec (sc_arrival (w_thread w)) (remaining w) then 1 else 0.

(** How often a submitting thread has arrived at the submission barrier. *)
Definition sc_arrived (w : Worker) : Z := Z.of_nat (w_iteration w) - sc_pending w.

Definition worker_wf (w : Worker) : Prop :=
  (exists done, body (w_thread w) = done ++ remaining w) /\
  (remaining w <> [] -> (1 <= w_iteration w)%nat).

(** Worker 0 of a group submits; the others are secondary threads. *)
Definition group_wf (g : Group) : Prop :=
  Forall worker_wf (g_workers g) /\
  (exists w, g_workers g !! 0%nat = Some w /\ is_secondary (w_thread w) = false) /\
  (forall i w, g_workers g !! i = Some w -> i <> 0%nat ->
               is_secondary (w_thread w) = true).

(** The viewer has published in the current generation of the barrier. *)
Definition published (s : Session) : bool :=
  match s_orchestrator s with
  | OIdle => false
  | OPublished => true
  | OWaiting gen => gen =? generation (s_submissionCompleted s)
  end.

(** A submitting thread against the barrier's generation [gen]: it has
    arrived [gen] times or once more, it is at most one iteration ahead,
    and only because the viewer has published a stamp, which it has seen. *)
Definition submitter_ok (gen : Z) (pub : bool) (value : option FrameStamp)
           (w : Worker) : Prop :=
  gen <= sc_arrived w /\
  Z.of_nat (w_iteration w) <= gen + 1 /\
  (Z.of_nat (w_iteration w) = gen + 1 -> pub = true) /\
  (Z.of_nat (w_iteration w) = gen + 1 \/ pub = false ->
   newer value (w_frameStamp w) = false).

Definition has_arrived (gen : Z) (g : Group) : bool :=
  match g_workers g !! 0%nat with
  | Some w => sc_arrived w =? gen + 1
  | None => false
  end.

(** The submission barrier releases the viewer only after every group has
    submitted: before the [n]-th return of [recordAndSubmit], worker 0 of
    each of the [K] groups has arrived at the barrier in its [n]-th
    iteration. *)
Definition returns_after_submissions (K : nat) (tr : list SessionEvent) : Prop :=
  forall pre post n,
    tr = pre ++ SE_return n :: post ->
    forall k, (k < K)%nat ->
      In (SE_worker k (0%nat, n, arrive_and_drop SubmissionCompleted)) pre \/
      In (SE_worker k (0%nat, n, arrive_and_wait SubmissionCompleted)) pre.

Definition session_inv (s : Session) : Prop :=
  let sc := s_submissionCompleted s in
  let gen := generation sc in
  Forall group_wf (s_groups s) /\
  required sc = 1 + size (s_groups s) /\
  (forall k g w, s_groups s !! k = Some g -> g_workers g !! 0%nat = Some w ->
                 submitter_ok gen (published s) (s_value s) w) /\
  arrived sc =
  (match s_orchestrator s with
   | OWaiting g => if g =? gen then 1 else 0
   | _ => 0
   end) + count (has_arrived gen) (s_groups s) /\
  (match s_orchestrator s with
   | OIdle => Z.of_nat (s_calls s) = gen
   | OPublished => (1 <= s_calls s)%nat /\ Z.of_nat (s_calls s) = gen + 1
   | OWaiting g =>
       (1 <= s_calls s)%nat /\
       Z.of_nat (s_calls s) = if g =? gen then gen + 1 else gen
   end) /\
  (forall k g w n, s_groups s !! k = Some g -> g_workers g !! 0%nat = Some w ->
                   (1 <= n)%nat -> Z.of_nat n <= sc_arrived w ->
                   In (SE_worker k (0%nat, n, sc_arrival (w_thread w))) (s_trace s)) /\
  returns_after_submissions (length (s_groups s)) (s_trace s).

(** ** The claims about frames and barriers, as the specification words them *)

(** C3 as worded: the submission-completed barrier is created for as many
    parties as there are valid tasks. *)
Definition sized_by_valid_tasks {W} (v v' : Viewer W) : Prop :=
  exists b, _submissionCompleted v' = Some b /\
            required b = valid_task_count (recordAndSubmitTasks v).

(** ** Inputs the viewer is run on *)

Definition failing_window : ScriptedWindow :=
  mkScriptedWindow true true 1 [] [VK_ERROR_OUT_OF_HOST_MEMORY] 0.

Definition succeeding_window : ScriptedWindow :=
  mkScriptedWindow true true 1 [] [] 0.

(** Two visible windows: the first fails to acquire, the second succeeds. *)
Definition masked_failure_viewer : Viewer ScriptedWindow :=
  addWindow succeeding_window (addWindow failing_window Viewer_new).

(** The scenario of the specification: task A with one command graph,
    task B with two, on two devices, with a shared pager. *)
Definition graph_a : CommandGraph := mkCommandGraph 100 1 0 0 10.
Definition graph_b1 : CommandGraph := mkCommandGraph 101 2 0 0 20.
Definition graph_b2 : CommandGraph := mkCommandGraph 102 2 0 0 21.

Definition two_task_viewer : Viewer ScriptedWindow :=
  let v := set_pagers {[ 7%nat := mkPager None false ]} Viewer_new in
  default v (assignRecordAndSubmitTaskAndPresentation
               [graph_b1; graph_a; graph_b2] (Some 7%nat) v).

(** Two command graphs on the same device and queue family, one rendering
    to a window (present family 0) and one offscreen (present family -1). *)
Definition graph_onscreen : CommandGraph := mkCommandGraph 200 1 0 0 10.
Definition graph_offscreen : CommandGraph := mkCommandGraph 201 1 0 (-1) 0.

(** Task B of the scenario and the group of its two threads, as
    [setupThreading] creates them, and one frame of the group: both
    threads wake, record, and the primary submits. *)
Definition task_b : RecordAndSubmitTask :=
  mkTask 4 2 [graph_b1; graph_b2] [3%nat] (Some 7%nat) [20; 21] (getQueue 2 0).

Definition shared_b : SharedData :=
  SharedData_create 8 task_b (FrameBlock_create 6) (Barrier_create 7 3)
                    (size (commandGraphs task_b)).

Definition group_b : Group :=
  group_init shared_b [run_primary shared_b graph_b1; run_secondary shared_b graph_b2].

Definition one_frame : list Action :=
  [Publish (mkFrameStamp 100 0);
   Sched 0; Sched 1;                      (* both wake *)
   Sched 0;                               (* primary: task->start() *)
   Sched 0; Sched 1; Sched 0;             (* rendezvous at recordStart *)
   Sched 0; Sched 0; Sched 1; Sched 1;    (* record, add *)
   Sched 1; Sched 0; Sched 1;             (* rendezvous at recordCompleted *)
   Sched 0; Sched 0;                      (* primary: finish, clear *)
   Sched 1].                              (* secondary: back to the frame block *)

(** One frame of the session of the scenario.  The viewer publishes a
    stamp and waits at the submission barrier; the thread of task A wakes,
    submits and arrives; the two threads of task B record, and the primary
    submits and arrives as the third party; the viewer returns. *)
Definition session_task_a_only : list SessionAction :=
  [SSet (mkFrameStamp 100 0); SArrive;
   SWorker 0 0; SWorker 0 0; SWorker 0 0].

Definition session_frame : list SessionAction :=
  session_task_a_only ++
  map (SWorker 1) [0; 1; 0; 0; 1; 0; 0; 0; 1; 1; 1; 0; 1; 0; 0; 1; 0]%nat ++
  [SReturn].

(** One task whose command graphs are on two devices, with a pager. *)
Definition multi_device_viewer : Viewer ScriptedWindow :=
  set_recordAndSubmitTasks
    [mkTask 0 1 [graph_a; graph_b1; graph_b2] [] (Some 7%nat) [] (getQueue 1 0)]
    (set_pagers {[ 7%nat := mkPager None false ]} Viewer_new).

(** Two tasks that share a pager: the first on two devices, the second on
    the second of them. *)
Definition shared_pager_viewer : Viewer ScriptedWindow :=
  set_recordAndSubmitTasks
    [mkTask 0 1 [graph_a; graph_b1] [] (Some 7%nat) [] (getQueue 1 0);
     mkTask 1 2 [graph_b2] [] (Some 7%nat) [] (getQueue 2 0)]
    (set_pagers {[ 7%nat := mkPager None false ]} Viewer_new).

(** A viewer in its second frame. *)
Definition second_frame_viewer : Viewer ScriptedWindow :=
  advance 64 100 (addWindow succeeding_window Viewer_new).

(** The viewer of the scenario once [setupThreading] has run. *)
Definition threaded_viewer : Viewer ScriptedWindow :=
  Eval vm_compute in default two_task_viewer (setupThreading two_task_viewer).

(** ** Reading the viewer's life cycle

    What the further properties of [Viewer.cpp] are stated with: the
    viewer after a run of [advance], one member-function call as a step
    between viewer states, and the two flags no member function ever
    resets. *)

Section Evolution.

Context {W : Type} `{WindowOps W}.

Variable frameCount_bits : Z.

(** The viewer after one call of [advance] per clock reading of [times]. *)
Definition advances (times : list Z) (v : Viewer W) : Viewer W :=
  fold_left (fun v now => advance frameCount_bits now v) times v.

(** The stamp of frame [i] made at time [now]. *)
Definition frame_of (i : nat) (now : Z) : FrameStamp :=
  mkFrameStamp now (Z.of_nat i mod 2 ^ frameCount_bits).

(** One call of a member function, or one change made to the windows or
    the pagers from outside: the steps [Reachable] is closed under. *)
Inductive Step : Viewer W -> Viewer W -> Prop :=
| step_windows v ws : Step v (set_windows ws v)
| step_addWindow v w : Step v (addWindow w v)
| step_close v : Step v (close v)
| step_active v : Step v (active v).2
| step_pollEvents v d : Step v (pollEvents d v).2
| step_advance v now : Step v (advance frameCount_bits now v)
| step_advanceToNextFrame v fuel now r v' :
    advanceToNextFrame frameCount_bits fuel now v = Some (r, v') -> Step v v'
| step_acquireNextFrame v fuel r v' :
    acquireNextFrame fuel v = Some (r, v') -> Step v v'
| step_assign v cgs pager v' :
    assignRecordAndSubmitTaskAndPresentation cgs pager v = Some v' -> Step v v'
| step_compile v v' : compile v = Some v' -> Step v v'
| step_setupThreading v v' : setupThreading v = Some v' -> Step v v'
| step_stopThreading v : Step v (stopThreading v)
| step_update v : Step v (update v)
| step_recordAndSubmit v v' : recordAndSubmit v = Some v' -> Step v v'
| step_present v : Step v (present v)
| step_pagers v ps : Step v (set_pagers ps v).

(** The close flag and the activity status. *)
Definition flags (v : Viewer W) := (_close v, _status v).

(** [v'] is at least as shut as [v]: a set close flag stays set and a
    cleared status stays cleared. *)
Definition shut_more (v v' : Viewer W) : Prop :=
  (_close v = true -> _close v' = true) /\ (_status v = false -> _status v' = false).

End Evolution.

(** ** Reading the acquire loop *)

(** The window after [k] rounds of the loop of [acquireNextFrame] that
    ended in [resize]. *)
Fixpoint after_retries {W} `{WindowOps W} (k : nat) (window : W) : W :=
  match k with
  | O => window
  | S k => after_retries k (resize (acquireNextImage window).2)
  end.

(** A window whose swapchain is out of date whatever is done to it. *)
Inductive OutOfDateWindow := out_of_date_window.

#[export] Instance OutOfDateWindow_ops : WindowOps OutOfDateWindow := {|
  valid _ := true;
  visible _ := true;
  getDevice _ := 1;
  window_pollEvents w events := (false, events, w);
  acquireNextImage w := (VK_ERROR_OUT_OF_DATE_KHR, w);
  resize w := w
|}.

(** ** Reading call logs *)

(** The calls [update] makes for a list of tasks. *)
Definition pager_updates (frameStamp : stamp_ref) (tasks : list RecordAndSubmitTask)
  : list Call :=
  omap (fun task => (fun pager => Pager_updateSceneGraph pager frameStamp)
                      <$> databasePager task) tasks.

(** How often a pager is updated in a call log. *)
Definition updates_of (pager : nat) (l : list Call) : nat :=
  length (List.filter (fun c => match c with
                                | Pager_updateSceneGraph p _ => Nat.eqb p pager
                                | _ => false
                                end) l).

Definition tasks_with_pager (pager : nat) (tasks : list RecordAndSubmitTask) : nat :=
  length (List.filter (fun task => bool_decide (databasePager task = Some pager)) tasks).

(** The calls of [compile] that prepare the transfers: statistics,
    traversals, compilation of the command graphs, the pagers' traversal. *)
Definition is_setup (c : Call) : bool :=
  match c with
  | CommandGraph_accept_collectStats _ _ | CompileTraversal_create _ _
  | CommandGraph_accept_compile _ _ | Pager_assign_compileTraversal _ _ => true
  | _ => false
  end.

(** The traversals created in a call log, oldest first. *)
Definition created_traversals (l : list Call) : list nat :=
  omap (fun c => match c with
                 | CompileTraversal_create compile _ => Some compile
                 | _ => None
                 end) l.

(** ** Reading a session whose status is cleared *)

(** An entry of a session trace the viewer makes before it waits. *)
Definition viewer_entry (e : SessionEvent) : bool :=
  match e with
  | SE_set _ _ | SE_arrive _ => true
  | _ => false
  end.

(** A session whose status was cleared before any frame was published:
    no thread has begun an iteration, the barrier has released nobody, and
    the viewer is in its first [recordAndSubmit] at most. *)
Definition quiet_session (s : Session) : Prop :=
  s_status s = false /\
  generation (s_submissionCompleted s) = 0 /\
  2 <= required (s_submissionCompleted s) /\
  (match s_orchestrator s with
   | OIdle => arrived (s_submissionCompleted s) = 0 /\ s_calls s = 0%nat
   | OPublished => arrived (s_submissionCompleted s) = 0 /\ s_calls s = 1%nat
   | OWaiting gen => arrived (s_submissionCompleted s) = 1 /\ s_calls s = 1%nat /\ gen = 0
   end) /\
  Forall (fun g => Forall (fun w => w_iteration w = 0%nat /\
                                    (w_control w = AtFrameBlock \/ w_control w = Exited))
                          (g_workers g)) (s_groups s) /\
  forallb viewer_entry (s_trace s) = true.

(** The thread of worker [i] of group [k] has left its loop. *)
Definition exited (s : Session) (k i : nat) : Prop :=
  exists g w, s_groups s !! k = Some g /\ g_workers g !! i = Some w /\
              w_control w = Exited.

(** ** Reading a session whose frames can complete *)

(** A barrier between two releases: fewer parties have arrived than it
    waits for. *)
Definition barrier_open (B : Barrier) : Prop := 0 <= arrived B < required B.

(** A worker of a session in which the viewer has begun [calls] calls of
    [recordAndSubmit]: it has not left its loop; it is in the iteration of
    the last call and holds the stamp of that call, or it is one iteration
    behind and the frame block holds a newer stamp than its own; and when
    it waits in a barrier, it arrived there from its body, in the
    generation that its count of arrivals gives. *)
Definition worker_live (calls : nat) (value : option FrameStamp) (w : Worker) : Prop :=
  w_control w <> Exited /\
  (w_iteration w <= calls <= S (w_iteration w))%nat /\
  (w_iteration w = calls -> w_frameStamp w = value) /\
  (w_iteration w <> calls -> newer value (w_frameStamp w) = true) /\
  (forall b gen rest,
      w_control w = InBarrier b gen rest ->
      (exists done, body (w_thread w) = done ++ arrive_and_wait b :: rest) /\
      gen + 1 = arrived_at b w).

(** The group of a task with several command graphs. *)
Definition multi (g : Group) : bool :=
  match g_workers g !! 0%nat with
  | Some w => is_primary (w_thread w)
  | None => false
  end.

Definition group_live (calls : nat) (value : option FrameStamp) (g : Group) : Prop :=
  Forall (worker_live calls value) (g_workers g) /\
  (if multi g
   then group_ok g /\ barrier_open (g_recordStart g) /\ barrier_open (g_recordCompleted g)
   else length (g_workers g) = 1%nat).

Definition live (s : Session) : Prop :=
  session_inv s /\ s_status s = true /\
  barrier_open (s_submissionCompleted s) /\
  Forall (group_live (s_calls s) (s_value s)) (s_groups s).

(** The steps a worker has left in the frame: those of the iterations it
    has not begun, and those of the rest of its body. *)
Definition position (w : Worker) : nat :=
  match w_control w with
  | AtFrameBlock | Exited => 0
  | Running rest => 2 * length rest + 1
  | InBarrier _ _ rest => 2 * length rest + 2
  end.

Definition work_left (calls : nat) (w : Worker) : nat :=
  (calls - w_iteration w) * (2 * length (body (w_thread w)) + 2) + position w.

Definition total {A} (f : A -> nat) (l : list A) : nat := list_sum (map f l).

Definition viewer_left (s : Session) : nat :=
  match s_orchestrator s with
  | OIdle => 0
  | OPublished => 2
  | OWaiting _ => 1
  end.

Definition frame_left (s : Session) : nat :=
  viewer_left s +
  total (fun g => total (work_left (s_calls s)) (g_workers g)) (s_groups s).

(** The actions inside a frame: a thread takes a step, or the viewer goes
    on in [recordAndSubmit]. *)
Definition in_frame (a : SessionAction) : bool :=
  match a with
  | SWorker _ _ | SArrive | SReturn => true
  | SSet _ | SStop => false
  end.

(** The stamps a schedule publishes. *)
Definition published_stamps (schedule : list SessionAction) : list FrameStamp :=
  omap (fun a => match a with SSet fs => Some fs | _ => None end) schedule.

(** A schedule of a running session: the status is not cleared, and every
    stamp the viewer publishes has a greater frame count than the one
    before. *)
Definition fresh_frames (schedule : list SessionAction) : Prop :=
  Forall (fun a => a <> SStop) schedule /\
  StronglySorted (fun a b => frameCount a < frameCount b) (published_stamps schedule).

(** What follows an instruction in a body. *)
Fixpoint after (x : Instr) (l : list Instr) : list Instr :=
  match l with
  | [] => []
  | y :: l => if decide (y = x) then l else after x l
  end.

(** Only the threads in the iteration of the viewer's last call are inside
    their bodies. *)
Definition in_step (s : Session) : Prop :=
  forall k g j w,
    s_groups s !! k = Some g -> g_workers g !! j = Some w ->
    w_iteration w <> s_calls s -> remaining w = [].

(** ** Reading the list of recorded buffers *)

(** How often a worker has made the call [instr]: once per iteration it
    began, less the call still ahead of it in the current one. *)
Definition done_by (instr : Instr) (w : Worker) : Z :=
  Z.of_nat (w_iteration w) - (if in_dec Instr_eq_dec instr (remaining w) then 1 else 0).

(** The worker has added its buffers since the list was last cleared. *)
Definition has_added (round : Z) (w : Worker) : bool := done_by add w =? round + 1.

(** The shared list of recorded buffers against the workers: worker 0 is
    the primary thread and the others are secondary threads of the
    command graphs [graphs]; every worker has added its buffers as often
    as the primary has cleared the list, or once more; and the list holds
    the buffers of the workers that are one ahead. *)
Definition recorded_ok (graphs : list ptr) (g : Group) : Prop :=
  map (fun w => thread_graph (w_thread w)) (g_workers g) = graphs /\
  exists w0,
    g_workers g !! 0%nat = Some w0 /\ is_primary (w_thread w0) = true /\
    (forall j w, g_workers g !! j = Some w ->
                 done_by recorded_clear w0 <= done_by add w <= done_by recorded_clear w0 + 1) /\
    g_recorded g ≡ₚ
      map (fun w => thread_graph (w_thread w))
          (List.filter (has_added (done_by recorded_clear w0)) (g_workers g)).

(** A thread that waits in a barrier arrived there from its body. *)
Definition waits_ok (g : Group) : Prop :=
  forall j w b gen rest,
    g_workers g !! j = Some w -> w_control w = InBarrier b gen rest ->
    exists done, body (w_thread w) = done ++ arrive_and_wait b :: rest.

(** The invariant of the recorded buffers of a running group. *)
Definition recording_inv (graphs : list ptr) (g : Group) : Prop :=
  group_inv g /\ recorded_ok graphs g /\ waits_ok g.

(** ** Reading a session whose stamp is not new *)

(** The viewer is inside [recordAndSubmit] with a stamp that no submitting
    thread takes for a new one: each of them has finished the iterations
    the barrier has released and sees nothing newer in the frame block. *)
Definition stale (s : Session) : Prop :=
  session_inv s /\ published s = true /\ (1 <= length (s_groups s))%nat /\
  forall k g w, s_groups s !! k = Some g -> g_workers g !! 0%nat = Some w ->
                Z.of_nat (w_iteration w) = generation (s_submissionCompleted s) /\
                newer (s_value s) (w_frameStamp w) = false.

(** * Array3D.h and DescriptorImage.cpp

    [vsg::Array3D<T>] as the record of its members, its index arithmetic
    in the widths the code uses, and the handling of its buffer;
    [vsg::computeNumMipMapLevels] of DescriptorImage.cpp. *)

Module Array3D.

(** [std::size_t] arithmetic; the type is taken to be 64 bits wide. *)
Definition wrap64 (z : Z) : Z := z mod 2 ^ 64.

(** The fields of [Data::Layout] that Array3D.h reads. *)
Record Layout := mkLayout { stride : Z; maxNumMipmaps : Z }.

(** A [ref_ptr<Data>] to some other data object, with what
    [dataPointer()] returns for it. *)
Record Storage := mkStorage { storage_id : nat; storage_dataPointer : ptr }.

Record Array3D := mkArray3D {
  _data : ptr;
  _width : Z;
  _height : Z;
  _depth : Z;
  _storage : option Storage;
  _layout : Layout
}.

(** The members [_width], [_height] and [_depth] are [uint32_t]. *)
Definition in_range (a : Array3D) : Prop :=
  0 <= _width a < 2 ^ 32 /\ 0 <= _height a < 2 ^ 32 /\ 0 <= _depth a < 2 ^ 32.

Section Sizes.

(** [computeValueCountIncludingMipmaps] is a static member of [Data];
    Data.h is not among the sources, so the count with mipmaps stays
    abstract. *)
Variable computeValueCountIncludingMipmaps : Z -> Z -> Z -> Z -> Z.

(** [size()] *)
Definition size (a : Array3D) : Z :=
  if maxNumMipmaps (_layout a) <=? 1
  then wrap64 (wrap64 (_width a * _height a) * _depth a)
  else computeValueCountIncludingMipmaps (_width a) (_height a) (_depth a)
                                         (maxNumMipmaps (_layout a)).

End Sizes.

(** [empty()] *)
Definition empty (a : Array3D) : bool :=
  (_width a =? 0) && (_height a =? 0) && (_depth a =? 0).

(** [index(i, j, k)]: the expression is evaluated in [uint32_t] and only
    then converted to [std::size_t]. *)
Definition index (a : Array3D) (i j k : Z) : Z :=
  wrap32 (wrap32 (wrap32 (wrap32 (k * _width a) * _height a) + wrap32 (j * _width a)) + i).

(** The row-major offset of element (i, j, k). *)
Definition offset (a : Array3D) (i j k : Z) : Z :=
  k * _width a * _height a + j * _width a + i.

(** The operand of [new value_type[width * height * depth]] in the
    allocating constructors, and of [data(_width * _height * _depth)] in
    [end()]: a product of [uint32_t]. *)
Definition element_count (width height depth : Z) : Z :=
  wrap32 (wrap32 (width * height) * depth).

(** [_delete()]: the pointers handed to [delete[]]. *)
Definition _delete (a : Array3D) : list ptr :=
  if negb (bool_decide (is_Some (_storage a))) && negb (_data a =? nullptr)
  then [_data a] else [].

(** [clear()] *)
Definition clear (a : Array3D) : list ptr * Array3D :=
  (_delete a, mkArray3D nullptr 0 0 0 None (_layout a)).

(** [assign(width, height, depth, data, layout)]; [sizeof_value] is
    [sizeof(value_type)]. *)
Definition assign_data (sizeof_value : Z) (width height depth : Z) (data : ptr)
           (layout : Layout) (a : Array3D) : list ptr * Array3D :=
  (_delete a,
   mkArray3D data width height depth None
             (mkLayout sizeof_value (maxNumMipmaps layout))).

(** [assign(storage, offset, stride, width, height, depth, layout)];
    pointer arithmetic is on byte addresses. *)
Definition assign_storage (storage : option Storage) (offset stride : Z)
           (width height depth : Z) (layout : Layout) (a : Array3D)
  : list ptr * Array3D :=
  (_delete a,
   let layout := mkLayout stride (maxNumMipmaps layout) in
   match storage with
   | Some st =>
       if negb (storage_dataPointer st =? nullptr)
       then mkArray3D (storage_dataPointer st + offset) width height depth storage layout
       else mkArray3D nullptr 0 0 0 storage layout
   | None => mkArray3D nullptr 0 0 0 storage layout
   end).

(** [dataRelease()]: the pointer returned, and the array afterwards. *)
Definition dataRelease (a : Array3D) : ptr * Array3D :=
  match _storage a with
  | None => (_data a, mkArray3D nullptr 0 0 0 None (_layout a))
  | Some _ => (nullptr, a)
  end.

(** The operations on the buffer of an array, and a run of them: the
    pointers deleted and the pointers released to the caller, oldest
    first, and the array at the end. *)
Inductive Op :=
| Clear
| AssignData (sizeof_value width height depth : Z) (data : ptr) (layout : Layout)
| AssignStorage (storage : option Storage) (offset stride width height depth : Z)
                (layout : Layout)
| DataRelease.

Definition step (st : list ptr * list ptr * Array3D) (op : Op)
  : list ptr * list ptr * Array3D :=
  let '(deleted, released, a) := st in
  match op with
  | Clear => let '(d, a) := clear a in (deleted ++ d, released, a)
  | AssignData s w h d p l =>
      let '(d, a) := assign_data s w h d p l a in (deleted ++ d, released, a)
  | AssignStorage st o s w h d l =>
      let '(d, a) := assign_storage st o s w h d l a in (deleted ++ d, released, a)
  | DataRelease =>
      let '(p, a) := dataRelease a in
      (deleted, released ++ (if p =? nullptr then [] else [p]), a)
  end.

Definition run (ops : list Op) (a : Array3D) : list ptr * list ptr * Array3D :=
  fold_left step ops ([], [], a).

(** The buffers handed to the array by [assign(width, height, depth, data)],
    null pointers apart. *)
Definition given (ops : list Op) : list ptr :=
  omap (fun op => match op with
                  | AssignData _ _ _ _ p _ => if p =? nullptr then None else Some p
                  | _ => None
                  end) ops.

(** The buffer the array owns: it will delete it when cleared or destroyed. *)
Definition owned (a : Array3D) : list ptr := _delete a.

(** What [read] takes from its input: the layout that [Data::read] leaves
    in [_layout] (Data.h is not among the sources; of the array,
    [Data::read] can reach the layout only), the three extents, whether
    the property "Data" follows, and the address that [new[]] returns
    should [read] allocate. *)
Record Input := mkInput {
  in_layout : Layout;
  in_width : Z;
  in_height : Z;
  in_depth : Z;
  in_matchData : bool;
  in_new : ptr
}.

Section Read.

Variable computeValueCountIncludingMipmaps : Z -> Z -> Z -> Z -> Z.
Variable sizeof_value : Z.

Definition new_size (input : Input) : Z :=
  computeValueCountIncludingMipmaps (in_width input) (in_height input) (in_depth input)
                                    (maxNumMipmaps (in_layout input)).

(** [read(input)]: the pointers deleted, the pointers allocated, and the
    array afterwards.  What [input.read] stores in the buffer is not
    modelled. *)
Definition read (input : Input) (a : Array3D) : list ptr * list ptr * Array3D :=
  let original_size := size computeValueCountIncludingMipmaps a in
  let new_size := new_size input in
  if in_matchData input then
    let '(deleted, allocated, data) :=
      if negb (_data a =? nullptr) then
        if negb (original_size =? new_size)
        then (_delete a, [in_new input], in_new input)
        else ([], [], _data a)
      else ([], [in_new input], in_new input) in
    (deleted, allocated,
     mkArray3D data (in_width input) (in_height input) (in_depth input) None
               (mkLayout sizeof_value (maxNumMipmaps (in_layout input))))
  else
    ([], [],
     mkArray3D (_data a) (_width a) (_height a) (_depth a) (_storage a) (in_layout input)).

(** [read] reuses the buffer of an array that points into a storage object
    when the sizes agree. *)
Definition adopts (input : Input) (a : Array3D) : bool :=
  in_matchData input && bool_decide (is_Some (_storage a)) &&
  negb (_data a =? nullptr) &&
  (size computeValueCountIncludingMipmaps a =? new_size input).

End Read.

End Array3D.

Module DescriptorImage.

(** The [while] loop of [computeNumMipMapLevels] (lines 33-36).  A shift
    of a 32-bit value by 32 or more is undefined: [None].  Every pass
    decrements [mipLevels], so 33 passes are enough to return or to reach
    such a shift. *)
Fixpoint clamp_mipLevels (fuel : nat) (mipLevels maxDimension : Z) : option Z :=
  match fuel with
  | O => None
  | S fuel =>
      let shift := wrap32 (mipLevels - 1) in
      if 32 <=? shift then None
      else if 2 ^ shift >? maxDimension
           then clamp_mipLevels fuel (wrap32 (mipLevels - 1)) maxDimension
           else Some mipLevels
  end.

(** [vsg::computeNumMipMapLevels(data, sampler)].  Of the data the
    function reads the three extents, of the sampler [info().maxLod], a
    [float]; the sampler is given as the integer [ceil(maxLod)], or [None]
    for a null pointer.  The conversion of a value outside [uint32_t] is
    undefined: [None]. *)
Definition computeNumMipMapLevels (width height depth : Z) (sampler : option Z)
  : option Z :=
  mipLevels ← match sampler with
              | Some ceil_maxLod =>
                  if (0 <=? ceil_maxLod) && (ceil_maxLod <? 2 ^ 32)
                  then Some ceil_maxLod else None
              | None => Some 1
              end;
  let mipLevels := if mipLevels =? 0 then 1 else mipLevels in
  let maxDimension := Z.max width (Z.max height depth) in
  clamp_mipLevels 33 mipLevels maxDimension.

End DescriptorImage.


(** ** Inputs for the further properties *)

(** A minimised window, and a window that needs two rebuilds of its
    swapchain before it acquires an image. *)
Definition hidden_window : ScriptedWindow :=
  mkScriptedWindow true false 1 [] [VK_ERROR_OUT_OF_HOST_MEMORY] 0.

Definition rebuilt_window : ScriptedWindow :=
  mkScriptedWindow true true 1 [] [VK_ERROR_OUT_OF_DATE_KHR; VK_ERROR_SURFACE_LOST_KHR] 0.

(** A command graph that has no device. *)
Definition graph_without_device : CommandGraph := mkCommandGraph 103 nullptr 0 0 10.

(** The session of the scenario when [setupThreading] is called a second
    time: the viewer publishes and waits, the threads are scheduled. *)
Definition restarted_schedule : list SessionAction :=
  [SSet (mkFrameStamp 100 0); SArrive; SWorker 0 0; SWorker 1 0; SWorker 1 1].

(** A 4 x 3 x 2 array of floats that owns its buffer at address 4096, and
    a 65536 x 65536 x 2 array. *)
Definition small_array : Array3D.Array3D :=
  Array3D.mkArray3D 4096 4 3 2 None (Array3D.mkLayout 4 0).

Definition huge_array : Array3D.Array3D :=
  Array3D.mkArray3D 4096 65536 65536 2 None (Array3D.mkLayout 4 0).

(** A buffer is handed over and released again, then the array is pointed
    into a storage object and cleared. *)
Definition buffer_ops : list Array3D.Op :=
  [Array3D.AssignData 4 2 2 2 5000 (Array3D.mkLayout 4 0);
   Array3D.DataRelease;
   Array3D.AssignStorage (Some (Array3D.mkStorage 1 9000)) 16 4 1 1 1 (Array3D.mkLayout 4 0);
   Array3D.Clear].

(** An array that points into a storage object, and an input of the same
    size. *)
Definition stored_array : Array3D.Array3D :=
  Array3D.mkArray3D 9016 2 2 2 (Some (Array3D.mkStorage 1 9000)) (Array3D.mkLayout 4 0).

Definition same_size_input : Array3D.Input :=
  Array3D.mkInput (Array3D.mkLayout 4 0) 4 2 1 true 7000.

(** * Properties *)

Lemma wrap32_small z : 0 <= z < 2 ^ 32 -> wrap32 z = z.
Proof. intros Hz. unfold wrap32. now apply Z.mod_small. Qed.

Lemma wrap32_range z : 0 <= wrap32 z < 2 ^ 32.
Proof. unfold wrap32. apply Z.mod_pos_bound. reflexivity. Qed.

Lemma size_nonneg {A} (l : list A) : 0 <= size l.
Proof. unfold size. lia. Qed.

Lemma size_app {A} (l k : list A) : size (l ++ k) = size l + size k.
Proof. unfold size. rewrite length_app. lia. Qed.

(** ** The threading session of reachable viewers *)

Section Lifecycle.

Context {W : Type} `{WindowOps W}.
Variable frameCount_bits : Z.

Lemma fold_left_invariant {A B} (P : A -> Prop) (f : A -> B -> A) l a :
  P a -> (forall a b, P a -> P (f a b)) -> P (fold_left f l a).
Proof.
  intros Ha Hf. revert a Ha.
  induction l as [|b l IH]; intros a Ha; simpl; [exact Ha|].
  apply IH, Hf, Ha.
Qed.

Lemma session_log c (v : Viewer W) : session (log c v) = session v.
Proof. reflexivity. Qed.

Lemma session_deviceWaitIdle (v : Viewer W) : session (deviceWaitIdle v) = session v.
Proof. reflexivity. Qed.

Lemma session_active (v : Viewer W) : session (active v).2 = session v.
Proof.
  unfold active.
  destruct (negb _); [apply session_deviceWaitIdle | reflexivity].
Qed.

Lemma session_pollEvents d (v : Viewer W) : session (pollEvents d v).2 = session v.
Proof.
  unfold pollEvents.
  destruct (pollEvents_windows _ _ _) as [[r events] ws]. reflexivity.
Qed.

Lemma session_stamp_frame now (v : Viewer W) :
  session (stamp_frame frameCount_bits now v) = session v.
Proof.
  unfold stamp_frame.
  destruct (_frameStamp v) as [a|]; [destruct (stamps v !! a)|]; reflexivity.
Qed.

Lemma session_advance now (v : Viewer W) :
  session (advance frameCount_bits now v) = session v.
Proof.
  unfold advance.
  pose proof (session_pollEvents true v) as Hp.
  destruct (pollEvents true v) as [r v1]. simpl in Hp.
  now rewrite session_stamp_frame.
Qed.

Lemma session_acquireNextFrame fuel (v : Viewer W) r v' :
  acquireNextFrame fuel v = Some (r, v') -> session v' = session v.
Proof.
  unfold acquireNextFrame. intros Hacq.
  destruct (_close v); [now inversion Hacq|].
  destruct (acquire_windows fuel (_windows v) VK_SUCCESS []) as [[[res ws] l]|];
    simpl in Hacq; [|discriminate].
  now inversion Hacq.
Qed.

Lemma session_advanceToNextFrame fuel now (v : Viewer W) r v' :
  advanceToNextFrame frameCount_bits fuel now v = Some (r, v') ->
  session v' = session v.
Proof.
  unfold advanceToNextFrame. intros Hadv.
  pose proof (session_active v) as Hact.
  destruct (active v) as [act v1]. simpl in Hact.
  destruct act; simpl in Hadv; [|inversion Hadv; now subst].
  pose proof (session_pollEvents true v1) as Hp.
  destruct (pollEvents true v1) as [r1 v2]. simpl in Hp.
  destruct (acquireNextFrame fuel v2) as [[acquired v3]|] eqn:Hacq;
    simpl in Hadv; [|discriminate].
  apply session_acquireNextFrame in Hacq.
  destruct acquired; simpl in Hadv; inversion Hadv; subst.
  - rewrite session_stamp_frame. congruence.
  - congruence.
Qed.

(** What every served group keeps holds on after the whole loop. *)
Lemma assign_groups_invariant (P : Viewer W -> Prop) pager m (v v' : Viewer W) :
  (forall v1 entry v2, P v1 -> assign_group pager v1 entry = Some v2 -> P v2) ->
  P v -> assign_groups pager m v = Some v' -> P v'.
Proof.
  intros Hstep. revert v. induction m as [|entry m IH]; intros v Hv Hrun; simpl in Hrun.
  - injection Hrun as <-. exact Hv.
  - destruct (assign_group pager v entry) as [v1|] eqn:Hg; simpl in Hrun; [|discriminate].
    apply (IH v1); [|exact Hrun]. exact (Hstep _ _ _ Hv Hg).
Qed.

Lemma session_assign cgs pager (v v' : Viewer W) :
  assignRecordAndSubmitTaskAndPresentation cgs pager v = Some v' ->
  session v' = session v.
Proof.
  unfold assignRecordAndSubmitTaskAndPresentation.
  apply (assign_groups_invariant (fun v' => session v' = session v)); [|reflexivity].
  intros v1 [k g] v2 Hv1. unfold assign_group.
  destruct (device k =? nullptr); [discriminate|].
  destruct (0 <=? presentFamily k); intros [= <-]; exact Hv1.
Qed.

Lemma session_update (v : Viewer W) : session (update v) = session v.
Proof.
  unfold update.
  apply (fold_left_invariant (fun v' => session v' = session v)); [reflexivity|].
  intros v' task Hv'. destruct (databasePager task); exact Hv'.
Qed.

Lemma session_present (v : Viewer W) : session (present v) = session v.
Proof.
  unfold present.
  apply (fold_left_invariant (fun v' => session v' = session v)); [reflexivity|].
  intros v' p Hv'. exact Hv'.
Qed.

Lemma session_compile_tasks m tasks (v v' : Viewer W) :
  compile_tasks m v tasks = Some v' -> session v' = session v.
Proof.
  revert v. induction tasks as [|task tasks IH]; intros v Hc; simpl in Hc.
  - now inversion Hc.
  - destruct (compile_task m v task) as [v1|] eqn:Ht; simpl in Hc; [|discriminate].
    rewrite (IH _ Hc). clear IH Hc.
    unfold compile_task in Ht.
    destruct (compile_graphs m (commandGraphs task)) as [l|]; simpl in Ht; [|discriminate].
    destruct (databasePager task) as [pager|]; [|now inversion Ht].
    destruct (pager_compileTraversal m (commandGraphs task)) as [[ct|]|];
      simpl in Ht; inversion Ht; reflexivity.
Qed.

Lemma session_start_pagers (v : Viewer W) : session (start_pagers v) = session v.
Proof.
  unfold start_pagers.
  apply (fold_left_invariant (fun v' => session v' = session v)); [reflexivity|].
  intros v' task Hv'. destruct (databasePager task); exact Hv'.
Qed.

Lemma session_compile (v v' : Viewer W) :
  compile v = Some v' -> session v' = session v.
Proof.
  unfold compile. intros Hc.
  destruct (bool_decide _); [now inversion Hc|].
  destruct (collect_devices (recordAndSubmitTasks v)) as [m l].
  destruct (allocate_compile m _) as [[[m' next] l']|]; simpl in Hc; [|discriminate].
  destruct (compile_tasks m' _ _) as [v1|] eqn:Ht; simpl in Hc; [|discriminate].
  apply session_compile_tasks in Ht.
  inversion Hc; subst. rewrite session_start_pagers. exact Ht.
Qed.

Lemma session_ok_session (v v' : Viewer W) :
  session v' = session v -> session_ok v -> session_ok v'.
Proof.
  unfold session, session_ok. intros Hs.
  inversion Hs as [[Ht Hth Hfb Hsc]]. now rewrite Ht, Hth, Hfb, Hsc.
Qed.

Lemma session_ok_stopThreading (v : Viewer W) :
  session_ok v -> session_ok (stopThreading v).
Proof.
  unfold stopThreading, session_ok.
  destruct (_threading v) eqn:Ht; simpl; [reflexivity|].
  now rewrite Ht.
Qed.

Lemma stopThreading_off (v : Viewer W) : _threading (stopThreading v) = false.
Proof.
  unfold stopThreading. destruct (_threading v) eqn:Ht; simpl; [reflexivity|exact Ht].
Qed.

Lemma session_ok_setupThreading (v v' : Viewer W) :
  session_ok v -> setupThreading v = Some v' -> session_ok v'.
Proof.
  unfold setupThreading. intros Hok Hs.
  assert (Hok1 : session_ok (stopThreading (log [cout_setupThreading] v))).
  { apply session_ok_stopThreading. exact Hok. }
  destruct (count_tasks _) as [nv nc].
  destruct (nc <=? 1); [now inversion Hs|].
  destruct (spawn_tasks _ _ _ _ _) as [[next ths]|]; simpl in Hs; [|discriminate].
  inversion Hs; subst. unfold session_ok. simpl. split; eauto.
Qed.

Lemma session_ok_recordAndSubmit (v v' : Viewer W) :
  session_ok v -> recordAndSubmit v = Some v' -> session_ok v'.
Proof.
  unfold recordAndSubmit, session_ok. intros Hok Hr.
  destruct (_threading v) eqn:Ht.
  - destruct (_frameBlock v) as [fb|]; simpl in Hr; [|discriminate].
    destruct (_submissionCompleted v) as [sc|] eqn:Hsc; simpl in Hr; [|discriminate].
    inversion Hr; subst. simpl. rewrite Ht, Hsc. eauto.
  - inversion Hr; subst. clear Hr.
    assert (Hs : session (fold_left
                   (fun v0 t => log [Task_submit (task_id t) (_frameStamp v0)] v0)
                   (recordAndSubmitTasks v) v) = session v).
    { apply (fold_left_invariant (fun v' => session v' = session v)); [reflexivity|].
      intros a b Ha. exact Ha. }
    unfold session in Hs. inversion Hs as [[Ht' Hth Hfb Hsc]].
    now rewrite Ht', Ht, Hth.
Qed.

Lemma Reachable_session_ok (v : Viewer W) :
  Reachable frameCount_bits v -> session_ok v.
Proof.
  induction 1 as
    [ | v ws _ IH | v w _ IH | v _ IH | v _ IH | v d _ IH | v now _ IH
      | v fuel now r v' _ IH Hadv | v fuel r v' _ IH Hacq | v cgs pager v' _ IH Ha
      | v v' _ IH Hc | v v' _ IH Hs | v _ IH | v _ IH | v v' _ IH Hr | v _ IH
      | v ps _ IH ].
  - reflexivity.
  - exact IH.
  - exact IH.
  - apply session_ok_stopThreading. exact IH.
  - eapply session_ok_session; [apply session_active | exact IH].
  - eapply session_ok_session; [apply session_pollEvents | exact IH].
  - eapply session_ok_session; [apply session_advance | exact IH].
  - eapply session_ok_session; [eapply session_advanceToNextFrame, Hadv | exact IH].
  - eapply session_ok_session; [eapply session_acquireNextFrame, Hacq | exact IH].
  - eapply session_ok_session; [eapply session_assign, Ha | exact IH].
  - eapply session_ok_session; [eapply session_compile, Hc | exact IH].
  - eapply session_ok_setupThreading; eassumption.
  - apply session_ok_stopThreading. exact IH.
  - eapply session_ok_session; [apply session_update | exact IH].
  - eapply session_ok_recordAndSubmit; eassumption.
  - eapply session_ok_session; [apply session_present | exact IH].
  - exact IH.
Qed.

(** ** Frame stamps *)

Lemma frame_state_active (v : Viewer W) : frame_state (active v).2 = frame_state v.
Proof. unfold active. destruct (negb _); reflexivity. Qed.

Lemma frame_state_pollEvents d (v : Viewer W) :
  frame_state (pollEvents d v).2 = frame_state v.
Proof.
  unfold pollEvents.
  destruct (pollEvents_windows _ _ _) as [[r events] ws]. reflexivity.
Qed.

Lemma frame_state_acquireNextFrame fuel (v : Viewer W) r v' :
  acquireNextFrame fuel v = Some (r, v') -> frame_state v' = frame_state v.
Proof.
  unfold acquireNextFrame. intros Hacq.
  destruct (_close v); [now inversion Hacq|].
  destruct (acquire_windows fuel (_windows v) VK_SUCCESS []) as [[[res ws] l]|];
    simpl in Hacq; [|discriminate].
  now inversion Hacq.
Qed.

Lemma new_FrameStamp_new_frame now count (v0 v : Viewer W) :
  frame_state v = frame_state v0 ->
  let v1 := new_FrameStamp now count v in
  new_frame now count v0
            (set_events (_events v1 ++ [FrameEvent (_frameStamp v1)]) v1).
Proof.
  unfold frame_state. intros Hfs. inversion Hfs as [[Hr Hst]].
  exists (length (stamps v0)). simpl. rewrite Hst.
  repeat split.
  - apply lookup_ge_None. lia.
  - rewrite lookup_app_r by lia. now rewrite Nat.sub_diag.
  - intros b fs Hb. rewrite lookup_app_l; [exact Hb|]. now apply lookup_lt_Some in Hb.
  - eexists. reflexivity.
Qed.

Lemma stamp_frame_first now (v0 v : Viewer W) :
  frame_state v = frame_state v0 -> _frameStamp v0 = None ->
  new_frame now 0 v0 (stamp_frame frameCount_bits now v).
Proof.
  intros Hfs Hnone. unfold stamp_frame.
  assert (Hn : _frameStamp v = None).
  { unfold frame_state in Hfs. inversion Hfs. congruence. }
  rewrite Hn. now apply new_FrameStamp_new_frame.
Qed.

Lemma stamp_frame_next now (v0 v : Viewer W) a prev :
  frame_state v = frame_state v0 ->
  _frameStamp v0 = Some a -> stamps v0 !! a = Some prev ->
  new_frame now (next_frameCount frameCount_bits prev) v0
            (stamp_frame frameCount_bits now v).
Proof.
  intros Hfs Ha Hprev. unfold stamp_frame.
  assert (Hn : _frameStamp v = Some a /\ stamps v !! a = Some prev).
  { unfold frame_state in Hfs. inversion Hfs as [[Hr Hst]]. rewrite Hr, Hst. auto. }
  destruct Hn as [-> ->]. now apply new_FrameStamp_new_frame.
Qed.

Lemma advanceToNextFrame_true fuel now (v v' : Viewer W) :
  advanceToNextFrame frameCount_bits fuel now v = Some (true, v') ->
  exists v1, frame_state v1 = frame_state v /\ v' = stamp_frame frameCount_bits now v1.
Proof.
  unfold advanceToNextFrame. intros Hadv.
  pose proof (frame_state_active v) as Hact.
  destruct (active v) as [act v1]. simpl in Hact.
  destruct act; simpl in Hadv; [|discriminate].
  pose proof (frame_state_pollEvents true v1) as Hp.
  destruct (pollEvents true v1) as [r1 v2]. simpl in Hp.
  destruct (acquireNextFrame fuel v2) as [[acquired v3]|] eqn:Hacq;
    simpl in Hadv; [|discriminate].
  apply frame_state_acquireNextFrame in Hacq.
  destruct acquired; simpl in Hadv; [|discriminate].
  inversion Hadv; subst. exists v3. split; congruence.
Qed.

Lemma advance_stamp_frame now (v : Viewer W) :
  exists v1, frame_state v1 = frame_state v /\
             advance frameCount_bits now v = stamp_frame frameCount_bits now v1.
Proof.
  unfold advance.
  pose proof (frame_state_pollEvents true v) as Hp.
  destruct (pollEvents true v) as [r v1]. simpl in Hp.
  exists v1. auto.
Qed.

(** C5.  A call to [advance], or a call to [advanceToNextFrame] that
    returns [true], made when a previous frame stamp [prev] exists (and
    its count is not the largest value of the counter's type) creates a
    stamp at a fresh address whose [frameCount] is [frameCount prev + 1];
    the previous stamp and every older one stay in the heap unchanged, and
    the viewer now refers to the new one. *)
Theorem frameCount_increases_by_one now (v : Viewer W) a prev :
  _frameStamp v = Some a ->
  stamps v !! a = Some prev ->
  0 <= frameCount prev ->
  frameCount prev + 1 < 2 ^ frameCount_bits ->
  let fresh v' :=
    new_frame now (frameCount prev + 1) v v' /\
    _frameStamp v' <> Some a /\
    stamps v' !! a = Some prev in
  fresh (advance frameCount_bits now v) /\
  forall fuel v',
    advanceToNextFrame frameCount_bits fuel now v = Some (true, v') -> fresh v'.
Proof.
  intros Ha Hprev H0 Hmax fresh.
  assert (Hcount : next_frameCount frameCount_bits prev = frameCount prev + 1).
  { unfold next_frameCount. apply Z.mod_small. lia. }
  assert (Hfresh : forall v1, frame_state v1 = frame_state v ->
                              fresh (stamp_frame frameCount_bits now v1)).
  { intros v1 Hfs. pose proof (stamp_frame_next now v v1 a prev Hfs Ha Hprev) as Hnew.
    rewrite Hcount in Hnew. split; [exact Hnew|].
    destruct Hnew as (a' & Ha' & Hr & Hnone & _ & Hold & _).
    split; [|now apply Hold].
    rewrite Hr. intros [= ->]. congruence. }
  split.
  - destruct (advance_stamp_frame now v) as (v1 & Hfs & ->). now apply Hfresh.
  - intros fuel v' Hadv.
    destruct (advanceToNextFrame_true _ _ _ _ Hadv) as (v1 & Hfs & ->). now apply Hfresh.
Qed.

(** C10.  On the first frame, when the viewer has no frame stamp yet, a
    call to [advance], or a call to [advanceToNextFrame] that returns
    [true], creates a stamp with [frameCount] 0 and leaves a [FrameEvent]
    carrying that stamp at the end of the event queue. *)
Theorem first_frame_count_is_zero now (v : Viewer W) :
  _frameStamp v = None ->
  let first v' :=
    exists a, _frameStamp v' = Some a /\
              frameCount <$> stamps v' !! a = Some 0 /\
              exists events, _events v' = events ++ [FrameEvent (Some a)] in
  first (advance frameCount_bits now v) /\
  forall fuel v',
    advanceToNextFrame frameCount_bits fuel now v = Some (true, v') -> first v'.
Proof.
  intros Hnone first.
  assert (Hfirst : forall v1, frame_state v1 = frame_state v ->
                              first (stamp_frame frameCount_bits now v1)).
  { intros v1 Hfs.
    destruct (stamp_frame_first now v v1 Hfs Hnone)
      as (a' & _ & Hr & _ & Hst & _ & Hev).
    exists a'. rewrite Hst. auto. }
  split.
  - destruct (advance_stamp_frame now v) as (v1 & Hfs & ->). now apply Hfirst.
  - intros fuel v' Hadv.
    destruct (advanceToNextFrame_true _ _ _ _ Hadv) as (v1 & Hfs & ->). now apply Hfirst.
Qed.

(** ** Submission *)

Lemma submit_loop_calls (stamp : stamp_ref) tasks (v : Viewer W) :
  _frameStamp v = stamp ->
  let v' := fold_left (fun v0 t => log [Task_submit (task_id t) (_frameStamp v0)] v0)
                      tasks v in
  _frameStamp v' = stamp /\
  calls v' = calls v ++ map (fun t => Task_submit (task_id t) stamp) tasks.
Proof.
  revert v. induction tasks as [|t tasks IH]; intros v Hst; simpl.
  - split; [exact Hst|]. now rewrite app_nil_r.
  - destruct (IH (log [Task_submit (task_id t) (_frameStamp v)] v) Hst) as [Hs Hc].
    split; [exact Hs|]. rewrite Hc. simpl. rewrite Hst, <- app_assoc. reflexivity.
Qed.

(** C7.  [recordAndSubmit] dispatches on the threading mode.  With a
    session on it publishes the current stamp through the frame block and
    then waits at the submission-completed barrier, and calls nothing
    else; with no session on it calls [submit] with the current stamp on
    every task of [recordAndSubmitTasks], in list order. *)
Theorem recordAndSubmit_dispatch (v : Viewer W) :
  Reachable frameCount_bits v ->
  exists v', recordAndSubmit v = Some v' /\
    if _threading v then
      exists frameBlock submissionCompleted,
        _frameBlock v = Some frameBlock /\
        _submissionCompleted v = Some submissionCompleted /\
        calls v' = calls v ++
                   [FrameBlock_set (fb_id frameBlock) (_frameStamp v);
                    Barrier_arrive_and_wait (barrier_id submissionCompleted)]
    else
      calls v' = calls v ++
                 map (fun task => Task_submit (task_id task) (_frameStamp v))
                     (recordAndSubmitTasks v).
Proof.
  intros Hreach. apply Reachable_session_ok in Hreach.
  unfold session_ok in Hreach. unfold recordAndSubmit.
  destruct (_threading v).
  - destruct Hreach as [[fb Hfb] [sc Hsc]]. rewrite Hfb. simpl. rewrite Hsc. simpl.
    eexists. split; [reflexivity|]. exists fb, sc. simpl.
    rewrite <- app_assoc. auto.
  - eexists. split; [reflexivity|].
    now apply (submit_loop_calls (_frameStamp v)).
Qed.

(** ** Teardown *)

Lemma close_closed (v : Viewer W) :
  let c := close v in
  _close c = true /\ _status c = false /\ _threading c = false.
Proof.
  unfold close, stopThreading. simpl.
  destruct (_threading v) eqn:Ht; simpl; auto.
Qed.

Lemma close_fixpoint (v : Viewer W) :
  _close v = true -> _status v = false -> _threading v = false -> close v = v.
Proof.
  intros Hc Hs Ht. unfold close, stopThreading. simpl. rewrite Ht. simpl.
  destruct v; simpl in *. now subst.
Qed.

(** C8.  [stopThreading] with no session on returns the viewer as it was.
    [close] is idempotent: closing a closed viewer changes nothing, however
    often it is repeated, and the closed viewer has its close flag set, its
    activity status cleared, no session and no threads. *)
Theorem stopThreading_noop_close_idempotent (v : Viewer W) :
  (_threading v = false -> stopThreading v = v) /\
  (Reachable frameCount_bits v ->
   let c := close v in
   (forall n, Nat.iter n close c = c) /\
   _close c = true /\ _status c = false /\ _threading c = false /\ threads c = []).
Proof.
  split.
  - intros Ht. unfold stopThreading. now rewrite Ht.
  - intros Hreach c.
    destruct (close_closed v) as (Hc & Hs & Ht). fold c in Hc, Hs, Ht.
    assert (Hfix : close c = c) by now apply close_fixpoint.
    split; [|repeat split; try assumption].
    + induction n as [|n IH]; [reflexivity|]. simpl. now rewrite IH.
    + assert (Hok : session_ok c).
      { apply Reachable_session_ok. now apply reach_close. }
      unfold session_ok in Hok. now rewrite Ht in Hok.
Qed.

End Lifecycle.

(** ** Thread topology *)

Lemma total_command_graphs_nonneg tasks : 0 <= total_command_graphs tasks.
Proof.
  induction tasks as [|t tasks IH]; simpl; [lia|].
  pose proof (size_nonneg (commandGraphs t)). lia.
Qed.

Lemma valid_task_count_nonneg tasks : 0 <= valid_task_count tasks.
Proof.
  induction tasks as [|t tasks IH]; simpl; [lia|].
  destruct (1 <=? size (commandGraphs t)); lia.
Qed.

Lemma valid_task_count_le_total tasks :
  valid_task_count tasks <= total_command_graphs tasks.
Proof.
  induction tasks as [|t tasks IH]; simpl; [lia|].
  destruct (Z.leb_spec 1 (size (commandGraphs t)));
    pose proof (size_nonneg (commandGraphs t)); lia.
Qed.

Lemma total_command_graphs_shapes tasks :
  total_command_graphs tasks = Z.of_nat (list_sum (map shape tasks)).
Proof.
  induction tasks as [|t tasks IH]; simpl; [reflexivity|].
  rewrite IH. unfold size, shape. lia.
Qed.

Lemma wrap32_add_l a b : wrap32 (wrap32 a + b) = wrap32 (a + b).
Proof. unfold wrap32. apply Zplus_mod_idemp_l. Qed.

(** The two counters of [setupThreading] are the number of valid tasks and
    the number of command graphs, each modulo 2^32. *)
Lemma count_tasks_wrap tasks :
  count_tasks tasks =
  (wrap32 (valid_task_count tasks), wrap32 (total_command_graphs tasks)).
Proof.
  unfold count_tasks.
  enough (Hgen : forall a b,
             fold_left (fun '(numValidTasks, numCommandGraphs) task =>
                          (if 1 <=? size (commandGraphs task)
                           then wrap32 (numValidTasks + 1) else numValidTasks,
                           wrap32 (numCommandGraphs + size (commandGraphs task))))
                       tasks (wrap32 a, wrap32 b) =
             (wrap32 (a + valid_task_count tasks),
              wrap32 (b + total_command_graphs tasks))).
  { apply (Hgen 0 0). }
  induction tasks as [|t tasks IH]; intros a b; simpl.
  - now rewrite !Z.add_0_r.
  - rewrite !wrap32_add_l.
    destruct (1 <=? size (commandGraphs t)).
    + rewrite IH. f_equal; f_equal; lia.
    + rewrite IH. f_equal; f_equal; lia.
Qed.

Lemma spawn_loop_secondary fuel i sd cgs ths :
  1 <= i <= size cgs -> size cgs < 2 ^ 32 -> size cgs - i < Z.of_nat fuel ->
  spawn_loop fuel i sd cgs ths =
  Some (ths ++ map (run_secondary sd) (drop (Z.to_nat i) cgs)).
Proof.
  revert i ths. induction fuel as [|fuel IH]; intros i ths Hi Hsize Hfuel; [lia|].
  simpl. destruct (Z.ltb_spec i (size cgs)) as [Hlt|Hge].
  - destruct (cgs !! Z.to_nat i) as [cg|] eqn:Hcg.
    2:{ apply lookup_ge_None in Hcg. unfold size in Hlt. lia. }
    simpl. destruct (Z.eqb_spec i 0) as [->|_]; [lia|].
    rewrite wrap32_small by lia.
    rewrite IH by lia.
    rewrite (drop_S _ _ _ Hcg). simpl.
    replace (Z.to_nat (i + 1)) with (S (Z.to_nat i)) by lia.
    now rewrite <- app_assoc.
  - rewrite drop_ge by (unfold size in *; lia). now rewrite app_nil_r.
Qed.

(** The thread creation loop of a task with fewer than 2^32 command graphs:
    a primary thread for the first, a secondary thread for each other. *)
Lemma spawn_loop_spec sd cg0 rest ths :
  size (cg0 :: rest) < 2 ^ 32 ->
  spawn_loop (S (length (cg0 :: rest))) 0 sd (cg0 :: rest) ths =
  Some (ths ++ run_primary sd cg0 :: map (run_secondary sd) rest).
Proof.
  intros Hsize.
  assert (Hpos : (0 <? size (cg0 :: rest)) = true).
  { apply Z.ltb_lt. unfold size. simpl. lia. }
  remember (length (cg0 :: rest)) as fuel eqn:Hfuel.
  cbn [spawn_loop]. rewrite Hpos.
  change ((cg0 :: rest) !! Z.to_nat 0) with (Some cg0).
  change (wrap32 (0 + 1)) with 1. cbn [mbind option_bind Z.eqb].
  rewrite spawn_loop_secondary.
  - change (Z.to_nat 1) with 1%nat. cbn [drop]. rewrite drop_0.
    now rewrite <- app_assoc.
  - unfold size. simpl. lia.
  - exact Hsize.
  - subst fuel. unfold size. simpl. lia.
Qed.

(** With 2^32 command graphs or more the index wraps around before it
    reaches the size: the loop never ends, whatever the fuel. *)
Lemma spawn_loop_diverges fuel i sd cgs ths :
  2 ^ 32 <= size cgs -> 0 <= i < 2 ^ 32 -> spawn_loop fuel i sd cgs ths = None.
Proof.
  intros Hsize. revert i ths.
  induction fuel as [|fuel IH]; intros i ths Hi; [reflexivity|].
  simpl. destruct (Z.ltb_spec i (size cgs)) as [Hlt|Hge]; [|lia].
  destruct (cgs !! Z.to_nat i) as [cg|] eqn:Hcg.
  2:{ apply lookup_ge_None in Hcg. unfold size in Hlt. lia. }
  simpl. apply IH. apply wrap32_range.
Qed.

Lemma spawn_task_spec fb sc task next ths :
  size (commandGraphs task) < 2 ^ 32 ->
  spawn_task fb sc task next ths =
  Some (next_after next task, ths ++ task_threads fb sc next task).
Proof.
  intros Hsize. unfold spawn_task, task_threads, next_after.
  destruct (commandGraphs task) as [|cg0 [|cg1 rest]] eqn:Hcgs.
  - simpl. now rewrite app_nil_r.
  - reflexivity.
  - assert (Hne : (size (cg0 :: cg1 :: rest) =? 1) = false).
    { apply Z.eqb_neq. unfold size. simpl. lia. }
    assert (Hge : (1 <=? size (cg0 :: cg1 :: rest)) = true).
    { apply Z.leb_le. unfold size. simpl. lia. }
    rewrite Hne, Hge. rewrite spawn_loop_spec by exact Hsize. reflexivity.
Qed.

Lemma spawn_tasks_spec fb sc tasks next ths :
  total_command_graphs tasks < 2 ^ 32 ->
  exists next',
    spawn_tasks fb sc tasks next ths =
    Some (next', ths ++ tasks_threads fb sc next tasks).
Proof.
  revert next ths. induction tasks as [|t tasks IH]; intros next ths Htotal; simpl.
  - exists next. now rewrite app_nil_r.
  - simpl in Htotal.
    pose proof (total_command_graphs_nonneg tasks).
    pose proof (size_nonneg (commandGraphs t)).
    rewrite spawn_task_spec by lia. simpl.
    destruct (IH (next_after next t) (ths ++ task_threads fb sc next t)) as [next' ->];
      [lia|].
    exists next'. now rewrite <- app_assoc.
Qed.

Lemma kind_secondary sd cgs :
  map kind (map (run_secondary sd) cgs) = repeat SecondaryThread (length cgs).
Proof. induction cgs as [|cg cgs IH]; simpl; [reflexivity|]. now rewrite IH. Qed.

Lemma kind_task_threads fb sc next task :
  map kind (task_threads fb sc next task) = shape_threads (shape task).
Proof.
  unfold task_threads, shape.
  destruct (commandGraphs task) as [|cg0 [|cg1 rest]]; try reflexivity.
  cbn [map kind length shape_threads]. f_equal.
  apply (kind_secondary _ (cg1 :: rest)).
Qed.

Lemma kind_tasks_threads fb sc next tasks :
  map kind (tasks_threads fb sc next tasks) = flat_map shape_threads (map shape tasks).
Proof.
  revert next. induction tasks as [|t tasks IH]; intros next; simpl; [reflexivity|].
  now rewrite map_app, kind_task_threads, IH.
Qed.

Section Topology.

Context {W : Type} `{WindowOps W}.

Lemma stopThreading_unchanged (v : Viewer W) :
  recordAndSubmitTasks (stopThreading v) = recordAndSubmitTasks v /\
  next_object (stopThreading v) = next_object v.
Proof. unfold stopThreading. destruct (_threading v); simpl; auto. Qed.

Lemma stopThreading_log_threads c (v : Viewer W) :
  threads (stopThreading (log c v)) = threads (stopThreading v).
Proof. unfold stopThreading. simpl. destruct (_threading v); reflexivity. Qed.

(** What [setupThreading] does when the counter of command graphs does not
    overflow. *)
Lemma setupThreading_spec (v : Viewer W) :
  let tasks := recordAndSubmitTasks v in
  let frameBlock := FrameBlock_create (next_object v) in
  let submissionCompleted :=
    Barrier_create (S (next_object v)) (wrap32 (1 + valid_task_count tasks)) in
  total_command_graphs tasks < 2 ^ 32 ->
  exists v', setupThreading v = Some v' /\
    if total_command_graphs tasks <=? 1
    then v' = stopThreading (log [cout_setupThreading] v)
    else _threading v' = true /\
         _frameBlock v' = Some frameBlock /\
         _submissionCompleted v' = Some submissionCompleted /\
         threads v' = threads (stopThreading v) ++
                      tasks_threads frameBlock submissionCompleted
                                    (2 + next_object v) tasks.
Proof.
  intros tasks frameBlock submissionCompleted Htotal.
  unfold setupThreading.
  destruct (stopThreading_unchanged (log [cout_setupThreading] v)) as [Htasks Hnext].
  simpl in Htasks, Hnext. rewrite Htasks. fold tasks.
  rewrite count_tasks_wrap.
  pose proof (total_command_graphs_nonneg tasks) as Hnn.
  pose proof (valid_task_count_nonneg tasks) as Hvn.
  pose proof (valid_task_count_le_total tasks) as Hvt.
  rewrite (wrap32_small (total_command_graphs tasks)) by lia.
  rewrite (wrap32_small (valid_task_count tasks)) by lia.
  destruct (total_command_graphs tasks <=? 1); [eauto|].
  simpl. rewrite Htasks, Hnext. fold tasks frameBlock submissionCompleted.
  destruct (spawn_tasks_spec frameBlock submissionCompleted tasks (2 + next_object v)
              (threads (stopThreading (log [cout_setupThreading] v))) Htotal)
    as [next' Hspawn].
  change (S (S (next_object v))) with (2 + next_object v)%nat.
  rewrite Hspawn. simpl. eexists. split; [reflexivity|]. simpl.
  rewrite stopThreading_log_threads. auto.
Qed.

Lemma tasks_threads_single fb sc next tasks :
  Forall (fun t => size (commandGraphs t) = 1) tasks ->
  tasks_threads fb sc next tasks = map (fun t => run t fb sc) tasks /\
  total_command_graphs tasks = size tasks.
Proof.
  induction 1 as [|t tasks Ht _ IH]; simpl; [auto|].
  destruct IH as [IHt IHn].
  unfold task_threads, next_after.
  destruct (commandGraphs t) as [|cg0 [|cg1 rest]]; unfold size in Ht; simpl in Ht;
    try lia.
  simpl. rewrite IHt, IHn. split; [reflexivity|]. unfold size. simpl. lia.
Qed.

(** C2.  The topology chosen by [setupThreading] is a function of the task
    shapes (the numbers of command graphs, fewer than 2^32 in total): the
    kinds of the threads it creates are [topology] of the shapes.  In
    particular, with 0 or 1 command graphs in all it creates no thread and
    threading stays off; for a single task with K >= 2 command graphs it
    creates K threads, one primary and K - 1 secondary; for several tasks
    with one command graph each it creates one [run] thread per task. *)
Theorem setupThreading_topology (v : Viewer W) :
  let tasks := recordAndSubmitTasks v in
  (total_command_graphs tasks < 2 ^ 32 ->
   exists v' created,
     setupThreading v = Some v' /\
     threads v' = threads (stopThreading v) ++ created /\
     map kind created = topology (map shape tasks) /\
     _threading v' = negb (total_command_graphs tasks <=? 1)) /\
  (total_command_graphs tasks <= 1 ->
   exists v',
     setupThreading v = Some v' /\
     threads v' = threads (stopThreading v) /\ _threading v' = false) /\
  (forall task,
     tasks = [task] -> 2 <= size (commandGraphs task) < 2 ^ 32 ->
     exists v' created,
       setupThreading v = Some v' /\ _threading v' = true /\
       threads v' = threads (stopThreading v) ++ created /\
       size created = size (commandGraphs task) /\
       map kind created =
       PrimaryThread :: repeat SecondaryThread (length (commandGraphs task) - 1)) /\
  (2 <= size tasks < 2 ^ 32 ->
   Forall (fun t => size (commandGraphs t) = 1) tasks ->
   exists v' frameBlock submissionCompleted,
     setupThreading v = Some v' /\ _threading v' = true /\
     threads v' = threads (stopThreading v) ++
                  map (fun t => run t frameBlock submissionCompleted) tasks).
Proof.
  intros tasks.
  pose proof (setupThreading_spec v) as Hspec. cbv zeta in Hspec. fold tasks in Hspec.
  pose proof (total_command_graphs_nonneg tasks) as Hnn.
  split; [|split; [|split]].
  - intros Htotal. destruct (Hspec Htotal) as (v' & Hsetup & Hv').
    unfold topology. rewrite (total_command_graphs_shapes tasks) in Hv' |- *.
    assert (Hleb : (Z.of_nat (list_sum (map shape tasks)) <=? 1) =
                   (list_sum (map shape tasks) <=? 1)%nat).
    { destruct (Z.leb_spec (Z.of_nat (list_sum (map shape tasks))) 1),
               (Nat.leb_spec (list_sum (map shape tasks)) 1); try reflexivity; lia. }
    rewrite <- Hleb.
    destruct (Z.of_nat (list_sum (map shape tasks)) <=? 1).
    + exists v', []. subst v'. rewrite app_nil_r, stopThreading_log_threads.
      repeat split; [exact Hsetup|]. apply stopThreading_off.
    + destruct Hv' as (Hth & _ & _ & Hthreads).
      eexists v', _. repeat split; [exact Hsetup | exact Hthreads | | exact Hth].
      apply kind_tasks_threads.
  - intros Hle. destruct Hspec as (v' & Hsetup & Hv'); [lia|].
    destruct (Z.leb_spec (total_command_graphs tasks) 1); [|lia].
    exists v'. subst v'. rewrite stopThreading_log_threads.
    repeat split; [exact Hsetup|]. apply stopThreading_off.
  - intros task Htasks Hk. rewrite Htasks in Hspec. simpl in Hspec.
    destruct Hspec as (v' & Hsetup & Hv'); [lia|].
    destruct (Z.leb_spec (size (commandGraphs task) + 0) 1); [lia|].
    destruct Hv' as (Hth & _ & _ & Hthreads).
    eexists v', _. repeat split; [exact Hsetup | exact Hth | exact Hthreads | |].
    + rewrite app_nil_r. unfold task_threads.
      destruct (commandGraphs task) as [|cg0 [|cg1 rest]]; unfold size in *;
        simpl in *; try lia.
      rewrite length_map. lia.
    + rewrite app_nil_r, kind_task_threads. unfold shape.
      destruct (commandGraphs task) as [|cg0 [|cg1 rest]]; unfold size in *;
        simpl in *; try lia.
      reflexivity.
  - intros Hn Hsingle.
    destruct (tasks_threads_single
                (FrameBlock_create (next_object v))
                (Barrier_create (S (next_object v)) (wrap32 (1 + valid_task_count tasks)))
                (2 + next_object v) tasks Hsingle) as [Hthreads Htotal].
    destruct Hspec as (v' & Hsetup & Hv'); [lia|].
    destruct (Z.leb_spec (total_command_graphs tasks) 1); [lia|].
    destruct Hv' as (Hth & _ & _ & Hv').
    rewrite Hthreads in Hv'. eauto 10.
Qed.

End Topology.

(** ** Grouping of command graphs *)

Lemma dqf_lt_irrefl k : dqf_lt k k = false.
Proof.
  unfold dqf_lt. rewrite !Z.ltb_irrefl.
  assert (Hgt : forall z, (z >? z) = false).
  { intros z. rewrite Z.gtb_ltb. apply Z.ltb_irrefl. }
  now rewrite !Hgt.
Qed.

Lemma dqf_lt_spec a b :
  dqf_lt a b = true <->
  device a < device b \/
  (device a = device b /\
   (queueFamily a < queueFamily b \/
    (queueFamily a = queueFamily b /\ presentFamily a < presentFamily b))).
Proof.
  unfold dqf_lt. rewrite !Z.gtb_ltb.
  destruct (Z.ltb_spec (device a) (device b)), (Z.ltb_spec (device b) (device a)),
           (Z.ltb_spec (queueFamily a) (queueFamily b)),
           (Z.ltb_spec (queueFamily b) (queueFamily a)),
           (Z.ltb_spec (presentFamily a) (presentFamily b));
    split; intros Hlt; try reflexivity; try discriminate; lia.
Qed.

Lemma dqf_lt_trans a b c : dqf_lt a b = true -> dqf_lt b c = true -> dqf_lt a c = true.
Proof. rewrite !dqf_lt_spec. lia. Qed.

Lemma dqf_lt_total a b : dqf_lt a b = false -> dqf_lt b a = false -> a = b.
Proof.
  rewrite <- !not_true_iff_false, !dqf_lt_spec.
  destruct a as [d1 q1 p1], b as [d2 q2 p2]. simpl. intros Hab Hba.
  f_equal; lia.
Qed.

Lemma map_emplace_back_keys key cg m e :
  In e (map_emplace_back key cg m) -> e.1 = key \/ exists e', In e' m /\ e'.1 = e.1.
Proof.
  induction m as [|[k g] m IH]; simpl.
  - intros [<-|[]]. now left.
  - destruct (dqf_lt key k) eqn:Hlt; [|destruct (dqf_lt k key) eqn:Hgt].
    + intros [<-|Hin]; [now left|]. right. exists e. auto.
    + intros [<-|Hin].
      * right. exists (k, g). auto.
      * destruct (IH Hin) as [Hk|(e' & He' & Hk)]; [now left|]. right. exists e'. auto.
    + intros [<-|Hin].
      * right. exists (k, g). auto.
      * right. exists e. auto.
Qed.

Lemma map_emplace_back_sorted key cg m :
  key_sorted m -> key_sorted (map_emplace_back key cg m).
Proof.
  unfold key_sorted. induction 1 as [|[k g] m Hs IH Hall]; simpl.
  - repeat constructor.
  - destruct (dqf_lt key k) eqn:Hlt; [|destruct (dqf_lt k key) eqn:Hgt].
    + constructor; [now constructor|]. constructor; [exact Hlt|].
      rewrite List.Forall_forall in Hall |- *. intros e He. simpl.
      eapply dqf_lt_trans; [exact Hlt | now apply Hall].
    + constructor; [exact IH|].
      rewrite List.Forall_forall in Hall |- *. intros e He.
      destruct (map_emplace_back_keys _ _ _ _ He) as [->|(e' & He' & <-)];
        [exact Hgt | now apply Hall].
    + constructor; [exact Hs | exact Hall].
Qed.

Lemma group_at_above key m :
  Forall (fun e => dqf_lt key e.1 = true) m -> group_at key m = [].
Proof.
  induction 1 as [|[k g] m Hlt _ IH]; simpl; [reflexivity|].
  destruct (decide (k = key)) as [->|_]; [|exact IH].
  simpl in Hlt. now rewrite dqf_lt_irrefl in Hlt.
Qed.

(** [map[key].emplace_back(cg)] appends to the group of [key] and leaves
    every other group alone. *)
Lemma map_emplace_back_group_at key cg m key' :
  key_sorted m ->
  group_at key' (map_emplace_back key cg m) =
  if decide (key = key') then group_at key' m ++ [cg] else group_at key' m.
Proof.
  unfold key_sorted. induction 1 as [|[k g] m Hs IH Hall]; simpl.
  - destruct (decide (key = key')); reflexivity.
  - destruct (dqf_lt key k) eqn:Hlt; [|destruct (dqf_lt k key) eqn:Hgt].
    + simpl. destruct (decide (key = key')) as [<-|Hne]; [|reflexivity].
      destruct (decide (k = key)) as [->|_]; [now rewrite dqf_lt_irrefl in Hlt|].
      rewrite group_at_above; [reflexivity|].
      rewrite List.Forall_forall in Hall |- *. intros e He.
      eapply dqf_lt_trans; [exact Hlt | now apply Hall].
    + simpl. destruct (decide (k = key')) as [->|Hne].
      * destruct (decide (key = key')) as [->|_]; [|reflexivity].
        now rewrite dqf_lt_irrefl in Hgt.
      * exact IH.
    + pose proof (dqf_lt_total _ _ Hlt Hgt) as ->. simpl.
      destruct (decide (k = key')) as [->|Hne]; [reflexivity|].
      reflexivity.
Qed.

Lemma map_emplace_back_nonempty key cg m :
  Forall (fun e => e.2 <> []) m -> Forall (fun e => e.2 <> []) (map_emplace_back key cg m).
Proof.
  induction 1 as [|[k g] m Hg Hm IH]; simpl.
  - repeat constructor. discriminate.
  - destruct (dqf_lt key k); [|destruct (dqf_lt k key)].
    + constructor; [discriminate|]. now constructor.
    + constructor; [exact Hg | exact IH].
    + constructor; [|exact Hm]. simpl. now destruct g.
Qed.

Lemma with_key_app key l1 l2 : with_key key (l1 ++ l2) = with_key key l1 ++ with_key key l2.
Proof. unfold with_key. apply List.filter_app. Qed.

Lemma deviceCommandGraphsMap_invariant cgs :
  let m := deviceCommandGraphsMap cgs in
  key_sorted m /\ Forall (fun e => e.2 <> []) m /\
  forall key, group_at key m = with_key key cgs.
Proof.
  unfold deviceCommandGraphsMap.
  enough (Hgen : forall m done,
             key_sorted m -> Forall (fun e => e.2 <> []) m ->
             (forall key, group_at key m = with_key key done) ->
             let m' := fold_left (fun m cg => map_emplace_back (key_of cg) cg m) cgs m in
             key_sorted m' /\ Forall (fun e => e.2 <> []) m' /\
             forall key, group_at key m' = with_key key (done ++ cgs)).
  { apply (Hgen [] []); [constructor | constructor | reflexivity]. }
  induction cgs as [|cg cgs IH]; intros m done Hs Hne Hg; simpl.
  - rewrite app_nil_r. auto.
  - replace (done ++ cg :: cgs) with ((done ++ [cg]) ++ cgs) by now rewrite <- app_assoc.
    apply IH.
    + now apply map_emplace_back_sorted.
    + now apply map_emplace_back_nonempty.
    + intros key. rewrite map_emplace_back_group_at by exact Hs.
      rewrite with_key_app, Hg. unfold with_key at 2. simpl.
      destruct (decide (key_of cg = key)) as [Heq|Hneq].
      * now rewrite bool_decide_true.
      * rewrite bool_decide_false by exact Hneq. now rewrite app_nil_r.
Qed.

Lemma key_sorted_group_at m key group :
  key_sorted m -> In (key, group) m -> group_at key m = group.
Proof.
  unfold key_sorted. induction 1 as [|[k g] m Hs IH Hall]; simpl; [intros []|].
  intros [[= -> ->]|Hin].
  - now rewrite decide_True.
  - destruct (decide (k = key)) as [->|_]; [|now apply IH].
    rewrite List.Forall_forall in Hall. specialize (Hall _ Hin). simpl in Hall.
    now rewrite dqf_lt_irrefl in Hall.
Qed.

Lemma key_sorted_NoDup m : key_sorted m -> List.NoDup (map fst m).
Proof.
  unfold key_sorted. induction 1 as [|[k g] m Hs IH Hall]; simpl; constructor.
  - intros Hin. apply in_map_iff in Hin as ([k' g'] & Hk & Hin). simpl in Hk. subst k'.
    rewrite List.Forall_forall in Hall. specialize (Hall _ Hin). simpl in Hall.
    now rewrite dqf_lt_irrefl in Hall.
  - exact IH.
Qed.

(** The map of [assignRecordAndSubmitTaskAndPresentation] partitions the
    input by the triple (device, queue family, present family): its keys
    are pairwise different, and the group of a key holds exactly the input
    command graphs with that key, in input order, and at least one. *)
Lemma deviceCommandGraphsMap_partition cgs :
  let m := deviceCommandGraphsMap cgs in
  List.NoDup (map fst m) /\
  (forall key group, In (key, group) m -> group = with_key key cgs /\ group <> []) /\
  (forall cg, In cg cgs -> exists group, In (key_of cg, group) m /\ In cg group).
Proof.
  intros m. destruct (deviceCommandGraphsMap_invariant cgs) as (Hs & Hne & Hg).
  fold m in Hs, Hne, Hg. split; [now apply key_sorted_NoDup|]. split.
  - intros key group Hin. split.
    + rewrite <- Hg. symmetry. now apply key_sorted_group_at.
    + rewrite List.Forall_forall in Hne. apply (Hne _ Hin).
  - intros cg Hcg.
    assert (Hin : In cg (group_at (key_of cg) m)).
    { rewrite Hg. unfold with_key. apply List.filter_In. split; [exact Hcg|].
      now apply bool_decide_eq_true. }
    exists (group_at (key_of cg) m). split; [|exact Hin].
    clear -Hin. induction m as [|[k g] m IH]; simpl in *; [destruct Hin|].
    destruct (decide (k = key_of cg)) as [->|_]; [now left|]. right. now apply IH.
Qed.

Lemma group_objects_served pager next m :
  Forall2 (served pager) m (group_objects pager next m).
Proof.
  revert next. induction m as [|[key group] m IH]; intros next; simpl; [constructor|].
  destruct (Z.leb_spec 0 (presentFamily key)).
  - constructor; [|apply IH]. simpl. repeat split; eauto.
  - constructor; [|apply IH]. simpl. repeat split; auto.
Qed.

Section Assign.

Context {W : Type} `{WindowOps W}.

Lemma assign_groups_objects pager m (v v' : Viewer W) :
  assign_groups pager m v = Some v' ->
  let objs := group_objects pager (next_object v) m in
  recordAndSubmitTasks v' = recordAndSubmitTasks v ++ map fst objs /\
  presentations v' = presentations v ++ omap snd objs.
Proof.
  revert v. induction m as [|[key group] m IH]; intros v Hrun; simpl in Hrun |- *.
  - inversion Hrun. now rewrite !app_nil_r.
  - destruct (device key =? nullptr); [discriminate|].
    destruct (0 <=? presentFamily key); simpl in Hrun |- *;
      destruct (IH _ Hrun) as [Ht Hp]; rewrite Ht, Hp; simpl;
      now rewrite <- !app_assoc.
Qed.

(** The loop over the groups stops without a result exactly when a group
    has a null device. *)
Lemma assign_groups_None pager m (v : Viewer W) :
  assign_groups pager m v = None <-> exists key group, In (key, group) m /\ device key = nullptr.
Proof.
  revert v. induction m as [|[key group] m IH]; intros v; simpl.
  - split; [discriminate|]. now intros (? & ? & [] & _).
  - destruct (Z.eqb_spec (device key) nullptr) as [Hnull|Hdev].
    + split; [|reflexivity]. intros _. exists key, group. auto.
    + assert (Hrest : forall v1 : Viewer W,
                 assign_groups pager m v1 = None <->
                 exists key0 group0,
                   ((key, group) = (key0, group0) \/ In (key0, group0) m) /\
                   device key0 = nullptr).
      { intros v1. rewrite IH. split.
        - intros (k & g & Hin & Hk). exists k, g. auto.
        - intros (k & g & [Heq|Hin] & Hk).
          + inversion Heq; subst. contradiction.
          + exists k, g. auto. }
      destruct (0 <=? presentFamily key); simpl; apply Hrest.
Qed.

(** C6, as the code has it.  [assignRecordAndSubmitTaskAndPresentation]
    partitions the input command graphs by the triple (device, queue
    family, present family): the groups have pairwise different triples,
    each holds exactly the input command graphs with its triple, and every
    input command graph is in the group of its triple.  The call has no
    outcome exactly when an input command graph has a null device, which
    the loop dereferences.  When every input command graph has a device,
    the call returns, and one task is created per group, in order, and
    appended to [recordAndSubmitTasks]; a group whose present family is
    not negative gets exactly one presentation besides, which waits on the
    semaphore its task signals and presents its task's windows; a group
    with a negative present family gets a task that signals nothing, and
    no presentation. *)
Theorem assign_partitions_by_device_queue_and_present cgs pager (v : Viewer W) :
  let groups := deviceCommandGraphsMap cgs in
  List.NoDup (map fst groups) /\
  (forall key group,
      In (key, group) groups -> group = with_key key cgs /\ group <> []) /\
  (forall cg, In cg cgs -> exists group, In (key_of cg, group) groups /\ In cg group) /\
  (assignRecordAndSubmitTaskAndPresentation cgs pager v = None <->
   exists cg, In cg cgs /\ _device cg = nullptr) /\
  ((forall cg, In cg cgs -> _device cg <> nullptr) ->
   exists v' objs,
     assignRecordAndSubmitTaskAndPresentation cgs pager v = Some v' /\
     Forall2 (served pager) groups objs /\
     recordAndSubmitTasks v' = recordAndSubmitTasks v ++ map fst objs /\
     presentations v' = presentations v ++ omap snd objs).
Proof.
  intros groups.
  destruct (deviceCommandGraphsMap_partition cgs) as (Hnd & Hgroups & Hcover).
  split; [exact Hnd|]. split; [exact Hgroups|]. split; [exact Hcover|].
  assert (Hnone : assignRecordAndSubmitTaskAndPresentation cgs pager v = None <->
                  exists cg, In cg cgs /\ _device cg = nullptr).
  { unfold assignRecordAndSubmitTaskAndPresentation. rewrite assign_groups_None.
    fold groups. split.
    - intros (key & group & Hin & Hnull).
      destruct (Hgroups _ _ Hin) as [Hwith Hne].
      destruct group as [|cg group]; [contradiction|].
      assert (Hcg : In cg (with_key key cgs)) by (rewrite <- Hwith; now left).
      unfold with_key in Hcg. apply List.filter_In in Hcg as [Hcg Hk].
      apply bool_decide_eq_true in Hk. exists cg. split; [exact Hcg|].
      now rewrite <- Hk in Hnull.
    - intros (cg & Hcg & Hnull). destruct (Hcover cg Hcg) as (group & Hin & _).
      exists (key_of cg), group. split; [exact Hin|exact Hnull]. }
  split; [exact Hnone|].
  intros Hdev.
  destruct (assignRecordAndSubmitTaskAndPresentation cgs pager v) as [v'|] eqn:Ha.
  - exists v', (group_objects pager (next_object v) groups).
    split; [reflexivity|]. split; [apply group_objects_served|].
    now apply assign_groups_objects.
  - destruct (proj1 Hnone eq_refl) as (cg & Hcg & Hnull).
    destruct (Hdev cg Hcg Hnull).
Qed.

End Assign.

(** C6 as worded fails: two command graphs on one device and one queue
    family, one with and one without a present family, are given two
    tasks. *)
Lemma one_task_per_device_queue_fails :
  exists v' : Viewer ScriptedWindow,
    assignRecordAndSubmitTaskAndPresentation
      [graph_onscreen; graph_offscreen] None Viewer_new = Some v' /\
    ~ one_task_per_device_queue [graph_onscreen; graph_offscreen]
        (recordAndSubmitTasks v').
Proof.
  eexists. split; [vm_compute; reflexivity|].
  intros Hone.
  destruct (Hone graph_onscreen graph_offscreen) as (task & Htask & Hon & Hoff);
    [now left | right; now left | reflexivity | reflexivity |].
  destruct Htask as [<-|[<-|[]]].
  - destruct Hon as [Habs|[]]. discriminate Habs.
  - destruct Hoff as [Habs|[]]. discriminate Habs.
Qed.

(** ** Compilation and the pager *)

Lemma drm_update_keys dev f m d :
  In d (map fst (drm_update dev f m)) <-> d = dev \/ In d (map fst m).
Proof.
  induction m as [|[k r] m IH]; simpl.
  - intuition.
  - destruct (dev <? k) eqn:Hlt; [|destruct (k <? dev) eqn:Hgt]; simpl.
    + intuition.
    + rewrite IH. intuition.
    + assert (k = dev) as -> by lia. intuition.
Qed.

Lemma drm_lookup_is_Some dev m : In dev (map fst m) -> is_Some (drm_lookup dev m).
Proof.
  induction m as [|[k r] m IH]; simpl; [intros []|].
  intros [->|Hin].
  - rewrite Z.eqb_refl. eauto.
  - destruct (k =? dev); [eauto | now apply IH].
Qed.

Lemma collect_task_keys st task d :
  In d (map fst (collect_task st task).1) <->
  In d (map fst st.1) \/ In d (map _device (commandGraphs task)).
Proof.
  unfold collect_task. revert st.
  induction (commandGraphs task) as [|cg cgs IH]; intros [m l]; simpl.
  - intuition.
  - rewrite IH. simpl. rewrite drm_update_keys. intuition.
Qed.

Lemma collect_devices_keys tasks d :
  In d (map fst (collect_devices tasks).1) <->
  exists task cg, In task tasks /\ In cg (commandGraphs task) /\ _device cg = d.
Proof.
  unfold collect_devices.
  enough (Hgen : forall st,
             In d (map fst (fold_left collect_task tasks st).1) <->
             In d (map fst st.1) \/
             exists task cg, In task tasks /\ In cg (commandGraphs task) /\ _device cg = d).
  { rewrite Hgen. simpl. intuition. }
  induction tasks as [|t tasks IH]; intros st; simpl.
  - split; [auto|]. intros [Hin|(task & cg & [] & _)]. exact Hin.
  - rewrite IH, collect_task_keys. split.
    + intros [[Hin|Hin]|(task & cg & Ht & Hcg & Hd)].
      * now left.
      * apply in_map_iff in Hin as (cg & Hd & Hcg). right. exists t, cg. auto.
      * right. exists task, cg. auto.
    + intros [Hin|(task & cg & [<-|Ht] & Hcg & Hd)].
      * left. now left.
      * left. right. apply in_map_iff. eauto.
      * right. exists task, cg. auto.
Qed.

(** Every device of the map gets a traversal of its own. *)
Lemma allocate_compile_spec m next :
  Forall (fun e => e.1 <> nullptr) m ->
  exists m' next' l,
    allocate_compile m next = Some (m', next', l) /\
    (next <= next')%nat /\
    map fst m' = map fst m /\
    (forall d r, drm_lookup d m' = Some r ->
                 exists ct, dr_compile r = Some ct /\ (next <= ct < next')%nat) /\
    (forall d1 d2 ct, ct_of m' d1 = Some ct -> ct_of m' d2 = Some ct -> d1 = d2) /\
    Forall (fun c => forall p ct, c <> Pager_assign_compileTraversal p ct) l.
Proof.
  intros Hnn. revert next.
  induction Hnn as [|[dev r] m Hdev _ IH]; intros next; simpl.
  - exists [], next, []. repeat split; try constructor; try discriminate.
  - simpl in Hdev. destruct (Z.eqb_spec dev nullptr) as [->|_]; [contradiction|].
    destruct (IH (S next)) as (m' & next' & l & -> & Hle & Hkeys & Hrange & Hinj & Hl).
    simpl. eexists _, next', _. split; [reflexivity|].
    split; [lia|]. split; [simpl; now rewrite Hkeys|].
    split; [|split].
    + intros d r0. simpl. destruct (dev =? d).
      * intros [= <-]. simpl. exists next. split; [reflexivity|lia].
      * intros Hr. destruct (Hrange _ _ Hr) as (ct & Hct & Hb). exists ct. split; [exact Hct|lia].
    + intros d1 d2 ct. unfold ct_of. simpl.
      destruct (Z.eqb_spec dev d1) as [<-|Hn1], (Z.eqb_spec dev d2) as [<-|Hn2]; simpl.
      * reflexivity.
      * intros [= <-] Hct2.
        destruct (drm_lookup d2 m') as [r2|] eqn:Hr2; simpl in Hct2; [|discriminate].
        destruct (Hrange _ _ Hr2) as (ct & Hct & Hb). rewrite Hct in Hct2.
        inversion Hct2. lia.
      * intros Hct1 [= <-].
        destruct (drm_lookup d1 m') as [r1|] eqn:Hr1; simpl in Hct1; [|discriminate].
        destruct (Hrange _ _ Hr1) as (ct & Hct & Hb). rewrite Hct in Hct1.
        inversion Hct1. lia.
      * apply Hinj.
    + constructor; [discriminate | exact Hl].
Qed.

Lemma pager_assignments_app l1 l2 :
  pager_assignments (l1 ++ l2) = pager_assignments l1 ++ pager_assignments l2.
Proof. unfold pager_assignments. apply omap_app. Qed.

Lemma pager_assignments_none l :
  Forall (fun c => forall p ct, c <> Pager_assign_compileTraversal p ct) l ->
  pager_assignments l = [].
Proof.
  induction 1 as [|c l Hc _ IH]; [reflexivity|].
  change (c :: l) with ([c] ++ l). rewrite pager_assignments_app, IH.
  destruct c as [| | | | | | | | | |p ct| | | | | | |]; try reflexivity.
  now destruct (Hc p ct).
Qed.

Lemma pager_assignments_map {A} (f : A -> Call) l :
  (forall a p ct, f a <> Pager_assign_compileTraversal p ct) ->
  pager_assignments (map f l) = [].
Proof.
  intros Hf. apply pager_assignments_none. apply List.Forall_forall.
  intros c Hc. apply in_map_iff in Hc as (a & <- & _). apply Hf.
Qed.

Lemma collect_task_log st task :
  pager_assignments st.2 = [] -> pager_assignments (collect_task st task).2 = [].
Proof.
  unfold collect_task. revert st.
  induction (commandGraphs task) as [|cg cgs IH]; intros [m l] Hl; simpl; [exact Hl|].
  apply IH. simpl in *. now rewrite pager_assignments_app, Hl.
Qed.

Lemma collect_devices_log tasks : pager_assignments (collect_devices tasks).2 = [].
Proof.
  unfold collect_devices.
  apply (fold_left_invariant (fun st => pager_assignments st.2 = [])); [reflexivity|].
  intros st task. apply collect_task_log.
Qed.

Lemma compile_graphs_spec m cgs :
  (forall cg, In cg cgs -> is_Some (ct_of m (_device cg))) ->
  exists l, compile_graphs m cgs = Some l /\ pager_assignments l = [].
Proof.
  induction cgs as [|cg cgs IH]; intros Hcov; simpl; [now exists []|].
  destruct (Hcov cg) as [ct Hct]; [now left|].
  unfold ct_of in Hct.
  destruct (drm_lookup (_device cg) m) as [r|]; simpl in Hct; [|discriminate].
  simpl. rewrite Hct. simpl.
  destruct IH as (l & -> & Hl); [intros c Hc; apply Hcov; now right|].
  simpl. eexists. split; [reflexivity|]. exact Hl.
Qed.

(** The pager store after the assignments of [l], made in order. *)
Lemma assign_pager_last l1 p ct l2 (ps : gmap nat DatabasePager) :
  ~ In p (map fst l2) -> is_Some (ps !! p) ->
  compileTraversal <$> fold_left assign_pager (l1 ++ (p, ct) :: l2) ps !! p =
  Some (Some ct).
Proof.
  intros Hnot Hsome. rewrite fold_left_app. simpl.
  assert (Hdom : forall l (qs : gmap nat DatabasePager),
             is_Some (qs !! p) -> is_Some (fold_left assign_pager l qs !! p)).
  { induction l as [|a l IH]; intros qs Hq; simpl; [exact Hq|].
    apply IH. unfold assign_pager. now apply lookup_alter_is_Some. }
  destruct (Hdom l1 ps Hsome) as [pg Hpg].
  remember (fold_left assign_pager l1 ps) as qs eqn:Hqs. clear Hqs Hdom Hsome l1 ps.
  assert (Hstart : compileTraversal <$> assign_pager qs (p, ct) !! p = Some (Some ct)).
  { unfold assign_pager. simpl. now rewrite lookup_alter_eq, Hpg. }
  remember (assign_pager qs (p, ct)) as rs eqn:Hrs. clear Hrs Hpg qs.
  revert rs Hstart. induction l2 as [|a l2 IH]; intros rs Hstart; simpl; [exact Hstart|].
  apply IH.
  - intros Hin. apply Hnot. now right.
  - unfold assign_pager. rewrite lookup_alter_ne; [exact Hstart|].
    intros Heq. apply Hnot. now left.
Qed.

Lemma first_device_assignment_pager m task p ct :
  In (p, ct) (first_device_assignment m task) -> databasePager task = Some p.
Proof.
  unfold first_device_assignment.
  destruct (databasePager task) as [q|]; [|intros []].
  destruct (commandGraphs task) as [|cg rest]; [intros []|].
  destruct (ct_of m (_device cg)); [|intros []].
  intros [[= -> _]|[]]. reflexivity.
Qed.

Lemma traversal_creations_app l1 l2 :
  traversal_creations (l1 ++ l2) = traversal_creations l1 ++ traversal_creations l2.
Proof. unfold traversal_creations. apply omap_app. Qed.

Lemma traversal_creations_map {A} (f : A -> Call) l :
  (forall a ct d, f a <> CompileTraversal_create ct d) ->
  traversal_creations (map f l) = [].
Proof.
  intros Hf. induction l as [|a l IH]; [reflexivity|].
  change (map f (a :: l)) with ([f a] ++ map f l).
  rewrite traversal_creations_app, IH, app_nil_r.
  specialize (Hf a).
  destruct (f a) as [| | | | | | | | | | | | |ct d| | | |]; try reflexivity.
  now destruct (Hf ct d).
Qed.

Lemma traversal_of_In created d ct :
  List.NoDup (map fst created) ->
  traversal_of created d = Some ct <-> In (d, ct) created.
Proof.
  induction created as [|[d0 c0] created IH]; simpl; intros Hnd.
  - split; [discriminate|intros []].
  - inversion Hnd as [|? ? Hnot Hnd']; subst.
    destruct (Z.eqb_spec d0 d) as [->|Hne].
    + split.
      * intros [= ->]. now left.
      * intros [[= ->]|Hin]; [reflexivity|].
        destruct Hnot. apply in_map_iff. now exists (d, ct).
    + rewrite (IH Hnd'). split; [auto|].
      intros [[= -> _]|Hin]; [contradiction|exact Hin].
Qed.

(** The device resource map has its keys in strictly increasing order. *)
Lemma drm_update_sorted dev f m :
  StronglySorted Z.lt (map fst m) -> StronglySorted Z.lt (map fst (drm_update dev f m)).
Proof.
  induction m as [|[d r] m IH]; simpl; intros Hs.
  - repeat constructor.
  - inversion Hs as [|? ? Hs' Hall]; subst.
    destruct (Z.ltb_spec dev d) as [Hlt|Hge]; [|destruct (Z.ltb_spec d dev) as [Hgt|Hle]];
      simpl.
    + constructor; [exact Hs|]. constructor; [exact Hlt|].
      eapply List.Forall_impl; [|exact Hall]. simpl. intros. lia.
    + constructor; [now apply IH|]. apply List.Forall_forall. intros k Hk.
      apply drm_update_keys in Hk as [->|Hk]; [exact Hgt|].
      rewrite List.Forall_forall in Hall. now apply Hall.
    + now constructor.
Qed.

Lemma collect_devices_sorted tasks :
  StronglySorted Z.lt (map fst (collect_devices tasks).1).
Proof.
  unfold collect_devices.
  apply (fold_left_invariant (fun st => StronglySorted Z.lt (map fst st.1)));
    [constructor|].
  intros st task Hst. unfold collect_task.
  apply (fold_left_invariant (fun st => StronglySorted Z.lt (map fst st.1)));
    [exact Hst|].
  intros [m l] cg Hs. simpl in *. now apply drm_update_sorted.
Qed.

Lemma sorted_keys_NoDup (l : list Z) : StronglySorted Z.lt l -> List.NoDup l.
Proof.
  induction 1 as [|x l _ IH Hall]; constructor; [|exact IH].
  intros Hin. rewrite List.Forall_forall in Hall. specialize (Hall _ Hin). lia.
Qed.

Lemma collect_devices_creations tasks :
  traversal_creations (collect_devices tasks).2 = [].
Proof.
  unfold collect_devices.
  apply (fold_left_invariant (fun st => traversal_creations st.2 = [])); [reflexivity|].
  intros st task Hst. unfold collect_task.
  apply (fold_left_invariant (fun st => traversal_creations st.2 = [])); [exact Hst|].
  intros [m l] cg Hl. simpl in *. now rewrite traversal_creations_app, Hl.
Qed.

(** The traversals of [allocate_compile] are the ones its log creates:
    one for every key of the map, in key order, numbered from [next]. *)
Lemma allocate_compile_creations m next m' next' l :
  allocate_compile m next = Some (m', next', l) ->
  map fst (traversal_creations l) = map fst m /\
  map snd (traversal_creations l) = seq next (length m) /\
  forall d, ct_of m' d = traversal_of (traversal_creations l) d.
Proof.
  revert next m' next' l. induction m as [|[dev r] m IH]; intros next m' next' l; simpl.
  - intros [= <- _ <-]. auto.
  - destruct (dev =? nullptr); [discriminate|].
    destruct (allocate_compile m (S next)) as [[[m1 next1] l1]|] eqn:Hrec;
      simpl; [|discriminate].
    intros [= <- _ <-]. destruct (IH _ _ _ _ Hrec) as (Hk & Hv & Hct).
    simpl. rewrite Hk, Hv. split; [reflexivity|]. split; [reflexivity|].
    intros d. unfold ct_of. simpl. destruct (dev =? d); [reflexivity|]. apply Hct.
Qed.

Lemma compile_graphs_creations m cgs l :
  compile_graphs m cgs = Some l -> traversal_creations l = [].
Proof.
  revert l. induction cgs as [|cg cgs IH]; intros l; simpl.
  - now intros [= <-].
  - destruct (drm_lookup (_device cg) m) as [r|]; simpl; [|discriminate].
    destruct (dr_compile r) as [ct|]; simpl; [|discriminate].
    destruct (compile_graphs m cgs) as [l1|]; simpl; [|discriminate].
    intros [= <-]. simpl. now apply IH.
Qed.

Section Compile.

Context {W : Type} `{WindowOps W}.

Lemma compile_task_spec m (v : Viewer W) task :
  (forall cg, In cg (commandGraphs task) -> is_Some (ct_of m (_device cg))) ->
  exists v',
    compile_task m v task = Some v' /\
    pager_assignments (calls v') =
    pager_assignments (calls v) ++ first_device_assignment m task /\
    pagers v' = fold_left assign_pager (first_device_assignment m task) (pagers v).
Proof.
  intros Hcov. unfold compile_task, first_device_assignment.
  destruct (compile_graphs_spec m _ Hcov) as (l & -> & Hl). simpl.
  destruct (databasePager task) as [pager|].
  2:{ eexists. split; [reflexivity|]. simpl.
      now rewrite pager_assignments_app, Hl, !app_nil_r. }
  destruct (commandGraphs task) as [|cg rest]; simpl.
  { eexists. split; [reflexivity|]. simpl.
    now rewrite pager_assignments_app, Hl, !app_nil_r. }
  destruct (Hcov cg) as [ct Hct]; [now left|]. rewrite Hct.
  unfold ct_of in Hct.
  destruct (drm_lookup (_device cg) m) as [r|]; simpl in Hct; [|discriminate].
  simpl. rewrite Hct. eexists. split; [reflexivity|]. simpl.
  rewrite !pager_assignments_app, Hl, app_nil_r. auto.
Qed.

Lemma compile_tasks_spec m tasks (v : Viewer W) :
  (forall task cg, In task tasks -> In cg (commandGraphs task) ->
                   is_Some (ct_of m (_device cg))) ->
  exists v',
    compile_tasks m v tasks = Some v' /\
    pager_assignments (calls v') =
    pager_assignments (calls v) ++ flat_map (first_device_assignment m) tasks /\
    pagers v' = fold_left assign_pager (flat_map (first_device_assignment m) tasks)
                          (pagers v).
Proof.
  revert v. induction tasks as [|t tasks IH]; intros v Hcov; simpl.
  - exists v. now rewrite app_nil_r.
  - destruct (compile_task_spec m v t) as (v1 & -> & Hc1 & Hp1);
      [intros cg Hcg; apply (Hcov t); [now left | exact Hcg]|].
    simpl.
    destruct (IH v1) as (v' & -> & Hc & Hp);
      [intros task cg Ht; apply Hcov; now right|].
    exists v'. split; [reflexivity|].
    rewrite Hc, Hc1, Hp, Hp1, fold_left_app, <- app_assoc. auto.
Qed.

Lemma start_pagers_spec (v : Viewer W) :
  pager_assignments (calls (start_pagers v)) = pager_assignments (calls v) /\
  forall p, compileTraversal <$> pagers (start_pagers v) !! p =
            compileTraversal <$> pagers v !! p.
Proof.
  unfold start_pagers.
  apply (fold_left_invariant
           (fun v' => pager_assignments (calls v') = pager_assignments (calls v) /\
                      forall p, compileTraversal <$> pagers v' !! p =
                                compileTraversal <$> pagers v !! p)); [auto|].
  intros v' task [Hc Hp]. destruct (databasePager task) as [pager|]; [|auto].
  simpl. rewrite pager_assignments_app, Hc. simpl. rewrite app_nil_r.
  split; [reflexivity|]. intros p. rewrite <- Hp.
  destruct (decide (pager = p)) as [->|Hne].
  - rewrite lookup_alter_eq. now destruct (pagers v' !! p).
  - now rewrite lookup_alter_ne.
Qed.

Lemma compile_task_creations m (v v' : Viewer W) task :
  compile_task m v task = Some v' ->
  traversal_creations (calls v') = traversal_creations (calls v).
Proof.
  unfold compile_task.
  destruct (compile_graphs m (commandGraphs task)) as [l|] eqn:Hl; simpl; [|discriminate].
  apply compile_graphs_creations in Hl.
  assert (Hlog : traversal_creations (calls (log l v)) = traversal_creations (calls v)).
  { simpl. now rewrite traversal_creations_app, Hl, app_nil_r. }
  destruct (databasePager task) as [pager|]; [|now intros [= <-]].
  destruct (pager_compileTraversal m (commandGraphs task)) as [[ct|]|];
    simpl; [| |discriminate].
  - intros [= <-]. simpl. rewrite !traversal_creations_app, Hl. simpl.
    now rewrite !app_nil_r.
  - now intros [= <-].
Qed.

Lemma compile_tasks_creations m tasks (v v' : Viewer W) :
  compile_tasks m v tasks = Some v' ->
  traversal_creations (calls v') = traversal_creations (calls v).
Proof.
  revert v. induction tasks as [|t tasks IH]; intros v; simpl.
  - now intros [= <-].
  - destruct (compile_task m v t) as [v1|] eqn:Ht; simpl; [|discriminate].
    intros Hrest. rewrite (IH _ Hrest). now apply (compile_task_creations m v v1 t).
Qed.

Lemma start_pagers_creations (v : Viewer W) :
  traversal_creations (calls (start_pagers v)) = traversal_creations (calls v).
Proof.
  unfold start_pagers.
  apply (fold_left_invariant
           (fun v' => traversal_creations (calls v') = traversal_creations (calls v)));
    [reflexivity|].
  intros v' task Hc. destruct (databasePager task) as [pager|]; [|exact Hc].
  simpl. rewrite traversal_creations_app, Hc. simpl. now rewrite app_nil_r.
Qed.

(** C9, as the code has it.  When no command graph has a null device,
    [compile] returns, and the traversals its log creates are one for
    every device of a command graph of a task, each new and no two the
    same.  For every task with a pager and a command graph it makes one
    assignment to the pager's [compileTraversal], in task order: the
    traversal it created for the device of the task's first command
    graph, however many devices the task's command graphs span.  So after
    [compile] a pager holds the traversal of the device of the first
    command graph of the last task that has it.  The traversal of another
    device among a task's command graphs is not what that task assigns;
    [compile] assigns it to the task's pager exactly when a task with the
    same pager has that device as the device of its first command
    graph. *)
Theorem compile_pager_gets_first_device (v : Viewer W) :
  let tasks := recordAndSubmitTasks v in
  (forall task cg, In task tasks -> In cg (commandGraphs task) ->
                   _device cg <> nullptr) ->
  exists v' created,
    compile v = Some v' /\
    traversal_creations (calls v') = traversal_creations (calls v) ++ created /\
    List.NoDup (map fst created) /\ List.NoDup (map snd created) /\
    (forall d, In d (map fst created) <->
               exists task cg, In task tasks /\ In cg (commandGraphs task) /\
                               _device cg = d) /\
    (forall ct, In ct (map snd created) -> (next_object v <= ct)%nat) /\
    pager_assignments (calls v') =
    pager_assignments (calls v) ++ flat_map (first_device_traversal created) tasks /\
    (forall task pager cg rest,
        In task tasks -> databasePager task = Some pager ->
        commandGraphs task = cg :: rest ->
        exists ct, In (_device cg, ct) created /\
                   first_device_traversal created task = [(pager, ct)]) /\
    (forall before task after pager cg rest,
        tasks = before ++ task :: after ->
        databasePager task = Some pager ->
        commandGraphs task = cg :: rest ->
        (forall t, In t after -> databasePager t <> Some pager) ->
        is_Some (pagers v !! pager) ->
        exists ct, In (_device cg, ct) created /\
                   compileTraversal <$> pagers v' !! pager = Some (Some ct)) /\
    (forall task pager cg rest cg' ct',
        In task tasks -> databasePager task = Some pager ->
        commandGraphs task = cg :: rest ->
        In cg' rest -> _device cg' <> _device cg ->
        In (_device cg', ct') created ->
        ~ In (pager, ct') (first_device_traversal created task) /\
        (In (pager, ct') (flat_map (first_device_traversal created) tasks) <->
         exists task2 cg2 rest2,
           In task2 tasks /\ databasePager task2 = Some pager /\
           commandGraphs task2 = cg2 :: rest2 /\ _device cg2 = _device cg')).
Proof.
  intros tasks Hnn. unfold compile. fold tasks.
  destruct (decide (tasks = [])) as [Hnil|Hne].
  { rewrite bool_decide_true by exact Hnil. exists v, [].
    split; [reflexivity|]. rewrite Hnil. simpl. rewrite !app_nil_r.
    split; [reflexivity|]. split; [constructor|]. split; [constructor|].
    split; [intros d; split; [intros []|now intros (? & ? & [] & _)]|].
    split; [intros ct []|]. split; [reflexivity|].
    split; [intros ? ? ? ? []|].
    split; [intros [|? ?] ? ? ? ? ?; discriminate|].
    intros ? ? ? ? ? ? []. }
  rewrite bool_decide_false by exact Hne.
  pose proof (collect_devices_keys tasks) as Hkeys.
  pose proof (collect_devices_log tasks) as Hlog.
  pose proof (collect_devices_creations tasks) as Hcr0.
  pose proof (collect_devices_sorted tasks) as Hsorted.
  destruct (collect_devices tasks) as [m0 l0]. simpl in Hkeys, Hlog, Hcr0, Hsorted.
  destruct (allocate_compile_spec m0 (next_object v))
    as (m & next' & l1 & Halloc & _ & Hsame & Hrange & Hinj & Hl1).
  { apply List.Forall_forall. intros [d r] Hin Hd. simpl in Hd. subst d.
    assert (Hk : In nullptr (map fst m0)) by (apply in_map_iff; now exists (nullptr, r)).
    apply Hkeys in Hk as (task & cg & Ht & Hcg & Hd). now apply (Hnn task cg). }
  destruct (allocate_compile_creations _ _ _ _ _ Halloc) as (Hfst & Hsnd & Hct).
  set (created := traversal_creations l1) in *.
  assert (Hnd : List.NoDup (map fst created)).
  { rewrite Hfst. now apply sorted_keys_NoDup. }
  change (next_object (log l0 v)) with (next_object v).
  rewrite Halloc. simpl.
  assert (Hcov : forall task cg, In task tasks -> In cg (commandGraphs task) ->
                                 is_Some (ct_of m (_device cg))).
  { intros task cg Ht Hcg. unfold ct_of.
    destruct (drm_lookup_is_Some (_device cg) m) as [r Hr].
    { rewrite Hsame. apply Hkeys. eauto. }
    rewrite Hr. simpl. destruct (Hrange _ _ Hr) as (ct & -> & _). eauto. }
  assert (Hsame_assign : forall task,
             first_device_assignment m task = first_device_traversal created task).
  { intros task. unfold first_device_assignment, first_device_traversal.
    destruct (databasePager task); [|reflexivity].
    destruct (commandGraphs task) as [|cg rest]; [reflexivity|]. now rewrite Hct. }
  assert (Hflat : flat_map (first_device_assignment m) tasks =
                  flat_map (first_device_traversal created) tasks).
  { apply flat_map_ext. intros task. apply Hsame_assign. }
  assert (Hfirst : forall task pager cg rest,
             In task tasks -> databasePager task = Some pager ->
             commandGraphs task = cg :: rest ->
             exists ct, In (_device cg, ct) created /\
                        first_device_traversal created task = [(pager, ct)]).
  { intros task pager cg rest Htask Hpager Hcgs.
    destruct (Hcov task cg Htask) as [ct Hcg]; [rewrite Hcgs; now left|].
    rewrite Hct in Hcg. exists ct. split; [now apply traversal_of_In|].
    unfold first_device_traversal. now rewrite Hpager, Hcgs, Hcg. }
  match goal with |- context [compile_tasks m ?v1 _] =>
    destruct (compile_tasks_spec m tasks v1 Hcov) as (v2 & Htasks & Hc2 & Hp2);
    pose proof (compile_tasks_creations m tasks v1 v2 Htasks) as Hcr2
  end.
  simpl in Hc2, Hp2, Hcr2. fold tasks. rewrite Htasks. simpl.
  eexists _, created. split; [reflexivity|].
  match goal with |- context [start_pagers ?v3] =>
    destruct (start_pagers_spec v3) as [Hc3 Hp3];
    pose proof (start_pagers_creations v3) as Hcr3
  end.
  simpl in Hc3, Hcr3. rewrite !pager_assignments_app in Hc3.
  rewrite !pager_assignments_map, !app_nil_r in Hc3 by discriminate.
  rewrite !pager_assignments_app, Hlog, (pager_assignments_none l1 Hl1), !app_nil_r
    in Hc2.
  rewrite !traversal_creations_app in Hcr3.
  rewrite !traversal_creations_map, !app_nil_r in Hcr3 by discriminate.
  rewrite !traversal_creations_app, Hcr0, app_nil_r in Hcr2. fold created in Hcr2.
  split; [now rewrite Hcr3, Hcr2|].
  split; [exact Hnd|].
  split; [rewrite Hsnd; apply NoDup_ListNoDup, NoDup_seq|].
  split; [intros d; rewrite Hfst; apply Hkeys|].
  split.
  { intros ct Hin. rewrite Hsnd in Hin. apply in_seq in Hin. lia. }
  split; [now rewrite Hc3, Hc2, Hflat|].
  split; [exact Hfirst|]. split.
  - intros before task after pager cg rest Hsplit Hpager Hcgs Hafter Hdom.
    assert (Htask : In task tasks) by (rewrite Hsplit; apply in_elt).
    destruct (Hfirst task pager cg rest Htask Hpager Hcgs) as (ct & Hin & Hone).
    exists ct. split; [exact Hin|].
    rewrite Hp3. simpl. rewrite Hp2, Hsplit, flat_map_app. simpl.
    rewrite Hsame_assign, Hone.
    simpl. apply assign_pager_last; [|exact Hdom].
    intros Hp. apply in_map_iff in Hp as ([p c] & Hp & Hpin). simpl in Hp. subst p.
    apply in_flat_map in Hpin as (t & Ht & Hpin).
    apply first_device_assignment_pager in Hpin. now apply (Hafter t).
  - intros task pager cg rest cg' ct' Htask Hpager Hcgs Hcg' Hdiff Hin'.
    assert (Hdev : forall d, In (d, ct') created -> d = _device cg').
    { intros d Hd. apply (Hinj d (_device cg') ct'); rewrite Hct;
        now apply traversal_of_In. }
    split.
    + destruct (Hfirst task pager cg rest Htask Hpager Hcgs) as (ct & Hin & ->).
      intros [[= <-]|[]]. apply Hdiff. symmetry. now apply Hdev.
    + rewrite in_flat_map. split.
      * intros (task2 & Ht2 & Hin2). unfold first_device_traversal in Hin2.
        destruct (databasePager task2) as [p2|] eqn:Hp2'; [|destruct Hin2].
        destruct (commandGraphs task2) as [|cg2 rest2] eqn:Hcgs2; [destruct Hin2|].
        destruct (traversal_of created (_device cg2)) as [c2|] eqn:Hc2';
          [|destruct Hin2].
        destruct Hin2 as [[= <- <-]|[]].
        exists task2, cg2, rest2. split_and!; auto.
        apply Hdev. now apply traversal_of_In.
      * intros (task2 & cg2 & rest2 & Ht2 & Hp2' & Hcgs2 & Hd2).
        exists task2. split; [exact Ht2|].
        destruct (Hfirst task2 pager cg2 rest2 Ht2 Hp2' Hcgs2) as (c2 & Hin2 & ->).
        rewrite Hd2 in Hin2.
        assert (c2 = ct') as ->; [|now left].
        apply (traversal_of_In created (_device cg') _ Hnd) in Hin2.
        apply (traversal_of_In created (_device cg') _ Hnd) in Hin'. congruence.
Qed.

End Compile.

(** C9 as worded fails: of two tasks that share a pager, the first has
    command graphs on devices 1 and 2 and the second on device 2, so the
    traversal of device 2, which the first task touches besides its first
    device, is assigned to the pager, and is the one the pager keeps. *)
Lemma other_devices_never_assigned_fails :
  exists v',
    compile shared_pager_viewer = Some v' /\
    ~ other_devices_never_assigned (recordAndSubmitTasks shared_pager_viewer)
        (traversal_creations (calls v')) (pager_assignments (calls v')) /\
    traversal_of (traversal_creations (calls v')) (_device graph_b1) = Some 1%nat /\
    compileTraversal <$> pagers v' !! 7%nat = Some (Some 1%nat).
Proof.
  eexists. split; [vm_compute; reflexivity|]. split; [|split; vm_compute; reflexivity].
  intros Hnever.
  apply (Hnever _ 7%nat graph_a [graph_b1] graph_b1 1%nat (or_introl eq_refl)
           eq_refl eq_refl).
  - now left.
  - discriminate.
  - vm_compute. auto.
  - vm_compute. auto.
Qed.

(** ** The threads of a multi-graph task *)

Lemma count_nonneg {A} (p : A -> bool) l : 0 <= count p l.
Proof. apply size_nonneg. Qed.

Lemma count_le_size {A} (p : A -> bool) l : count p l <= size l.
Proof.
  unfold count, size. induction l as [|x l IH]; simpl; [lia|].
  destruct (p x); simpl; lia.
Qed.

Lemma count_all {A} (p : A -> bool) l :
  count p l = size l -> forall j x, l !! j = Some x -> p x = true.
Proof.
  unfold count, size. induction l as [|y l IH]; intros Hc j x Hj; [discriminate|].
  simpl in Hc. pose proof (count_le_size p l) as Hle. unfold count, size in Hle.
  destruct (p y) eqn:Hy; simpl in Hc; [|lia].
  destruct j as [|j]; simpl in Hj.
  - now inversion Hj; subst.
  - apply (IH ltac:(lia) j x Hj).
Qed.

Lemma count_none {A} (p : A -> bool) l :
  (forall j x, l !! j = Some x -> p x = false) -> count p l = 0.
Proof.
  unfold count, size. induction l as [|y l IH]; intros Hp; [reflexivity|].
  simpl. rewrite (Hp 0%nat y eq_refl). apply IH. intros j x Hj. apply (Hp (S j) x Hj).
Qed.

Lemma count_insert {A} (p : A -> bool) l i x y :
  l !! i = Some x ->
  count p (<[i := y]> l) + (if p x then 1 else 0) = count p l + (if p y then 1 else 0).
Proof.
  unfold count, size. revert i. induction l as [|z l IH]; intros i Hi; [discriminate|].
  destruct i as [|i]; simpl in Hi |- *.
  - inversion Hi; subst. destruct (p x), (p y); simpl; lia.
  - specialize (IH i Hi). destruct (p z); simpl; lia.
Qed.

Lemma count_ext {A} (p q : A -> bool) l :
  (forall j x, l !! j = Some x -> p x = q x) -> count p l = count q l.
Proof.
  unfold count, size. induction l as [|y l IH]; intros Hpq; [reflexivity|].
  simpl. rewrite (Hpq 0%nat y eq_refl).
  assert (Hl : length (List.filter p l) = length (List.filter q l)).
  { apply Nat2Z.inj. apply IH. intros j x Hj. apply (Hpq (S j) x Hj). }
  destruct (q y); simpl; lia.
Qed.

Lemma lookup_insert_cases {A} (l : list A) i j x y :
  <[i := y]> l !! j = Some x ->
  (j = i /\ x = y /\ (i < length l)%nat) \/ (j <> i /\ l !! j = Some x).
Proof.
  intros Hj. destruct (decide (j = i)) as [->|Hne].
  - left. assert (Hlt : (i < length l)%nat).
    { apply lookup_lt_Some in Hj. now rewrite length_insert in Hj. }
    rewrite list_lookup_insert_eq in Hj by exact Hlt. inversion Hj. auto.
  - right. rewrite list_lookup_insert_ne in Hj by congruence. auto.
Qed.

(** The group lambdas arrive at each recording barrier once per iteration. *)
Lemma body_arrives_once t b done rest :
  group_thread t = true -> b <> SubmissionCompleted ->
  body t = done ++ arrive_and_wait b :: rest ->
  ~ In (arrive_and_wait b) rest.
Proof.
  intros Ht Hb Hbody Hin.
  assert (Hnd : List.NoDup (body t)).
  { destruct t; simpl in Ht; try discriminate; simpl;
      repeat constructor; simpl; intuition discriminate. }
  rewrite Hbody in Hnd. apply NoDup_remove_2 in Hnd.
  apply Hnd. apply in_or_app. now right.
Qed.

Lemma body_has_barrier t b :
  group_thread t = true -> b <> SubmissionCompleted -> In (arrive_and_wait b) (body t).
Proof.
  intros Ht Hb. destruct t; simpl in Ht; try discriminate;
    destruct b; try contradiction; simpl; auto 10.
Qed.

Lemma body_no_drop t b : group_thread t = true -> ~ In (arrive_and_drop b) (body t).
Proof.
  intros Ht. destruct t; simpl in Ht; try discriminate; simpl; intuition discriminate.
Qed.

Lemma barrier_of_set_worker i w ev g b :
  barrier_of (set_worker i w ev g) b = barrier_of g b.
Proof. now destruct b. Qed.

Lemma barrier_of_set_recorded r g b : barrier_of (set_recorded r g) b = barrier_of g b.
Proof. now destruct b. Qed.

Lemma barrier_of_set_barrier b' x g b :
  barrier_of (set_barrier b' x g) b = if decide (b = b') then x else barrier_of g b.
Proof. destruct b, b'; reflexivity. Qed.

Lemma g_workers_set_barrier b x g : g_workers (set_barrier b x g) = g_workers g.
Proof. now destruct b. Qed.

Lemma g_trace_set_barrier b x g : g_trace (set_barrier b x g) = g_trace g.
Proof. now destruct b. Qed.

Lemma worker_step_steps i g g' :
  worker_step i g = Some g' ->
  exists w, g_workers g !! i = Some w /\ worker_steps i g w g'.
Proof.
  unfold worker_step. intros Hstep.
  destruct (g_workers g !! i) as [w|] eqn:Hw; simpl in Hstep; [|discriminate].
  exists w. split; [reflexivity|].
  destruct (w_control w) as [|[|instr rest]|b gen rest|] eqn:Hc.
  - destruct (g_status g) eqn:Hst; simpl in Hstep; [|inversion Hstep; now constructor].
    destruct (newer _ _) eqn:Hnew; inversion Hstep. now constructor.
  - inversion Hstep. now constructor.
  - destruct instr; cbv zeta in Hstep.
    3:{ rewrite barrier_of_set_barrier, decide_True in Hstep by reflexivity.
        destruct (generation (arrive (barrier_of g b)) =? generation (barrier_of g b))
          eqn:Hgen; inversion Hstep; subst.
        - eapply ws_arrive; [exact Hc|]. now rewrite Hgen.
        - eapply ws_arrive; [exact Hc|]. now rewrite Hgen. }
    all: inversion Hstep; subst; clear Hstep.
    + apply (ws_call i g w task_submit rest g); auto; discriminate.
    + apply (ws_call i g w task_start rest g); auto; discriminate.
    + now apply ws_drop.
    + apply (ws_call i g w record rest g); auto; discriminate.
    + apply (ws_call i g w add rest); auto using barrier_of_set_recorded; discriminate.
    + apply (ws_call i g w task_finish rest g); auto; discriminate.
    + apply (ws_call i g w recorded_clear rest); auto using barrier_of_set_recorded;
        discriminate.
  - destruct (Z.eqb_spec (generation (barrier_of g b)) gen); inversion Hstep.
    now apply (ws_release i g w b gen rest).
  - discriminate.
Qed.

Lemma pending_not_in b w : ~ In (arrive_and_wait b) (remaining w) -> pending b w = 0.
Proof. intros Hn. unfold pending. now destruct (in_dec _ _ _). Qed.

Lemma pending_in b w : In (arrive_and_wait b) (remaining w) -> pending b w = 1.
Proof. intros Hin. unfold pending. now destruct (in_dec _ _ _). Qed.

Lemma pending_same b w w' :
  (In (arrive_and_wait b) (remaining w') <-> In (arrive_and_wait b) (remaining w)) ->
  pending b w' = pending b w.
Proof.
  intros Hiff. unfold pending.
  destruct (in_dec _ _ (remaining w')), (in_dec _ _ (remaining w)); tauto.
Qed.

Lemma body_nodup t : group_thread t = true -> List.NoDup (body t).
Proof.
  intros Ht. destruct t; simpl in Ht; try discriminate; simpl;
    repeat constructor; simpl; intuition discriminate.
Qed.

Lemma body_once t done instr rest :
  group_thread t = true -> body t = done ++ instr :: rest -> ~ In instr rest.
Proof.
  intros Ht Hbody Hin. pose proof (body_nodup t Ht) as Hnd.
  rewrite Hbody in Hnd. apply NoDup_remove_2 in Hnd.
  apply Hnd. apply in_or_app. now right.
Qed.

Section RecordingBarrier.

Variable b : BarrierName.
Hypothesis b_recording : b <> SubmissionCompleted.

(** A step that leaves barrier [b] and the worker's arrivals at it alone. *)
Lemma barrier_ok_silent g g0 i w w' ev :
  barrier_ok b g ->
  g_workers g !! i = Some w ->
  (forall rest, w_control w <> InBarrier b (generation (barrier_of g b)) rest) ->
  arrived_at b w' = arrived_at b w ->
  g_workers g0 = g_workers g ->
  barrier_of g0 b = barrier_of g b ->
  barrier_ok b (set_worker i w' ev g0).
Proof.
  intros (Hreq & Hrange & Hblocked & Hcount) Hw Hnot Harr Hws Hb.
  assert (Hnb : arrived_at b w <> generation (barrier_of g b) + 1).
  { intros Heq. destruct (Hblocked _ _ Hw Heq) as [rest Hc]. now apply (Hnot rest). }
  unfold barrier_ok. rewrite barrier_of_set_worker, Hb. simpl g_workers. rewrite Hws.
  split; [|split; [|split]].
  - rewrite Hreq. unfold size. now rewrite length_insert.
  - intros j x Hj. apply lookup_insert_cases in Hj as [(-> & -> & _)|[_ Hj]].
    + rewrite Harr. now apply (Hrange i).
    + now apply (Hrange j).
  - intros j x Hj Hx. apply lookup_insert_cases in Hj as [(-> & -> & _)|[_ Hj]].
    + congruence.
    + now apply (Hblocked j).
  - rewrite Hcount.
    pose proof (count_insert (fun w => arrived_at b w =? generation (barrier_of g b) + 1)
                  _ i w w' Hw) as Hci.
    simpl in Hci. rewrite Harr in Hci.
    destruct (arrived_at b w =? generation (barrier_of g b) + 1); lia.
Qed.

(** The arrival of a worker at barrier [b]. *)
Lemma barrier_ok_arrive g i w rest c :
  barrier_ok b g ->
  g_workers g !! i = Some w ->
  worker_ok w ->
  w_control w = Running (arrive_and_wait b :: rest) ->
  c = (if generation (arrive (barrier_of g b)) =? generation (barrier_of g b)
       then InBarrier b (generation (barrier_of g b)) rest
       else Running rest) ->
  barrier_ok b (set_worker i (with_control c w) [(i, w_iteration w, arrive_and_wait b)]
                           (set_barrier b (arrive (barrier_of g b)) g)).
Proof.
  intros (Hreq & Hrange & Hblocked & Hcount) Hw (Ht & [done Hbody] & _) Hc ->.
  set (B := barrier_of g b) in *.
  assert (Hrem : remaining w = arrive_and_wait b :: rest) by (unfold remaining; now rewrite Hc).
  assert (Hbefore : arrived_at b w = generation B).
  { destruct (Hrange _ _ Hw) as [Hlo Hhi].
    destruct (Z.eq_dec (arrived_at b w) (generation B + 1)) as [Heq|Hne]; [|lia].
    destruct (Hblocked _ _ Hw Heq) as [r Hr]. congruence. }
  assert (Hpend : pending b w = 1) by (apply pending_in; rewrite Hrem; now left).
  assert (Hafter : forall c', remaining (with_control c' w) = rest ->
                              arrived_at b (with_control c' w) = generation B + 1).
  { intros c' Hrest. unfold arrived_at in *. simpl w_iteration.
    rewrite pending_not_in; [lia|].
    rewrite Hrest. rewrite Hrem in Hbody. now apply (body_once _ _ _ _ Ht Hbody). }
  pose proof (count_insert (fun w => arrived_at b w =? generation B + 1) (g_workers g) i w)
    as Hci.
  unfold barrier_ok.
  rewrite barrier_of_set_worker, barrier_of_set_barrier, decide_True by reflexivity.
  simpl g_workers. rewrite g_workers_set_barrier.
  unfold arrive. fold B.
  destruct (Z.eqb_spec (arrived B + 1) (required B)) as [Hlast|Hmore]; simpl.
  - (* the last arrival: the barrier releases *)
    destruct (Z.eqb_spec (generation B + 1) (generation B)) as [Habs|_]; [lia|].
    specialize (Hci (with_control (Running rest) w) Hw). simpl in Hci.
    rewrite (Hafter (Running rest) eq_refl), Hbefore in Hci.
    rewrite Z.eqb_refl in Hci.
    destruct (Z.eqb_spec (generation B) (generation B + 1)) as [Habs|_]; [lia|].
    assert (Hall : forall j x, <[i := with_control (Running rest) w]> (g_workers g) !! j = Some x ->
                               arrived_at b x = generation B + 1).
    { intros j x Hj. apply Z.eqb_eq.
      apply (count_all (fun w => arrived_at b w =? generation B + 1)
                       (<[i := with_control (Running rest) w]> (g_workers g)))
        with (j := j); [|exact Hj].
      assert (Hsz : size (<[i := with_control (Running rest) w]> (g_workers g)) =
                    size (g_workers g)) by (unfold size; now rewrite length_insert).
      lia. }
    split; [|split; [|split]].
    + rewrite Hreq. unfold size. now rewrite length_insert.
    + intros j x Hj. rewrite (Hall j x Hj). lia.
    + intros j x Hj Hx. rewrite (Hall j x Hj) in Hx. lia.
    + symmetry. apply count_none. intros j x Hj. rewrite (Hall j x Hj).
      apply Z.eqb_neq. lia.
  - (* the barrier keeps the worker *)
    rewrite Z.eqb_refl.
    specialize (Hci (with_control (InBarrier b (generation B) rest) w) Hw). simpl in Hci.
    rewrite (Hafter (InBarrier b (generation B) rest) eq_refl), Hbefore in Hci.
    rewrite Z.eqb_refl in Hci.
    destruct (Z.eqb_spec (generation B) (generation B + 1)) as [Habs|_]; [lia|].
    split; [|split; [|split]].
    + rewrite Hreq. unfold size. now rewrite length_insert.
    + intros j x Hj. apply lookup_insert_cases in Hj as [(-> & -> & _)|[_ Hj]].
      * rewrite (Hafter (InBarrier b (generation B) rest) eq_refl). lia.
      * now apply (Hrange j).
    + intros j x Hj Hx. apply lookup_insert_cases in Hj as [(-> & -> & _)|[_ Hj]].
      * now exists rest.
      * now apply (Hblocked j).
    + lia.
Qed.

End RecordingBarrier.

Lemma arrived_at_same b w w' :
  w_iteration w' = w_iteration w ->
  (In (arrive_and_wait b) (remaining w') <-> In (arrive_and_wait b) (remaining w)) ->
  arrived_at b w' = arrived_at b w.
Proof. intros Hi Hiff. unfold arrived_at. now rewrite Hi, (pending_same b w w' Hiff). Qed.

Lemma worker_ok_head w instr rest :
  worker_ok w -> remaining w = instr :: rest ->
  In instr (body (w_thread w)) /\ ~ In instr rest.
Proof.
  intros (Ht & [done Hbody] & _) Hrem. rewrite Hrem in Hbody. split.
  - rewrite Hbody. apply in_or_app. right. now left.
  - now apply (body_once _ _ _ _ Ht Hbody).
Qed.

(** The recording barriers stay consistent with the workers at every step. *)
Lemma worker_steps_barrier_ok b i g w g' :
  b <> SubmissionCompleted ->
  worker_ok w -> barrier_ok b g -> g_workers g !! i = Some w ->
  worker_steps i g w g' -> barrier_ok b g'.
Proof.
  intros Hb Hok Hbar Hw Hstep.
  destruct Hstep as [Hc Hst|Hc Hst Hnew|Hc|b' rest c Hc Hcc|b' rest Hc
                     |instr rest g0 Hc Hni Hnd Hws Htr Hbs
                     |b' gen rest Hc Hgen].
  - apply (barrier_ok_silent b g g i w); auto; [congruence|].
    apply arrived_at_same; [reflexivity|]. unfold remaining. simpl. now rewrite Hc.
  - apply (barrier_ok_silent b g g i w); auto; [congruence|].
    unfold arrived_at. simpl w_iteration.
    rewrite (pending_in b (mkWorker _ _ _ _)), (pending_not_in b w).
    + lia.
    + unfold remaining. now rewrite Hc.
    + unfold remaining. simpl. apply body_has_barrier; [apply Hok | exact Hb].
  - apply (barrier_ok_silent b g g i w); auto; [congruence|].
    apply arrived_at_same; [reflexivity|]. unfold remaining. simpl. now rewrite Hc.
  - destruct (decide (b' = b)) as [->|Hne].
    + eapply barrier_ok_arrive; eauto.
    + apply (barrier_ok_silent b g _ i w); auto; [congruence | |apply g_workers_set_barrier|].
      * apply arrived_at_same; [reflexivity|].
        assert (Hrem' : remaining (with_control c w) = rest).
        { subst c. unfold remaining. simpl. now destruct (_ =? _). }
        rewrite Hrem'. unfold remaining. rewrite Hc. simpl.
        split; [auto|]. intros [Heq|Hin]; [congruence | exact Hin].
      * rewrite barrier_of_set_barrier. now rewrite decide_False by congruence.
  - exfalso. apply (body_no_drop (w_thread w) b'); [apply Hok|].
    apply (worker_ok_head w _ rest Hok). unfold remaining. now rewrite Hc.
  - apply (barrier_ok_silent b g g0 i w); auto; [congruence|].
    apply arrived_at_same; [reflexivity|]. unfold remaining. rewrite Hc. simpl.
    split; [auto|]. intros [Heq|Hin]; [now destruct (Hni b) | exact Hin].
  - apply (barrier_ok_silent b g g i w); auto.
    + intros r Hr. rewrite Hc in Hr. inversion Hr. congruence.
    + apply arrived_at_same; [reflexivity|]. unfold remaining. simpl. now rewrite Hc.
Qed.

Lemma moves_call i w instr rest c :
  worker_ok w -> w_control w = Running (instr :: rest) ->
  remaining (with_control c w) = rest ->
  worker_moves i w (with_control c w) [(i, w_iteration w, instr)].
Proof.
  intros Hok Hc Hrem'. pose proof Hok as (Ht & [done Hbody] & Hiter).
  assert (Hrem : remaining w = instr :: rest) by (unfold remaining; now rewrite Hc).
  split; [reflexivity|]. split; [|split; [|split; [|split; [|split]]]].
  - split; [exact Ht|]. split.
    + exists (done ++ [instr]). simpl w_thread.
      now rewrite Hrem', <- app_assoc, Hbody, Hrem.
    + intros _. simpl. apply Hiter. now rewrite Hrem.
  - reflexivity.
  - intros _ x Hin. rewrite Hrem' in Hin. rewrite Hrem. now right.
  - right. eauto.
  - intros e [<-|[]]. exists instr, rest. auto.
  - intros n Hn Hle.
    destruct (decide (instr = arrive_and_wait RecordCompleted)) as [->|Hne].
    + destruct (worker_ok_head w _ rest Hok Hrem) as [_ Hnot].
      unfold arrived_at in *. simpl w_iteration in *.
      rewrite pending_not_in in Hle by now rewrite Hrem'.
      rewrite (pending_in _ w) by (rewrite Hrem; now left).
      destruct (decide (n = w_iteration w)) as [->|Hlt]; [right; now left|].
      left. lia.
    + left. erewrite <- arrived_at_same; [exact Hle|reflexivity|].
      rewrite Hrem, Hrem'. split; [intros Hin; now right|].
      intros [Heq|Hin]; [congruence|exact Hin].
Qed.

Lemma moves_silent i w c :
  worker_ok w -> remaining (with_control c w) = remaining w ->
  worker_moves i w (with_control c w) [].
Proof.
  intros (Ht & [done Hbody] & Hiter) Hrem.
  split; [reflexivity|]. split; [|split; [|split; [|split; [|split]]]].
  - split; [exact Ht|]. split.
    + rewrite Hrem. now exists done.
    + intros Hne. simpl. apply Hiter. congruence.
  - reflexivity.
  - intros _ x Hin. now rewrite Hrem in Hin.
  - now left.
  - intros e [].
  - intros n Hn Hle. left. erewrite <- arrived_at_same; [exact Hle|reflexivity|].
    now rewrite Hrem.
Qed.

Lemma moves_wake i w fs :
  worker_ok w -> remaining w = [] ->
  worker_moves i w (mkWorker (w_thread w) (Running (body (w_thread w))) fs
                             (S (w_iteration w))) [].
Proof.
  intros (Ht & _ & _) Hrem.
  split; [reflexivity|]. split; [|split; [|split; [|split; [|split]]]].
  - split; [exact Ht|]. split; [now exists []|]. intros _. simpl. lia.
  - simpl. lia.
  - simpl. lia.
  - now left.
  - intros e [].
  - intros n Hn Hle. left. unfold arrived_at in *. simpl w_iteration in Hle.
    rewrite (pending_in _ (mkWorker _ _ _ _)) in Hle
      by (apply body_has_barrier; [exact Ht | discriminate]).
    rewrite pending_not_in by now rewrite Hrem. lia.
Qed.

Lemma worker_steps_moves i g w g' :
  worker_ok w -> worker_steps i g w g' ->
  exists w' ev,
    g_workers g' = <[i := w']> (g_workers g) /\
    g_trace g' = g_trace g ++ ev /\
    worker_moves i w w' ev.
Proof.
  intros Hok Hstep.
  destruct Hstep as [Hc Hst|Hc Hst Hnew|Hc|b' rest c Hc Hcc|b' rest Hc
                     |instr rest g0 Hc Hni Hnd Hws Htr Hbs
                     |b' gen rest Hc Hgen].
  - eexists _, []. split; [reflexivity|]. split; [reflexivity|].
    apply moves_silent; [exact Hok|]. unfold remaining. simpl. now rewrite Hc.
  - eexists _, []. split; [reflexivity|]. split; [reflexivity|].
    apply moves_wake; [exact Hok|]. unfold remaining. now rewrite Hc.
  - eexists _, []. split; [reflexivity|]. split; [reflexivity|].
    apply moves_silent; [exact Hok|]. unfold remaining. simpl. now rewrite Hc.
  - eexists _, _. simpl. rewrite g_workers_set_barrier, g_trace_set_barrier.
    split; [reflexivity|]. split; [reflexivity|].
    apply (moves_call i w (arrive_and_wait b') rest); [exact Hok | exact Hc |].
    subst c. unfold remaining. simpl. now destruct (_ =? _).
  - exfalso. apply (body_no_drop (w_thread w) b'); [apply Hok|].
    apply (worker_ok_head w _ rest Hok). unfold remaining. now rewrite Hc.
  - eexists _, _. simpl. rewrite Hws, Htr.
    split; [reflexivity|]. split; [reflexivity|].
    now apply (moves_call i w instr rest).
  - eexists _, []. split; [reflexivity|]. split; [reflexivity|].
    apply moves_silent; [exact Hok|]. unfold remaining. simpl. now rewrite Hc.
Qed.

Lemma trace_ok_step g g' i w w' ev :
  trace_ok g -> worker_ok w -> g_workers g !! i = Some w ->
  g_workers g' = <[i := w']> (g_workers g) ->
  g_trace g' = g_trace g ++ ev ->
  worker_moves i w w' ev ->
  trace_ok g'.
Proof.
  intros [Hev Hrc] Hok Hw Hws Htr (Ht & Hok' & Hiter & Hsub & _ & Hnew & Harr).
  assert (Hi : g_workers g' !! i = Some w').
  { rewrite Hws. apply list_lookup_insert_eq. now apply lookup_lt_Some in Hw. }
  split.
  - intros i' n instr Hin. rewrite Htr in Hin. apply in_app_or in Hin as [Hin|Hin].
    + destruct (Hev _ _ _ Hin) as (w0 & Hw0 & Hbody & Hn & Hrem).
      destruct (decide (i' = i)) as [->|Hne].
      * assert (w0 = w) by congruence. subst w0.
        exists w'. split; [exact Hi|]. rewrite Ht. split; [exact Hbody|].
        split; [lia|]. intros Heq Hin'.
        assert (Hsame : w_iteration w' = w_iteration w) by lia.
        apply Hrem; [lia|]. now apply Hsub.
      * exists w0. split; [|auto]. rewrite Hws. now rewrite list_lookup_insert_ne by congruence.
    + destruct (Hnew _ Hin) as (x & rest & [= -> -> ->] & Hsame & Hc & Hrem').
      assert (Hrem : remaining w = x :: rest) by (unfold remaining; now rewrite Hc).
      destruct (worker_ok_head w x rest Hok Hrem) as [Hbody Hnot].
      exists w'. split; [exact Hi|]. rewrite Ht. split; [exact Hbody|].
      split; [lia|]. intros _. now rewrite Hrem'.
  - intros j w0 n Hj Hn Hle. rewrite Htr. apply in_or_app.
    rewrite Hws in Hj. apply lookup_insert_cases in Hj as [(-> & -> & _)|[Hne Hj]].
    + destruct (Harr n Hn Hle) as [Hold|Hin]; [|now right].
      left. now apply (Hrc i w).
    + left. now apply (Hrc j w0).
Qed.

Lemma app_singleton_split {A} (tr pre post : list A) e x :
  tr ++ [e] = pre ++ x :: post ->
  (exists post', post = post' ++ [e] /\ tr = pre ++ x :: post') \/
  (post = [] /\ tr = pre /\ x = e).
Proof.
  intros Heq. destruct post as [|y post] using rev_ind.
  - right. apply app_inj_tail in Heq as [-> ->]. auto.
  - left. exists post. clear IHpost.
    change (pre ++ x :: post ++ [y]) with (pre ++ (x :: post) ++ [y]) in Heq.
    rewrite app_assoc in Heq. apply app_inj_tail in Heq as [-> ->]. auto.
Qed.

Lemma split_unique {A} (x : A) l1 l2 d r :
  ~ In x l1 -> ~ In x d -> l1 ++ x :: l2 = d ++ x :: r -> l1 = d /\ l2 = r.
Proof.
  revert d. induction l1 as [|a l1 IH]; intros [|y d] H1 Hd Heq; simpl in *.
  - inversion Heq. auto.
  - inversion Heq; subst. exfalso. apply Hd. now left.
  - inversion Heq; subst. exfalso. apply H1. now left.
  - inversion Heq; subst. destruct (IH d) as [-> ->]; auto.
Qed.

(** [task_start] opens the body it occurs in. *)
Lemma start_is_first t done rest :
  group_thread t = true -> body t = done ++ task_start :: rest -> done = [].
Proof.
  intros Ht Hbody.
  assert (Hnot : ~ In task_start done).
  { intros Hin. pose proof (body_nodup t Ht) as Hnd. rewrite Hbody in Hnd.
    apply NoDup_remove_2 in Hnd. apply Hnd. apply in_or_app. now left. }
  destruct t; simpl in Ht; try discriminate.
  - apply (split_unique task_start [] _ done rest) in Hbody as [<- _]; auto.
  - exfalso. assert (Hin : In task_start (body (run_secondary data commandGraph))).
    { rewrite Hbody. apply in_or_app. right. now left. }
    simpl in Hin. intuition discriminate.
Qed.

(** [task_finish] comes after the arrival at [recordCompleted]. *)
Lemma finish_past_recordCompleted t done rest :
  group_thread t = true -> body t = done ++ task_finish :: rest ->
  ~ In (arrive_and_wait RecordCompleted) (task_finish :: rest).
Proof.
  intros Ht Hbody.
  assert (Hnot : ~ In task_finish done).
  { intros Hin. pose proof (body_nodup t Ht) as Hnd. rewrite Hbody in Hnd.
    apply NoDup_remove_2 in Hnd. apply Hnd. apply in_or_app. now left. }
  destruct t; simpl in Ht; try discriminate.
  - apply (split_unique task_finish
             [task_start; arrive_and_wait RecordStart; record; add;
              arrive_and_wait RecordCompleted] _ done rest) in Hbody as [_ <-]; auto.
    + simpl. intuition discriminate.
    + simpl. intuition discriminate.
  - exfalso. assert (Hin : In task_finish (body (run_secondary data commandGraph))).
    { rewrite Hbody. apply in_or_app. right. now left. }
    simpl in Hin. intuition discriminate.
Qed.

(** Only the primary lambda calls [task_start] and [task_finish]. *)
Lemma submits_is_primary t instr :
  group_thread t = true -> In instr (body t) ->
  instr = task_start \/ instr = task_finish -> is_primary t = true.
Proof.
  intros Ht Hin Hinstr. destruct t; simpl in Ht; try discriminate; [reflexivity|].
  simpl in Hin. destruct Hinstr; subst; intuition discriminate.
Qed.

Lemma group_ok_only_primary g : group_ok g -> only_primary_submits (g_trace g).
Proof.
  intros (Hws & Hprim & _ & _ & [Hev _]) i n instr Hin Hinstr.
  destruct (Hev _ _ _ Hin) as (w & Hw & Hbody & _).
  apply (Hprim i w Hw).
  apply (submits_is_primary _ instr); [|exact Hbody|exact Hinstr].
  apply (Forall_lookup_1 _ _ _ _ Hws Hw).
Qed.

Lemma group_ok_step i g g' w :
  group_ok g -> g_workers g !! i = Some w -> worker_steps i g w g' -> group_ok g'.
Proof.
  intros (Hws & Hprim & Hrs & Hrc & Htr) Hw Hstep.
  pose proof (Forall_lookup_1 _ _ _ _ Hws Hw) as Hok.
  destruct (worker_steps_moves i g w g' Hok Hstep) as (w' & ev & Hws' & Htr' & Hmoves).
  pose proof Hmoves as (Ht & Hok' & _).
  split; [|split; [|split; [|split]]].
  - rewrite Hws'. now apply Forall_insert.
  - intros j x Hj Hp. rewrite Hws' in Hj.
    apply lookup_insert_cases in Hj as [(-> & -> & _)|[_ Hj]].
    + apply (Hprim i w Hw). now rewrite <- Ht.
    + now apply (Hprim j x).
  - now apply (worker_steps_barrier_ok RecordStart i g w).
  - now apply (worker_steps_barrier_ok RecordCompleted i g w).
  - now apply (trace_ok_step g g' i w w' ev).
Qed.

(** A step of a worker keeps the invariant of the group. *)
Lemma group_inv_step i g g' w :
  group_inv g -> g_workers g !! i = Some w -> worker_steps i g w g' -> group_inv g'.
Proof.
  intros (Hgok & _ & Hfin & Hstart) Hw Hstep.
  pose proof (group_ok_step i g g' w Hgok Hw Hstep) as Hgok'.
  destruct Hgok as (Hws & Hprim & Hrs & Hrc & Htr).
  pose proof (Forall_lookup_1 _ _ _ _ Hws Hw) as Hok.
  destruct (worker_steps_moves i g w g' Hok Hstep) as (w' & ev & Hws' & Htr' & Hmoves).
  destruct Hmoves as (Ht & Hok' & Hiter & Hsub & Hone & Hnew & Harr).
  split; [exact Hgok'|]. split; [now apply group_ok_only_primary|].
  rewrite Hws', length_insert, Htr'.
  destruct Hone as [->|[e ->]]; [rewrite app_nil_r; auto|].
  destruct (Hnew e) as (instr & rest & -> & Hsame & Hc & Hrem'); [now left|].
  rewrite Hsame in *.
  assert (Hrem : remaining w = instr :: rest) by (unfold remaining; now rewrite Hc).
  split.
  - intros pre post i' n Heq j Hj.
    apply app_singleton_split in Heq as [(post' & -> & Heq)|(-> & <- & [= -> -> <-])].
    + now apply (Hfin pre post' i' n).
    + (* the step is [task_finish] *)
      destruct Hrc as (Hreq & Hrange & Hblocked & Hcount).
      pose proof Hok as (Hgt & [done Hbody] & Hpos).
      rewrite Hrem in Hbody.
      pose proof (finish_past_recordCompleted _ _ _ Hgt Hbody) as Hpast.
      assert (Hat : arrived_at RecordCompleted w = Z.of_nat (w_iteration w)).
      { unfold arrived_at. rewrite pending_not_in; [lia|]. now rewrite Hrem. }
      assert (Hgen : generation (barrier_of g RecordCompleted) = Z.of_nat (w_iteration w)).
      { destruct (Hrange _ _ Hw) as [Hlo Hhi].
        destruct (Z.eq_dec (arrived_at RecordCompleted w)
                           (generation (barrier_of g RecordCompleted) + 1)) as [Heq|Hne];
          [|lia].
        destruct (Hblocked _ _ Hw Heq) as [r Hr]. congruence. }
      destruct (lookup_lt_is_Some_2 (g_workers g) j Hj) as [wj Hwj].
      destruct Htr as [_ Hrec]. apply (Hrec j wj); [exact Hwj| |].
      * apply Hpos. now rewrite Hrem.
      * destruct (Hrange _ _ Hwj) as [Hlo _]. lia.
  - intros pre post i' n Heq x Hin.
    apply app_singleton_split in Heq as [(post' & -> & Heq)|(-> & <- & [= -> -> <-])].
    + now apply (Hstart pre post' i' n Heq x).
    + (* the step is [task_start] *)
      destruct Htr as [Hev _].
      destruct (Hev _ _ _ Hin) as (w0 & Hw0 & Hbody0 & _ & Hnot).
      assert (w0 = w) by congruence. subst w0.
      pose proof Hok as (Hgt & [done Hbody] & _).
      rewrite Hrem in Hbody.
      pose proof (start_is_first _ _ _ Hgt Hbody) as ->. simpl in Hbody.
      apply Hnot; [reflexivity|]. now rewrite Hrem, <- Hbody.
Qed.

Lemma group_inv_env g g' :
  g_workers g' = g_workers g -> g_trace g' = g_trace g ->
  barrier_of g' RecordStart = barrier_of g RecordStart ->
  barrier_of g' RecordCompleted = barrier_of g RecordCompleted ->
  group_inv g -> group_inv g'.
Proof.
  unfold group_inv, group_ok, barrier_ok, trace_ok.
  intros -> -> -> ->. auto.
Qed.

Lemma group_step_inv a g g' : group_inv g -> group_step a g = Some g' -> group_inv g'.
Proof.
  intros Hinv Hstep. destruct a as [i|fs| |]; simpl in Hstep.
  - destruct (worker_step_steps i g g' Hstep) as (w & Hw & Hsteps).
    now apply (group_inv_step i g g' w).
  - inversion Hstep; subst. now apply (group_inv_env g).
  - inversion Hstep; subst. now apply (group_inv_env g).
  - inversion Hstep; subst. now apply (group_inv_env g).
Qed.

Lemma group_run_inv schedule g g' :
  group_inv g -> group_run schedule g = Some g' -> group_inv g'.
Proof.
  revert g. induction schedule as [|a schedule IH]; intros g Hinv Hrun; simpl in Hrun.
  - now inversion Hrun; subst.
  - destruct (group_step a g) as [g1|] eqn:Hstep; simpl in Hrun; [|discriminate].
    apply (IH g1); [|exact Hrun]. now apply (group_step_inv a g).
Qed.

Lemma group_run_workers schedule g g' :
  group_run schedule g = Some g' -> length (g_workers g') = length (g_workers g).
Proof.
  revert g. induction schedule as [|a schedule IH]; intros g Hrun; simpl in Hrun.
  - now inversion Hrun; subst.
  - destruct (group_step a g) as [g1|] eqn:Hstep; simpl in Hrun; [|discriminate].
    rewrite (IH g1 Hrun). clear IH Hrun.
    destruct a as [i|fs| |]; simpl in Hstep; try (inversion Hstep; subst; reflexivity).
    destruct (worker_step_steps i g g1 Hstep) as (w & Hw & Hsteps).
    destruct Hsteps; simpl; rewrite ?g_workers_set_barrier, length_insert; congruence.
Qed.

Lemma lookup_map {A B} (f : A -> B) (l : list A) j : map f l !! j = f <$> l !! j.
Proof. revert j. induction l as [|x l IH]; intros [|j]; simpl; auto. Qed.

Lemma group_init_inv next task fb sc cg0 rest :
  size (cg0 :: rest) < 2 ^ 32 ->
  let sd := SharedData_create next task fb sc (size (cg0 :: rest)) in
  group_inv (group_init sd (run_primary sd cg0 :: map (run_secondary sd) rest)).
Proof.
  intros Hsize sd.
  set (threads := run_primary sd cg0 :: map (run_secondary sd) rest).
  assert (Hlen : size threads = size (cg0 :: rest)).
  { unfold threads, size. simpl. now rewrite length_map. }
  assert (Hworkers : forall j w,
             g_workers (group_init sd threads) !! j = Some w ->
             w_control w = AtFrameBlock /\ w_iteration w = 0%nat /\
             exists t, w = mkWorker t AtFrameBlock None 0 /\ threads !! j = Some t).
  { intros j w Hj. unfold group_init in Hj. cbn [g_workers] in Hj.
    rewrite lookup_map in Hj.
    destruct (threads !! j) as [t|]; simpl in Hj; inversion Hj. eauto. }
  assert (Hzero : forall b j w, g_workers (group_init sd threads) !! j = Some w ->
                                arrived_at b w = 0).
  { intros b j w Hj. destruct (Hworkers j w Hj) as (_ & _ & t & -> & _). reflexivity. }
  assert (Hbar : forall b, b <> SubmissionCompleted ->
                           barrier_ok b (group_init sd threads)).
  { intros b Hb.
    assert (HB : barrier_of (group_init sd threads) b =
                 Barrier_create (barrier_id (barrier_of (group_init sd threads) b))
                                (size threads)).
    { rewrite Hlen. pose proof (size_nonneg (cg0 :: rest)).
      destruct b; try contradiction; simpl; now rewrite wrap32_small by lia. }
    unfold barrier_ok. rewrite HB. cbn [required arrived generation Barrier_create].
    split; [|split; [|split]].
    - unfold group_init, size. cbn [g_workers]. now rewrite length_map.
    - intros j w Hj. rewrite (Hzero b j w Hj). lia.
    - intros j w Hj Habs. rewrite (Hzero b j w Hj) in Habs. discriminate.
    - symmetry. apply count_none. intros j w Hj. now rewrite (Hzero b j w Hj). }
  assert (Hok : group_ok (group_init sd threads)).
  { split; [|split; [|split; [|split]]].
    - apply Forall_lookup_2. intros j w Hj.
      destruct (Hworkers j w Hj) as (_ & _ & t & -> & Ht).
      split; [|split].
      + simpl. destruct j as [|j]; simpl in Ht; [now inversion Ht|].
        unfold threads in Ht. simpl in Ht. rewrite lookup_map in Ht.
        destruct (rest !! j); simpl in Ht; inversion Ht. reflexivity.
      + exists (body t). simpl. now rewrite app_nil_r.
      + intros Hne. now destruct Hne.
    - intros j w Hj Hp. destruct (Hworkers j w Hj) as (_ & _ & t & -> & Ht).
      destruct j as [|j]; [reflexivity|]. exfalso.
      unfold threads in Ht. simpl in Ht. rewrite lookup_map in Ht.
      destruct (rest !! j); simpl in Ht; inversion Ht; subst. discriminate Hp.
    - apply Hbar. discriminate.
    - apply Hbar. discriminate.
    - split; [intros i n instr []|].
      intros j w n Hj Hn Hle. rewrite (Hzero _ j w Hj) in Hle. lia. }
  split; [exact Hok|]. split; [now apply group_ok_only_primary|]. split.
  - intros pre post i n Heq. now destruct pre.
  - intros pre post i n Heq. now destruct pre.
Qed.

(** C4, as the code has it.  In the thread group of a task with K >= 2
    command graphs, thread 0 runs the primary lambda and the K - 1 others
    the secondary lambda.  Whatever the interleaving, and whatever the rest
    of the program does to the frame block, the status and the
    submission-completed barrier: [task.start()] and [task.finish()] are
    called by the primary thread only; [task.finish()] of an iteration is
    called only after all K threads have arrived at the [recordCompleted]
    barrier in that iteration; [task.start()] is the first call of the
    primary's iteration, made before it arrives at any barrier. *)
Theorem primary_submits_after_recording task fb sc next next' threads schedule g :
  2 <= size (commandGraphs task) < 2 ^ 32 ->
  spawn_task fb sc task next [] = Some (next', threads) ->
  group_run schedule
            (group_init (SharedData_create next task fb sc (size (commandGraphs task)))
                        threads) = Some g ->
  map kind threads = PrimaryThread :: repeat SecondaryThread (length threads - 1) /\
  length threads = length (commandGraphs task) /\
  only_primary_submits (g_trace g) /\
  finish_after_recordCompleted (length threads) (g_trace g) /\
  start_opens_iteration (g_trace g).
Proof.
  intros Hk Hspawn Hrun.
  rewrite spawn_task_spec in Hspawn by lia.
  injection Hspawn as _ Hthreads.
  unfold task_threads in Hthreads.
  destruct (commandGraphs task) as [|cg0 [|cg1 rest]] eqn:Hcgs;
    try (unfold size in Hk; simpl in Hk; lia).
  cbv zeta in Hthreads.
  pose proof (group_init_inv next task fb sc cg0 (cg1 :: rest) (proj2 Hk)) as Hinit.
  cbv zeta in Hinit. rewrite Hthreads in Hinit.
  pose proof (group_run_inv _ _ _ Hinit Hrun) as (_ & Hprim & Hfin & Hstart).
  rewrite (group_run_workers _ _ _ Hrun) in Hfin.
  unfold group_init in Hfin. cbn [g_workers] in Hfin. rewrite length_map in Hfin.
  assert (Hlen : length threads = length (cg0 :: cg1 :: rest)).
  { rewrite <- Hthreads. cbn [length]. now rewrite length_map. }
  split; [|split; [exact Hlen|auto]].
  rewrite Hlen. rewrite <- Hthreads.
  change (map kind (run_primary ?sd cg0 :: ?l)) with (PrimaryThread :: map kind l).
  rewrite (kind_secondary _ (cg1 :: rest)). reflexivity.
Qed.

(** C4 as worded fails for [task.start()]: the primary calls it on waking,
    before any thread has arrived at [recordCompleted]. *)
Lemma start_precedes_recordCompleted :
  exists g,
    group_run [Publish (mkFrameStamp 100 0); Sched 0; Sched 0] group_b = Some g /\
    g_trace g = [(0%nat, 1%nat, task_start)] /\
    ~ start_after_recordCompleted 2 (g_trace g).
Proof.
  eexists. split; [reflexivity|]. split; [reflexivity|].
  intros Hafter.
  destruct (Hafter [] [] 0%nat 1%nat eq_refl 0%nat ltac:(lia)).
Qed.

(** ** The submission-completed barrier in a session *)

Lemma body_nodup_all t : List.NoDup (body t).
Proof. destruct t; simpl; repeat constructor; simpl; intuition discriminate. Qed.

Lemma sc_arrival_in_body t : is_secondary t = false -> In (sc_arrival t) (body t).
Proof. destruct t; simpl; intros; try discriminate; auto 10. Qed.

Lemma body_submission t instr :
  In instr (body t) ->
  instr = arrive_and_wait SubmissionCompleted \/ instr = arrive_and_drop SubmissionCompleted ->
  is_secondary t = false /\ instr = sc_arrival t.
Proof.
  intros Hin [->| ->]; destruct t; simpl in Hin |- *;
    intuition (try discriminate; auto).
Qed.

Lemma body_drop t b : In (arrive_and_drop b) (body t) -> b = SubmissionCompleted.
Proof. destruct t; simpl; intuition (try discriminate; congruence). Qed.

Lemma sc_pending_same w w' :
  w_thread w' = w_thread w ->
  (In (sc_arrival (w_thread w)) (remaining w') <-> In (sc_arrival (w_thread w)) (remaining w)) ->
  sc_pending w' = sc_pending w.
Proof.
  intros Ht Hiff. unfold sc_pending. rewrite Ht.
  destruct (in_dec _ _ (remaining w')), (in_dec _ _ (remaining w)); tauto.
Qed.


Lemma sc_arrival_not_call t instr :
  (forall b, instr <> arrive_and_wait b) -> (forall b, instr <> arrive_and_drop b) ->
  instr <> sc_arrival t.
Proof. intros Hw Hd. destruct t; simpl; auto. Qed.

Lemma wf_head w instr rest :
  worker_wf w -> remaining w = instr :: rest ->
  In instr (body (w_thread w)) /\ ~ In instr rest /\
  (exists done, body (w_thread w) = done ++ rest) /\ (1 <= w_iteration w)%nat.
Proof.
  intros [[done Hb] Hit] Hr. rewrite Hr in Hb, Hit.
  pose proof (body_nodup_all (w_thread w)) as Hnd. rewrite Hb in Hnd.
  repeat split.
  - rewrite Hb. apply in_or_app. right. now left.
  - apply NoDup_remove_2 in Hnd. intros Hin. apply Hnd. apply in_or_app. now right.
  - exists (done ++ [instr]). now rewrite <- app_assoc.
  - now apply Hit.
Qed.

(** How a step changes the worker that takes it, as the submission barrier
    sees it: the step leaves the barrier alone and the worker's count of
    arrivals too, or it is the worker's arrival of this iteration. *)
Lemma worker_steps_submission i g w g' :
  worker_wf w -> worker_steps i g w g' ->
  exists w' ev,
    g_workers g' = <[i := w']> (g_workers g) /\
    g_trace g' = g_trace g ++ ev /\
    w_thread w' = w_thread w /\
    worker_wf w' /\
    ((g_submissionCompleted g' = g_submissionCompleted g /\
      ((w_iteration w' = w_iteration w /\ w_frameStamp w' = w_frameStamp w /\
        sc_pending w' = sc_pending w) \/
       (w_iteration w' = S (w_iteration w) /\ w_frameStamp w' = g_value g /\
        newer (g_value g) (w_frameStamp w) = true /\ sc_pending w = 0 /\
        (is_secondary (w_thread w) = false -> sc_pending w' = 1)))) \/
     (g_submissionCompleted g' = arrive (g_submissionCompleted g) /\
      is_secondary (w_thread w) = false /\
      w_iteration w' = w_iteration w /\ w_frameStamp w' = w_frameStamp w /\
      sc_pending w = 1 /\ sc_pending w' = 0 /\
      ev = [(i, w_iteration w, sc_arrival (w_thread w))])).
Proof.
  intros Hwf Hstep.
  assert (Hsilent : forall c ev0 g0,
             g_workers g0 = g_workers g -> g_trace g0 = g_trace g ->
             g_submissionCompleted g0 = g_submissionCompleted g ->
             worker_wf (with_control c w) ->
             sc_pending (with_control c w) = sc_pending w ->
             exists w' ev,
               g_workers (set_worker i (with_control c w) ev0 g0) = <[i := w']> (g_workers g) /\
               g_trace (set_worker i (with_control c w) ev0 g0) = g_trace g ++ ev /\
               w_thread w' = w_thread w /\ worker_wf w' /\
               ((g_submissionCompleted (set_worker i (with_control c w) ev0 g0) =
                 g_submissionCompleted g /\
                 ((w_iteration w' = w_iteration w /\ w_frameStamp w' = w_frameStamp w /\
                   sc_pending w' = sc_pending w) \/
                  (w_iteration w' = S (w_iteration w) /\ w_frameStamp w' = g_value g /\
                   newer (g_value g) (w_frameStamp w) = true /\ sc_pending w = 0 /\
                   (is_secondary (w_thread w) = false -> sc_pending w' = 1)))) \/
                (g_submissionCompleted (set_worker i (with_control c w) ev0 g0) =
                 arrive (g_submissionCompleted g) /\
                 is_secondary (w_thread w) = false /\
                 w_iteration w' = w_iteration w /\ w_frameStamp w' = w_frameStamp w /\
                 sc_pending w = 1 /\ sc_pending w' = 0 /\
                 ev = [(i, w_iteration w, sc_arrival (w_thread w))]))).
  { intros c ev0 g0 Hws Htr Hsc Hwf' Hp. exists (with_control c w), ev0. simpl.
    rewrite Hws, Htr. split_and!; auto. left. split; [exact Hsc|]. left. auto. }
  assert (Hempty : forall c, remaining w = [] -> remaining (with_control c w) = [] ->
                             worker_wf (with_control c w) /\
                             sc_pending (with_control c w) = sc_pending w).
  { intros c Hr Hr'. split.
    - split; [|now rewrite Hr']. exists (body (w_thread w)). rewrite Hr'.
      now rewrite app_nil_r.
    - apply sc_pending_same; [reflexivity|]. now rewrite Hr, Hr'. }
  assert (Hrest : forall c instr rest,
             remaining w = instr :: rest -> remaining (with_control c w) = rest ->
             worker_wf (with_control c w)).
  { intros c instr rest Hr Hr'. destruct (wf_head w instr rest Hwf Hr) as (_ & _ & Hd & Hit).
    split; [now rewrite Hr'|]. intros _. exact Hit. }
  destruct Hstep as [Hc Hst|Hc Hst Hnew|Hc|b rest c Hc Hcc|b rest Hc
                     |instr rest g0 Hc Hni Hnd Hws Htr Hbs|b gen rest Hc Hgen].
  - destruct (Hempty Exited) as [H1 H2]; try (unfold remaining; simpl; now rewrite ?Hc).
    now apply Hsilent.
  - exists (mkWorker (w_thread w) (Running (body (w_thread w))) (g_value g)
                     (S (w_iteration w))), []. simpl.
    split_and!; auto.
    + split; [now exists []|]. simpl. lia.
    + left. split; [reflexivity|]. right. split_and!; auto.
      * unfold sc_pending, remaining. rewrite Hc. now destruct (in_dec _ _ _).
      * intros Hsec. unfold sc_pending, remaining. simpl.
        destruct (in_dec _ _ _) as [|Hn]; [reflexivity|].
        destruct Hn. now apply sc_arrival_in_body.
  - destruct (Hempty AtFrameBlock) as [H1 H2]; try (unfold remaining; simpl; now rewrite ?Hc).
    now apply Hsilent.
  - assert (Hr : remaining w = arrive_and_wait b :: rest) by (unfold remaining; now rewrite Hc).
    assert (Hr' : remaining (with_control c w) = rest).
    { subst c. unfold remaining. simpl. now destruct (_ =? _). }
    pose proof (Hrest c _ _ Hr Hr') as Hwf'.
    destruct (wf_head w _ _ Hwf Hr) as (Hin & Hnin & _ & _).
    destruct (decide (b = SubmissionCompleted)) as [->|Hb].
    + destruct (body_submission _ _ Hin (or_introl eq_refl)) as [Hsec Harr].
      exists (with_control c w), [(i, w_iteration w, arrive_and_wait SubmissionCompleted)].
      simpl. split_and!; auto. right. rewrite <- Harr. split_and!; auto.
      * unfold sc_pending. rewrite Hr, <- Harr. destruct (in_dec _ _ _) as [|Hn]; auto.
        destruct Hn. now left.
      * unfold sc_pending. rewrite Hr'. simpl. rewrite <- Harr.
        now destruct (in_dec _ _ _).
    + apply Hsilent; auto using g_workers_set_barrier, g_trace_set_barrier.
      * now destruct b.
      * apply sc_pending_same; [reflexivity|]. rewrite Hr, Hr'. simpl.
        split; [auto|]. intros [Heq|]; [|assumption].
        destruct (w_thread w); simpl in Heq; congruence.
  - assert (Hr : remaining w = arrive_and_drop b :: rest) by (unfold remaining; now rewrite Hc).
    assert (Hr' : remaining (with_control (Running rest) w) = rest) by reflexivity.
    pose proof (Hrest _ _ _ Hr Hr') as Hwf'.
    destruct (wf_head w _ _ Hwf Hr) as (Hin & Hnin & _ & _).
    pose proof (body_drop _ _ Hin) as ->.
    destruct (body_submission _ _ Hin (or_intror eq_refl)) as [Hsec Harr].
    exists (with_control (Running rest) w),
           [(i, w_iteration w, arrive_and_drop SubmissionCompleted)].
    simpl. split_and!; auto. right. rewrite <- Harr. split_and!; auto.
    + unfold sc_pending. rewrite Hr, <- Harr. destruct (in_dec _ _ _) as [|Hn]; auto.
      destruct Hn. now left.
    + unfold sc_pending. rewrite Hr'. simpl. rewrite <- Harr.
      now destruct (in_dec _ _ _).
  - assert (Hr : remaining w = instr :: rest) by (unfold remaining; now rewrite Hc).
    assert (Hr' : remaining (with_control (Running rest) w) = rest) by reflexivity.
    apply Hsilent; auto.
    + apply (Hbs SubmissionCompleted).
    + now apply (Hrest _ _ _ Hr Hr').
    + apply sc_pending_same; [reflexivity|]. rewrite Hr, Hr'. simpl.
      split; [auto|]. intros [Heq|]; [|assumption].
      now destruct (sc_arrival_not_call (w_thread w) instr Hni Hnd).
  - assert (Hr : remaining w = rest) by (unfold remaining; now rewrite Hc).
    apply Hsilent; auto.
    + destruct Hwf as [Hd Hit]. split; unfold remaining in *; simpl; rewrite Hc in *; auto.
    + apply sc_pending_same; [reflexivity|]. now rewrite Hr.
Qed.

Lemma newer_irrefl x : newer x x = false.
Proof. destruct x; simpl; [apply Z.ltb_irrefl|reflexivity]. Qed.

Lemma sc_pending_range w : 0 <= sc_pending w <= 1.
Proof. unfold sc_pending. destruct (in_dec _ _ _); lia. Qed.

Lemma arrive_cases b :
  (arrived b + 1 = required b /\ arrived (arrive b) = 0 /\
   generation (arrive b) = generation b + 1 /\ required (arrive b) = required b) \/
  (arrived b + 1 <> required b /\ arrived (arrive b) = arrived b + 1 /\
   generation (arrive b) = generation b /\ required (arrive b) = required b).
Proof. unfold arrive. destruct (Z.eqb_spec (arrived b + 1) (required b)); simpl; auto. Qed.

Lemma submitter_ok_publish gen value value' w :
  submitter_ok gen false value w -> submitter_ok gen true value' w.
Proof.
  intros (H1 & H2 & H3 & H4). split_and!; auto.
  intros [Hi|]; [|discriminate]. specialize (H3 Hi). discriminate.
Qed.

Lemma submitter_ok_release gen pub value w :
  submitter_ok gen pub value w -> sc_arrived w = gen + 1 ->
  submitter_ok (gen + 1) false value w.
Proof.
  intros (H1 & H2 & H3 & H4) Ha. pose proof (sc_pending_range w).
  unfold submitter_ok, sc_arrived in *. split_and!; [lia|lia|intros; lia|].
  intros _. apply H4. left. lia.
Qed.

Lemma submitter_ok_quiet gen pub value w w' :
  w_iteration w' = w_iteration w -> w_frameStamp w' = w_frameStamp w ->
  sc_pending w' = sc_pending w ->
  submitter_ok gen pub value w -> submitter_ok gen pub value w'.
Proof.
  unfold submitter_ok, sc_arrived. intros -> -> ->. auto.
Qed.

Lemma submitter_ok_wake gen pub value w w' :
  w_iteration w' = S (w_iteration w) -> w_frameStamp w' = value ->
  newer value (w_frameStamp w) = true -> sc_pending w = 0 -> sc_pending w' = 1 ->
  submitter_ok gen pub value w -> submitter_ok gen pub value w'.
Proof.
  unfold submitter_ok, sc_arrived. intros Hi Hf Hnew Hp Hp' (H1 & H2 & H3 & H4).
  rewrite Hi, Hf, Hp'. rewrite Hp in H1.
  assert (Hlt : Z.of_nat (w_iteration w) <> gen + 1).
  { intros Heq. rewrite H4 in Hnew by auto. discriminate. }
  assert (Hpub : pub = true).
  { destruct pub; [reflexivity|]. rewrite H4 in Hnew by auto. discriminate. }
  split_and!; try lia; auto using newer_irrefl.
Qed.

Lemma submitter_ok_arrival gen pub value w w' :
  w_iteration w' = w_iteration w -> w_frameStamp w' = w_frameStamp w ->
  sc_pending w = 1 -> sc_pending w' = 0 ->
  submitter_ok gen pub value w ->
  submitter_ok gen pub value w' /\ sc_arrived w = gen /\ sc_arrived w' = gen + 1 /\
  Z.of_nat (w_iteration w) = gen + 1.
Proof.
  unfold submitter_ok, sc_arrived. intros Hi Hf Hp Hp' (H1 & H2 & H3 & H4).
  rewrite Hi, Hf, Hp'. rewrite Hp in *. split_and!; try lia; auto.
Qed.

(** ** The trace of a session *)

Lemma returns_extend K tr ev :
  (forall n, ~ In (SE_return n) ev) ->
  returns_after_submissions K tr -> returns_after_submissions K (tr ++ ev).
Proof.
  intros Hev Hret. induction ev as [|e ev IH] using rev_ind.
  - now rewrite app_nil_r.
  - intros pre post n Heq k Hk. rewrite app_assoc in Heq.
    apply app_singleton_split in Heq as [(post' & -> & Heq)|(-> & <- & <-)].
    + apply (IH ltac:(intros m Hm; apply (Hev m); apply in_or_app; now left)
                pre post' n Heq k Hk).
    + destruct (Hev n). apply in_or_app. right. now left.
Qed.

Lemma returns_return K tr n :
  (forall k, (k < K)%nat ->
     In (SE_worker k (0%nat, n, arrive_and_drop SubmissionCompleted)) tr \/
     In (SE_worker k (0%nat, n, arrive_and_wait SubmissionCompleted)) tr) ->
  returns_after_submissions K tr -> returns_after_submissions K (tr ++ [SE_return n]).
Proof.
  intros Hall Hret pre post m Heq k Hk.
  apply app_singleton_split in Heq as [(post' & -> & Heq)|(-> & <- & [= <-])].
  - apply (Hret pre post' m Heq k Hk).
  - now apply Hall.
Qed.

Lemma worker_events_no_return k ev n : ~ In (SE_return n) (map (SE_worker k) ev).
Proof. intros Hin. apply in_map_iff in Hin as (e & He & _). discriminate. Qed.

Lemma sc_arrival_cases t :
  sc_arrival t = arrive_and_drop SubmissionCompleted \/
  sc_arrival t = arrive_and_wait SubmissionCompleted.
Proof. destruct t; simpl; auto. Qed.

Lemma size_insert {A} (l : list A) i x : size (<[i := x]> l) = size l.
Proof. unfold size. now rewrite length_insert. Qed.

(** Every group has submitted in the iteration the barrier releases. *)
Lemma all_arrived_events s n :
  session_inv s ->
  (1 <= n)%nat ->
  (forall k g w, s_groups s !! k = Some g -> g_workers g !! 0%nat = Some w ->
                 Z.of_nat n <= sc_arrived w) ->
  forall k, (k < length (s_groups s))%nat ->
    In (SE_worker k (0%nat, n, arrive_and_drop SubmissionCompleted)) (s_trace s) \/
    In (SE_worker k (0%nat, n, arrive_and_wait SubmissionCompleted)) (s_trace s).
Proof.
  intros (Hwf & _ & _ & _ & _ & Htr & _) Hn Hall k Hk.
  destruct (lookup_lt_is_Some_2 _ _ Hk) as [g Hg].
  pose proof (Forall_lookup_1 _ _ _ _ Hwf Hg) as (_ & (w & Hw & _) & _).
  pose proof (Htr k g w n Hg Hw Hn (Hall k g w Hg Hw)) as Hin.
  destruct (sc_arrival_cases (w_thread w)) as [Heq|Heq]; rewrite Heq in Hin; auto.
Qed.

Lemma group_wf_step g g' i w w' :
  group_wf g -> g_workers g !! i = Some w ->
  g_workers g' = <[i := w']> (g_workers g) ->
  w_thread w' = w_thread w -> worker_wf w' -> group_wf g'.
Proof.
  intros (Hall & (w0 & Hw0 & Hsec0) & Hrest) Hw Hws Ht Hwf'. unfold group_wf. rewrite Hws.
  split_and!.
  - now apply Forall_insert.
  - destruct (decide (i = 0%nat)) as [->|Hi].
    + exists w'. rewrite list_lookup_insert_eq; [|now apply lookup_lt_Some in Hw].
      split; [reflexivity|]. rewrite Ht. congruence.
    + exists w0. now rewrite list_lookup_insert_ne.
  - intros j x Hj Hne. apply lookup_insert_cases in Hj as [(-> & -> & _)|[Hji Hj]].
    + rewrite Ht. now apply (Hrest i w).
    + now apply (Hrest j x).
Qed.

(** A step that leaves the submission barrier and the submitters' counts
    alone keeps the invariant. *)
Lemma session_inv_quiet s k g g' ev :
  session_inv s -> s_groups s !! k = Some g -> group_wf g' ->
  (forall w0', g_workers g' !! 0%nat = Some w0' ->
     exists w0, g_workers g !! 0%nat = Some w0 /\ w_thread w0' = w_thread w0 /\
                sc_arrived w0' = sc_arrived w0 /\
                (forall gen pub, submitter_ok gen pub (s_value s) w0 ->
                                 submitter_ok gen pub (s_value s) w0')) ->
  session_inv (mkSession (s_status s) (s_value s) (s_submissionCompleted s)
                         (s_orchestrator s) (s_calls s) (<[k := g']> (s_groups s))
                         (s_trace s ++ map (SE_worker k) ev)).
Proof.
  intros (Hwf & Hreq & Hsub & Harr & Horch & Htr & Hret) Hg Hwf' Hsame.
  unfold session_inv. cbn [s_status s_value s_submissionCompleted s_orchestrator s_calls
                           s_groups s_trace].
  split_and!.
  - now apply Forall_insert.
  - now rewrite size_insert.
  - intros k0 g0 w0' Hg0 Hw0'.
    change (published _) with (published s).
    apply lookup_insert_cases in Hg0 as [(-> & -> & _)|[Hne Hg0]].
    + destruct (Hsame w0' Hw0') as (w0 & Hw0 & _ & _ & Hok). apply Hok.
      now apply (Hsub k g w0).
    + now apply (Hsub k0 g0 w0').
  - rewrite Harr. f_equal.
    pose proof (count_insert (has_arrived (generation (s_submissionCompleted s)))
                             (s_groups s) k g g' Hg) as Hc.
    assert (Heq : has_arrived (generation (s_submissionCompleted s)) g' =
                  has_arrived (generation (s_submissionCompleted s)) g).
    { unfold has_arrived. destruct Hwf' as (_ & (w0' & Hw0' & _) & _).
      destruct (Hsame w0' Hw0') as (w0 & Hw0 & _ & Ha & _).
      now rewrite Hw0', Hw0, Ha. }
    rewrite Heq in Hc. lia.
  - exact Horch.
  - intros k0 g0 w0' n Hg0 Hw0' Hn Hle. apply in_or_app. left.
    apply lookup_insert_cases in Hg0 as [(-> & -> & _)|[Hne Hg0]].
    + destruct (Hsame w0' Hw0') as (w0 & Hw0 & Ht & Ha & _). rewrite Ht.
      apply (Htr k g w0 n Hg Hw0 Hn). now rewrite <- Ha.
    + now apply (Htr k0 g0 w0' n).
  - rewrite length_insert. apply returns_extend; [|exact Hret].
    intros n. apply worker_events_no_return.
Qed.

(** The arrival of a group's submitting thread keeps the invariant. *)
Lemma session_inv_submission s k g g' w w' :
  session_inv s -> s_groups s !! k = Some g -> g_workers g !! 0%nat = Some w ->
  g_workers g' = <[0%nat := w']> (g_workers g) ->
  w_thread w' = w_thread w -> worker_wf w' ->
  w_iteration w' = w_iteration w -> w_frameStamp w' = w_frameStamp w ->
  sc_pending w = 1 -> sc_pending w' = 0 ->
  session_inv (mkSession (s_status s) (s_value s) (arrive (s_submissionCompleted s))
                         (s_orchestrator s) (s_calls s) (<[k := g']> (s_groups s))
                         (s_trace s ++
                          map (SE_worker k)
                              [(0%nat, w_iteration w, sc_arrival (w_thread w))])).
Proof.
  intros Hinv Hg Hw Hws Ht Hwf' Hit Hfs Hp Hp'.
  pose proof Hinv as (Hwf & Hreq & Hsub & Harr & Horch & Htr & Hret).
  set (gen := generation (s_submissionCompleted s)) in *.
  pose proof (Forall_lookup_1 _ _ _ _ Hwf Hg) as Hgwf.
  pose proof (group_wf_step g g' 0 w w' Hgwf Hw Hws Ht Hwf') as Hgwf'.
  assert (Hw' : g_workers g' !! 0%nat = Some w').
  { rewrite Hws. apply list_lookup_insert_eq. now apply lookup_lt_Some in Hw. }
  destruct (submitter_ok_arrival gen (published s) (s_value s) w w' Hit Hfs Hp Hp'
              (Hsub k g w Hg Hw)) as (Hok' & Ha & Ha' & Hiter).
  assert (Hpub : published s = true).
  { destruct (Hsub k g w Hg Hw) as (_ & _ & H3 & _). now apply H3. }
  assert (Hcount : count (has_arrived gen) (<[k := g']> (s_groups s)) =
                   count (has_arrived gen) (s_groups s) + 1).
  { pose proof (count_insert (has_arrived gen) (s_groups s) k g g' Hg) as Hc.
    assert (Hno : has_arrived gen g = false).
    { unfold has_arrived. rewrite Hw, Ha. lia. }
    assert (Hyes : has_arrived gen g' = true).
    { unfold has_arrived. rewrite Hw', Ha'. lia. }
    rewrite Hno, Hyes in Hc. lia. }
  assert (Hsub' : forall k0 g0 w0, <[k := g']> (s_groups s) !! k0 = Some g0 ->
                                   g_workers g0 !! 0%nat = Some w0 ->
                                   submitter_ok gen (published s) (s_value s) w0).
  { intros k0 g0 w0 Hg0 Hw0.
    apply lookup_insert_cases in Hg0 as [(-> & -> & _)|[Hne Hg0]].
    - rewrite Hw' in Hw0. now inversion Hw0; subst.
    - now apply (Hsub k0 g0 w0). }
  assert (Htr' : forall k0 g0 w0 n,
             <[k := g']> (s_groups s) !! k0 = Some g0 -> g_workers g0 !! 0%nat = Some w0 ->
             (1 <= n)%nat -> Z.of_nat n <= sc_arrived w0 ->
             In (SE_worker k0 (0%nat, n, sc_arrival (w_thread w0)))
                (s_trace s ++
                 map (SE_worker k) [(0%nat, w_iteration w, sc_arrival (w_thread w))])).
  { intros k0 g0 w0 n Hg0 Hw0 Hn Hle. apply in_or_app.
    apply lookup_insert_cases in Hg0 as [(-> & -> & _)|[Hne Hg0]].
    - rewrite Hw' in Hw0. inversion Hw0; subst w0. rewrite Ht.
      destruct (decide (Z.of_nat n <= gen)) as [Hold|Hnew].
      + left. apply (Htr k g w n Hg Hw Hn). lia.
      + right. left. do 2 f_equal. f_equal. lia.
    - left. now apply (Htr k0 g0 w0 n). }
  assert (Hret' : returns_after_submissions
                    (length (<[k := g']> (s_groups s)))
                    (s_trace s ++
                     map (SE_worker k) [(0%nat, w_iteration w, sc_arrival (w_thread w))])).
  { rewrite length_insert. apply returns_extend; [|exact Hret].
    intros n. apply worker_events_no_return. }
  unfold session_inv. cbn [s_status s_value s_submissionCompleted s_orchestrator s_calls
                           s_groups s_trace].
  destruct (arrive_cases (s_submissionCompleted s)) as [(Hfull & Ha0 & Hgen & Hrq)
                                                       |(Hnot & Ha1 & Hgen & Hrq)];
    rewrite Hgen, Hrq, ?Ha0, ?Ha1; fold gen.
  - (* the barrier releases *)
    assert (Ho : exists g0, s_orchestrator s = OWaiting g0 /\ g0 = gen /\
                            count (has_arrived gen) (<[k := g']> (s_groups s)) =
                            size (<[k := g']> (s_groups s))).
    { pose proof (count_le_size (has_arrived gen) (<[k := g']> (s_groups s))) as Hle.
      rewrite size_insert in *.
      destruct (s_orchestrator s) as [| |g0]; try lia.
      exists g0. destruct (Z.eqb_spec g0 gen); [auto with lia|lia]. }
    destruct Ho as (g0 & Horc & -> & Hall).
    assert (Hevery : forall k0 g1 w0, <[k := g']> (s_groups s) !! k0 = Some g1 ->
                                      g_workers g1 !! 0%nat = Some w0 ->
                                      sc_arrived w0 = gen + 1).
    { intros k0 g1 w0 Hg1 Hw0.
      pose proof (count_all _ _ Hall k0 g1 Hg1) as Hin. unfold has_arrived in Hin.
      rewrite Hw0 in Hin. lia. }
    split_and!.
    + now apply Forall_insert.
    + now rewrite size_insert.
    + intros k0 g1 w0 Hg1 Hw0. unfold published. simpl. rewrite Horc, Hgen. fold gen.
      destruct (Z.eqb_spec gen (gen + 1)); [lia|].
      apply (submitter_ok_release gen (published s)); eauto.
    + rewrite Horc. destruct (Z.eqb_spec gen (gen + 1)); [lia|].
      rewrite count_none; [reflexivity|].
      intros k0 g1 Hg1. unfold has_arrived.
      destruct (g_workers g1 !! 0%nat) as [w0|] eqn:Hw0; [|reflexivity].
      rewrite (Hevery k0 g1 w0 Hg1 Hw0). lia.
    + rewrite Horc in Horch |- *. rewrite Z.eqb_refl in Horch.
      destruct (Z.eqb_spec gen (gen + 1)); [lia|]. exact Horch.
    + exact Htr'.
    + exact Hret'.
  - (* the thread is not the last to arrive *)
    split_and!.
    + now apply Forall_insert.
    + now rewrite size_insert.
    + intros k0 g1 w0 Hg1 Hw0.
      assert (Hsame : published (mkSession (s_status s) (s_value s)
                                  (arrive (s_submissionCompleted s))
                                  (s_orchestrator s) (s_calls s) (<[k := g']> (s_groups s))
                                  (s_trace s ++ map (SE_worker k)
                                     [(0%nat, w_iteration w, sc_arrival (w_thread w))])) =
                      published s).
      { unfold published. simpl. now rewrite Hgen. }
      rewrite Hsame. eauto.
    + rewrite Hcount, Harr. lia.
    + exact Horch.
    + exact Htr'.
    + exact Hret'.
Qed.

Lemma session_inv_worker s s' k i :
  session_inv s -> session_step (SWorker k i) s = Some s' -> session_inv s'.
Proof.
  intros Hinv Hstep. pose proof Hinv as (Hwf & _). simpl in Hstep.
  destruct (s_groups s !! k) as [g|] eqn:Hg; simpl in Hstep; [|discriminate].
  destruct (worker_step i (group_view s g)) as [g'|] eqn:Hw; simpl in Hstep;
    [|discriminate].
  inversion Hstep; subst s'; clear Hstep.
  apply worker_step_steps in Hw as (w & Hw & Hsteps). cbn [group_view g_workers] in Hw.
  pose proof (Forall_lookup_1 _ _ _ _ Hwf Hg) as Hgwf.
  pose proof Hgwf as (Hall & (w0 & Hw0 & Hsec0) & Hrest).
  pose proof (Forall_lookup_1 _ _ _ _ Hall Hw) as Hwwf.
  destruct (worker_steps_submission i _ w g' Hwwf Hsteps)
    as (w' & ev & Hws & Htr & Ht & Hwf' & Hcases).
  cbn [group_view g_workers g_trace g_submissionCompleted g_value] in Hws, Htr, Hcases.
  rewrite Htr, drop_app_length.
  pose proof (group_wf_step g g' i w w' Hgwf Hw Hws Ht Hwf') as Hgwf'.
  destruct Hcases as [[Hsc Hquiet]|(Hsc & Hsec & Hit & Hfs & Hp & Hp' & ->)].
  - rewrite Hsc. apply (session_inv_quiet s k g g' ev Hinv Hg Hgwf').
    intros w0' Hw0'. rewrite Hws in Hw0'.
    apply lookup_insert_cases in Hw0' as [(<- & -> & _)|[Hne Hw0']].
    + exists w. split; [exact Hw|]. split; [exact Ht|].
      destruct Hquiet as [(Hit & Hfs & Hp)|(Hit & Hfs & Hnew & Hp & Hp')].
      * split; [unfold sc_arrived; now rewrite Hit, Hp|].
        intros gen pub. now apply submitter_ok_quiet.
      * assert (Hsec : is_secondary (w_thread w) = false) by congruence.
        specialize (Hp' Hsec).
        split; [unfold sc_arrived; rewrite Hit, Hp, Hp'; lia|].
        intros gen pub. now apply submitter_ok_wake.
    + exists w0'. auto.
  - destruct (decide (i = 0%nat)) as [->|Hne].
    + rewrite Hsc. now apply (session_inv_submission s k g g' w w').
    + rewrite (Hrest i w Hw Hne) in Hsec. discriminate.
Qed.

Lemma session_inv_set s s' frameStamp :
  session_inv s -> session_step (SSet frameStamp) s = Some s' -> session_inv s'.
Proof.
  intros (Hwf & Hreq & Hsub & Harr & Horch & Htr & Hret) Hstep. simpl in Hstep.
  destruct (s_orchestrator s) eqn:Ho; try discriminate.
  inversion Hstep; subst s'; clear Hstep.
  unfold session_inv, published in *. simpl. rewrite Ho in *.
  split_and!; auto.
  - intros k g w Hg Hw. eapply submitter_ok_publish; eauto.
  - lia.
  - lia.
  - intros k g w n Hg Hw Hn Hle. apply in_or_app. left. eauto.
  - apply returns_extend; [|exact Hret]. intros n [Heq|[]]. discriminate.
Qed.

Lemma session_inv_arrive s s' :
  session_inv s -> session_step SArrive s = Some s' -> session_inv s'.
Proof.
  intros Hinv Hstep. pose proof Hinv as (Hwf & Hreq & Hsub & Harr & Horch & Htr & Hret).
  simpl in Hstep.
  destruct (s_orchestrator s) eqn:Ho; try discriminate.
  set (gen := generation (s_submissionCompleted s)) in *.
  assert (Hpub : published s = true) by (unfold published; now rewrite Ho).
  destruct Horch as [Hcalls Hgen].
  destruct (arrive_cases (s_submissionCompleted s)) as [(Hfull & Ha0 & Hg & Hrq)
                                                       |(Hnot & Ha1 & Hg & Hrq)];
    fold gen in Hg; rewrite Hg in Hstep.
  - destruct (Z.eqb_spec (gen + 1) gen) as [Hbad|_]; [lia|].
    inversion Hstep; subst s'; clear Hstep.
    assert (Hall : count (has_arrived gen) (s_groups s) = size (s_groups s)) by lia.
    assert (Hevery : forall k g w, s_groups s !! k = Some g ->
                                   g_workers g !! 0%nat = Some w ->
                                   sc_arrived w = gen + 1).
    { intros k g w Hgk Hw.
      pose proof (count_all _ _ Hall k g Hgk) as Hin. unfold has_arrived in Hin.
      rewrite Hw in Hin. lia. }
    unfold session_inv, published. simpl. rewrite Hg, Hrq, Ha0.
    split_and!; auto.
    + intros k g w Hgk Hw. apply (submitter_ok_release gen (published s)); eauto.
    + rewrite count_none; [reflexivity|].
      intros k g Hgk. unfold has_arrived.
      destruct (g_workers g !! 0%nat) as [w|] eqn:Hw; [|reflexivity].
      rewrite (Hevery k g w Hgk Hw). lia.
    + intros k g w n Hgk Hw Hn Hle. apply in_or_app. left. eauto.
    + change [SE_arrive (s_calls s); SE_return (s_calls s)]
        with ([SE_arrive (s_calls s)] ++ [SE_return (s_calls s)]).
      rewrite app_assoc. apply returns_return.
      * intros k Hk.
        destruct (all_arrived_events s (s_calls s) Hinv Hcalls) with (k := k)
          as [Hin|Hin]; auto.
        -- intros k0 g w Hgk Hw. rewrite (Hevery k0 g w Hgk Hw). lia.
        -- left. apply in_or_app. now left.
        -- right. apply in_or_app. now left.
      * apply returns_extend; [|exact Hret]. intros n [Heq|[]]. discriminate.
  - rewrite Z.eqb_refl in Hstep. inversion Hstep; subst s'; clear Hstep.
    unfold session_inv, published. simpl. rewrite Hg, Hrq, Ha1, Z.eqb_refl.
    split_and!; auto.
    + intros k g w Hgk Hw. rewrite <- Hpub. eauto.
    + rewrite Harr. lia.
    + intros k g w n Hgk Hw Hn Hle. apply in_or_app. left. eauto.
    + apply returns_extend; [|exact Hret]. intros n [Heq|[]]. discriminate.
Qed.

Lemma session_inv_return s s' :
  session_inv s -> session_step SReturn s = Some s' -> session_inv s'.
Proof.
  intros Hinv Hstep. pose proof Hinv as (Hwf & Hreq & Hsub & Harr & Horch & Htr & Hret).
  simpl in Hstep.
  destruct (s_orchestrator s) as [| |g0] eqn:Ho; try discriminate.
  set (gen := generation (s_submissionCompleted s)) in *.
  destruct (Z.eqb_spec gen g0) as [|Hne]; [discriminate|].
  inversion Hstep; subst s'; clear Hstep.
  assert (Hpub : published s = false).
  { unfold published. rewrite Ho. fold gen. destruct (Z.eqb_spec g0 gen); congruence. }
  destruct (Z.eqb_spec g0 gen) as [|_]; [congruence|].
  destruct Horch as [Hcalls Hgen].
  unfold session_inv, published. simpl. fold gen.
  split_and!; auto.
  - intros k g w Hgk Hw. rewrite <- Hpub. eauto.
  - intros k g w n Hgk Hw Hn Hle. apply in_or_app. left. eauto.
  - apply returns_return; [|exact Hret]. apply (all_arrived_events s _ Hinv Hcalls).
    intros k g w Hgk Hw. destruct (Hsub k g w Hgk Hw) as (H1 & _). fold gen in H1. lia.
Qed.

Lemma session_inv_step a s s' :
  session_inv s -> session_step a s = Some s' -> session_inv s'.
Proof.
  destruct a as [k i|fs| | |].
  - apply session_inv_worker.
  - apply session_inv_set.
  - apply session_inv_arrive.
  - apply session_inv_return.
  - intros Hinv [= <-]. exact Hinv.
Qed.

Lemma session_run_inv schedule s s' :
  session_inv s -> session_run schedule s = Some s' -> session_inv s'.
Proof.
  revert s. induction schedule as [|a schedule IH]; intros s Hinv Hrun; simpl in Hrun.
  - now inversion Hrun; subst.
  - destruct (session_step a s) as [s1|] eqn:Hstep; simpl in Hrun; [|discriminate].
    apply (IH s1); [|exact Hrun]. exact (session_inv_step a s s1 Hinv Hstep).
Qed.

(** ** The session [setupThreading] starts *)

Lemma initial_worker_wf t : worker_wf (mkWorker t AtFrameBlock None 0).
Proof. split; [exists (body t); simpl; now rewrite app_nil_r|]. intros Hr. now destruct Hr. Qed.

Lemma initial_worker_arrived t : sc_arrived (mkWorker t AtFrameBlock None 0) = 0.
Proof. reflexivity. Qed.

Lemma task_group_spec fb sc next task :
  Forall (fun g => group_wf g /\
                   forall w, g_workers g !! 0%nat = Some w ->
                             sc_arrived w = 0 /\ w_frameStamp w = None /\
                             w_iteration w = 0%nat)
         (task_group fb sc next task) /\
  size (task_group fb sc next task) = (if 1 <=? size (commandGraphs task) then 1 else 0) /\
  concat (map (fun g => map w_thread (g_workers g)) (task_group fb sc next task)) =
  task_threads fb sc next task.
Proof.
  unfold task_group, task_threads.
  destruct (commandGraphs task) as [|cg0 [|cg1 rest]].
  - split; [constructor|]. split; reflexivity.
  - split; [|split; reflexivity]. constructor; [|constructor]. split.
    + split_and!.
      * simpl. constructor; [apply initial_worker_wf|constructor].
      * eexists. split; reflexivity.
      * intros [|[|i]] w Hw Hi; try congruence; discriminate.
    + intros w [= <-]. auto.
  - set (sd := SharedData_create _ _ _ _ _).
    split; [|split].
    + constructor; [|constructor]. split.
      * unfold group_wf, group_init. cbn [g_workers]. split_and!.
        -- apply List.Forall_forall. intros w Hw. apply in_map_iff in Hw as (t & <- & _).
           apply initial_worker_wf.
        -- eexists. split; reflexivity.
        -- intros [|i] w Hw Hi; [congruence|]. rewrite lookup_map in Hw.
           change (run_primary sd cg0 :: map (run_secondary sd) (cg1 :: rest))
             with ([run_primary sd cg0] ++ map (run_secondary sd) (cg1 :: rest)) in Hw.
           rewrite lookup_app_r in Hw by (simpl; lia). rewrite lookup_map in Hw.
           destruct ((cg1 :: rest) !! _); inversion Hw. reflexivity.
      * intros w [= <-]. auto.
    + unfold size. simpl length. destruct (Z.leb_spec 1 (Z.of_nat (S (S (length rest))))); lia.
    + unfold group_init. cbn [g_workers concat map]. rewrite app_nil_r, map_map.
      cbn [w_thread]. f_equal. now rewrite map_id.
Qed.

Lemma session_groups_spec fb sc next tasks :
  Forall (fun g => group_wf g /\
                   forall w, g_workers g !! 0%nat = Some w ->
                             sc_arrived w = 0 /\ w_frameStamp w = None /\
                             w_iteration w = 0%nat)
         (session_groups fb sc next tasks) /\
  size (session_groups fb sc next tasks) = valid_task_count tasks /\
  concat (map (fun g => map w_thread (g_workers g)) (session_groups fb sc next tasks)) =
  tasks_threads fb sc next tasks.
Proof.
  revert next. induction tasks as [|task tasks IH]; intros next; simpl.
  - split; [constructor|]. split; reflexivity.
  - destruct (task_group_spec fb sc next task) as (H1 & H2 & H3).
    destruct (IH (next_after next task)) as (I1 & I2 & I3).
    split; [|split].
    + apply Forall_app. auto.
    + rewrite size_app. lia.
    + now rewrite map_app, concat_app, H3, I3.
Qed.

Lemma session_init_inv {W} `{WindowOps W} (v : Viewer W) :
  wrap32 (1 + (count_tasks (recordAndSubmitTasks v)).1) =
  1 + valid_task_count (recordAndSubmitTasks v) ->
  session_inv (session_init v).
Proof.
  intros Hreq. unfold session_init.
  set (fb := FrameBlock_create _). set (sc := Barrier_create _ _).
  destruct (session_groups_spec fb sc (2 + next_object v) (recordAndSubmitTasks v))
    as (Hall & Hsize & _).
  unfold session_inv.
  cbn [s_status s_value s_submissionCompleted s_orchestrator s_calls s_groups s_trace].
  assert (Hinit : forall k g w,
             session_groups fb sc (2 + next_object v) (recordAndSubmitTasks v) !! k = Some g ->
             g_workers g !! 0%nat = Some w ->
             sc_arrived w = 0 /\ w_frameStamp w = None /\ w_iteration w = 0%nat).
  { intros k g w Hg Hw. destruct (Forall_lookup_1 _ _ _ _ Hall Hg) as [_ Hi]. auto. }
  split_and!.
  - eapply Forall_impl; [exact Hall|]. now intros g [Hg _].
  - change (required sc) with (wrap32 (1 + (count_tasks (recordAndSubmitTasks v)).1)).
    rewrite Hsize. exact Hreq.
  - intros k g w Hg Hw. destruct (Hinit k g w Hg Hw) as (Ha & Hf & Hi).
    unfold submitter_ok. rewrite Ha, Hf, Hi. change (generation sc) with 0.
    split_and!; [lia|lia|intros; lia|reflexivity].
  - change (generation sc) with 0. change (arrived sc) with 0.
    rewrite count_none; [reflexivity|].
    intros k g Hg. unfold has_arrived.
    destruct (g_workers g !! 0%nat) as [w|] eqn:Hw; [|reflexivity].
    destruct (Hinit k g w Hg Hw) as (Ha & _). rewrite Ha. reflexivity.
  - reflexivity.
  - intros k g w n Hg Hw Hn Hle. destruct (Hinit k g w Hg Hw) as (Ha & _). lia.
  - intros [|e pre] post n Heq; discriminate.
Qed.

Lemma session_step_groups a s s' :
  session_step a s = Some s' ->
  length (s_groups s') = length (s_groups s) /\
  required (s_submissionCompleted s') = required (s_submissionCompleted s).
Proof.
  assert (Hreq : forall b, required (arrive b) = required b).
  { intros b. unfold arrive. now destruct (_ =? _). }
  destruct a as [k i|fs| | |]; simpl; intros Hstep.
  - destruct (s_groups s !! k) as [g|] eqn:Hg; simpl in Hstep; [|discriminate].
    destruct (worker_step i (group_view s g)) as [g'|] eqn:Hw; simpl in Hstep;
      [|discriminate].
    inversion Hstep; subst s'; simpl. rewrite length_insert. split; [reflexivity|].
    apply worker_step_steps in Hw as (w & Hw & Hsteps).
    destruct Hsteps as [Hc Hst|Hc Hst Hnew|Hc|b rest c Hc Hcc|b rest Hc
                        |instr rest g0 Hc Hni Hnd Hws Htr Hbs|b gen rest Hc Hgen];
      simpl; try reflexivity.
    + destruct b; simpl; auto.
    + destruct b; simpl; auto.
    + exact (f_equal required (Hbs SubmissionCompleted)).
  - destruct (s_orchestrator s); inversion Hstep; subst; auto.
  - destruct (s_orchestrator s); try discriminate.
    destruct (_ =? _); inversion Hstep; subst; simpl; auto.
  - destruct (s_orchestrator s); try discriminate.
    destruct (_ =? _); inversion Hstep; subst; simpl; auto.
  - inversion Hstep; subst; auto.
Qed.

Lemma session_run_groups schedule s s' :
  session_run schedule s = Some s' ->
  length (s_groups s') = length (s_groups s) /\
  required (s_submissionCompleted s') = required (s_submissionCompleted s).
Proof.
  revert s. induction schedule as [|a schedule IH]; intros s Hrun; simpl in Hrun.
  - now inversion Hrun; subst.
  - destruct (session_step a s) as [s1|] eqn:Hstep; simpl in Hrun; [|discriminate].
    destruct (session_step_groups a s s1 Hstep) as [H1 H2].
    destruct (IH s1 Hrun) as [I1 I2]. split; congruence.
Qed.

Section Submission.

Context {W : Type} `{WindowOps W}.

(** C3, as the code has it.  When [setupThreading] starts a session over
    tasks of which exactly two are valid, the submission-completed barrier
    is created for three parties, the two tasks and the viewer, and the
    session has two thread groups, whose threads are the ones
    [setupThreading] created.  However the viewer and the threads are
    scheduled from there, the barrier keeps its count, and whenever the
    viewer's [arrive_and_wait] returns in its [n]-th [recordAndSubmit],
    the submitting thread of each of the two tasks has arrived at the
    barrier in its [n]-th iteration before. *)
Theorem submissionCompleted_counts_viewer_and_tasks (v : Viewer W) schedule s :
  let tasks := recordAndSubmitTasks v in
  valid_task_count tasks = 2 ->
  total_command_graphs tasks < 2 ^ 32 ->
  session_run schedule (session_init v) = Some s ->
  exists v' b,
    setupThreading v = Some v' /\ _threading v' = true /\
    _submissionCompleted v' = Some b /\
    required b = 3 /\ arrived b = 0 /\
    s_submissionCompleted (session_init v) = b /\
    threads v' = threads (stopThreading v) ++
                 concat (map (fun g => map w_thread (g_workers g))
                             (s_groups (session_init v))) /\
    required (s_submissionCompleted s) = 3 /\
    length (s_groups s) = 2%nat /\
    returns_after_submissions 2 (s_trace s).
Proof.
  intros tasks Hvalid Htotal Hrun.
  destruct (setupThreading_spec v Htotal) as (v' & Hsetup & Hv'). fold tasks in Hv'.
  pose proof (valid_task_count_le_total tasks) as Hle. fold tasks in Hle.
  destruct (Z.leb_spec (total_command_graphs tasks) 1); [lia|].
  destruct Hv' as (Hth & _ & Hsc & Hthreads).
  rewrite Hvalid in Hsc, Hthreads. change (wrap32 (1 + 2)) with 3 in Hsc, Hthreads.
  assert (Hreq : wrap32 (1 + (count_tasks tasks).1) = 3).
  { rewrite count_tasks_wrap. cbn [fst]. now rewrite Hvalid. }
  assert (Hinit : session_inv (session_init v)).
  { apply session_init_inv. fold tasks. now rewrite Hreq, Hvalid. }
  pose proof (session_run_inv schedule _ s Hinit Hrun) as (_ & _ & _ & _ & _ & _ & Hret).
  destruct (session_run_groups schedule _ s Hrun) as [Hlen Hrq].
  destruct (session_groups_spec (FrameBlock_create (next_object v))
              (Barrier_create (S (next_object v)) 3) (2 + next_object v) tasks)
    as (_ & Hsize & Hconcat).
  assert (Hinit_sc : s_submissionCompleted (session_init v) =
                     Barrier_create (S (next_object v)) 3).
  { unfold session_init. cbn [s_submissionCompleted]. fold tasks. now rewrite Hreq. }
  assert (Hinit_groups : s_groups (session_init v) =
                         session_groups (FrameBlock_create (next_object v))
                           (Barrier_create (S (next_object v)) 3) (2 + next_object v) tasks).
  { unfold session_init. cbn [s_groups]. fold tasks. now rewrite Hreq. }
  assert (Hlen2 : length (s_groups s) = 2%nat).
  { rewrite Hlen, Hinit_groups. unfold size in Hsize. lia. }
  exists v', (Barrier_create (S (next_object v)) 3).
  split_and!; auto.
  - rewrite Hinit_groups, Hconcat. exact Hthreads.
  - now rewrite Hrq, Hinit_sc.
  - now rewrite <- Hlen2.
Qed.
End Submission.

(** ** Acquiring the next image *)

Section Acquire.

Context {W : Type} `{WindowOps W}.

(** The result [acquireNextFrame] tests is the one of the last visible
    window: what the windows before it returned is overwritten. *)
Lemma acquire_windows_last fuel (ws : list W) window result warnings :
  visible window = true ->
  acquire_windows fuel (ws ++ [window]) result warnings =
  '(_, ws', warnings) ← acquire_windows fuel ws result warnings;
  '(result, window, warnings) ← acquire_loop fuel window warnings;
  Some (result, ws' ++ [window], warnings).
Proof.
  intros Hvis. revert result warnings.
  induction ws as [|w ws IH]; intros result warnings; simpl.
  - rewrite Hvis. simpl.
    destruct (acquire_loop fuel window warnings) as [[[r w'] l]|]; reflexivity.
  - destruct (visible w); simpl.
    + destruct (acquire_loop fuel w warnings) as [[[r w'] l]|]; simpl; [|reflexivity].
      rewrite IH.
      destruct (acquire_windows fuel ws r l) as [[[r1 ws1] l1]|]; simpl; [|reflexivity].
      destruct (acquire_loop fuel window l1) as [[[r2 w2] l2]|]; reflexivity.
    + rewrite IH.
      destruct (acquire_windows fuel ws result warnings) as [[[r1 ws1] l1]|]; simpl;
        [|reflexivity].
      destruct (acquire_loop fuel window l1) as [[[r2 w2] l2]|]; reflexivity.
Qed.

End Acquire.

(** C1 fails on the code.  With two visible windows of which the first
    gets an error outside the recoverable set and the second acquires its
    image, the warning is printed, the frame is advanced all the same and
    [advanceToNextFrame] returns [true].  With the windows in the other
    order, or the failing window alone, it returns [false]. *)
Theorem acquire_failure_masked_by_later_window :
  visible failing_window = true /\
  (acquireNextImage failing_window).1 = VK_ERROR_OUT_OF_HOST_MEMORY /\
  recoverable VK_ERROR_OUT_OF_HOST_MEMORY = false /\
  (exists v',
      advanceToNextFrame 64 8 100 masked_failure_viewer = Some (true, v') /\
      calls v' = [Warning_acquireNextImage VK_ERROR_OUT_OF_HOST_MEMORY] /\
      _events v' = [FrameEvent (Some 0%nat)]) /\
  fst <$> advanceToNextFrame 64 8 100
            (addWindow failing_window (addWindow succeeding_window Viewer_new)) =
  Some false /\
  fst <$> advanceToNextFrame 64 8 100 (addWindow failing_window Viewer_new) =
  Some false.
Proof.
  split; [reflexivity|]. split; [reflexivity|]. split; [reflexivity|].
  split; [|split; reflexivity].
  eexists. split; [reflexivity|]. split; reflexivity.
Qed.

(** * Further properties of the code

    Properties of [Viewer.cpp] beyond the claims of the specification,
    and of Array3D.h and DescriptorImage.cpp. *)

(** ** Ordered sets of pointers *)

Lemma set_insert_In x s d : In d (set_insert x s) <-> d = x \/ In d s.
Proof.
  induction s as [|y s IH]; simpl.
  - intuition.
  - destruct (x <? y) eqn:Hlt; [|destruct (y <? x) eqn:Hgt]; simpl.
    + intuition.
    + rewrite IH. intuition.
    + assert (x = y) by lia. subst. intuition.
Qed.

Lemma set_insert_sorted x s :
  StronglySorted Z.lt s -> StronglySorted Z.lt (set_insert x s).
Proof.
  induction 1 as [|y s Hs IH Hall]; simpl.
  - repeat constructor.
  - destruct (Z.ltb_spec x y) as [Hlt|Hge]; [|destruct (Z.ltb_spec y x) as [Hgt|Hle]].
    + constructor; [now constructor|]. constructor; [exact Hlt|].
      eapply List.Forall_impl; [|exact Hall]. simpl. intros. lia.
    + constructor; [exact IH|]. apply List.Forall_forall. intros d Hd.
      apply set_insert_In in Hd as [->|Hd]; [exact Hgt|].
      rewrite List.Forall_forall in Hall. now apply Hall.
    + now constructor.
Qed.

Lemma sorted_NoDup s : StronglySorted Z.lt s -> List.NoDup s.
Proof.
  induction 1 as [|y s Hs IH Hall]; constructor; [|exact IH].
  intros Hin. rewrite List.Forall_forall in Hall. specialize (Hall y Hin). lia.
Qed.

Lemma uniqueWindows_spec cgs :
  StronglySorted Z.lt (uniqueWindows cgs) /\
  forall w, In w (uniqueWindows cgs) <-> exists cg, In cg cgs /\ window cg = w.
Proof.
  unfold uniqueWindows.
  enough (Hgen : forall acc, StronglySorted Z.lt acc ->
             StronglySorted Z.lt
               (fold_left (fun s cg => set_insert (window cg) s) cgs acc) /\
             forall w, In w (fold_left (fun s cg => set_insert (window cg) s) cgs acc) <->
                       In w acc \/ exists cg, In cg cgs /\ window cg = w).
  { destruct (Hgen [] ltac:(constructor)) as [Hs Hin]. split; [exact Hs|].
    intros w. rewrite Hin. simpl. intuition. }
  induction cgs as [|cg cgs IH]; intros acc Hacc; simpl.
  - split; [exact Hacc|]. intros w. split; [auto|]. intros [Hw|(cg & [] & _)]. exact Hw.
  - destruct (IH _ (set_insert_sorted (window cg) acc Hacc)) as [Hs Hin].
    split; [exact Hs|]. intros w. rewrite Hin, set_insert_In. split.
    + intros [[->|Hw]|(cg' & Hcg' & Hw)]; eauto.
    + intros [Hw|(cg' & [<-|Hcg'] & Hw)]; eauto.
Qed.

(** ** Waiting for the devices, and being active *)

Section Devices.

Context {W : Type} `{WindowOps W}.

Lemma log_log l1 l2 (v : Viewer W) : log l2 (log l1 v) = log (l1 ++ l2) v.
Proof. unfold log, set_calls. simpl. now rewrite app_assoc. Qed.

Lemma log_nil (v : Viewer W) : log [] v = v.
Proof. unfold log, set_calls. rewrite app_nil_r. now destruct v. Qed.

Lemma set_windows_same (v : Viewer W) : set_windows (_windows v) v = v.
Proof. now destruct v. Qed.

Lemma window_devices_spec (ws : list W) acc :
  StronglySorted Z.lt acc ->
  let devices :=
    fold_left (fun devices window =>
                 if getDevice window =? nullptr then devices
                 else set_insert (getDevice window) devices) ws acc in
  StronglySorted Z.lt devices /\
  forall d, In d devices <->
            In d acc \/ (d <> nullptr /\ exists w, In w ws /\ getDevice w = d).
Proof.
  revert acc. induction ws as [|w ws IH]; intros acc Hacc; simpl.
  - split; [exact Hacc|]. intros d. split; [auto|]. intros [Hd|(_ & w & [] & _)]. exact Hd.
  - destruct (Z.eqb_spec (getDevice w) nullptr) as [Hnull|Hdev].
    + destruct (IH acc Hacc) as [Hs Hin]. split; [exact Hs|].
      intros d. rewrite Hin. split.
      * intros [Hd|(Hd & w' & Hw' & Hg)]; [now left|]. right. split; [exact Hd|]. eauto.
      * intros [Hd|(Hd & w' & [<-|Hw'] & Hg)]; [now left|congruence|]. right. eauto.
    + destruct (IH _ (set_insert_sorted (getDevice w) acc Hacc)) as [Hs Hin].
      split; [exact Hs|].
      intros d. rewrite Hin, set_insert_In. split.
      * intros [[->|Hd]|(Hd & w' & Hw' & Hg)].
        -- right. split; [exact Hdev|]. eauto.
        -- now left.
        -- right. split; [exact Hd|]. eauto.
      * intros [Hd|(Hd & w' & [<-|Hw'] & Hg)].
        -- left. now right.
        -- left. left. congruence.
        -- right. eauto.
Qed.

(** X1.  [deviceWaitIdle] waits for every device that some window of the
    viewer has, once per device however many windows share it, in
    increasing order of the handles, and for nothing else: a window without
    a device is skipped.  Nothing but the call log changes. *)
Theorem deviceWaitIdle_once_per_device (v : Viewer W) :
  exists devices,
    deviceWaitIdle v = log (map vkDeviceWaitIdle devices) v /\
    StronglySorted Z.lt devices /\ List.NoDup devices /\
    forall d, In d devices <->
              d <> nullptr /\ exists window, In window (_windows v) /\ getDevice window = d.
Proof.
  destruct (window_devices_spec (_windows v) [] ltac:(constructor)) as [Hs Hin].
  eexists. split; [reflexivity|]. split; [exact Hs|]. split; [now apply sorted_NoDup|].
  intros d. rewrite Hin. simpl. intuition.
Qed.

Lemma active_windows (ws : list W) b :
  fold_left (fun act window => if negb (valid window) then false else act) ws b =
  b && forallb valid ws.
Proof.
  revert b. induction ws as [|w ws IH]; intros b; simpl.
  - now rewrite andb_true_r.
  - rewrite IH. destruct (valid w), b; simpl; auto.
Qed.

(** X2.  [active] returns [true] exactly when the viewer has not been
    closed and every window is valid (so also when there is no window).
    When it returns [true] it has done nothing; when it returns [false] it
    has waited for the devices to idle. *)
Theorem active_iff_open_and_valid (v : Viewer W) :
  (active v).1 = negb (_close v) && forallb valid (_windows v) /\
  (active v).2 = if (active v).1 then v else deviceWaitIdle v.
Proof.
  unfold active. destruct (_close v); simpl.
  - auto.
  - rewrite active_windows. simpl. destruct (forallb valid (_windows v)); simpl; auto.
Qed.

Lemma active_false (v : Viewer W) :
  (active v).1 = false -> active v = (false, deviceWaitIdle v).
Proof. unfold active. destruct (negb _); simpl; [reflexivity|discriminate]. Qed.

End Devices.

(** ** The acquire loop *)

Lemma recoverable_not_success r : recoverable r = true -> (r =? VK_SUCCESS) = false.
Proof.
  unfold recoverable, VK_ERROR_SURFACE_LOST_KHR, VK_ERROR_DEVICE_LOST,
    VK_ERROR_OUT_OF_DATE_KHR, VK_ERROR_FULL_SCREEN_EXCLUSIVE_MODE_LOST_EXT, VK_SUCCESS.
  intros Hr. destruct (Z.eqb_spec r 0) as [->|]; [discriminate Hr|reflexivity].
Qed.

Section AcquireLoop.

Context {W : Type} `{WindowOps W}.

Lemma acquire_windows_invisible fuel (ws : list W) result warnings :
  forallb (fun w => negb (visible w)) ws = true ->
  acquire_windows fuel ws result warnings = Some (result, ws, warnings).
Proof.
  induction ws as [|w ws IH]; simpl; [reflexivity|].
  intros [Hw Hws]%andb_prop. rewrite Hw. simpl. rewrite IH by exact Hws. reflexivity.
Qed.

(** X3.  [acquireNextFrame] on a closed viewer returns [false] and asks no
    window for an image.  On an open viewer none of whose windows is
    visible (or that has no window) it returns [true], again without
    asking any window. *)
Theorem acquireNextFrame_without_visible_window fuel (v : Viewer W) :
  (_close v = true -> acquireNextFrame fuel v = Some (false, v)) /\
  (_close v = false ->
   forallb (fun window => negb (visible window)) (_windows v) = true ->
   acquireNextFrame fuel v = Some (true, v)).
Proof.
  unfold acquireNextFrame. split.
  - now intros ->.
  - intros -> Hinv. rewrite acquire_windows_invisible by exact Hinv. simpl.
    now rewrite set_windows_same, log_nil.
Qed.

Lemma acquire_windows_app fuel (ws1 ws2 : list W) result warnings :
  acquire_windows fuel (ws1 ++ ws2) result warnings =
  '(result, ws1', warnings) ← acquire_windows fuel ws1 result warnings;
  '(result, ws2', warnings) ← acquire_windows fuel ws2 result warnings;
  Some (result, ws1' ++ ws2', warnings).
Proof.
  revert result warnings. induction ws1 as [|w ws1 IH]; intros result warnings; simpl.
  - destruct (acquire_windows fuel ws2 result warnings) as [[[r ws'] l]|]; reflexivity.
  - destruct (visible w); simpl.
    + destruct (acquire_loop fuel w warnings) as [[[r w'] l]|]; simpl; [|reflexivity].
      rewrite IH.
      destruct (acquire_windows fuel ws1 r l) as [[[r1 ws1'] l1]|]; simpl; [|reflexivity].
      destruct (acquire_windows fuel ws2 r1 l1) as [[[r2 ws2'] l2]|]; reflexivity.
    + rewrite IH.
      destruct (acquire_windows fuel ws1 result warnings) as [[[r1 ws1'] l1]|]; simpl;
        [|reflexivity].
      destruct (acquire_windows fuel ws2 r1 l1) as [[[r2 ws2'] l2]|]; reflexivity.
Qed.

(** X4.  The value [acquireNextFrame] returns is decided by the last
    visible window alone: it is whether the loop of that window ended with
    [VK_SUCCESS].  What the windows before it got is overwritten, and the
    invisible windows after it are skipped. *)
Theorem acquireNextFrame_last_visible_decides fuel (v : Viewer W) before window after :
  _close v = false ->
  _windows v = before ++ window :: after ->
  visible window = true ->
  forallb (fun w => negb (visible w)) after = true ->
  acquireNextFrame fuel v =
  '(_, before', warnings) ← acquire_windows fuel before VK_SUCCESS [];
  '(result, window', warnings) ← acquire_loop fuel window warnings;
  Some (result =? VK_SUCCESS,
        log warnings (set_windows (before' ++ window' :: after) v)).
Proof.
  intros Hc Hws Hvis Hafter. unfold acquireNextFrame. rewrite Hc, Hws.
  rewrite acquire_windows_app.
  destruct (acquire_windows fuel before VK_SUCCESS []) as [[[r1 before'] l1]|]; simpl;
    [|reflexivity].
  rewrite Hvis. simpl.
  destruct (acquire_loop fuel window l1) as [[[r2 window'] l2]|]; simpl; [|reflexivity].
  rewrite acquire_windows_invisible by exact Hafter. reflexivity.
Qed.

(** X5.  The loop of [acquireNextFrame] for one window.  When the window
    answers [k] times with one of the four results that rebuild the
    swapchain and then with some other result, the loop resizes the window
    exactly [k] times and ends with that result: with no warning when it is
    [VK_SUCCESS], with one warning otherwise.  Any bound above [k] on the
    number of rounds gives this outcome. *)
Theorem acquire_loop_retries k fuel (window : W) warnings :
  (forall i, (i < k)%nat ->
             recoverable (acquireNextImage (after_retries i window)).1 = true) ->
  recoverable (acquireNextImage (after_retries k window)).1 = false ->
  (k < fuel)%nat ->
  let result := (acquireNextImage (after_retries k window)).1 in
  acquire_loop fuel window warnings =
  Some (result, (acquireNextImage (after_retries k window)).2,
        if result =? VK_SUCCESS then warnings
        else warnings ++ [Warning_acquireNextImage result]).
Proof.
  revert fuel window. induction k as [|k IH]; intros fuel window Hrec Hlast Hfuel;
    (destruct fuel as [|fuel]; [lia|]); simpl in *.
  - destruct (acquireNextImage window) as [r w']. simpl in *.
    destruct (r =? VK_SUCCESS); [reflexivity|]. now rewrite Hlast.
  - pose proof (Hrec 0%nat ltac:(lia)) as H0. simpl in H0.
    destruct (acquireNextImage window) as [r w'] eqn:Hacq. simpl in *.
    rewrite (recoverable_not_success r H0), H0.
    apply IH; [|exact Hlast|lia].
    intros i Hi. specialize (Hrec (S i) ltac:(lia)). simpl in Hrec.
    now rewrite Hacq in Hrec.
Qed.

Lemma acquire_loop_stuck fuel (window : W) warnings :
  (forall i, recoverable (acquireNextImage (after_retries i window)).1 = true) ->
  acquire_loop fuel window warnings = None.
Proof.
  revert window. induction fuel as [|fuel IH]; intros window Hrec; simpl; [reflexivity|].
  pose proof (Hrec 0%nat) as H0. simpl in H0.
  destruct (acquireNextImage window) as [r w'] eqn:Hacq. simpl in *.
  rewrite (recoverable_not_success r H0), H0.
  apply IH. intros i. specialize (Hrec (S i)). simpl in Hrec. now rewrite Hacq in Hrec.
Qed.

(** X6.  A visible window that answers every [acquireNextImage] with one of
    the four results that rebuild the swapchain keeps [acquireNextFrame] in
    its loop: no number of rounds is enough for it to return. *)
Theorem acquireNextFrame_never_returns fuel (v : Viewer W) before window after :
  _close v = false ->
  _windows v = before ++ window :: after ->
  visible window = true ->
  (forall i, recoverable (acquireNextImage (after_retries i window)).1 = true) ->
  acquireNextFrame fuel v = None.
Proof.
  intros Hc Hws Hvis Hrec. unfold acquireNextFrame. rewrite Hc, Hws.
  rewrite acquire_windows_app.
  destruct (acquire_windows fuel before VK_SUCCESS []) as [[[r1 before'] l1]|]; simpl;
    [|reflexivity].
  rewrite Hvis. simpl. now rewrite acquire_loop_stuck.
Qed.

End AcquireLoop.

(** ** Frames *)

Section Frames.

Context {W : Type} `{WindowOps W}.

Variable frameCount_bits : Z.

(** X7.  A call of [advanceToNextFrame] that returns [false] starts no
    frame: the current stamp and the heap of stamps are as before.  On a
    viewer that is not active it polls no events and acquires no image: it
    only waits for the devices. *)
Theorem advanceToNextFrame_false_starts_no_frame fuel now (v : Viewer W) :
  ((active v).1 = false ->
   advanceToNextFrame frameCount_bits fuel now v = Some (false, deviceWaitIdle v)) /\
  (forall v', advanceToNextFrame frameCount_bits fuel now v = Some (false, v') ->
              frame_state v' = frame_state v).
Proof.
  unfold advanceToNextFrame. split.
  - intros Hact. now rewrite (active_false v Hact).
  - intros v' Hadv.
    pose proof (frame_state_active v) as Hact.
    destruct (active v) as [act v1]. simpl in Hact.
    destruct act; simpl in Hadv; [|inversion Hadv; now subst].
    pose proof (frame_state_pollEvents true v1) as Hp.
    destruct (pollEvents true v1) as [r1 v2]. simpl in Hp.
    destruct (acquireNextFrame fuel v2) as [[acquired v3]|] eqn:Hacq;
      simpl in Hadv; [|discriminate].
    apply frame_state_acquireNextFrame in Hacq.
    destruct acquired; simpl in Hadv; [discriminate|].
    inversion Hadv; subst. congruence.
Qed.

Lemma mod_succ (i : nat) m : (Z.of_nat i mod m + 1) mod m = Z.of_nat (S i) mod m.
Proof. rewrite Zplus_mod_idemp_l. f_equal. lia. Qed.

(** The frames of a run of [advance]: [base] stamps were in the heap before
    the run. *)
Lemma advances_spec times (v : Viewer W) :
  _frameStamp v = None ->
  stamps (advances frameCount_bits times v) = stamps v ++ imap (frame_of frameCount_bits) times /\
  _frameStamp (advances frameCount_bits times v) =
  match times with
  | [] => None
  | _ => Some (length (stamps v) + length times - 1)%nat
  end.
Proof.
  intros Hnone. unfold advances.
  induction times as [|t times IH] using rev_ind.
  - simpl. now rewrite app_nil_r.
  - rewrite fold_left_app. cbn [fold_left].
    set (v1 := fold_left _ times v) in *. destruct IH as [Hst Hfs].
    destruct (advance_stamp_frame frameCount_bits t v1) as (v2 & Hv2 & ->).
    unfold frame_state in Hv2. inversion Hv2 as [[Hr Hs]].
    rewrite imap_app, length_app. cbn [imap length].
    assert (Hlast : stamps (stamp_frame frameCount_bits t v2) =
                    stamps v ++ imap (frame_of frameCount_bits) times ++ [frame_of frameCount_bits (length times) t] /\
                    _frameStamp (stamp_frame frameCount_bits t v2) =
                    Some (length (stamps v) + length times)%nat).
    { rewrite Hst in Hs. rewrite Hfs in Hr. unfold stamp_frame. rewrite Hr.
      destruct times as [|t0 times'] eqn:Htimes.
      - simpl. rewrite Hs. simpl. rewrite !app_nil_r. unfold frame_of. simpl.
        rewrite Zmod_0_l. split; [reflexivity|]. f_equal. lia.
      - rewrite <- Htimes in *.
        assert (Hlen : (0 < length times)%nat) by (rewrite Htimes; simpl; lia).
        assert (Hlook : (stamps v ++ imap (frame_of frameCount_bits) times)
                          !! (length (stamps v) + length times - 1)%nat =
                        Some (frame_of frameCount_bits (length times - 1)
                                       (default 0 (times !! (length times - 1)%nat)))).
        { rewrite lookup_app_r by lia.
          replace (length (stamps v) + length times - 1 - length (stamps v))%nat
            with (length times - 1)%nat by lia.
          rewrite list_lookup_imap.
          destruct (lookup_lt_is_Some_2 times (length times - 1)%nat ltac:(lia)) as [t1 Ht].
          now rewrite Ht. }
        rewrite Hs, Hlook. unfold new_FrameStamp. simpl.
        rewrite Hs, <- app_assoc. split.
        + do 2 f_equal. unfold frame_of, next_frameCount. simpl.
          rewrite mod_succ. do 3 f_equal. lia.
        + f_equal. rewrite length_app, length_imap. reflexivity. }
    destruct Hlast as [Hl1 Hl2]. rewrite Hl1, Hl2. split.
    + now rewrite Nat.add_0_r.
    + destruct (times ++ [t]) eqn:Heq; [now destruct times|].
      f_equal. lia.
Qed.

(** X8.  A run of [advance] from a viewer without a frame stamp numbers
    its frames 0, 1, 2, ... in the counter's width: the stamps it puts on
    the heap hold the clock readings and these counts, in order, the
    stamps that were on the heap stay, and after a non-empty run the viewer
    refers to the last stamp and the event of that stamp ends the queue. *)
Theorem advance_counts_frames times (v : Viewer W) :
  _frameStamp v = None ->
  stamps (advances frameCount_bits times v) = stamps v ++ imap (frame_of frameCount_bits) times /\
  (times <> [] ->
   _frameStamp (advances frameCount_bits times v) = Some (length (stamps v) + length times - 1)%nat /\
   exists events,
     _events (advances frameCount_bits times v) =
     events ++ [FrameEvent (Some (length (stamps v) + length times - 1)%nat)]).
Proof.
  intros Hnone. destruct (advances_spec times v Hnone) as [Hst Hfs].
  split; [exact Hst|]. intros Hne.
  assert (Hfs' : _frameStamp (advances frameCount_bits times v) =
                 Some (length (stamps v) + length times - 1)%nat).
  { destruct times; [contradiction|]. exact Hfs. }
  split; [exact Hfs'|].
  clear Hst Hfs. revert Hfs'. unfold advances.
  destruct (exists_last Hne) as (times' & t & ->).
  rewrite fold_left_app. cbn [fold_left].
  destruct (advance_stamp_frame frameCount_bits t
              (fold_left (fun v now => advance frameCount_bits now v) times' v))
    as (v2 & _ & ->).
  intros <-. unfold stamp_frame. simpl. eexists. reflexivity.
Qed.

End Frames.

(** ** Calls per frame, and the end of a session *)

Section Calls.

Context {W : Type} `{WindowOps W}.

Variable frameCount_bits : Z.

Lemma update_loop frameStamp tasks (v : Viewer W) :
  _frameStamp v = frameStamp ->
  fold_left (fun v task =>
               match databasePager task with
               | Some pager => log [Pager_updateSceneGraph pager (_frameStamp v)] v
               | None => v
               end) tasks v =
  log (pager_updates frameStamp tasks) v.
Proof.
  revert v. induction tasks as [|task tasks IH]; intros v Hfs; simpl.
  - now rewrite log_nil.
  - unfold pager_updates. simpl. destruct (databasePager task) as [pager|]; simpl.
    + rewrite IH by exact Hfs. rewrite log_log, Hfs. reflexivity.
    + now apply IH.
Qed.

Lemma updates_of_pager_updates pager frameStamp tasks :
  updates_of pager (pager_updates frameStamp tasks) = tasks_with_pager pager tasks.
Proof.
  unfold updates_of, pager_updates, tasks_with_pager.
  induction tasks as [|task tasks IH]; simpl; [reflexivity|].
  destruct (databasePager task) as [p|]; simpl.
  - destruct (Nat.eqb_spec p pager) as [->|Hne].
    + rewrite bool_decide_true by reflexivity. simpl. f_equal. exact IH.
    + rewrite bool_decide_false by congruence. exact IH.
  - rewrite ?bool_decide_false by discriminate. exact IH.
Qed.

(** X11.  [update] calls [updateSceneGraph] with the current frame stamp
    once for every task that has a pager, in task order, and changes
    nothing but the call log; a task without a pager is skipped.  So a
    pager that several tasks share is updated once per such task. *)
Theorem update_calls_each_task_pager (v : Viewer W) :
  update v = log (pager_updates (_frameStamp v) (recordAndSubmitTasks v)) v /\
  forall pager,
    updates_of pager (pager_updates (_frameStamp v) (recordAndSubmitTasks v)) =
    tasks_with_pager pager (recordAndSubmitTasks v).
Proof.
  split.
  - unfold update. now apply update_loop.
  - intros pager. apply updates_of_pager_updates.
Qed.

Lemma submit_loop frameStamp tasks (v : Viewer W) :
  _frameStamp v = frameStamp ->
  fold_left (fun v0 t => log [Task_submit (task_id t) (_frameStamp v0)] v0) tasks v =
  log (map (fun t => Task_submit (task_id t) frameStamp) tasks) v.
Proof.
  revert v. induction tasks as [|t tasks IH]; intros v Hfs; simpl.
  - now rewrite log_nil.
  - rewrite IH by exact Hfs. rewrite log_log, Hfs. reflexivity.
Qed.

Lemma present_loop ps (v : Viewer W) :
  fold_left (fun v p => log [Presentation_present (pres_id p)] v) ps v =
  log (map (fun p => Presentation_present (pres_id p)) ps) v.
Proof.
  revert v. induction ps as [|p ps IH]; intros v; simpl.
  - now rewrite log_nil.
  - rewrite IH, log_log. reflexivity.
Qed.

(** X12.  A frame without threading.  [update], [recordAndSubmit] and
    [present], called in this order on a viewer whose threading is off,
    make exactly these calls: the pager updates, then one [submit] per
    task, then one [present] per presentation, each in list order and all
    with the stamp of the frame; nothing else changes. *)
Theorem unthreaded_frame_order (v : Viewer W) :
  _threading v = false ->
  (recordAndSubmit (update v) ≫= fun v' => Some (present v')) =
  Some (log (pager_updates (_frameStamp v) (recordAndSubmitTasks v) ++
             map (fun task => Task_submit (task_id task) (_frameStamp v))
                 (recordAndSubmitTasks v) ++
             map (fun p => Presentation_present (pres_id p)) (presentations v))
            v).
Proof.
  intros Hth. unfold update. rewrite (update_loop (_frameStamp v)) by reflexivity.
  unfold recordAndSubmit. simpl. rewrite Hth. simpl.
  rewrite (submit_loop (_frameStamp v)) by reflexivity.
  unfold present. simpl. rewrite present_loop. now rewrite !log_log.
Qed.

(** X14.  No thread outlives its session.  On a reachable viewer with at
    least two command graphs (fewer than 2^32), [setupThreading] creates
    the threads of the topology, and the next [stopThreading] clears the
    status, wakes the frame block and joins exactly these threads, in the
    order of their creation; it leaves the viewer without threads and with
    threading off. *)
Theorem stopThreading_joins_created_threads (v : Viewer W) :
  Reachable frameCount_bits v ->
  2 <= total_command_graphs (recordAndSubmitTasks v) < 2 ^ 32 ->
  exists v' frameBlock,
    setupThreading v = Some v' /\
    _frameBlock v' = Some frameBlock /\
    map kind (threads v') = flat_map shape_threads (map shape (recordAndSubmitTasks v)) /\
    calls (stopThreading v') =
    calls v' ++ [cout_stopThreading; FrameBlock_wake (fb_id frameBlock)] ++
    map Thread_join (threads v') /\
    threads (stopThreading v') = [] /\
    _threading (stopThreading v') = false /\
    _status (stopThreading v') = false.
Proof.
  intros Hreach [Hlo Hhi].
  destruct (setupThreading_spec v Hhi) as (v' & Hsetup & Hv').
  destruct (Z.leb_spec (total_command_graphs (recordAndSubmitTasks v)) 1); [lia|].
  destruct Hv' as (Hth & Hfb & _ & Hthreads).
  assert (Hnone : threads (stopThreading v) = []).
  { pose proof (Reachable_session_ok frameCount_bits _ (reach_stopThreading _ _ Hreach))
      as Hok.
    unfold session_ok in Hok. now rewrite stopThreading_off in Hok. }
  rewrite Hnone in Hthreads. simpl in Hthreads.
  eexists v', _. split; [exact Hsetup|]. split; [exact Hfb|].
  split; [rewrite Hthreads; apply kind_tasks_threads|].
  unfold stopThreading. rewrite Hth. simpl. rewrite Hfb. simpl.
  rewrite <- !app_assoc. auto.
Qed.

End Calls.

(** ** Closing *)

Section Steps.

Context {W : Type} `{WindowOps W}.

Variable frameCount_bits : Z.

Lemma flags_log c (v : Viewer W) : flags (log c v) = flags v.
Proof. reflexivity. Qed.

Lemma flags_deviceWaitIdle (v : Viewer W) : flags (deviceWaitIdle v) = flags v.
Proof. reflexivity. Qed.

Lemma flags_active (v : Viewer W) : flags (active v).2 = flags v.
Proof. unfold active. destruct (negb _); reflexivity. Qed.

Lemma flags_pollEvents d (v : Viewer W) : flags (pollEvents d v).2 = flags v.
Proof.
  unfold pollEvents. destruct (pollEvents_windows _ _ _) as [[r events] ws]. reflexivity.
Qed.

Lemma flags_stamp_frame now (v : Viewer W) :
  flags (stamp_frame frameCount_bits now v) = flags v.
Proof.
  unfold stamp_frame. destruct (_frameStamp v) as [a|]; [|reflexivity].
  destruct (stamps v !! a); reflexivity.
Qed.

Lemma flags_advance now (v : Viewer W) : flags (advance frameCount_bits now v) = flags v.
Proof.
  unfold advance. pose proof (flags_pollEvents true v) as Hp.
  destruct (pollEvents true v) as [r v1]. simpl in Hp.
  now rewrite flags_stamp_frame.
Qed.

Lemma flags_acquireNextFrame fuel (v : Viewer W) r v' :
  acquireNextFrame fuel v = Some (r, v') -> flags v' = flags v.
Proof.
  unfold acquireNextFrame. intros Hacq.
  destruct (_close v); [now inversion Hacq|].
  destruct (acquire_windows fuel (_windows v) VK_SUCCESS []) as [[[res ws] l]|];
    simpl in Hacq; [|discriminate].
  now inversion Hacq.
Qed.

Lemma flags_advanceToNextFrame fuel now (v : Viewer W) r v' :
  advanceToNextFrame frameCount_bits fuel now v = Some (r, v') -> flags v' = flags v.
Proof.
  unfold advanceToNextFrame. intros Hadv.
  pose proof (flags_active v) as Hact.
  destruct (active v) as [act v1]. simpl in Hact.
  destruct act; simpl in Hadv; [|inversion Hadv; now subst].
  pose proof (flags_pollEvents true v1) as Hp.
  destruct (pollEvents true v1) as [r1 v2]. simpl in Hp.
  destruct (acquireNextFrame fuel v2) as [[acquired v3]|] eqn:Hacq;
    simpl in Hadv; [|discriminate].
  apply flags_acquireNextFrame in Hacq.
  destruct acquired; simpl in Hadv; inversion Hadv; subst;
    rewrite ?flags_stamp_frame; congruence.
Qed.

Lemma flags_assign cgs pager (v v' : Viewer W) :
  assignRecordAndSubmitTaskAndPresentation cgs pager v = Some v' ->
  flags v' = flags v.
Proof.
  unfold assignRecordAndSubmitTaskAndPresentation.
  apply (assign_groups_invariant (fun v' => flags v' = flags v)); [|reflexivity].
  intros v1 [key group] v2 Hv1. unfold assign_group.
  destruct (device key =? nullptr); [discriminate|].
  destruct (0 <=? presentFamily key); intros [= <-]; exact Hv1.
Qed.

Lemma flags_update (v : Viewer W) : flags (update v) = flags v.
Proof.
  unfold update.
  apply (fold_left_invariant (fun v' => flags v' = flags v)); [reflexivity|].
  intros v' task Hv'. now destruct (databasePager task).
Qed.

Lemma flags_present (v : Viewer W) : flags (present v) = flags v.
Proof.
  unfold present.
  apply (fold_left_invariant (fun v' => flags v' = flags v)); [reflexivity|].
  intros v' p Hv'. exact Hv'.
Qed.

Lemma flags_compile_tasks m tasks (v v' : Viewer W) :
  compile_tasks m v tasks = Some v' -> flags v' = flags v.
Proof.
  revert v. induction tasks as [|t tasks IH]; intros v Hc; simpl in Hc.
  - now inversion Hc.
  - destruct (compile_task m v t) as [v1|] eqn:Ht; simpl in Hc; [|discriminate].
    rewrite (IH v1 Hc). unfold compile_task in Ht.
    destruct (compile_graphs m (commandGraphs t)) as [l|]; simpl in Ht; [|discriminate].
    destruct (databasePager t) as [pager|]; [|now inversion Ht].
    destruct (pager_compileTraversal m (commandGraphs t)) as [[ct|]|];
      simpl in Ht; inversion Ht; reflexivity.
Qed.

Lemma flags_start_pagers (v : Viewer W) : flags (start_pagers v) = flags v.
Proof.
  unfold start_pagers.
  apply (fold_left_invariant (fun v' => flags v' = flags v)); [reflexivity|].
  intros v' task Hv'. now destruct (databasePager task).
Qed.

Lemma flags_compile (v v' : Viewer W) : compile v = Some v' -> flags v' = flags v.
Proof.
  unfold compile. intros Hc.
  destruct (bool_decide _); [now inversion Hc|].
  destruct (collect_devices (recordAndSubmitTasks v)) as [m l].
  destruct (allocate_compile m _) as [[[m' next] l']|]; simpl in Hc; [|discriminate].
  destruct (compile_tasks m' _ _) as [v1|] eqn:Ht; simpl in Hc; [|discriminate].
  inversion Hc; subst. rewrite flags_start_pagers.
  transitivity (flags v1); [reflexivity|].
  now rewrite (flags_compile_tasks _ _ _ _ Ht).
Qed.

Lemma shut_more_stopThreading (v : Viewer W) : shut_more v (stopThreading v).
Proof. unfold shut_more, stopThreading. destruct (_threading v); simpl; auto. Qed.

Lemma shut_more_flags (v v' : Viewer W) : flags v' = flags v -> shut_more v v'.
Proof. unfold flags, shut_more. intros [= -> ->]. auto. Qed.

Lemma shut_more_trans (v1 v2 v3 : Viewer W) :
  shut_more v1 v2 -> shut_more v2 v3 -> shut_more v1 v3.
Proof. unfold shut_more. intuition. Qed.

Lemma shut_more_setupThreading (v v' : Viewer W) :
  setupThreading v = Some v' -> shut_more v v'.
Proof.
  unfold setupThreading. intros Hs.
  apply (shut_more_trans _ (stopThreading (log [cout_setupThreading] v))).
  { apply (shut_more_trans _ (log [cout_setupThreading] v)).
    - now apply shut_more_flags.
    - apply shut_more_stopThreading. }
  destruct (count_tasks _) as [nv nc].
  destruct (nc <=? 1); [inversion Hs; now apply shut_more_flags|].
  simpl in Hs.
  destruct (spawn_tasks _ _ _ _ _) as [[next ths]|]; simpl in Hs; [|discriminate].
  inversion Hs. now apply shut_more_flags.
Qed.

Lemma shut_more_recordAndSubmit (v v' : Viewer W) :
  recordAndSubmit v = Some v' -> shut_more v v'.
Proof.
  unfold recordAndSubmit. intros Hr. apply shut_more_flags.
  destruct (_threading v).
  - destruct (_frameBlock v) as [fb|]; simpl in Hr; [|discriminate].
    destruct (_submissionCompleted v) as [sc|]; simpl in Hr; [|discriminate].
    now inversion Hr.
  - inversion Hr.
    apply (fold_left_invariant (fun v' => flags v' = flags v)); [reflexivity|].
    intros v0 task Hv0. exact Hv0.
Qed.

Lemma Step_shut_more (v v' : Viewer W) : Step frameCount_bits v v' -> shut_more v v'.
Proof.
  destruct 1;
    try (apply shut_more_flags;
         first [ reflexivity | apply flags_active | apply flags_pollEvents
               | apply flags_advance | eapply flags_assign; eassumption
               | apply flags_update
               | apply flags_present
               | eapply flags_advanceToNextFrame; eassumption
               | eapply flags_acquireNextFrame; eassumption
               | eapply flags_compile; eassumption ]).
  - unfold close. eapply shut_more_trans; [|apply shut_more_stopThreading].
    unfold shut_more. simpl. auto.
  - now apply shut_more_setupThreading.
  - apply shut_more_stopThreading.
  - now apply shut_more_recordAndSubmit.
Qed.

Lemma rtc_Step_shut_more (v v' : Viewer W) : rtc (Step frameCount_bits) v v' -> shut_more v v'.
Proof.
  induction 1 as [v|v1 v2 v3 Hstep _ IH].
  - unfold shut_more. auto.
  - apply (shut_more_trans _ v2); [apply Step_shut_more; exact Hstep | exact IH].
Qed.

Lemma Reachable_Step (v v' : Viewer W) :
  Reachable frameCount_bits v -> Step frameCount_bits v v' -> Reachable frameCount_bits v'.
Proof.
  intros Hr Hs. destruct Hs.
  - now apply reach_windows.
  - now apply reach_addWindow.
  - now apply reach_close.
  - now apply reach_active.
  - now apply reach_pollEvents.
  - now apply reach_advance.
  - eapply reach_advanceToNextFrame; eassumption.
  - eapply reach_acquireNextFrame; eassumption.
  - eapply reach_assign; eassumption.
  - eapply reach_compile; eassumption.
  - eapply reach_setupThreading; eassumption.
  - now apply reach_stopThreading.
  - now apply reach_update.
  - eapply reach_recordAndSubmit; eassumption.
  - now apply reach_present.
  - now apply reach_pagers.
Qed.

(** X15.  [close] is final.  Whatever member functions are called after
    [close], in whatever order, the close flag stays set and the status
    stays cleared: [active] returns [false], [acquireNextFrame] returns
    [false] without touching a window, and [advanceToNextFrame] returns
    [false] having done nothing but wait for the devices. *)
Theorem close_is_final (v v' : Viewer W) fuel now :
  rtc (Step frameCount_bits) (close v) v' ->
  _close v' = true /\ _status v' = false /\
  (active v').1 = false /\
  advanceToNextFrame frameCount_bits fuel now v' = Some (false, deviceWaitIdle v') /\
  acquireNextFrame fuel v' = Some (false, v').
Proof.
  intros Hsteps. apply rtc_Step_shut_more in Hsteps as [Hc Hs].
  destruct (close_closed v) as (Hc0 & Hs0 & _).
  specialize (Hc Hc0). specialize (Hs Hs0).
  assert (Hact : (active v').1 = false).
  { unfold active. now rewrite Hc. }
  split; [exact Hc|]. split; [exact Hs|]. split; [exact Hact|]. split.
  - unfold advanceToNextFrame, active. rewrite Hc. reflexivity.
  - unfold acquireNextFrame. now rewrite Hc.
Qed.

End Steps.

(** ** The windows of a task *)

Lemma group_objects_windows pager next m task :
  In task (map fst (group_objects pager next m)) ->
  exists key,
    In (key, commandGraphs task) m /\
    task_windows task =
    if 0 <=? presentFamily key then uniqueWindows (commandGraphs task) else [].
Proof.
  revert next. induction m as [|[key group] m IH]; intros next; simpl; [intros []|].
  destruct (0 <=? presentFamily key) eqn:Hpf; simpl.
  - intros [<-|Hin].
    + exists key. simpl. rewrite Hpf. auto.
    + destruct (IH _ Hin) as (k & Hk & Hw). exists k. auto.
  - intros [<-|Hin].
    + exists key. simpl. rewrite Hpf. auto.
    + destruct (IH _ Hin) as (k & Hk & Hw). exists k. auto.
Qed.

Section TaskWindows.

Context {W : Type} `{WindowOps W}.

(** X13.  When [assignRecordAndSubmitTaskAndPresentation] returns (no
    group has a null device), the windows of a task it created are in
    strictly increasing address order, so none occurs twice; each is the
    window of one of the task's command graphs; and when the task's
    command graphs have a present family, the window of each of them is
    among them, a null window too.  A task without present family has no
    windows. *)
Theorem assigned_windows_unique cgs pager (v v' : Viewer W) task :
  assignRecordAndSubmitTaskAndPresentation cgs pager v = Some v' ->
  In task (recordAndSubmitTasks v') ->
  In task (recordAndSubmitTasks v) \/
  (StronglySorted Z.lt (task_windows task) /\
   (forall w, In w (task_windows task) ->
              exists cg, In cg (commandGraphs task) /\ window cg = w /\
                         0 <= _presentFamily cg) /\
   (forall cg, In cg (commandGraphs task) -> 0 <= _presentFamily cg ->
               In (window cg) (task_windows task))).
Proof.
  unfold assignRecordAndSubmitTaskAndPresentation. intros Ha.
  destruct (assign_groups_objects pager (deviceCommandGraphsMap cgs) v v' Ha) as [Ht _].
  rewrite Ht. intros [Hold|Hnew]%in_app_or; [now left|right].
  destruct (group_objects_windows _ _ _ _ Hnew) as (key & Hkey & Hw).
  destruct (deviceCommandGraphsMap_partition cgs) as (_ & Hgroups & _).
  destruct (Hgroups _ _ Hkey) as [Hwith _].
  assert (Hpf : forall cg, In cg (commandGraphs task) ->
                           _presentFamily cg = presentFamily key).
  { intros cg Hcg. rewrite Hwith in Hcg. unfold with_key in Hcg.
    apply List.filter_In in Hcg as [_ Hk]. apply bool_decide_eq_true in Hk.
    now rewrite <- Hk. }
  destruct (uniqueWindows_spec (commandGraphs task)) as [Hs Hin].
  rewrite Hw. destruct (Z.leb_spec 0 (presentFamily key)) as [Hge|Hlt].
  - split; [exact Hs|]. split.
    + intros w Hwin. apply Hin in Hwin as (cg & Hcg & Heq). exists cg.
      rewrite (Hpf cg Hcg). auto.
    + intros cg Hcg _. apply Hin. eauto.
  - split; [constructor|]. split.
    + intros w [].
    + intros cg Hcg Hge. rewrite (Hpf cg Hcg) in Hge. lia.
Qed.

End TaskWindows.

(** ** The phases of [compile] *)

Lemma created_traversals_app l1 l2 :
  created_traversals (l1 ++ l2) = created_traversals l1 ++ created_traversals l2.
Proof. unfold created_traversals. apply omap_app. Qed.

Lemma collect_task_calls st task :
  exists l, (collect_task st task).2 = st.2 ++ l /\
            forallb is_setup l = true /\ created_traversals l = [].
Proof.
  unfold collect_task. revert st.
  induction (commandGraphs task) as [|cg cgs IH]; intros [m l0]; simpl.
  - exists []. now rewrite app_nil_r.
  - destruct (IH (drm_update (_device cg)
                    (fun r => mkDeviceResources (collectStats r ++ [cg_id cg]) (dr_compile r))
                    m,
                  l0 ++ [CommandGraph_accept_collectStats (cg_id cg) (_device cg)]))
      as (l & Hl & Hs & Hc).
    simpl in Hl. eexists (_ :: l). rewrite Hl, <- app_assoc. simpl. auto.
Qed.

Lemma collect_devices_calls tasks :
  forallb is_setup (collect_devices tasks).2 = true /\
  created_traversals (collect_devices tasks).2 = [].
Proof.
  unfold collect_devices.
  apply (fold_left_invariant
           (fun st => forallb is_setup st.2 = true /\ created_traversals st.2 = []));
    [auto|].
  intros st task [Hs Hc]. destruct (collect_task_calls st task) as (l & -> & Hs' & Hc').
  now rewrite forallb_app, created_traversals_app, Hs, Hs', Hc, Hc'.
Qed.

Lemma allocate_compile_calls m next m' next' l :
  allocate_compile m next = Some (m', next', l) ->
  forallb is_setup l = true /\
  created_traversals l = omap (fun dp => dr_compile dp.2) m' /\
  created_traversals l = seq next (length m).
Proof.
  revert next m' next' l. induction m as [|[dev r] m IH]; intros next m' next' l; simpl.
  - intros [= <- <- <-]. auto.
  - destruct (dev =? nullptr); [discriminate|].
    destruct (allocate_compile m (S next)) as [[[m1 n1] l1]|] eqn:Hrec; simpl;
      [|discriminate].
    intros [= <- <- <-]. destruct (IH _ _ _ _ Hrec) as (Hs & Hc & Hq).
    simpl. rewrite Hs. split; [reflexivity|]. split; f_equal; assumption.
Qed.

Lemma allocate_compile_null m next :
  In nullptr (map fst m) -> allocate_compile m next = None.
Proof.
  revert next. induction m as [|[dev r] m IH]; intros next; simpl; [intros []|].
  intros [Hd|Hin].
  - simpl in Hd. subst dev. reflexivity.
  - destruct (dev =? nullptr); [reflexivity|]. now rewrite IH.
Qed.

Lemma compile_graphs_calls m cgs l :
  compile_graphs m cgs = Some l ->
  forallb is_setup l = true /\ created_traversals l = [].
Proof.
  revert l. induction cgs as [|cg cgs IH]; intros l; simpl.
  - intros [= <-]. auto.
  - destruct (drm_lookup (_device cg) m) as [r|]; simpl; [|discriminate].
    destruct (dr_compile r) as [ct|]; simpl; [|discriminate].
    destruct (compile_graphs m cgs) as [l1|]; simpl; [|discriminate].
    intros [= <-]. destruct (IH l1 eq_refl) as [Hs Hc]. simpl. auto.
Qed.

Section CompilePhases.

Context {W : Type} `{WindowOps W}.

Lemma compile_task_calls m (v v' : Viewer W) task :
  compile_task m v task = Some v' ->
  exists l, calls v' = calls v ++ l /\
            forallb is_setup l = true /\ created_traversals l = [] /\
            recordAndSubmitTasks v' = recordAndSubmitTasks v.
Proof.
  unfold compile_task. intros Hc.
  destruct (compile_graphs m (commandGraphs task)) as [l|] eqn:Hg; simpl in Hc;
    [|discriminate].
  destruct (compile_graphs_calls _ _ _ Hg) as [Hs Hct].
  destruct (databasePager task) as [pager|].
  - destruct (pager_compileTraversal m (commandGraphs task)) as [[ct|]|]; simpl in Hc;
      inversion Hc; subst; simpl.
    + exists (l ++ [Pager_assign_compileTraversal pager ct]).
      rewrite app_assoc, forallb_app, created_traversals_app, Hs, Hct. auto.
    + exists l. auto.
  - inversion Hc; subst. exists l. auto.
Qed.

Lemma compile_tasks_calls m tasks (v v' : Viewer W) :
  compile_tasks m v tasks = Some v' ->
  exists l, calls v' = calls v ++ l /\
            forallb is_setup l = true /\ created_traversals l = [] /\
            recordAndSubmitTasks v' = recordAndSubmitTasks v.
Proof.
  revert v. induction tasks as [|t tasks IH]; intros v Hc; simpl in Hc.
  - inversion Hc; subst. exists []. now rewrite app_nil_r.
  - destruct (compile_task m v t) as [v1|] eqn:Ht; simpl in Hc; [|discriminate].
    destruct (compile_task_calls _ _ _ _ Ht) as (l1 & Hl1 & Hs1 & Hc1 & Ht1).
    destruct (IH v1 Hc) as (l2 & Hl2 & Hs2 & Hc2 & Ht2).
    exists (l1 ++ l2).
    rewrite Hl2, Hl1, <- app_assoc, forallb_app, created_traversals_app, Hs1, Hs2, Hc1, Hc2.
    split_and!; auto. congruence.
Qed.

Lemma start_pagers_calls (v : Viewer W) :
  calls (start_pagers v) =
  calls v ++ map Pager_start (omap databasePager (recordAndSubmitTasks v)) /\
  forall task pager,
    In task (recordAndSubmitTasks v) -> databasePager task = Some pager ->
    is_Some (pagers v !! pager) ->
    pager_started <$> pagers (start_pagers v) !! pager = Some true.
Proof.
  unfold start_pagers. generalize (recordAndSubmitTasks v) as tasks.
  intros tasks. revert v. induction tasks as [|task tasks IH]; intros v; simpl.
  - split; [now rewrite app_nil_r|]. intros task pager [].
  - match goal with |- context [fold_left ?f tasks ?v1] =>
      destruct (IH v1) as [Hc Hp]; set (v2 := v1) in * end.
    split.
    + rewrite Hc. subst v2. destruct (databasePager task) as [pager|]; simpl;
        [now rewrite <- app_assoc|reflexivity].
    + assert (Hkeep : forall p (u : Viewer W),
                 pager_started <$> pagers u !! p = Some true ->
                 pager_started <$>
                   pagers (fold_left
                     (fun v task =>
                        match databasePager task with
                        | Some pager =>
                            log [Pager_start pager]
                              (set_pagers
                                 (alter (fun p => mkPager (compileTraversal p) true)
                                        pager (pagers v)) v)
                        | None => v
                        end) tasks u) !! p = Some true).
      { clear. intros p. induction tasks as [|t ts IHt]; intros u Hu; simpl; [exact Hu|].
        apply IHt. destruct (databasePager t) as [q|]; [|exact Hu]. simpl.
        destruct (decide (q = p)) as [->|Hne].
        - rewrite lookup_alter_eq. destruct (pagers u !! p); [reflexivity|discriminate].
        - now rewrite lookup_alter_ne. }
      intros t pager [<-|Hin] Hpager Hsome.
      * apply Hkeep. subst v2. rewrite Hpager. simpl. rewrite lookup_alter_eq.
        destruct Hsome as [pg ->]. reflexivity.
      * apply (Hp t pager Hin Hpager). subst v2.
        destruct (databasePager task) as [q|]; [|exact Hsome]. simpl.
        now apply lookup_alter_is_Some.
Qed.

Lemma assign_pagers_dom l (ps : gmap nat DatabasePager) p :
  is_Some (ps !! p) -> is_Some (fold_left assign_pager l ps !! p).
Proof.
  revert ps. induction l as [|a l IH]; intros ps Hp; simpl; [exact Hp|].
  apply IH. unfold assign_pager. now apply lookup_alter_is_Some.
Qed.

(** What [compile] does when no command graph lacks a device. *)
Lemma compile_spec (v : Viewer W) :
  (forall task cg, In task (recordAndSubmitTasks v) -> In cg (commandGraphs task) ->
                   _device cg <> nullptr) ->
  exists v' setup,
    compile v = Some v' /\
    forallb is_setup setup = true /\
    List.NoDup (created_traversals setup) /\
    calls v' = calls v ++ setup ++
               map Context_dispatch (created_traversals setup) ++
               map Context_waitForCompletion (created_traversals setup) ++
               map Pager_start (omap databasePager (recordAndSubmitTasks v)) /\
    forall task pager,
      In task (recordAndSubmitTasks v) -> databasePager task = Some pager ->
      is_Some (pagers v !! pager) ->
      pager_started <$> pagers v' !! pager = Some true.
Proof.
  intros Hnn. unfold compile. set (tasks := recordAndSubmitTasks v) in *.
  destruct (decide (tasks = [])) as [Hnil|Hne].
  { rewrite bool_decide_true by exact Hnil. exists v, []. rewrite Hnil. simpl.
    split_and!; auto; [constructor|now rewrite app_nil_r|intros task pager []]. }
  rewrite bool_decide_false by exact Hne.
  pose proof (collect_devices_keys tasks) as Hkeys.
  destruct (collect_devices_calls tasks) as [Hs0 Hc0].
  destruct (collect_devices tasks) as [m0 l0]. simpl in Hkeys, Hs0, Hc0.
  destruct (allocate_compile_spec m0 (next_object v))
    as (m & next' & l1 & Halloc & _ & Hsame & Hrange & Hinj & Hl1).
  { apply List.Forall_forall. intros [d r] Hin Hd. simpl in Hd. subst d.
    assert (Hk : In nullptr (map fst m0)) by (apply in_map_iff; now exists (nullptr, r)).
    apply Hkeys in Hk as (task & cg & Ht & Hcg & Hd). now apply (Hnn task cg). }
  change (next_object (log l0 v)) with (next_object v).
  rewrite Halloc. simpl.
  destruct (allocate_compile_calls _ _ _ _ _ Halloc) as (Hs1 & Hc1 & Hq1).
  assert (Hcov : forall task cg, In task tasks -> In cg (commandGraphs task) ->
                                 is_Some (ct_of m (_device cg))).
  { intros task cg Ht Hcg. unfold ct_of.
    destruct (drm_lookup_is_Some (_device cg) m) as [r Hr].
    { rewrite Hsame. apply Hkeys. eauto. }
    rewrite Hr. simpl. destruct (Hrange _ _ Hr) as (ct & -> & _). eauto. }
  match goal with |- context [compile_tasks m ?v1 _] =>
    destruct (compile_tasks_spec m tasks v1 Hcov) as (v2 & Htasks & _ & Hp2)
  end.
  fold tasks. rewrite Htasks. simpl.
  destruct (compile_tasks_calls _ _ _ _ Htasks) as (l2 & Hl2 & Hs2 & Hc2 & Ht2).
  simpl in Hl2, Ht2.
  eexists _, (l0 ++ l1 ++ l2). split; [reflexivity|].
  rewrite !forallb_app, !created_traversals_app, Hs0, Hs1, Hs2, Hc0, Hc2, app_nil_r.
  simpl. split; [reflexivity|]. split; [rewrite Hq1; apply NoDup_ListNoDup, NoDup_seq|].
  match goal with |- context [start_pagers ?v3] =>
    destruct (start_pagers_calls v3) as [Hc3 Hst3]; rewrite Hc3
  end.
  simpl. rewrite Hl2, Ht2, <- Hc1. fold tasks. rewrite <- !app_assoc. split; [reflexivity|].
  intros task pager Ht Hpager Hsome. rewrite <- Hc1 in Hst3. apply (Hst3 task pager).
  - simpl. rewrite Ht2. exact Ht.
  - exact Hpager.
  - simpl. rewrite Hp2. now apply assign_pagers_dom.
Qed.

(** X10.  The phases of [compile].  When every command graph has a device,
    [compile] returns, and the calls it makes are, in this order: the
    calls that prepare the transfers, among them the creation of the
    traversals, all different; then [dispatch] on every traversal created;
    then [waitForCompletion] on every one of them; then [start] on the
    pager of every task that has one, once per task.  Afterwards the pager
    of every task is started. *)
Theorem compile_dispatches_then_waits_then_starts (v : Viewer W) :
  (forall task cg, In task (recordAndSubmitTasks v) -> In cg (commandGraphs task) ->
                   _device cg <> nullptr) ->
  exists v' setup,
    compile v = Some v' /\
    forallb is_setup setup = true /\
    List.NoDup (created_traversals setup) /\
    calls v' = calls v ++ setup ++
               map Context_dispatch (created_traversals setup) ++
               map Context_waitForCompletion (created_traversals setup) ++
               map Pager_start (omap databasePager (recordAndSubmitTasks v)) /\
    forall task pager,
      In task (recordAndSubmitTasks v) -> databasePager task = Some pager ->
      is_Some (pagers v !! pager) ->
      pager_started <$> pagers v' !! pager = Some true.
Proof.
  intros Hnn. destruct (compile_spec v Hnn) as (v' & setup & Hc & Hs & Hnd & Hcalls & Hst).
  exists v', setup. auto.
Qed.

(** X9.  [compile] dereferences a null device exactly when some command
    graph of some task has none: the map of devices then has an entry for
    the null pointer, on which [getPhysicalDevice] is called.  Without
    tasks, or with a device on every command graph, it returns. *)
Theorem compile_fails_on_null_device (v : Viewer W) :
  compile v = None <->
  exists task cg, In task (recordAndSubmitTasks v) /\ In cg (commandGraphs task) /\
                  _device cg = nullptr.
Proof.
  split.
  - intros Hnone.
    destruct (existsb (fun task => existsb (fun cg => _device cg =? nullptr)
                                           (commandGraphs task))
                      (recordAndSubmitTasks v)) eqn:Hex.
    + apply existsb_exists in Hex as (task & Ht & Hex).
      apply existsb_exists in Hex as (cg & Hcg & Hd). exists task, cg.
      split; [exact Ht|]. split; [exact Hcg|]. lia.
    + destruct (compile_spec v) as (v' & setup & Hc & _); [|congruence].
      intros task cg Ht Hcg Hd.
      assert (Htrue : existsb (fun task => existsb (fun cg => _device cg =? nullptr)
                                                   (commandGraphs task))
                              (recordAndSubmitTasks v) = true); [|congruence].
      apply existsb_exists. exists task. split; [exact Ht|].
      apply existsb_exists. exists cg. split; [exact Hcg|]. lia.
  - intros (task & cg & Ht & Hcg & Hd). unfold compile.
    rewrite bool_decide_false by (intros Hnil; rewrite Hnil in Ht; destruct Ht).
    pose proof (collect_devices_keys (recordAndSubmitTasks v) nullptr) as Hkeys.
    destruct (collect_devices (recordAndSubmitTasks v)) as [m0 l0]. simpl in Hkeys.
    rewrite allocate_compile_null; [reflexivity|]. apply Hkeys. eauto.
Qed.

End CompilePhases.

(** ** Sessions: a cleared status, and keeping step *)

Lemma quiet_session_step a s s' :
  quiet_session s -> session_step a s = Some s' -> quiet_session s'.
Proof.
  intros (Hst & Hgen & Hreq & Horch & Hws & Htr) Hstep.
  destruct a as [k i|fs| | |]; simpl in Hstep.
  - destruct (s_groups s !! k) as [g|] eqn:Hg; simpl in Hstep; [|discriminate].
    unfold worker_step in Hstep. cbn [group_view g_workers g_status] in Hstep.
    destruct (g_workers g !! i) as [w|] eqn:Hw; simpl in Hstep; [|discriminate].
    pose proof (Forall_lookup_1 _ _ _ _ Hws Hg) as Hgw.
    destruct (Forall_lookup_1 _ _ _ _ Hgw Hw) as [Hit [Hc|Hc]]; rewrite Hc in Hstep;
      [|discriminate].
    rewrite Hst in Hstep. simpl in Hstep. inversion Hstep; subst s'; clear Hstep.
    unfold quiet_session. simpl. rewrite app_nil_r, drop_all, app_nil_r.
    split_and!; auto.
    apply Forall_insert; [exact Hws|]. simpl.
    apply Forall_insert; [exact Hgw|]. simpl. auto.
  - destruct (s_orchestrator s); try discriminate. inversion Hstep; subst s'.
    destruct Horch as [Ha Hc]. unfold quiet_session. simpl.
    rewrite forallb_app, Htr, Hc. split_and!; auto.
  - destruct (s_orchestrator s); try discriminate. destruct Horch as [Ha Hc].
    unfold arrive in Hstep. rewrite Ha in Hstep.
    destruct (Z.eqb_spec (0 + 1) (required (s_submissionCompleted s))); [lia|].
    simpl in Hstep. rewrite Z.eqb_refl in Hstep. inversion Hstep; subst s'.
    unfold quiet_session. simpl. rewrite forallb_app, Htr. split_and!; auto.
  - destruct (s_orchestrator s) as [| |gen]; try discriminate.
    destruct Horch as (_ & _ & ->). rewrite Hgen in Hstep. discriminate.
  - inversion Hstep; subst s'. unfold quiet_session. simpl. split_and!; auto.
Qed.

Lemma quiet_session_run schedule s s' :
  quiet_session s -> session_run schedule s = Some s' -> quiet_session s'.
Proof.
  revert s. induction schedule as [|a schedule IH]; intros s Hinv Hrun; simpl in Hrun.
  - now inversion Hrun; subst.
  - destruct (session_step a s) as [s1|] eqn:Hstep; simpl in Hrun; [|discriminate].
    apply (IH s1); [|exact Hrun]. exact (quiet_session_step a s s1 Hinv Hstep).
Qed.

Lemma session_groups_initial fb sc next tasks :
  Forall (fun g => Forall (fun w => w_iteration w = 0%nat /\
                                    (w_control w = AtFrameBlock \/ w_control w = Exited))
                          (g_workers g)) (session_groups fb sc next tasks).
Proof.
  revert next. induction tasks as [|task tasks IH]; intros next; simpl; [constructor|].
  apply Forall_app. split; [|apply IH].
  unfold task_group.
  destruct (commandGraphs task) as [|cg0 [|cg1 rest]]; [constructor| |];
    (constructor; [|constructor]); simpl;
    apply List.Forall_forall; intros w Hw; apply in_map_iff in Hw as (t & <- & _);
    simpl; auto.
Qed.

(** A thread that waits in a session whose status is cleared is not
    blocked: its step leaves the loop, without a call. *)
Lemma cleared_status_exit s k g i w :
  s_status s = false ->
  s_groups s !! k = Some g -> g_workers g !! i = Some w ->
  w_control w = AtFrameBlock ->
  exists s' g' w',
    session_step (SWorker k i) s = Some s' /\
    s_groups s' !! k = Some g' /\ g_workers g' !! i = Some w' /\
    w_control w' = Exited /\ w_iteration w' = w_iteration w /\
    s_trace s' = s_trace s /\
    forall k1 g1 i1 w1,
      s_groups s !! k1 = Some g1 -> g_workers g1 !! i1 = Some w1 ->
      (k1, i1) <> (k, i) ->
      exists g2, s_groups s' !! k1 = Some g2 /\ g_workers g2 !! i1 = Some w1.
Proof.
  intros Hst Hg Hw Hc. simpl. rewrite Hg. simpl.
  unfold worker_step. cbn [group_view g_workers g_status]. rewrite Hw. simpl.
  rewrite Hc, Hst. simpl.
  pose proof (lookup_lt_Some _ _ _ Hg) as Hk.
  pose proof (lookup_lt_Some _ _ _ Hw) as Hi.
  eexists _, _, _. split; [reflexivity|]. simpl.
  rewrite list_lookup_insert_eq by exact Hk. split; [reflexivity|]. simpl.
  rewrite list_lookup_insert_eq by exact Hi. split; [reflexivity|]. simpl.
  split; [reflexivity|]. split; [reflexivity|].
  split; [now rewrite app_nil_r, drop_all, app_nil_r|].
  intros k1 g1 i1 w1 Hg1 Hw1 Hne.
  destruct (decide (k1 = k)) as [->|Hk1].
  - rewrite list_lookup_insert_eq by exact Hk. eexists. split; [reflexivity|]. simpl.
    assert (g1 = g) as -> by congruence.
    rewrite list_lookup_insert_ne; [exact Hw1|]. congruence.
  - rewrite list_lookup_insert_ne by congruence. eauto.
Qed.

(** A thread that has left its loop takes no step. *)
Lemma exited_worker_stops s k g i w :
  s_groups s !! k = Some g -> g_workers g !! i = Some w ->
  w_control w = Exited ->
  session_step (SWorker k i) s = None.
Proof.
  intros Hg Hw Hc. simpl. rewrite Hg. simpl.
  unfold worker_step. cbn [group_view g_workers g_status]. rewrite Hw. simpl.
  now rewrite Hc.
Qed.

Lemma quiet_session_exited a s s' k i :
  quiet_session s -> session_step a s = Some s' ->
  exited s k i \/ a = SWorker k i -> exited s' k i.
Proof.
  intros Hq Hstep Hor.
  pose proof Hq as (Hst & _ & _ & _ & Hws & _).
  destruct a as [k0 i0|fs| | |].
  - destruct (s_groups s !! k0) as [g0|] eqn:Hg0;
      [|simpl in Hstep; rewrite Hg0 in Hstep; discriminate].
    destruct (g_workers g0 !! i0) as [w0|] eqn:Hw0.
    2:{ simpl in Hstep. rewrite Hg0 in Hstep. simpl in Hstep.
        unfold worker_step in Hstep. cbn [group_view g_workers] in Hstep.
        rewrite Hw0 in Hstep. discriminate. }
    pose proof (Forall_lookup_1 _ _ _ _ Hws Hg0) as Hgw.
    destruct (Forall_lookup_1 _ _ _ _ Hgw Hw0) as [_ [Hc|Hc]].
    2:{ rewrite (exited_worker_stops s k0 g0 i0 w0 Hg0 Hw0 Hc) in Hstep. discriminate. }
    destruct (cleared_status_exit s k0 g0 i0 w0 Hst Hg0 Hw0 Hc)
      as (s1 & g1 & w1 & Hs1 & Hg1 & Hw1 & Hc1 & _ & _ & Hothers).
    rewrite Hs1 in Hstep. injection Hstep as <-.
    destruct (decide ((k, i) = (k0, i0))) as [[= -> ->]|Hne].
    + exists g1, w1. auto.
    + destruct Hor as [(g & w & Hg & Hw & Hcw)|[= -> ->]]; [|contradiction].
      destruct (Hothers k g i w Hg Hw Hne) as (g2 & Hg2 & Hw2).
      exists g2, w. auto.
  - destruct Hor as [Hex|]; [|discriminate].
    simpl in Hstep. destruct (s_orchestrator s); try discriminate.
    injection Hstep as <-. exact Hex.
  - destruct Hor as [Hex|]; [|discriminate].
    simpl in Hstep. destruct (s_orchestrator s); try discriminate.
    destruct (_ =? _); injection Hstep as <-; exact Hex.
  - destruct Hor as [Hex|]; [|discriminate].
    simpl in Hstep. destruct (s_orchestrator s); try discriminate.
    destruct (_ =? _); [discriminate|]. injection Hstep as <-. exact Hex.
  - destruct Hor as [Hex|]; [|discriminate].
    simpl in Hstep. injection Hstep as <-. exact Hex.
Qed.

Lemma quiet_session_scheduled schedule s s' k i :
  quiet_session s -> session_run schedule s = Some s' ->
  exited s k i \/ In (SWorker k i) schedule -> exited s' k i.
Proof.
  revert s. induction schedule as [|a schedule IH]; intros s Hq Hrun Hor; simpl in Hrun.
  - injection Hrun as <-. destruct Hor as [Hex|[]]. exact Hex.
  - destruct (session_step a s) as [s1|] eqn:Hstep; simpl in Hrun; [|discriminate].
    apply (IH s1); [exact (quiet_session_step a s s1 Hq Hstep) | exact Hrun |].
    destruct Hor as [Hex|[->|Hin]].
    + left. apply (quiet_session_exited a s s1 k i Hq Hstep). now left.
    + left. apply (quiet_session_exited _ s s1 k i Hq Hstep). now right.
    + now right.
Qed.

Section QuietSessions.

Context {W : Type} `{WindowOps W}.

(** X16.  Nothing re-arms the status.  A session that [setupThreading]
    starts on a viewer whose status is cleared (it was closed), or on a
    viewer that is threading already (the old session is stopped first,
    which clears the status), starts with the status cleared.  In such a
    session, however it is scheduled, every thread leaves its loop at its
    first [wait_for_change]: a thread has begun no iteration, and either
    it is in [wait_for_change], where it is not blocked and its next step
    leaves the loop without a call, or it has left the loop and takes no
    more steps; a thread that was scheduled has left the loop.  So no
    thread ever makes a call, and the viewer's first [recordAndSubmit]
    never returns. *)
Theorem inactive_session_never_submits (v : Viewer W) schedule s :
  _status v = false \/ _threading v = true ->
  1 <= valid_task_count (recordAndSubmitTasks v) ->
  1 + valid_task_count (recordAndSubmitTasks v) < 2 ^ 32 ->
  session_run schedule (session_init v) = Some s ->
  (forall v', setupThreading v = Some v' -> _status v' = false) /\
  s_status s = false /\
  (forall n, ~ In (SE_return n) (s_trace s)) /\
  (forall k e, ~ In (SE_worker k e) (s_trace s)) /\
  (s_calls s <= 1)%nat /\
  (forall k g i w,
      s_groups s !! k = Some g -> g_workers g !! i = Some w ->
      w_iteration w = 0%nat /\
      (w_control w = AtFrameBlock /\
       (exists s' g' w',
           session_step (SWorker k i) s = Some s' /\
           s_groups s' !! k = Some g' /\ g_workers g' !! i = Some w' /\
           w_control w' = Exited /\ w_iteration w' = 0%nat /\
           s_trace s' = s_trace s) \/
       w_control w = Exited /\ session_step (SWorker k i) s = None)) /\
  (forall k i, In (SWorker k i) schedule ->
               exists g w, s_groups s !! k = Some g /\ g_workers g !! i = Some w /\
                           w_control w = Exited /\ w_iteration w = 0%nat).
Proof.
  intros Hoff Hvalid Hmax Hrun.
  assert (Hstatus : _status (stopThreading (log [cout_setupThreading] v)) = false).
  { unfold stopThreading. simpl. destruct (_threading v) eqn:Hth; simpl; [reflexivity|].
    destruct Hoff; congruence. }
  assert (Hinit : quiet_session (session_init v)).
  { unfold quiet_session, session_init. simpl. split; [exact Hstatus|].
    split; [reflexivity|]. split.
    - rewrite count_tasks_wrap. simpl.
      rewrite (wrap32_small (valid_task_count _)) by lia.
      rewrite wrap32_small by lia. lia.
    - split; [auto|]. split; [|reflexivity]. apply session_groups_initial. }
  pose proof (quiet_session_run schedule _ s Hinit Hrun)
    as (Hst & Hgen & Hreq & Horch & Hws & Htr).
  rewrite forallb_forall in Htr.
  split.
  { intros v' Hsetup. unfold setupThreading in Hsetup.
    destruct (count_tasks _) as [nv nc].
    destruct (nc <=? 1); [now inversion Hsetup|].
    simpl in Hsetup.
    destruct (spawn_tasks _ _ _ _ _) as [[next ths]|]; simpl in Hsetup; [|discriminate].
    inversion Hsetup. simpl. exact Hstatus. }
  split; [exact Hst|]. split; [|split; [|split; [|split]]].
  - intros n Hin. specialize (Htr _ Hin). discriminate.
  - intros k e Hin. specialize (Htr _ Hin). discriminate.
  - destruct (s_orchestrator s); destruct Horch as (_ & Hc); lia.
  - intros k g i w Hg Hw.
    pose proof (Forall_lookup_1 _ _ _ _ Hws Hg) as Hgw.
    destruct (Forall_lookup_1 _ _ _ _ Hgw Hw) as [Hit [Hc|Hc]].
    + split; [exact Hit|]. left. split; [exact Hc|].
      destruct (cleared_status_exit s k g i w Hst Hg Hw Hc)
        as (s1 & g1 & w1 & Hs1 & Hg1 & Hw1 & Hc1 & Hit1 & Htr1 & _).
      exists s1, g1, w1. split_and!; auto. congruence.
    + split; [exact Hit|]. right. split; [exact Hc|].
      exact (exited_worker_stops s k g i w Hg Hw Hc).
  - intros k i Hin.
    destruct (quiet_session_scheduled schedule _ s k i Hinit Hrun (or_intror Hin))
      as (g & w & Hg & Hw & Hc).
    exists g, w. split_and!; auto.
    pose proof (Forall_lookup_1 _ _ _ _ Hws Hg) as Hgw.
    now destruct (Forall_lookup_1 _ _ _ _ Hgw Hw) as [Hit _].
Qed.

(** X17.  The tasks keep step with the viewer.  In a session started by
    [setupThreading] (with fewer than 2^32 - 1 valid tasks), however it is
    scheduled, the submitting thread of a task has never begun more
    iterations than [recordAndSubmit] was called, and it has arrived at the
    submission barrier as often as [recordAndSubmit] was called or once
    less; whenever the viewer is outside [recordAndSubmit], it has begun
    exactly one iteration per call and has arrived in each. *)
Theorem tasks_keep_step_with_viewer (v : Viewer W) schedule s :
  1 + valid_task_count (recordAndSubmitTasks v) < 2 ^ 32 ->
  session_run schedule (session_init v) = Some s ->
  forall k g w,
    s_groups s !! k = Some g -> g_workers g !! 0%nat = Some w ->
    (w_iteration w <= s_calls s)%nat /\
    Z.of_nat (s_calls s) - 1 <= sc_arrived w <= Z.of_nat (s_calls s) /\
    (s_orchestrator s = OIdle ->
     w_iteration w = s_calls s /\ sc_arrived w = Z.of_nat (s_calls s)).
Proof.
  intros Hmax Hrun k g w Hg Hw.
  assert (Hinit : session_inv (session_init v)).
  { apply session_init_inv. rewrite count_tasks_wrap. simpl.
    pose proof (valid_task_count_nonneg (recordAndSubmitTasks v)).
    rewrite (wrap32_small (valid_task_count _)) by lia.
    now rewrite wrap32_small by lia. }
  pose proof (session_run_inv schedule _ s Hinit Hrun)
    as (_ & _ & Hsub & _ & Horch & _ & _).
  destruct (Hsub k g w Hg Hw) as (H1 & H2 & H3 & H4).
  pose proof (sc_pending_range w) as Hp. unfold sc_arrived in *.
  unfold published in H3.
  destruct (s_orchestrator s) as [| |g0] eqn:Ho.
  - assert (Z.of_nat (w_iteration w) <> generation (s_submissionCompleted s) + 1).
    { intros Heq. specialize (H3 Heq). discriminate. }
    split_and!; try lia; intros _; split; lia.
  - destruct Horch as [Hc1 Hc2]. split_and!; try lia; discriminate.
  - destruct Horch as [Hc1 Hc2].
    destruct (Z.eqb_spec g0 (generation (s_submissionCompleted s))).
    + split_and!; try lia; discriminate.
    + assert (Z.of_nat (w_iteration w) <> generation (s_submissionCompleted s) + 1).
      { intros Heq. specialize (H3 Heq). discriminate. }
      split_and!; try lia; discriminate.
Qed.

End QuietSessions.

(** ** A stamp that is not new *)

Lemma newer_trans x y z : newer x y = false -> newer y z = false -> newer x z = false.
Proof.
  destruct x as [x|], y as [y|], z as [z|]; simpl; try congruence.
  intros H1 H2. apply Z.ltb_ge in H1, H2. apply Z.ltb_ge. lia.
Qed.

Lemma stale_step a s s' : stale s -> session_step a s = Some s' -> stale s'.
Proof.
  intros (Hinv & Hpub & Hlen & Hold) Hstep.
  pose proof (session_inv_step a s s' Hinv Hstep) as Hinv'.
  pose proof (session_step_groups a s s' Hstep) as [Hlen' _].
  split; [exact Hinv'|].
  pose proof Hinv as (Hwf & Hreq & Hsub & Harr & Horch & _).
  assert (Hcount : count (has_arrived (generation (s_submissionCompleted s))) (s_groups s) = 0).
  { apply count_none. intros k g Hg. unfold has_arrived.
    destruct (g_workers g !! 0%nat) as [w|] eqn:Hw; [|reflexivity].
    destruct (Hold k g w Hg Hw) as [Hit _]. pose proof (sc_pending_range w).
    unfold sc_arrived. apply Z.eqb_neq. lia. }
  destruct a as [k i|fs| | |]; simpl in Hstep.
  - destruct (s_groups s !! k) as [g|] eqn:Hg; simpl in Hstep; [|discriminate].
    destruct (worker_step i (group_view s g)) as [g'|] eqn:Hw; simpl in Hstep;
      [|discriminate].
    inversion Hstep; subst s'; clear Hstep.
    apply worker_step_steps in Hw as (w & Hw & Hsteps). cbn [group_view g_workers] in Hw.
    pose proof (Forall_lookup_1 _ _ _ _ Hwf Hg) as (Hall & _ & Hrest).
    pose proof (Forall_lookup_1 _ _ _ _ Hall Hw) as Hwwf.
    destruct (worker_steps_submission i _ w g' Hwwf Hsteps)
      as (w' & ev & Hws & _ & Ht & _ & Hcases).
    cbn [group_view g_workers g_trace g_submissionCompleted g_value] in Hws, Hcases.
    assert (Hsame : g_submissionCompleted g' = s_submissionCompleted s /\
                    (i = 0%nat -> w_iteration w' = w_iteration w /\
                                  w_frameStamp w' = w_frameStamp w)).
    { destruct Hcases as [[Hsc [(Hit & Hfs & _)|(_ & _ & Hnew & _)]]
                         |(_ & Hsec & _ & _ & Hp & _)].
      - auto.
      - split; [exact Hsc|]. intros ->. destruct (Hold k g w Hg Hw) as [_ Hn]. congruence.
      - destruct (decide (i = 0%nat)) as [->|Hne].
        + destruct (Hold k g w Hg Hw) as [Hit _].
          destruct (Hsub k g w Hg Hw) as (Hge & _). unfold sc_arrived in Hge. lia.
        + rewrite (Hrest i w Hw Hne) in Hsec. discriminate. }
    destruct Hsame as [Hsc Hw0].
    unfold published in *. cbn [s_orchestrator s_submissionCompleted s_groups s_value].
    rewrite Hsc. split; [exact Hpub|]. split; [now rewrite length_insert|].
    intros k' g0 w0 Hg0 Hw0'.
    apply lookup_insert_cases in Hg0 as [(Hk & Hg0 & _)|[Hne Hg0]];
      [|now apply (Hold k' g0)].
    subst k' g0. rewrite Hws in Hw0'.
    apply lookup_insert_cases in Hw0' as [(Hi & Hw0' & _)|[Hne Hw0']];
      [|now apply (Hold k g)].
    subst w0. destruct (Hw0 (eq_sym Hi)) as [Hit Hfs]. rewrite Hit, Hfs.
    subst i. now apply (Hold k g).
  - unfold published in Hpub. destruct (s_orchestrator s); discriminate.
  - destruct (s_orchestrator s) eqn:Ho; try discriminate.
    assert (Hgen : generation (arrive (s_submissionCompleted s)) =
                   generation (s_submissionCompleted s)).
    { destruct (arrive_cases (s_submissionCompleted s)) as [(Hfull & _)|(_ & _ & Hg & _)];
        [|exact Hg].
      rewrite Hcount in Harr. unfold size in Hreq. lia. }
    rewrite Hgen, Z.eqb_refl in Hstep. inversion Hstep; subst s'; clear Hstep.
    unfold published. simpl. rewrite Hgen, Z.eqb_refl.
    split; [reflexivity|]. split; [exact Hlen|]. exact Hold.
  - unfold published in Hpub. destruct (s_orchestrator s) as [| |g0]; try discriminate.
    rewrite Z.eqb_sym, Hpub in Hstep. discriminate.
  - inversion Hstep; subst s'; clear Hstep. unfold published in *. simpl.
    split; [exact Hpub|]. split; [exact Hlen|]. exact Hold.
Qed.

Lemma stale_calls a s s' :
  published s = true -> session_step a s = Some s' -> s_calls s' = s_calls s.
Proof.
  unfold published. intros Hpub Hstep. destruct a as [k i|fs| | |]; simpl in Hstep.
  - destruct (s_groups s !! k) as [g|]; simpl in Hstep; [|discriminate].
    destruct (worker_step i (group_view s g)) as [g'|]; simpl in Hstep; [|discriminate].
    now inversion Hstep.
  - destruct (s_orchestrator s); discriminate.
  - destruct (s_orchestrator s); try discriminate.
    match type of Hstep with context [if ?c then _ else _] => destruct c end;
      now inversion Hstep.
  - destruct (s_orchestrator s); try discriminate.
    match type of Hstep with context [if ?c then _ else _] => destruct c end;
      [discriminate|now inversion Hstep].
  - now inversion Hstep.
Qed.

Lemma stale_run schedule s s' :
  stale s -> session_run schedule s = Some s' -> stale s' /\ s_calls s' = s_calls s.
Proof.
  revert s. induction schedule as [|a schedule IH]; intros s Hst Hrun; simpl in Hrun.
  - now inversion Hrun; subst.
  - destruct (session_step a s) as [s1|] eqn:Hstep; simpl in Hrun; [|discriminate].
    destruct (IH s1 (stale_step a s s1 Hst Hstep) Hrun) as [Hst' Hcalls].
    split; [exact Hst'|]. rewrite Hcalls. apply (stale_calls a); [|exact Hstep].
    now destruct Hst as (_ & Hpub & _).
Qed.

Lemma stale_set s s' fs :
  session_inv s -> (1 <= length (s_groups s))%nat ->
  newer (Some fs) (s_value s) = false ->
  session_step (SSet fs) s = Some s' -> stale s'.
Proof.
  intros Hinv Hlen Hfs Hstep.
  pose proof (session_inv_step _ s s' Hinv Hstep) as Hinv'.
  destruct Hinv as (_ & _ & Hsub & _ & Horch & _).
  simpl in Hstep. destruct (s_orchestrator s) eqn:Ho; try discriminate.
  inversion Hstep; subst s'; clear Hstep.
  split; [exact Hinv'|]. unfold published in *. simpl.
  split; [reflexivity|]. split; [exact Hlen|].
  intros k g w Hg Hw. destruct (Hsub k g w Hg Hw) as (H1 & H2 & H3 & H4).
  pose proof (sc_pending_range w). unfold sc_arrived in H1.
  rewrite Ho in H3, H4.
  assert (Z.of_nat (w_iteration w) <> generation (s_submissionCompleted s) + 1).
  { intros Heq. specialize (H3 Heq). discriminate. }
  split; [lia|]. apply (newer_trans (Some fs) (s_value s) (w_frameStamp w)); [exact Hfs|]. apply H4. now right.
Qed.

Lemma stale_value a s s' :
  published s = true -> session_step a s = Some s' -> s_value s' = s_value s.
Proof.
  unfold published. intros Hpub Hstep. destruct a as [k i|fs| | |]; simpl in Hstep.
  - destruct (s_groups s !! k) as [g|]; simpl in Hstep; [|discriminate].
    destruct (worker_step i (group_view s g)) as [g'|]; simpl in Hstep; [|discriminate].
    now inversion Hstep.
  - destruct (s_orchestrator s); discriminate.
  - destruct (s_orchestrator s); try discriminate.
    match type of Hstep with context [if ?c then _ else _] => destruct c end;
      now inversion Hstep.
  - destruct (s_orchestrator s); try discriminate.
    match type of Hstep with context [if ?c then _ else _] => destruct c end;
      [discriminate|now inversion Hstep].
  - now inversion Hstep.
Qed.

Lemma stale_run_value schedule s s' :
  stale s -> session_run schedule s = Some s' -> s_value s' = s_value s.
Proof.
  revert s. induction schedule as [|a schedule IH]; intros s Hst Hrun; simpl in Hrun.
  - now inversion Hrun; subst.
  - destruct (session_step a s) as [s1|] eqn:Hstep; simpl in Hrun; [|discriminate].
    rewrite (IH s1 (stale_step a s s1 Hst Hstep) Hrun).
    apply (stale_value a); [|exact Hstep]. now destruct Hst as (_ & Hpub & _).
Qed.

(** A thread in [wait_for_change] stays there while the status is set and
    the published stamp is not newer than its own. *)
Lemma waiting_worker_blocked s k g i w :
  s_groups s !! k = Some g -> g_workers g !! i = Some w ->
  w_control w = AtFrameBlock -> s_status s = true ->
  newer (s_value s) (w_frameStamp w) = false ->
  session_step (SWorker k i) s = None.
Proof.
  intros Hg Hw Hc Hst Hn. simpl. rewrite Hg. simpl.
  unfold worker_step. cbn [group_view g_workers g_status g_value]. rewrite Hw. simpl.
  now rewrite Hc, Hst, Hn.
Qed.

Section StaleStamp.

Context {W : Type} `{WindowOps W}.

(** X25.  In a threading session, [recordAndSubmit] needs a new stamp.
    When the viewer publishes a stamp whose frame count is not greater than
    that of the stamp in the frame block (it calls [recordAndSubmit] twice
    in one frame, say), no submitting thread takes it for a new frame.
    The viewer was outside [recordAndSubmit] before, and every submitting
    thread had begun one iteration per call.  However the session is
    scheduled from then on, the frame block keeps the stamp, every
    submitting thread has still begun only the iterations of the earlier
    calls, the stamp is not newer than the one it holds, so that in
    [wait_for_change] it stays blocked while the status is set, and the
    viewer never leaves this call. *)
Theorem stale_stamp_never_returns (v : Viewer W) schedule s fs rest s' :
  1 <= valid_task_count (recordAndSubmitTasks v) ->
  1 + valid_task_count (recordAndSubmitTasks v) < 2 ^ 32 ->
  session_run schedule (session_init v) = Some s ->
  newer (Some fs) (s_value s) = false ->
  session_run (SSet fs :: rest) s = Some s' ->
  s_orchestrator s = OIdle /\
  s_orchestrator s' <> OIdle /\ s_calls s' = S (s_calls s) /\
  s_value s' = Some fs /\
  (1 <= length (s_groups s'))%nat /\
  (forall k g w,
      s_groups s !! k = Some g -> g_workers g !! 0%nat = Some w ->
      w_iteration w = s_calls s) /\
  (forall k g w,
      s_groups s' !! k = Some g -> g_workers g !! 0%nat = Some w ->
      w_iteration w = s_calls s /\
      newer (Some fs) (w_frameStamp w) = false /\
      (w_control w = AtFrameBlock -> s_status s' = true ->
       session_step (SWorker k 0) s' = None)).
Proof.
  intros Hone Hmax Hrun Hfs Hrun'.
  assert (Hinit : session_inv (session_init v)).
  { apply session_init_inv. rewrite count_tasks_wrap. simpl.
    rewrite (wrap32_small (valid_task_count _)) by lia.
    now rewrite wrap32_small by lia. }
  pose proof (session_run_inv schedule _ s Hinit Hrun) as Hinv.
  assert (Hlen : (1 <= length (s_groups s))%nat).
  { destruct (session_run_groups schedule _ s Hrun) as [-> _]. unfold session_init.
    cbn [s_groups].
    destruct (session_groups_spec (FrameBlock_create (next_object v))
                (Barrier_create (S (next_object v))
                   (wrap32 (1 + (count_tasks (recordAndSubmitTasks v)).1)))
                (2 + next_object v) (recordAndSubmitTasks v)) as (_ & Hsize & _).
    unfold size in Hsize. lia. }
  change (session_run (SSet fs :: rest) s)
    with (session_step (SSet fs) s ≫= session_run rest) in Hrun'.
  destruct (session_step (SSet fs) s) as [s1|] eqn:Hset; [|discriminate].
  change (session_run rest s1 = Some s') in Hrun'.
  pose proof (stale_set s s1 fs Hinv Hlen Hfs Hset) as Hst.
  pose proof (stale_run_value rest s1 s' Hst Hrun') as Hvalue.
  destruct (stale_run rest s1 s' Hst Hrun') as [(Hinv' & Hpub & Hlen' & Hold) Hcalls].
  simpl in Hset. destruct (s_orchestrator s) eqn:Ho; try discriminate.
  inversion Hset; subst s1; clear Hset. simpl in Hcalls, Hvalue.
  split; [reflexivity|]. split.
  { unfold published in Hpub. intros Hidle. rewrite Hidle in Hpub. discriminate. }
  split; [exact Hcalls|]. split; [exact Hvalue|]. split; [exact Hlen'|]. split.
  - intros k g w Hg Hw.
    destruct Hinv as (_ & _ & Hsub & _ & Horch & _).
    destruct (Hsub k g w Hg Hw) as (H1 & H2 & H3 & H4).
    pose proof (sc_pending_range w) as Hp. unfold sc_arrived in H1.
    unfold published in H3. rewrite Ho in H3, Horch.
    assert (Z.of_nat (w_iteration w) <> generation (s_submissionCompleted s) + 1).
    { intros Heq. specialize (H3 Heq). discriminate. }
    lia.
  - intros k g w Hg Hw. destruct (Hold k g w Hg Hw) as [Hit Hn].
    rewrite Hvalue in Hn.
    split; [|split; [exact Hn|]].
    + destruct Hinv' as (_ & _ & _ & _ & Horch' & _).
      unfold published in Hpub.
      destruct (s_orchestrator s') as [| |g0]; [discriminate|lia|].
      apply Z.eqb_eq in Hpub. subst g0. rewrite Z.eqb_refl in Horch'. lia.
    + intros Hc Hstatus.
      apply (waiting_worker_blocked s' k g 0 w Hg Hw Hc Hstatus). now rewrite Hvalue.
Qed.

End StaleStamp.

(** ** Frames complete *)

Lemma arrive_open B : barrier_open B -> barrier_open (arrive B).
Proof.
  unfold barrier_open. intros HB.
  destruct (arrive_cases B) as [(H1 & -> & _ & ->)|(H1 & -> & _ & ->)]; lia.
Qed.

Lemma total_insert {A} (f : A -> nat) l i x y :
  l !! i = Some x -> (total f (<[i := y]> l) + f x = total f l + f y)%nat.
Proof.
  unfold total. revert i. induction l as [|z l IH]; intros i Hi; [discriminate|].
  destruct i as [|i]; simpl in Hi |- *.
  - inversion Hi; subst. lia.
  - specialize (IH i Hi). lia.
Qed.

Lemma total_ext {A} (f g : A -> nat) l :
  (forall x, In x l -> f x = g x) -> total f l = total g l.
Proof.
  unfold total. induction l as [|z l IH]; intros Hfg; [reflexivity|].
  simpl. rewrite (Hfg z) by now left. rewrite IH; [reflexivity|].
  intros x Hx. apply Hfg. now right.
Qed.

Lemma step_barriers i g w g' :
  worker_steps i g w g' ->
  forall b, barrier_of g' b = barrier_of g b \/ barrier_of g' b = arrive (barrier_of g b).
Proof.
  intros [Hc Hst|Hc Hst Hnew|Hc|b rest c Hc Hcc|b rest Hc
         |instr rest g0 Hc Hni Hnd Hws Htr Hbs|b gen rest Hc Hgen] b0;
    rewrite barrier_of_set_worker, ?barrier_of_set_barrier;
    try destruct (decide (b0 = b)) as [->|]; auto.
Qed.

Lemma arrived_at_arrival b w rest c :
  worker_wf w -> remaining w = arrive_and_wait b :: rest ->
  remaining (with_control c w) = rest ->
  arrived_at b w = Z.of_nat (w_iteration w) - 1 /\
  arrived_at b (with_control c w) = Z.of_nat (w_iteration w).
Proof.
  intros Hwf Hr Hr'. destruct (wf_head w _ _ Hwf Hr) as (_ & Hnin & _ & _).
  unfold arrived_at. rewrite (pending_in b w) by (rewrite Hr; now left).
  rewrite (pending_not_in b (with_control c w)) by now rewrite Hr'.
  simpl. lia.
Qed.

(** A step of a worker of a running session keeps the worker in the
    frame, and uses up some of the work it has left. *)
Lemma worker_live_step calls i g w g' :
  g_status g = true ->
  worker_wf w -> worker_live calls (g_value g) w ->
  (forall b rest, w_control w = Running (arrive_and_wait b :: rest) ->
                  generation (barrier_of g b) = arrived_at b w) ->
  worker_steps i g w g' ->
  exists w',
    g_workers g' = <[i := w']> (g_workers g) /\
    w_thread w' = w_thread w /\
    worker_live calls (g_value g) w' /\
    (work_left calls w' < work_left calls w)%nat.
Proof.
  intros Hstatus Hwf (Hex & Hrange & Hsame & Hnewer & Hbar) Hgen Hstep.
  assert (Hkeep : forall c ev g0,
             g_workers g0 = g_workers g ->
             c <> Exited ->
             (forall b gen rest,
                 c = InBarrier b gen rest ->
                 (exists done, body (w_thread w) = done ++ arrive_and_wait b :: rest) /\
                 gen + 1 = arrived_at b (with_control c w)) ->
             (position (with_control c w) < position w)%nat ->
             exists w',
               g_workers (set_worker i (with_control c w) ev g0) = <[i := w']> (g_workers g) /\
               w_thread w' = w_thread w /\
               worker_live calls (g_value g) w' /\
               (work_left calls w' < work_left calls w)%nat).
  { intros c ev g0 Hws Hc Hb Hpos. exists (with_control c w). simpl. rewrite Hws.
    split; [reflexivity|]. split; [reflexivity|]. split.
    - split_and!; simpl; auto; lia.
    - unfold work_left. simpl. lia. }
  destruct Hstep as [Hc Hst|Hc Hst Hnew|Hc|b rest c Hc Hcc|b rest Hc
                    |instr rest g0 Hc Hni Hnd Hws Htr Hbs|b gen rest Hc Hgen'].
  - congruence.
  - assert (Hcalls : calls = S (w_iteration w)).
    { destruct (decide (w_iteration w = calls)) as [Heq|Hne]; [|lia].
      rewrite (Hsame Heq), newer_irrefl in Hnew. discriminate. }
    exists (mkWorker (w_thread w) (Running (body (w_thread w))) (g_value g)
                     (S (w_iteration w))). simpl.
    split; [reflexivity|]. split; [reflexivity|]. split.
    + split_and!; simpl; try discriminate; try lia; auto.
    + unfold work_left, position. simpl. rewrite Hc, Hcalls.
      replace (S (w_iteration w) - S (w_iteration w))%nat with 0%nat by lia.
      replace (S (w_iteration w) - w_iteration w)%nat with 1%nat by lia. lia.
  - apply Hkeep; auto; try discriminate. unfold position. simpl. rewrite Hc. simpl. lia.
  - assert (Hr : remaining w = arrive_and_wait b :: rest) by (unfold remaining; now rewrite Hc).
    assert (Hr' : remaining (with_control c w) = rest).
    { subst c. unfold remaining. simpl. now destruct (_ =? _). }
    destruct (arrived_at_arrival b w rest c Hwf Hr Hr') as [Hbefore Hafter].
    rewrite g_workers_set_barrier || idtac.
    apply Hkeep; auto using g_workers_set_barrier.
    + subst c. destruct (_ =? _); discriminate.
    + intros b0 gen0 rest0 Heq. subst c.
      destruct (_ =? _); [|discriminate]. inversion Heq; subst b0 gen0 rest0. split.
      * destruct Hwf as [[done Hbody] _]. exists done. now rewrite Hbody, Hr.
      * rewrite Hafter, (Hgen b rest Hc), Hbefore. lia.
    + subst c. unfold position. simpl. rewrite Hc. destruct (_ =? _); simpl; lia.
  - apply Hkeep; auto using g_workers_set_barrier; try discriminate.
    unfold position. simpl. rewrite Hc. simpl. lia.
  - apply Hkeep; auto; try discriminate.
    unfold position. simpl. rewrite Hc. simpl. lia.
  - apply Hkeep; auto; try discriminate.
    unfold position. simpl. rewrite Hc. simpl. lia.
Qed.

Lemma group_ok_env g g' :
  g_workers g' = g_workers g -> g_trace g' = g_trace g ->
  barrier_of g' RecordStart = barrier_of g RecordStart ->
  barrier_of g' RecordCompleted = barrier_of g RecordCompleted ->
  group_ok g -> group_ok g'.
Proof.
  unfold group_ok, barrier_ok, trace_ok.
  intros -> -> -> ->. auto.
Qed.

Lemma run_thread t : is_primary t = false -> is_secondary t = false -> body t = [task_submit; arrive_and_drop SubmissionCompleted].
Proof. destruct t; simpl; congruence. Qed.

(** The only worker of the group of a one-graph task is its [run] thread. *)
Lemma single_worker g i w :
  group_wf g -> multi g = false -> length (g_workers g) = 1%nat ->
  g_workers g !! i = Some w ->
  i = 0%nat /\ body (w_thread w) = [task_submit; arrive_and_drop SubmissionCompleted].
Proof.
  intros (_ & (w0 & Hw0 & Hsec) & _) Hmulti Hlen Hw.
  assert (i = 0%nat) as ->.
  { apply lookup_lt_Some in Hw. lia. }
  split; [reflexivity|]. unfold multi in Hmulti. rewrite Hw0 in Hmulti.
  assert (w = w0) as -> by congruence. now apply run_thread.
Qed.

(** When a worker is about to arrive at a barrier, the barrier is in the
    generation that the worker's count of arrivals gives. *)
Lemma generation_at_arrival s k g i w b rest :
  live s -> s_groups s !! k = Some g -> g_workers g !! i = Some w ->
  w_control w = Running (arrive_and_wait b :: rest) ->
  generation (barrier_of (group_view s g) b) = arrived_at b w.
Proof.
  intros (Hinv & _ & _ & Hgroups) Hg Hw Hc.
  pose proof Hinv as (Hwf & _ & Hsub & _).
  pose proof (Forall_lookup_1 _ _ _ _ Hwf Hg) as Hgwf.
  pose proof Hgwf as (Hall & (w0 & Hw0 & Hsec0) & Hrest).
  pose proof (Forall_lookup_1 _ _ _ _ Hall Hw) as Hwwf.
  pose proof (Forall_lookup_1 _ _ _ _ Hgroups Hg) as [_ Hmulti].
  assert (Hr : remaining w = arrive_and_wait b :: rest) by (unfold remaining; now rewrite Hc).
  destruct (wf_head w _ _ Hwwf Hr) as (Hin & Hnin & _ & Hit).
  destruct (multi g) eqn:Hm.
  2:{ destruct (single_worker g i w Hgwf Hm Hmulti Hw) as [_ Hbody].
      rewrite Hbody in Hin. simpl in Hin. intuition discriminate. }
  destruct Hmulti as ((_ & _ & Hrs & Hrc & _) & _).
  assert (Hrec : forall b0, b0 <> SubmissionCompleted -> barrier_ok b0 g ->
                            generation (barrier_of g b0) = arrived_at b0 w ->
                            generation (barrier_of (group_view s g) b0) = arrived_at b0 w).
  { intros [] Hb0 _ Heq; try contradiction; exact Heq. }
  assert (Hbok : forall b0, barrier_ok b0 g -> generation (barrier_of g b0) = arrived_at b0 w
                                            \/ exists r, w_control w = InBarrier b0 (generation (barrier_of g b0)) r).
  { intros b0 (_ & Hrange & Hwait & _). specialize (Hrange i w Hw).
    destruct (decide (arrived_at b0 w = generation (barrier_of g b0) + 1)) as [Heq|Hne].
    - right. now apply (Hwait i w Hw).
    - left. lia. }
  destruct b.
  - apply Hrec; [discriminate|exact Hrs|].
    destruct (Hbok _ Hrs) as [Heq|[r Hr0]]; [exact Heq|congruence].
  - apply Hrec; [discriminate|exact Hrc|].
    destruct (Hbok _ Hrc) as [Heq|[r Hr0]]; [exact Heq|congruence].
  - assert (Hprim : is_secondary (w_thread w) = false).
    { destruct (w_thread w); simpl in Hin |- *; intuition discriminate. }
    assert (i = 0%nat) as ->.
    { destruct (decide (i = 0%nat)) as [|Hne]; [assumption|].
      rewrite (Hrest i w Hw Hne) in Hprim. discriminate. }
    destruct (Hsub k g w Hg Hw) as (Hge & Hle & _).
    assert (Harr : sc_arrival (w_thread w) = arrive_and_wait SubmissionCompleted).
    { destruct (w_thread w); simpl in Hin |- *; intuition discriminate. }
    unfold sc_arrived, sc_pending in Hge. rewrite Harr, Hr in Hge.
    destruct (in_dec _ _ _) as [_|Hn] in Hge; [|destruct Hn; now left].
    unfold arrived_at. rewrite (pending_in _ w) by (rewrite Hr; now left).
    simpl. lia.
Qed.

Lemma multi_insert g i w w' :
  g_workers g !! i = Some w -> w_thread w' = w_thread w ->
  (match <[i := w']> (g_workers g) !! 0%nat with
   | Some w => is_primary (w_thread w)
   | None => false
   end) = multi g.
Proof.
  intros Hw Ht. unfold multi. destruct i as [|i].
  - rewrite list_lookup_insert_eq by (apply lookup_lt_Some in Hw; exact Hw).
    now rewrite Hw, Ht.
  - now rewrite list_lookup_insert_ne by discriminate.
Qed.

(** A step of a thread keeps the session running and uses up work. *)
Lemma live_worker s s' k i :
  live s -> session_step (SWorker k i) s = Some s' ->
  live s' /\ (frame_left s' < frame_left s)%nat /\
  s_calls s' = s_calls s /\ s_orchestrator s' = s_orchestrator s.
Proof.
  intros Hlive Hstep. pose proof Hlive as (Hinv & Hstatus & Hopen & Hgroups).
  pose proof (session_inv_step _ s s' Hinv Hstep) as Hinv'.
  simpl in Hstep.
  destruct (s_groups s !! k) as [g|] eqn:Hg; simpl in Hstep; [|discriminate].
  destruct (worker_step i (group_view s g)) as [g'|] eqn:Hw; simpl in Hstep;
    [|discriminate].
  inversion Hstep; subst s'; clear Hstep.
  apply worker_step_steps in Hw as (w & Hw & Hsteps). cbn [group_view g_workers] in Hw.
  pose proof Hinv as (Hwf & _).
  pose proof (Forall_lookup_1 _ _ _ _ Hwf Hg) as Hgwf.
  pose proof Hgwf as (Hall & _).
  pose proof (Forall_lookup_1 _ _ _ _ Hall Hw) as Hwwf.
  pose proof (Forall_lookup_1 _ _ _ _ Hgroups Hg) as [Hlives Hmulti].
  pose proof (Forall_lookup_1 _ _ _ _ Hlives Hw) as Hwlive.
  destruct (worker_live_step (s_calls s) i (group_view s g) w g' Hstatus Hwwf Hwlive)
    as (w' & Hws & Ht & Hlive' & Hless); [|exact Hsteps|].
  { intros b rest Hc. now apply (generation_at_arrival s k g i w b rest). }
  cbn [group_view g_workers] in Hws.
  pose proof (step_barriers i _ w g' Hsteps) as Hbars.
  assert (Hopen' : forall b, barrier_open (barrier_of (group_view s g) b) ->
                             barrier_open (barrier_of g' b)).
  { intros b Hb. destruct (Hbars b) as [->| ->]; [exact Hb|now apply arrive_open]. }
  split; [|split; [|split; reflexivity]].
  - split; [exact Hinv'|]. split; [exact Hstatus|]. split; [exact (Hopen' SubmissionCompleted Hopen)|].
    cbn [s_groups s_calls s_value]. apply Forall_insert; [exact Hgroups|].
    split; [rewrite Hws; now apply Forall_insert|].
    unfold multi at 1. rewrite Hws, (multi_insert g i w w' Hw Ht).
    destruct (multi g) eqn:Hm.
    + destruct Hmulti as (Hok & Hrs & Hrc). split_and!.
      * apply (group_ok_step i (group_view s g) g' w); [|exact Hw|exact Hsteps].
        now apply (group_ok_env g).
      * exact (Hopen' RecordStart Hrs).
      * exact (Hopen' RecordCompleted Hrc).
    + now rewrite length_insert.
  - unfold frame_left, viewer_left. cbn [s_orchestrator s_groups s_calls].
    pose proof (total_insert (fun g => total (work_left (s_calls s)) (g_workers g))
                  (s_groups s) k g g' Hg) as Hsum.
    pose proof (total_insert (work_left (s_calls s)) (g_workers g) i w w' Hw) as Hsum'.
    cbn beta in Hsum. rewrite Hws in Hsum. lia.
Qed.

(** The arrival at the submission barrier ends the body of a submitting
    thread, the arrival at [recordCompleted] that of a secondary one. *)
Lemma body_last t :
  exists front,
    body t = front ++ [if is_secondary t then arrive_and_wait RecordCompleted
                       else sc_arrival t].
Proof.
  destruct t; simpl.
  - now exists [task_submit].
  - now exists [task_start; arrive_and_wait RecordStart; record; add;
                arrive_and_wait RecordCompleted; task_finish; recorded_clear].
  - now exists [arrive_and_wait RecordStart; record; add].
Qed.

Lemma suffix_last t done rest :
  body t = done ++ rest -> rest <> [] ->
  In (if is_secondary t then arrive_and_wait RecordCompleted else sc_arrival t) rest.
Proof.
  intros Hbody Hne. destruct (body_last t) as [front Hfront].
  destruct rest as [|x rest] using rev_ind; [contradiction|]. clear IHrest.
  rewrite Hfront, app_assoc in Hbody. apply app_inj_tail in Hbody as [_ ->].
  apply in_or_app. right. now left.
Qed.

Lemma submitter_done w :
  worker_wf w -> is_secondary (w_thread w) = false -> sc_pending w = 0 -> remaining w = [].
Proof.
  intros [[done Hbody] _] Hsec Hp.
  destruct (remaining w) as [|x rest] eqn:Hr; [reflexivity|].
  assert (Hin : In (sc_arrival (w_thread w)) (x :: rest)).
  { pose proof (suffix_last _ _ _ Hbody) as Hl. rewrite Hsec in Hl. now apply Hl. }
  unfold sc_pending in Hp. rewrite Hr in Hp.
  destruct (in_dec _ _ _); [discriminate|contradiction].
Qed.

(** Outside [recordAndSubmit], every submitting thread has finished the
    iteration of the last call. *)
Lemma idle_submitter s k g w :
  session_inv s -> s_orchestrator s = OIdle ->
  s_groups s !! k = Some g -> g_workers g !! 0%nat = Some w ->
  w_iteration w = s_calls s /\ sc_pending w = 0.
Proof.
  intros (_ & _ & Hsub & _ & Horch & _) Ho Hg Hw.
  destruct (Hsub k g w Hg Hw) as (H1 & H2 & H3 & _).
  unfold published in H3. rewrite Ho in H3, Horch.
  pose proof (sc_pending_range w). unfold sc_arrived in H1.
  assert (Z.of_nat (w_iteration w) <> generation (s_submissionCompleted s) + 1).
  { intros Heq. specialize (H3 Heq). discriminate. }
  split; lia.
Qed.

(** Then the primary thread of a task with several command graphs is
    past [recordCompleted], where it waited for all the others. *)
Lemma idle_recordCompleted s k g :
  live s -> s_orchestrator s = OIdle ->
  s_groups s !! k = Some g -> multi g = true ->
  generation (barrier_of g RecordCompleted) = Z.of_nat (s_calls s).
Proof.
  intros (Hinv & _ & _ & Hgroups) Ho Hg Hm.
  pose proof Hinv as (Hwf & _).
  pose proof (Forall_lookup_1 _ _ _ _ Hwf Hg) as (Hall & (w0 & Hw0 & Hsec0) & _).
  pose proof (Forall_lookup_1 _ _ _ _ Hgroups Hg) as [Hlives Hmulti].
  destruct (idle_submitter s k g w0 Hinv Ho Hg Hw0) as [Hit0 Hp0].
  rewrite Hm in Hmulti.
  destruct Hmulti as ((_ & _ & _ & (_ & Hrange & Hwait & _) & _) & _).
  pose proof (Forall_lookup_1 _ _ _ _ Hall Hw0) as Hwf0.
  pose proof (submitter_done w0 Hwf0 Hsec0 Hp0) as Hr0.
  assert (Harr0 : arrived_at RecordCompleted w0 = Z.of_nat (s_calls s)).
  { unfold arrived_at. rewrite pending_not_in by now rewrite Hr0. lia. }
  pose proof (Hrange 0%nat w0 Hw0) as Hr.
  destruct (decide (arrived_at RecordCompleted w0 =
                    generation (barrier_of g RecordCompleted) + 1)) as [Heq|Hne]; [|lia].
  destruct (Hwait 0%nat w0 Hw0 Heq) as [rest Hc].
  pose proof (Forall_lookup_1 _ _ _ _ Hlives Hw0) as (_ & _ & _ & _ & Hbar).
  destruct (Hbar _ _ _ Hc) as [[done Hbody] _].
  assert (rest = []) as -> by (unfold remaining in Hr0; now rewrite Hc in Hr0).
  destruct (body_last (w_thread w0)) as [front Hfront].
  rewrite Hsec0, Hbody in Hfront. apply app_inj_tail in Hfront as [_ Heq'].
  destruct (w_thread w0); discriminate.
Qed.

(** So every thread has begun the iteration of the last call and is
    through with its body. *)
Lemma idle_caught_up s k g j w :
  live s -> s_orchestrator s = OIdle ->
  s_groups s !! k = Some g -> g_workers g !! j = Some w ->
  w_iteration w = s_calls s /\ remaining w = [].
Proof.
  intros Hlive Ho Hg Hw. pose proof Hlive as (Hinv & _ & _ & Hgroups).
  pose proof Hinv as (Hwf & _).
  pose proof (Forall_lookup_1 _ _ _ _ Hwf Hg) as Hgwf.
  pose proof Hgwf as (Hall & (w0 & Hw0 & Hsec0) & Hrest).
  pose proof (Forall_lookup_1 _ _ _ _ Hgroups Hg) as [Hlives Hmulti].
  destruct (idle_submitter s k g w0 Hinv Ho Hg Hw0) as [Hit0 Hp0].
  pose proof (submitter_done w0 (Forall_lookup_1 _ _ _ _ Hall Hw0) Hsec0 Hp0) as Hr0.
  destruct (decide (j = 0%nat)) as [->|Hj].
  { assert (w = w0) as -> by congruence. auto. }
  destruct (multi g) eqn:Hm.
  2:{ destruct (single_worker g j w Hgwf Hm Hmulti Hw) as [-> _]. contradiction. }
  pose proof (idle_recordCompleted s k g Hlive Ho Hg Hm) as Hgen.
  destruct Hmulti as ((_ & _ & _ & (_ & Hrange & _) & _) & _).
  pose proof (Hrange j w Hw) as Hr. cbv zeta in Hr. rewrite Hgen in Hr.
  pose proof (Forall_lookup_1 _ _ _ _ Hlives Hw) as (_ & Hle & _).
  pose proof (Forall_lookup_1 _ _ _ _ Hall Hw) as [[done Hbody] _].
  assert (Hp : pending RecordCompleted w = 0 \/ pending RecordCompleted w = 1).
  { unfold pending. destruct (in_dec _ _ _); auto. }
  unfold arrived_at in Hr. split; [lia|].
  destruct (remaining w) as [|x rest] eqn:Hrem; [reflexivity|].
  exfalso. pose proof (suffix_last _ _ _ Hbody) as Hl.
  rewrite (Hrest j w Hw Hj) in Hl.
  rewrite pending_in in Hr; [lia|]. rewrite Hrem. now apply Hl.
Qed.

Lemma newer_newer x y z : newer x y = true -> newer y z = true -> newer x z = true.
Proof.
  destruct x as [x|], y as [y|], z as [z|]; simpl; try congruence.
  intros H1 H2. apply Z.ltb_lt in H1, H2. apply Z.ltb_lt. lia.
Qed.

(** Publishing a newer stamp keeps the session running. *)
Lemma live_set s s' fs :
  live s -> newer (Some fs) (s_value s) = true ->
  session_step (SSet fs) s = Some s' -> live s'.
Proof.
  intros Hlive Hfs Hstep. pose proof Hlive as (Hinv & Hstatus & Hopen & Hgroups).
  pose proof (session_inv_step _ s s' Hinv Hstep) as Hinv'.
  simpl in Hstep. destruct (s_orchestrator s) eqn:Ho; try discriminate.
  inversion Hstep; subst s'; clear Hstep.
  split; [exact Hinv'|]. split; [exact Hstatus|]. split; [exact Hopen|].
  cbn [s_groups s_calls s_value].
  apply Forall_lookup_2. intros k g Hg.
  pose proof (Forall_lookup_1 _ _ _ _ Hgroups Hg) as [Hlives Hmulti].
  split; [|exact Hmulti].
  apply Forall_lookup_2. intros j w Hw.
  pose proof (idle_caught_up s k g j w Hlive Ho Hg Hw) as [Hit _].
  pose proof (Forall_lookup_1 _ _ _ _ Hlives Hw) as (Hex & Hrange & Hsame & Hnewer & Hbar).
  split_and!; auto; try lia.
  intros _. now rewrite (Hsame Hit).
Qed.

(** The viewer's own steps inside [recordAndSubmit]. *)
Lemma live_viewer a s s' :
  a = SArrive \/ a = SReturn ->
  live s -> session_step a s = Some s' ->
  live s' /\ (frame_left s' < frame_left s)%nat /\ s_calls s' = s_calls s.
Proof.
  intros Ha Hlive Hstep. pose proof Hlive as (Hinv & Hstatus & Hopen & Hgroups).
  pose proof (session_inv_step _ s s' Hinv Hstep) as Hinv'.
  destruct Ha as [-> | ->]; simpl in Hstep;
    destruct (s_orchestrator s) eqn:Ho; try discriminate.
  - match type of Hstep with context [if ?c then _ else _] => destruct c end;
      inversion Hstep; subst s'; clear Hstep;
      (split; [|split; [|reflexivity]]);
      try (unfold frame_left, viewer_left; simpl; rewrite Ho; lia);
      (split; [exact Hinv'|]; split; [exact Hstatus|];
       split; [now apply arrive_open|exact Hgroups]).
  - match type of Hstep with context [if ?c then _ else _] => destruct c end;
      [discriminate|].
    inversion Hstep; subst s'; clear Hstep.
    split; [|split; [|reflexivity]].
    + split; [exact Hinv'|]. split; [exact Hstatus|]. split; [exact Hopen|exact Hgroups].
    + unfold frame_left, viewer_left. simpl. rewrite Ho. lia.
Qed.

Lemma count_below {A} (p : A -> bool) l :
  count p l < size l -> exists j x, l !! j = Some x /\ p x = false.
Proof.
  unfold count, size. induction l as [|y l IH]; simpl; [lia|].
  destruct (p y) eqn:Hy; simpl.
  - intros Hlt. destruct IH as (j & x & Hj & Hx); [lia|]. now exists (S j), x.
  - intros _. now exists 0%nat, y.
Qed.

(** When a worker can take a step. *)
Lemma worker_enabled i g w :
  g_workers g !! i = Some w -> g_status g = true ->
  match w_control w with
  | AtFrameBlock => newer (g_value g) (w_frameStamp w) = true
  | Running _ => True
  | InBarrier b gen _ => generation (barrier_of g b) <> gen
  | Exited => False
  end ->
  is_Some (worker_step i g).
Proof.
  intros Hw Hst Hc. unfold worker_step. rewrite Hw. simpl.
  destruct (w_control w) as [|[|instr rest]|b gen rest|].
  - rewrite Hst, Hc. simpl. eauto.
  - eauto.
  - destruct instr; try (eexists; reflexivity).
    cbv zeta. destruct (_ =? _); eauto.
  - destruct (Z.eqb_spec (generation (barrier_of g b)) gen); [contradiction|eauto].
  - contradiction.
Qed.

Lemma after_split x done rest : ~ In x done -> after x (done ++ x :: rest) = rest.
Proof.
  induction done as [|y done IH]; intros Hn; simpl.
  - now rewrite decide_True.
  - rewrite decide_False by (intros ->; apply Hn; now left).
    apply IH. intros Hin. apply Hn. now right.
Qed.

Lemma blocked_remaining calls value w b gen rest :
  worker_live calls value w -> w_control w = InBarrier b gen rest ->
  remaining w = after (arrive_and_wait b) (body (w_thread w)) /\
  In (arrive_and_wait b) (body (w_thread w)) /\
  gen + 1 = arrived_at b w.
Proof.
  intros (_ & _ & _ & _ & Hbar) Hc. destruct (Hbar b gen rest Hc) as [[done Hbody] Hgen].
  split; [|split; [|exact Hgen]].
  - unfold remaining. rewrite Hc, Hbody. symmetry. apply after_split.
    pose proof (body_nodup_all (w_thread w)) as Hnd. rewrite Hbody in Hnd.
    apply NoDup_remove_2 in Hnd. intros Hin. apply Hnd. apply in_or_app. now left.
  - rewrite Hbody. apply in_or_app. right. now left.
Qed.

Ltac known_rest H :=
  match type of H with
  | _ = ?r => let r' := eval vm_compute in r in change r with r' in H
  end.

Ltac count_in :=
  repeat match goal with
    | |- context [in_dec Instr_eq_dec ?x ?l] =>
        destruct (in_dec Instr_eq_dec x l) as [?Hin|?Hn];
        [try (exfalso; simpl in *; intuition discriminate)
        |try (exfalso; simpl in *; tauto)]
    end.

(** The arrivals of a thread that waits in a barrier, by the barrier and
    the lambda it runs. *)
Lemma blocked_arrivals calls value w b gen rest :
  worker_live calls value w -> w_control w = InBarrier b gen rest ->
  let n := Z.of_nat (w_iteration w) in
  gen + 1 = n /\
  match w_thread w, b with
  | run_primary _ _, RecordStart =>
      arrived_at RecordStart w = n /\ arrived_at RecordCompleted w = n - 1 /\
      sc_pending w = 1
  | run_primary _ _, RecordCompleted =>
      arrived_at RecordStart w = n /\ arrived_at RecordCompleted w = n /\
      sc_pending w = 1
  | run_primary _ _, SubmissionCompleted =>
      sc_pending w = 0
  | run_secondary _ _, RecordStart =>
      arrived_at RecordStart w = n /\ arrived_at RecordCompleted w = n - 1
  | run_secondary _ _, RecordCompleted =>
      arrived_at RecordStart w = n /\ arrived_at RecordCompleted w = n
  | _, _ => False
  end.
Proof.
  intros Hlive Hc n. destruct (blocked_remaining _ _ _ _ _ _ Hlive Hc) as (Hrem & Hin & Hgen).
  assert (Harr : arrived_at b w = n).
  { unfold arrived_at. rewrite pending_not_in; [lia|].
    destruct Hlive as (_ & _ & _ & _ & Hbar).
    destruct (Hbar b gen rest Hc) as [[done Hbody] _].
    pose proof (body_nodup_all (w_thread w)) as Hnd. rewrite Hbody in Hnd.
    apply NoDup_remove_2 in Hnd. unfold remaining. rewrite Hc.
    intros Hin'. apply Hnd. apply in_or_app. now right. }
  split; [lia|]. clear Hgen.
  unfold arrived_at, pending, sc_pending in *. fold n in Harr |- *. clearbody n.
  destruct (w_thread w) eqn:Ht; destruct b;
    try (simpl in Hin; intuition discriminate);
    known_rest Hrem; rewrite Hrem; simpl sc_arrival; count_in; lia.
Qed.

(** A recording barrier that is open waits for a thread that has not
    arrived in its current generation. *)
Lemma laggard b g :
  barrier_ok b g -> barrier_open (barrier_of g b) ->
  exists j w, g_workers g !! j = Some w /\ arrived_at b w = generation (barrier_of g b).
Proof.
  intros (Hreq & Hrange & _ & Hcount) [_ Hopen]. cbv zeta in *.
  destruct (count_below (fun w => arrived_at b w =? generation (barrier_of g b) + 1)
              (g_workers g)) as (j & w & Hw & Hp); [lia|].
  exists j, w. split; [exact Hw|]. apply Z.eqb_neq in Hp.
  specialize (Hrange j w Hw). lia.
Qed.

Lemma at_frame_block_arrived b w :
  w_control w = AtFrameBlock -> arrived_at b w = Z.of_nat (w_iteration w).
Proof.
  intros Hc. unfold arrived_at. rewrite pending_not_in; [lia|].
  unfold remaining. rewrite Hc. auto.
Qed.

(** A group whose submitting thread has not arrived at the submission
    barrier in the current frame has a thread that can take a step. *)
Lemma group_progress s k g w0 :
  live s -> s_groups s !! k = Some g -> g_workers g !! 0%nat = Some w0 ->
  Z.of_nat (s_calls s) = generation (s_submissionCompleted s) + 1 ->
  sc_arrived w0 = generation (s_submissionCompleted s) ->
  exists j, is_Some (worker_step j (group_view s g)).
Proof.
  intros Hlive Hg Hw0 Hcalls Harr0.
  pose proof Hlive as (Hinv & Hstatus & _ & Hgroups).
  pose proof Hinv as (Hwf & _).
  pose proof (Forall_lookup_1 _ _ _ _ Hwf Hg) as (Hall & (w0' & Hw0' & Hsec0) & Hrest).
  assert (w0' = w0) as -> by congruence. clear Hw0'.
  pose proof (Forall_lookup_1 _ _ _ _ Hgroups Hg) as [Hlives Hmulti].
  pose proof (Forall_lookup_1 _ _ _ _ Hlives Hw0) as Hlive0.
  assert (Hen : forall j w,
             g_workers g !! j = Some w ->
             match w_control w with
             | AtFrameBlock => newer (s_value s) (w_frameStamp w) = true
             | Running _ => True
             | InBarrier b gen _ => generation (barrier_of (group_view s g) b) <> gen
             | Exited => False
             end ->
             exists j, is_Some (worker_step j (group_view s g))).
  { intros j w Hw Hc. exists j. now apply (worker_enabled j (group_view s g) w). }
  assert (Hidle : forall j w b,
             g_workers g !! j = Some w -> w_control w = AtFrameBlock ->
             arrived_at b w < Z.of_nat (s_calls s) ->
             newer (s_value s) (w_frameStamp w) = true).
  { intros j w b Hw Hc Hlt.
    pose proof (Forall_lookup_1 _ _ _ _ Hlives Hw) as (_ & _ & _ & Hnewer & _).
    apply Hnewer. rewrite (at_frame_block_arrived b w Hc) in Hlt. lia. }
  destruct (w_control w0) as [|rest|b gen rest|] eqn:Hc0.
  - apply (Hen 0%nat w0 Hw0). rewrite Hc0.
    destruct Hlive0 as (_ & _ & _ & Hnewer & _). apply Hnewer.
    unfold sc_arrived, sc_pending, remaining in Harr0. rewrite Hc0 in Harr0.
    destruct (in_dec _ _ _) as [[]|_] in Harr0. lia.
  - apply (Hen 0%nat w0 Hw0). now rewrite Hc0.
  - destruct (Z.eq_dec (generation (barrier_of (group_view s g) b)) gen) as [Hblocked|Hfree];
      [|apply (Hen 0%nat w0 Hw0); now rewrite Hc0].
    destruct (blocked_arrivals _ _ w0 b gen rest Hlive0 Hc0) as [Hgen Hform].
    unfold sc_arrived in Harr0.
    destruct (w_thread w0) eqn:Ht0; [contradiction| |discriminate].
    assert (Hm : multi g = true) by (unfold multi; now rewrite Hw0, Ht0).
    rewrite Hm in Hmulti. destruct Hmulti as ((_ & _ & Hrs & Hrc & _) & Hors & Horc).
    pose proof Hrs as (_ & _ & Hwait_rs & _). pose proof Hrc as (_ & _ & Hwait_rc & _).
    cbv zeta in Hwait_rs, Hwait_rc.
    destruct b.
    + destruct Hform as (Hrs0 & Hrc0 & Hp0).
      destruct (laggard RecordStart g Hrs Hors) as (j & w & Hw & Hlag).
      cbn [barrier_of group_view g_recordStart g_recordCompleted g_submissionCompleted] in *.
      pose proof (Forall_lookup_1 _ _ _ _ Hlives Hw) as Hlivej.
      assert (Hj : j <> 0%nat) by (intros ->; assert (w = w0) by congruence; subst w; lia).
      pose proof (Hrest j w Hw Hj) as Hsecj.
      apply (Hen j w Hw). destruct (w_control w) as [|r|b2 g2 r|] eqn:Hcj.
      * apply (Hidle j w RecordStart Hw Hcj). lia.
      * exact I.
      * intros Hblocked2.
        destruct (blocked_arrivals _ _ w b2 g2 r Hlivej Hcj) as [Hgen2 Hform2].
        destruct (w_thread w); try discriminate.
        destruct b2; cbn [barrier_of group_view g_recordStart g_recordCompleted g_submissionCompleted] in *; [lia| |contradiction].
        destruct (Hwait_rc 0%nat w0 Hw0) as [r0 Hr0]; [lia|congruence].
      * now destruct Hlivej as [Hex _].
    + destruct Hform as (Hrs0 & Hrc0 & Hp0).
      destruct (laggard RecordCompleted g Hrc Horc) as (j & w & Hw & Hlag).
      cbn [barrier_of group_view g_recordStart g_recordCompleted g_submissionCompleted] in *.
      pose proof (Forall_lookup_1 _ _ _ _ Hlives Hw) as Hlivej.
      assert (Hj : j <> 0%nat) by (intros ->; assert (w = w0) by congruence; subst w; lia).
      pose proof (Hrest j w Hw Hj) as Hsecj.
      apply (Hen j w Hw). destruct (w_control w) as [|r|b2 g2 r|] eqn:Hcj.
      * apply (Hidle j w RecordCompleted Hw Hcj). lia.
      * exact I.
      * intros Hblocked2.
        destruct (blocked_arrivals _ _ w b2 g2 r Hlivej Hcj) as [Hgen2 Hform2].
        destruct (w_thread w); try discriminate.
        destruct b2; cbn [barrier_of group_view g_recordStart g_recordCompleted g_submissionCompleted] in *; [|lia|contradiction].
        destruct (Hwait_rs 0%nat w0 Hw0) as [r0 Hr0]; [lia|congruence].
      * now destruct Hlivej as [Hex _].
    + cbn [barrier_of group_view g_recordStart g_recordCompleted g_submissionCompleted] in *. lia.
  - now destruct Hlive0 as [Hex _].
Qed.

(** Inside [recordAndSubmit], a running session is never stuck. *)
Lemma live_progress s :
  live s -> s_orchestrator s <> OIdle ->
  exists a s', in_frame a = true /\ session_step a s = Some s'.
Proof.
  intros Hlive Hbusy. pose proof Hlive as (Hinv & Hstatus & Hopen & Hgroups).
  pose proof Hinv as (Hwf & Hreq & Hsub & Harr & Horch & _).
  destruct (s_orchestrator s) as [| |g0] eqn:Ho; [contradiction| |].
  - exists SArrive. simpl. rewrite Ho. destruct (_ =? _); eauto.
  - destruct (Z.eqb_spec (generation (s_submissionCompleted s)) g0) as [Hsame|Hreleased].
    2:{ exists SReturn. simpl. rewrite Ho.
        destruct (Z.eqb_spec (generation (s_submissionCompleted s)) g0); [contradiction|].
        eauto. }
    subst g0. rewrite Z.eqb_refl in Harr, Horch. destruct Horch as [_ Hcalls].
    destruct Hopen as [_ Hopen].
    destruct (count_below (has_arrived (generation (s_submissionCompleted s))) (s_groups s))
      as (k & g & Hg & Hnot); [lia|].
    pose proof (Forall_lookup_1 _ _ _ _ Hwf Hg) as (_ & (w0 & Hw0 & _) & _).
    unfold has_arrived in Hnot. rewrite Hw0 in Hnot. apply Z.eqb_neq in Hnot.
    destruct (Hsub k g w0 Hg Hw0) as (Hge & Hle & _).
    pose proof (sc_pending_range w0) as Hp.
    destruct (group_progress s k g w0 Hlive Hg Hw0 Hcalls) as (j & g' & Hstep).
    { unfold sc_arrived in *. lia. }
    exists (SWorker k j). simpl. rewrite Hg. simpl. rewrite Hstep. simpl. eauto.
Qed.

(** Every step inside a frame keeps the session running and uses up
    work. *)
Lemma live_step a s s' :
  in_frame a = true -> live s -> session_step a s = Some s' ->
  live s' /\ (frame_left s' < frame_left s)%nat /\ s_calls s' = s_calls s.
Proof.
  intros Ha Hlive Hstep. destruct a as [k i|fs| | |]; try discriminate.
  - destruct (live_worker s s' k i Hlive Hstep) as (H1 & H2 & H3 & _). auto.
  - apply (live_viewer SArrive); auto.
  - apply (live_viewer SReturn); auto.
Qed.

(** From wherever a running session is, the frame can be completed: some
    schedule of steps of the threads and the viewer, no longer than the
    work that is left, ends with the viewer outside [recordAndSubmit]. *)
Lemma live_completes n s :
  live s -> (frame_left s <= n)%nat ->
  exists rest s',
    forallb in_frame rest = true /\ (length rest <= n)%nat /\
    session_run rest s = Some s' /\
    live s' /\ s_orchestrator s' = OIdle /\ s_calls s' = s_calls s.
Proof.
  revert s. induction n as [|n IH]; intros s Hlive Hn.
  - exists [], s. split_and!; auto.
    unfold frame_left, viewer_left in Hn. destruct (s_orchestrator s); auto; lia.
  - destruct (s_orchestrator s) eqn:Ho.
    + exists [], s. split_and!; auto. simpl. lia.
    + destruct (live_progress s Hlive) as (a & s1 & Ha & Hstep); [congruence|].
      destruct (live_step a s s1 Ha Hlive Hstep) as (Hlive1 & Hless & Hcalls).
      destruct (IH s1 Hlive1) as (rest & s' & Hrest & Hlen & Hrun & Hlive' & Hidle & Hc);
        [lia|].
      exists (a :: rest), s'. simpl. rewrite Ha, Hrest, Hstep. simpl.
      split_and!; auto; try lia; congruence.
    + destruct (live_progress s Hlive) as (a & s1 & Ha & Hstep); [congruence|].
      destruct (live_step a s s1 Ha Hlive Hstep) as (Hlive1 & Hless & Hcalls).
      destruct (IH s1 Hlive1) as (rest & s' & Hrest & Hlen & Hrun & Hlive' & Hidle & Hc);
        [lia|].
      exists (a :: rest), s'. simpl. rewrite Ha, Hrest, Hstep. simpl.
      split_and!; auto; try lia; congruence.
Qed.

(** And no schedule inside a frame is longer than the work that is
    left. *)
Lemma live_bounded rest s s' :
  live s -> forallb in_frame rest = true -> session_run rest s = Some s' ->
  live s' /\ (length rest + frame_left s' <= frame_left s)%nat /\ s_calls s' = s_calls s.
Proof.
  revert s. induction rest as [|a rest IH]; intros s Hlive Hin Hrun; simpl in *.
  - inversion Hrun; subst. split_and!; auto.
  - apply andb_prop in Hin as [Ha Hrest].
    destruct (session_step a s) as [s1|] eqn:Hstep; simpl in Hrun; [|discriminate].
    destruct (live_step a s s1 Ha Hlive Hstep) as (Hlive1 & Hless & Hcalls).
    destruct (IH s1 Hlive1 Hrest Hrun) as (Hlive' & Hle & Hc).
    split_and!; auto; try lia; congruence.
Qed.

Lemma frame_step_value a s s' :
  in_frame a = true -> session_step a s = Some s' -> s_value s' = s_value s.
Proof.
  intros Ha Hstep. destruct a as [k i|fs| | |]; try discriminate; simpl in Hstep.
  - destruct (s_groups s !! k) as [g|]; simpl in Hstep; [|discriminate].
    destruct (worker_step i (group_view s g)) as [g'|]; simpl in Hstep; [|discriminate].
    now inversion Hstep.
  - destruct (s_orchestrator s); try discriminate.
    match type of Hstep with context [if ?c then _ else _] => destruct c end;
      now inversion Hstep.
  - destruct (s_orchestrator s); try discriminate.
    match type of Hstep with context [if ?c then _ else _] => destruct c end;
      [discriminate|now inversion Hstep].
Qed.

(** A schedule that publishes newer and newer stamps and does not clear
    the status keeps the session running. *)
Lemma live_run schedule s s' :
  live s -> fresh_frames schedule ->
  (forall fs, In fs (published_stamps schedule) -> newer (Some fs) (s_value s) = true) ->
  session_run schedule s = Some s' -> live s'.
Proof.
  revert s. induction schedule as [|a schedule IH]; intros s Hlive [Hns Hsorted] Hnew Hrun;
    simpl in Hrun.
  - now inversion Hrun; subst.
  - destruct (session_step a s) as [s1|] eqn:Hstep; simpl in Hrun; [|discriminate].
    apply Forall_cons in Hns as [Ha Hns].
    destruct (in_frame a) eqn:Hin.
    + destruct (live_step a s s1 Hin Hlive Hstep) as (Hlive1 & _).
      apply (IH s1 Hlive1); [split; [exact Hns|]| |exact Hrun].
      * destruct a; try discriminate; exact Hsorted.
      * intros fs Hfs. rewrite (frame_step_value a s s1 Hin Hstep). apply Hnew.
        destruct a; try discriminate; exact Hfs.
    + destruct a as [k i|fs| | |]; try discriminate; [|contradiction].
      simpl in Hsorted, Hnew. apply StronglySorted_inv in Hsorted as [Hsorted Hall].
      apply (IH s1); [|split; [exact Hns|exact Hsorted]| |exact Hrun].
      * apply (live_set s s1 fs Hlive); [|exact Hstep]. apply Hnew. now left.
      * intros fs' Hfs'. simpl in Hstep. destruct (s_orchestrator s); try discriminate.
        inversion Hstep; subst s1. simpl. apply Z.ltb_lt.
        rewrite List.Forall_forall in Hall. now apply Hall.
Qed.

Lemma initial_worker_live t : worker_live 0 None (mkWorker t AtFrameBlock None 0).
Proof. split_and!; simpl; try discriminate; auto; try lia. Qed.

Lemma task_group_live fb sc next task :
  size (commandGraphs task) < 2 ^ 32 ->
  Forall (group_live 0 None) (task_group fb sc next task).
Proof.
  intros Hsize. unfold task_group, task_threads.
  destruct (commandGraphs task) as [|cg0 [|cg1 rest]] eqn:Hcgs.
  - constructor.
  - constructor; [|constructor]. split; simpl.
    + constructor; [apply initial_worker_live|constructor].
    + reflexivity.
  - constructor; [|constructor].
    pose proof (group_init_inv next task fb sc cg0 (cg1 :: rest) Hsize) as [Hok _].
    split.
    + simpl. constructor; [apply initial_worker_live|].
      constructor; [apply initial_worker_live|].
      apply List.Forall_forall. intros w Hw. apply in_map_iff in Hw as (t & <- & _).
      apply initial_worker_live.
    + unfold multi. simpl. split; [exact Hok|].
      assert (Hn : 0 < wrap32 (size (cg0 :: cg1 :: rest))).
      { rewrite wrap32_small; unfold size in *; simpl in *; lia. }
      unfold barrier_open. simpl. lia.
Qed.

Lemma session_groups_live fb sc next tasks :
  total_command_graphs tasks < 2 ^ 32 ->
  Forall (group_live 0 None) (session_groups fb sc next tasks).
Proof.
  revert next. induction tasks as [|task tasks IH]; intros next Htotal; simpl in *.
  - constructor.
  - pose proof (total_command_graphs_nonneg tasks).
    assert (0 <= size (commandGraphs task)) by (unfold size; lia).
    apply Forall_app. split; [apply task_group_live; lia|apply IH; lia].
Qed.

Section Liveness.

Context {W : Type} `{WindowOps W}.

Lemma live_init (v : Viewer W) :
  _status v = true -> _threading v = false ->
  1 + valid_task_count (recordAndSubmitTasks v) < 2 ^ 32 ->
  total_command_graphs (recordAndSubmitTasks v) < 2 ^ 32 ->
  live (session_init v).
Proof.
  intros Hstatus Hth Hmax Htotal.
  pose proof (valid_task_count_nonneg (recordAndSubmitTasks v)) as Hnn.
  assert (Hreq : wrap32 (1 + (count_tasks (recordAndSubmitTasks v)).1) =
                 1 + valid_task_count (recordAndSubmitTasks v)).
  { rewrite count_tasks_wrap. simpl.
    rewrite (wrap32_small (valid_task_count _)) by lia.
    now rewrite wrap32_small by lia. }
  split; [now apply session_init_inv|].
  unfold session_init. cbn [s_status s_submissionCompleted s_groups s_calls s_value].
  split; [unfold stopThreading; simpl; now rewrite Hth|].
  split; [unfold barrier_open; simpl; rewrite Hreq; lia|].
  now apply session_groups_live.
Qed.

(** X26.  A frame of a threading session completes.  Take a session that
    [setupThreading] starts on a viewer whose status is set and that was
    not threading, in which the status is not cleared and every stamp the
    viewer publishes has a greater frame count than the one before.
    However far the session has got, the threads and the viewer can take
    only a bounded number of further steps without a new stamp, they are
    never stuck while the viewer is inside [recordAndSubmit], and some
    continuation ends with the viewer outside it, in the same call. *)
Theorem threaded_frame_completes (v : Viewer W) schedule s :
  _status v = true -> _threading v = false ->
  1 + valid_task_count (recordAndSubmitTasks v) < 2 ^ 32 ->
  total_command_graphs (recordAndSubmitTasks v) < 2 ^ 32 ->
  fresh_frames schedule ->
  session_run schedule (session_init v) = Some s ->
  (forall rest s',
      forallb in_frame rest = true -> session_run rest s = Some s' ->
      (length rest <= frame_left s)%nat /\
      (s_orchestrator s' <> OIdle ->
       exists a s'', in_frame a = true /\ session_step a s' = Some s'')) /\
  exists rest s',
    forallb in_frame rest = true /\ session_run rest s = Some s' /\
    s_orchestrator s' = OIdle /\ s_calls s' = s_calls s.
Proof.
  intros Hstatus Hth Hmax Htotal Hfresh Hrun.
  assert (Hlive : live s).
  { apply (live_run schedule (session_init v)); auto using live_init. }
  split.
  - intros rest s' Hrest Hrun'.
    destruct (live_bounded rest s s' Hlive Hrest Hrun') as (Hlive' & Hle & _).
    split; [lia|]. now apply live_progress.
  - destruct (live_completes (frame_left s) s Hlive (Nat.le_refl _))
      as (rest & s' & Hrest & _ & Hrun' & _ & Hidle & Hcalls).
    exists rest, s'. auto.
Qed.

End Liveness.

(** ** The stamp a thread works on *)

Lemma worker_steps_done i g w g' :
  worker_steps i g w g' ->
  exists w',
    g_workers g' = <[i := w']> (g_workers g) /\
    ((w_iteration w' = S (w_iteration w) /\ newer (g_value g) (w_frameStamp w) = true) \/
     (w_iteration w' = w_iteration w /\ (remaining w = [] -> remaining w' = []))).
Proof.
  intros [Hc Hst|Hc Hst Hnew|Hc|b rest c Hc Hcc|b rest Hc
         |instr rest g0 Hc Hni Hnd Hws Htr Hbs|b gen rest Hc Hgen];
    eexists; (split; [simpl; rewrite ?g_workers_set_barrier, ?Hws; reflexivity|]);
    try (left; split; [reflexivity|assumption]);
    right; (split; [reflexivity|]); unfold remaining; simpl; rewrite Hc;
    try reflexivity; try discriminate; auto.
Qed.

Lemma in_step_worker s s' k i :
  live s -> in_step s -> session_step (SWorker k i) s = Some s' -> in_step s'.
Proof.
  intros (Hinv & Hstatus & _ & Hgroups) Hin Hstep. simpl in Hstep.
  destruct (s_groups s !! k) as [g|] eqn:Hg; simpl in Hstep; [|discriminate].
  destruct (worker_step i (group_view s g)) as [g'|] eqn:Hw; simpl in Hstep;
    [|discriminate].
  inversion Hstep; subst s'; clear Hstep.
  apply worker_step_steps in Hw as (w & Hw & Hsteps). cbn [group_view g_workers] in Hw.
  destruct (worker_steps_done i _ w g' Hsteps) as (w' & Hws & Hcases).
  cbn [group_view g_workers g_value] in Hws, Hcases.
  pose proof (Forall_lookup_1 _ _ _ _ Hgroups Hg) as [Hlives _].
  pose proof (Forall_lookup_1 _ _ _ _ Hlives Hw) as (_ & Hrange & Hsame & _).
  intros k0 g0 j w0 Hg0 Hw0 Hne. cbn [s_groups s_calls] in *.
  apply lookup_insert_cases in Hg0 as [(Hk & Hg0 & _)|[_ Hg0]];
    [|now apply (Hin k0 g0 j w0)].
  subst k0 g0. rewrite Hws in Hw0.
  apply lookup_insert_cases in Hw0 as [(Hj & Hw0 & _)|[_ Hw0]];
    [|now apply (Hin k g j w0)].
  subst j w0. destruct Hcases as [[Hit Hnew]|[Hit Hdone]].
  - exfalso. destruct (decide (w_iteration w = s_calls s)) as [Heq|Hlt]; [|lia].
    rewrite (Hsame Heq), newer_irrefl in Hnew. discriminate.
  - apply Hdone. apply (Hin k g i w Hg Hw). congruence.
Qed.

Lemma in_step_run schedule s s' :
  live s -> in_step s -> fresh_frames schedule ->
  (forall fs, In fs (published_stamps schedule) -> newer (Some fs) (s_value s) = true) ->
  session_run schedule s = Some s' -> in_step s'.
Proof.
  revert s. induction schedule as [|a schedule IH];
    intros s Hlive Hin [Hns Hsorted] Hnew Hrun; simpl in Hrun.
  - now inversion Hrun; subst.
  - destruct (session_step a s) as [s1|] eqn:Hstep; simpl in Hrun; [|discriminate].
    apply Forall_cons in Hns as [Ha Hns].
    assert (Hlive1 : live s1).
    { apply (live_run [a] s); [exact Hlive| | |simpl; now rewrite Hstep].
      - split; [now constructor|]. destruct a; simpl; repeat constructor.
      - intros fs Hfs. apply Hnew. destruct a; simpl in *; tauto. }
    assert (Hin1 : in_step s1).
    { destruct a as [k i|fs| | |]; [now apply (in_step_worker s s1 k i)| | | |contradiction].
      - simpl in Hstep. destruct (s_orchestrator s) eqn:Ho; try discriminate.
        inversion Hstep; subst s1. intros k g j w Hg Hw _. simpl in Hg.
        now apply (idle_caught_up s k g j w).
      - simpl in Hstep. destruct (s_orchestrator s); try discriminate.
        match type of Hstep with context [if ?c then _ else _] => destruct c end;
          inversion Hstep; subst s1; exact Hin.
      - simpl in Hstep. destruct (s_orchestrator s); try discriminate.
        match type of Hstep with context [if ?c then _ else _] => destruct c end;
          [discriminate|]. inversion Hstep; subst s1; exact Hin. }
    apply (IH s1 Hlive1 Hin1); [split; [exact Hns|]| |exact Hrun].
    + destruct a; simpl in Hsorted; try exact Hsorted.
      now apply StronglySorted_inv in Hsorted as [Hsorted _].
    + intros fs Hfs. destruct a as [k i|fs0| | |]; try contradiction.
      * rewrite (frame_step_value (SWorker k i) s s1 eq_refl Hstep). now apply Hnew.
      * simpl in Hsorted. apply StronglySorted_inv in Hsorted as [_ Hall].
        simpl in Hstep. destruct (s_orchestrator s); try discriminate.
        inversion Hstep; subst s1. simpl. apply Z.ltb_lt.
        rewrite List.Forall_forall in Hall. now apply Hall.
      * rewrite (frame_step_value SArrive s s1 eq_refl Hstep). now apply Hnew.
      * rewrite (frame_step_value SReturn s s1 eq_refl Hstep). now apply Hnew.
Qed.

(** The frame block holds the stamp that was published last. *)
Lemma session_run_value schedule s s' :
  session_run schedule s = Some s' ->
  s_value s' = match last (published_stamps schedule) with
               | Some fs => Some fs
               | None => s_value s
               end.
Proof.
  revert s. induction schedule as [|a schedule IH]; intros s Hrun; simpl in Hrun.
  - now inversion Hrun; subst.
  - destruct (session_step a s) as [s1|] eqn:Hstep; simpl in Hrun; [|discriminate].
    rewrite (IH s1 Hrun).
    destruct a as [k i|fs| | |]; simpl published_stamps.
    + now rewrite (frame_step_value (SWorker k i) s s1 eq_refl Hstep).
    + simpl in Hstep. destruct (s_orchestrator s); try discriminate.
      inversion Hstep; subst s1. simpl.
      destruct (published_stamps schedule) as [|fs' l] eqn:Hp; [reflexivity|].
      change (last (fs :: fs' :: l)) with (last (fs' :: l)).
      destruct (last (fs' :: l)) eqn:Hl; [reflexivity|].
      apply last_None in Hl. discriminate.
    + now rewrite (frame_step_value SArrive s s1 eq_refl Hstep).
    + now rewrite (frame_step_value SReturn s s1 eq_refl Hstep).
    + now inversion Hstep.
Qed.

Section CurrentStamp.

Context {W : Type} `{WindowOps W}.

(** X27.  No thread works on an old stamp.  In a threading session whose
    status is not cleared and in which every stamp the viewer publishes
    has a greater frame count than the one before, the frame block holds
    the stamp that was published last; every thread is in its loop, in
    the iteration of the viewer's last call of [recordAndSubmit] or one
    behind; and a thread that is inside its body is in the iteration of
    the last call and holds the stamp of that call. *)
Theorem threads_work_on_current_stamp (v : Viewer W) schedule s :
  _status v = true -> _threading v = false ->
  1 + valid_task_count (recordAndSubmitTasks v) < 2 ^ 32 ->
  total_command_graphs (recordAndSubmitTasks v) < 2 ^ 32 ->
  fresh_frames schedule ->
  session_run schedule (session_init v) = Some s ->
  s_value s = last (published_stamps schedule) /\
  forall k g j w,
    s_groups s !! k = Some g -> g_workers g !! j = Some w ->
    w_control w <> Exited /\
    (w_iteration w <= s_calls s <= S (w_iteration w))%nat /\
    (remaining w <> [] ->
     w_iteration w = s_calls s /\ w_frameStamp w = s_value s).
Proof.
  intros Hstatus Hth Hmax Htotal Hfresh Hrun.
  pose proof (live_init v Hstatus Hth Hmax Htotal) as Hinit.
  assert (Hlive : live s) by (apply (live_run schedule (session_init v)); auto).
  assert (Hin : in_step s).
  { apply (in_step_run schedule (session_init v)); auto.
    intros k g j w Hg Hw _. unfold session_init in Hg. cbn [s_groups] in Hg.
    pose proof (session_groups_initial (FrameBlock_create (next_object v))
                  (Barrier_create (S (next_object v))
                     (wrap32 (1 + (count_tasks (recordAndSubmitTasks v)).1)))
                  (2 + next_object v) (recordAndSubmitTasks v)) as Hall.
    pose proof (Forall_lookup_1 _ _ _ _ Hall Hg) as Hws.
    pose proof (Forall_lookup_1 _ _ _ _ Hws Hw) as [_ Hc].
    unfold remaining. now destruct Hc as [-> | ->]. }
  split.
  { rewrite (session_run_value schedule _ s Hrun). unfold session_init. simpl.
    now destruct (last _). }
  intros k g j w Hg Hw. destruct Hlive as (_ & _ & _ & Hgroups).
  pose proof (Forall_lookup_1 _ _ _ _ Hgroups Hg) as [Hlives _].
  pose proof (Forall_lookup_1 _ _ _ _ Hlives Hw) as (Hex & Hrange & Hsame & _).
  split; [exact Hex|]. split; [exact Hrange|]. intros Hbusy.
  destruct (decide (w_iteration w = s_calls s)) as [Heq|Hne].
  - split; [exact Heq|]. now apply Hsame.
  - destruct Hbusy. now apply (Hin k g j w).
Qed.

End CurrentStamp.

(** ** The recorded buffers of a frame *)

Lemma done_by_arrived b w : done_by (arrive_and_wait b) w = arrived_at b w.
Proof. reflexivity. Qed.

Lemma done_by_same instr w w' :
  w_iteration w' = w_iteration w ->
  (In instr (remaining w') <-> In instr (remaining w)) ->
  done_by instr w' = done_by instr w.
Proof.
  intros Hi Hiff. unfold done_by. rewrite Hi.
  destruct (in_dec _ _ (remaining w')), (in_dec _ _ (remaining w)); tauto.
Qed.

(** A step of a worker, by what it does to the worker and to the list of
    recorded buffers. *)
Lemma worker_step_cases i g g' :
  worker_step i g = Some g' ->
  exists w w',
    g_workers g !! i = Some w /\ g_workers g' = <[i := w']> (g_workers g) /\
    w_thread w' = w_thread w /\
    ((remaining w = [] /\ w_iteration w' = S (w_iteration w) /\
      remaining w' = body (w_thread w) /\ g_recorded g' = g_recorded g) \/
     (w_iteration w' = w_iteration w /\ remaining w' = remaining w /\
      g_recorded g' = g_recorded g) \/
     (exists instr rest,
         w_control w = Running (instr :: rest) /\
         w_iteration w' = w_iteration w /\ remaining w' = rest /\
         g_recorded g' =
         match instr with
         | add => g_recorded g ++ [thread_graph (w_thread w)]
         | recorded_clear => []
         | _ => g_recorded g
         end)).
Proof.
  unfold worker_step. intros Hstep.
  destruct (g_workers g !! i) as [w|] eqn:Hw; simpl in Hstep; [|discriminate].
  exists w.
  destruct (w_control w) as [|[|instr rest]|b gen rest|] eqn:Hc.
  - destruct (g_status g); simpl in Hstep.
    + destruct (newer _ _); inversion Hstep; subst g'. eexists. simpl.
      split_and!; try reflexivity. left. unfold remaining. rewrite Hc. auto.
    + inversion Hstep; subst g'. eexists. simpl. split_and!; try reflexivity.
      right. left. unfold remaining. simpl. rewrite Hc. auto.
  - inversion Hstep; subst g'. eexists. simpl. split_and!; try reflexivity.
    right. left. unfold remaining. simpl. rewrite Hc. auto.
  - assert (Hinstr : forall g0 c,
               g_workers g0 = g_workers g ->
               remaining (with_control c w) = rest ->
               g_recorded g0 = match instr with
                               | add => g_recorded g ++ [thread_graph (w_thread w)]
                               | recorded_clear => []
                               | _ => g_recorded g
                               end ->
               forall ev,
               exists w',
                 Some w = Some w /\
                 g_workers (set_worker i (with_control c w) ev g0) = <[i := w']> (g_workers g) /\
                 w_thread w' = w_thread w /\
                 ((remaining w = [] /\ w_iteration w' = S (w_iteration w) /\
                   remaining w' = body (w_thread w) /\
                   g_recorded (set_worker i (with_control c w) ev g0) = g_recorded g) \/
                  (w_iteration w' = w_iteration w /\ remaining w' = remaining w /\
                   g_recorded (set_worker i (with_control c w) ev g0) = g_recorded g) \/
                  (exists instr0 rest0,
                      Running (instr :: rest) = Running (instr0 :: rest0) /\
                      w_iteration w' = w_iteration w /\ remaining w' = rest0 /\
                      g_recorded (set_worker i (with_control c w) ev g0) =
                      match instr0 with
                      | add => g_recorded g ++ [thread_graph (w_thread w)]
                      | recorded_clear => []
                      | _ => g_recorded g
                      end))).
    { intros g0 c Hws Hr Hrec ev. exists (with_control c w). simpl. rewrite Hws.
      split_and!; try reflexivity. right. right. exists instr, rest. auto. }
    destruct instr; cbv zeta in Hstep.
    3:{ rewrite barrier_of_set_barrier, decide_True in Hstep by reflexivity.
        destruct (_ =? _); inversion Hstep; subst g'; apply Hinstr;
          auto using g_workers_set_barrier; now destruct b. }
    all: inversion Hstep; subst g'; apply Hinstr; auto using g_workers_set_barrier.
    now destruct b.
  - destruct (_ =? _); inversion Hstep; subst g'. eexists. simpl.
    split_and!; try reflexivity. right. left. unfold remaining. simpl. rewrite Hc. auto.
  - discriminate.
Qed.

Lemma filter_insert_same {A B} (f : A -> B) (p : A -> bool) l i x y :
  l !! i = Some x -> f y = f x -> p y = p x ->
  map f (List.filter p (<[i := y]> l)) = map f (List.filter p l).
Proof.
  revert i. induction l as [|z l IH]; intros i Hi Hf Hp; [discriminate|].
  destruct i as [|i]; simpl in Hi |- *.
  - inversion Hi; subst. rewrite Hp. destruct (p x); simpl; now rewrite ?Hf.
  - destruct (p z); simpl; now rewrite (IH i Hi Hf Hp).
Qed.

Lemma filter_insert_new {A B} (f : A -> B) (p : A -> bool) l i x y :
  l !! i = Some x -> p x = false -> p y = true ->
  map f (List.filter p (<[i := y]> l)) ≡ₚ map f (List.filter p l) ++ [f y].
Proof.
  revert i. induction l as [|z l IH]; intros i Hi Hx Hy; [discriminate|].
  destruct i as [|i]; simpl in Hi |- *.
  - inversion Hi; subst. rewrite Hx, Hy. simpl.
    change (f y :: map f (List.filter p l)) with ([f y] ++ map f (List.filter p l)).
    apply Permutation_app_comm.
  - specialize (IH i Hi Hx Hy). destruct (p z); simpl; [now constructor|exact IH].
Qed.

Lemma filter_none {A} (p : A -> bool) l :
  (forall j x, l !! j = Some x -> p x = false) -> List.filter p l = [].
Proof.
  induction l as [|z l IH]; intros Hp; [reflexivity|]. simpl.
  rewrite (Hp 0%nat z eq_refl). apply IH. intros j x Hj. apply (Hp (S j) x Hj).
Qed.

Lemma filter_all {A} (p : A -> bool) l :
  (forall j x, l !! j = Some x -> p x = true) -> List.filter p l = l.
Proof.
  induction l as [|z l IH]; intros Hp; [reflexivity|]. simpl.
  rewrite (Hp 0%nat z eq_refl). f_equal. apply IH. intros j x Hj. apply (Hp (S j) x Hj).
Qed.

Lemma filter_ext_lookup {A} (p q : A -> bool) l :
  (forall j x, l !! j = Some x -> p x = q x) -> List.filter p l = List.filter q l.
Proof.
  induction l as [|z l IH]; intros Hp; [reflexivity|]. simpl.
  rewrite (Hp 0%nat z eq_refl), IH; [reflexivity|].
  intros j x Hj. apply (Hp (S j) x Hj).
Qed.

Lemma map_insert_same {A B} (f : A -> B) l i x y :
  l !! i = Some x -> f y = f x -> map f (<[i := y]> l) = map f l.
Proof.
  revert i. induction l as [|z l IH]; intros i Hi Hf; [discriminate|].
  destruct i as [|i]; simpl in Hi |- *.
  - inversion Hi; subst. now rewrite Hf.
  - now rewrite (IH i Hi Hf).
Qed.

(** The worker that is worker 0 after worker [i] has become [w']. *)
Lemma primary_after (l : list Worker) i w w' w0 :
  l !! i = Some w -> l !! 0%nat = Some w0 ->
  exists w0', <[i := w']> l !! 0%nat = Some w0' /\
              ((i = 0%nat /\ w0 = w /\ w0' = w') \/ (i <> 0%nat /\ w0' = w0)).
Proof.
  intros Hi H0. destruct i as [|i].
  - exists w'. split; [apply list_lookup_insert_eq; now apply lookup_lt_Some in Hi|].
    left. split; [reflexivity|]. split; congruence.
  - exists w0. split; [now rewrite list_lookup_insert_ne|]. right. auto.
Qed.

(** A step that changes no count of [add] or [recorded_clear] and leaves
    the list alone. *)
Lemma recorded_same graphs g g' i w w' :
  recorded_ok graphs g ->
  g_workers g !! i = Some w -> g_workers g' = <[i := w']> (g_workers g) ->
  w_thread w' = w_thread w ->
  done_by add w' = done_by add w ->
  (i = 0%nat -> done_by recorded_clear w' = done_by recorded_clear w) ->
  g_recorded g' = g_recorded g ->
  recorded_ok graphs g'.
Proof.
  intros (Hmap & w0 & Hw0 & Hprim & Hrange & Hperm) Hw Hws Ht Hadd Hclear Hrec.
  destruct (primary_after _ i w w' w0 Hw Hw0) as (w0' & Hw0' & Hcases).
  assert (Hround : done_by recorded_clear w0' = done_by recorded_clear w0).
  { destruct Hcases as [(Hi & -> & ->)|(_ & ->)]; auto. }
  split; [rewrite Hws, <- Hmap; apply (map_insert_same _ _ i w); [exact Hw|now rewrite Ht]|].
  exists w0'. rewrite Hws. split; [exact Hw0'|]. split.
  { destruct Hcases as [(_ & -> & ->)|(_ & ->)]; [now rewrite Ht|exact Hprim]. }
  rewrite Hround. split.
  - intros j x Hj. apply lookup_insert_cases in Hj as [(_ & -> & _)|[_ Hj]].
    + rewrite Hadd. now apply (Hrange i w).
    + now apply (Hrange j x).
  - rewrite Hrec, Hperm.
    rewrite (filter_insert_same (fun w => thread_graph (w_thread w))
               (has_added (done_by recorded_clear w0)) _ i w w' Hw);
      [reflexivity|now rewrite Ht|].
    unfold has_added. now rewrite Hadd.
Qed.

(** A worker adds its buffers. *)
Lemma recorded_add graphs g g' i w w' w0 :
  recorded_ok graphs g ->
  g_workers g !! i = Some w -> g_workers g' = <[i := w']> (g_workers g) ->
  w_thread w' = w_thread w ->
  g_workers g !! 0%nat = Some w0 ->
  done_by add w = done_by recorded_clear w0 ->
  done_by add w' = done_by add w + 1 ->
  (i = 0%nat -> done_by recorded_clear w' = done_by recorded_clear w) ->
  g_recorded g' = g_recorded g ++ [thread_graph (w_thread w)] ->
  recorded_ok graphs g'.
Proof.
  intros (Hmap & w0_ & Hw0_ & Hprim & Hrange & Hperm) Hw Hws Ht Hw0 Hadd Hadd' Hclear Hrec.
  assert (w0_ = w0) as -> by congruence.
  destruct (primary_after _ i w w' w0 Hw Hw0) as (w0' & Hw0' & Hcases).
  assert (Hround : done_by recorded_clear w0' = done_by recorded_clear w0).
  { destruct Hcases as [(Hi & -> & ->)|(_ & ->)]; auto. }
  split; [rewrite Hws, <- Hmap; apply (map_insert_same _ _ i w); [exact Hw|now rewrite Ht]|].
  exists w0'. rewrite Hws. split; [exact Hw0'|]. split.
  { destruct Hcases as [(_ & -> & ->)|(_ & ->)]; [now rewrite Ht|exact Hprim]. }
  rewrite Hround. split.
  - intros j x Hj. apply lookup_insert_cases in Hj as [(_ & -> & _)|[_ Hj]].
    + lia.
    + now apply (Hrange j x).
  - rewrite Hrec, Hperm, <- Ht.
    symmetry.
    apply (filter_insert_new (fun w => thread_graph (w_thread w))
             (has_added (done_by recorded_clear w0)) _ i w w' Hw); unfold has_added.
    + apply Z.eqb_neq. lia.
    + apply Z.eqb_eq. lia.
Qed.

(** The primary thread clears the list. *)
Lemma recorded_cleared graphs g g' w0 w0' :
  recorded_ok graphs g ->
  g_workers g !! 0%nat = Some w0 -> g_workers g' = <[0%nat := w0']> (g_workers g) ->
  w_thread w0' = w_thread w0 ->
  (forall j w, g_workers g !! j = Some w -> done_by add w = done_by recorded_clear w0 + 1) ->
  done_by add w0' = done_by add w0 ->
  done_by recorded_clear w0' = done_by recorded_clear w0 + 1 ->
  g_recorded g' = [] ->
  recorded_ok graphs g'.
Proof.
  intros (Hmap & w0_ & Hw0_ & Hprim & Hrange & Hperm) Hw0 Hws Ht Hall Hadd Hclear Hrec.
  assert (w0_ = w0) as -> by congruence.
  split; [rewrite Hws, <- Hmap; apply (map_insert_same _ _ 0%nat w0); [exact Hw0|now rewrite Ht]|].
  exists w0'. rewrite Hws.
  split; [apply list_lookup_insert_eq; now apply lookup_lt_Some in Hw0|].
  split; [now rewrite Ht|].
  assert (Hall' : forall j x, <[0%nat := w0']> (g_workers g) !! j = Some x ->
                              done_by add x = done_by recorded_clear w0').
  { intros j x Hj. apply lookup_insert_cases in Hj as [(_ & -> & _)|[_ Hj]].
    - rewrite Hadd, (Hall 0%nat w0 Hw0). lia.
    - rewrite (Hall j x Hj). lia. }
  split.
  - intros j x Hj. rewrite (Hall' j x Hj). lia.
  - rewrite Hrec, filter_none; [reflexivity|].
    intros j x Hj. unfold has_added. rewrite (Hall' j x Hj). apply Z.eqb_neq. lia.
Qed.

Lemma suffix_cases {A} (l1 : list A) y l2 :
  l1 `suffix_of` y :: l2 -> l1 = y :: l2 \/ l1 `suffix_of` l2.
Proof.
  intros [[|z k] Hk]; simpl in Hk; [now left|].
  right. inversion Hk. now exists k.
Qed.

Ltac suffixes H :=
  match type of H with
  | suffix _ [] => apply suffix_nil_inv in H
  | suffix _ (_ :: _) => apply suffix_cases in H as [H|H]; [|suffixes H]
  end.

(** The calls of a body come in the order of the source: a worker has
    arrived at [recordStart] at least as often as it has added its
    buffers, and has added them at least as often as it has arrived at
    [recordCompleted]. *)
Lemma body_order w :
  worker_ok w ->
  arrived_at RecordCompleted w <= done_by add w <= arrived_at RecordStart w.
Proof.
  intros (Ht & Hsuffix & _). change (suffix (remaining w) (body (w_thread w))) in Hsuffix.
  unfold done_by, arrived_at, pending.
  destruct (w_thread w); try discriminate; simpl in Hsuffix;
    suffixes Hsuffix; rewrite Hsuffix; count_in; lia.
Qed.

(** The counts of a worker that is about to make a call. *)
Lemma before_call w instr rest :
  worker_ok w -> remaining w = instr :: rest ->
  let n := Z.of_nat (w_iteration w) in
  match instr with
  | task_start =>
      arrived_at RecordStart w = n - 1 /\ done_by recorded_clear w = n - 1
  | add =>
      arrived_at RecordStart w = n /\ done_by add w = n - 1 /\
      (is_primary (w_thread w) = true -> done_by recorded_clear w = n - 1)
  | task_finish | recorded_clear =>
      arrived_at RecordCompleted w = n /\ done_by recorded_clear w = n - 1
  | _ => True
  end.
Proof.
  intros (Ht & Hsuffix & _) Hr n.
  change (suffix (remaining w) (body (w_thread w))) in Hsuffix.
  unfold done_by, arrived_at, pending. fold n. clearbody n.
  destruct (w_thread w); try discriminate; simpl in Hsuffix;
    suffixes Hsuffix; rewrite Hsuffix in Hr |- *; inversion Hr; subst; try exact I;
    split_and!; try discriminate; intros; count_in; lia.
Qed.

(** A call moves the worker's count of that call, and of no other. *)
Lemma done_by_call x w w' instr rest :
  worker_ok w -> remaining w = instr :: rest -> remaining w' = rest ->
  w_iteration w' = w_iteration w ->
  done_by x w' = done_by x w + (if decide (x = instr) then 1 else 0).
Proof.
  intros Hok Hr Hr' Hit. destruct (worker_ok_head w instr rest Hok Hr) as [_ Hnin].
  unfold done_by. rewrite Hit, Hr, Hr'.
  destruct (decide (x = instr)) as [->|Hne].
  - destruct (in_dec _ _ (instr :: rest)) as [_|Hn]; [|destruct Hn; now left].
    destruct (in_dec _ _ rest); [contradiction|lia].
  - destruct (in_dec Instr_eq_dec x (instr :: rest)) as [[Heq|Hin]|Hn];
      [congruence| |];
      destruct (in_dec Instr_eq_dec x rest) as [Hin'|Hn']; try lia; try contradiction.
    destruct Hn. now right.
Qed.

(** Waking up moves no count of a call of the body. *)
Lemma done_by_wake x w w' :
  remaining w = [] -> remaining w' = body (w_thread w) ->
  w_iteration w' = S (w_iteration w) -> In x (body (w_thread w)) ->
  done_by x w' = done_by x w.
Proof.
  intros Hr Hr' Hit Hin. unfold done_by. rewrite Hit, Hr, Hr'.
  destruct (in_dec _ _ (body _)); [|contradiction].
  destruct (in_dec _ _ []) as [[]|_]. lia.
Qed.

Lemma waits_step i g w g' :
  worker_ok w -> waits_ok g -> g_workers g !! i = Some w ->
  worker_steps i g w g' -> waits_ok g'.
Proof.
  intros (_ & [done Hbody] & _) Hwaits Hw Hstep.
  assert (Hkeep : forall c ev g0,
             g_workers g0 = g_workers g ->
             (forall b gen rest, c = InBarrier b gen rest ->
                                 exists done, body (w_thread w) = done ++ arrive_and_wait b :: rest) ->
             waits_ok (set_worker i (with_control c w) ev g0)).
  { intros c ev g0 Hws Hc j x b gen rest Hj Hx. simpl in Hj. rewrite Hws in Hj.
    apply lookup_insert_cases in Hj as [(_ & -> & _)|[_ Hj]].
    - simpl in Hx |- *. now apply (Hc b gen rest).
    - now apply (Hwaits j x b gen rest). }
  destruct Hstep as [Hc Hst|Hc Hst Hnew|Hc|b rest c Hc Hcc|b rest Hc
                    |instr rest g0 Hc Hni Hnd Hws Htr Hbs|b gen rest Hc Hgen];
    try (apply Hkeep; auto using g_workers_set_barrier; discriminate).
  - intros j x b gen rest Hj Hx. simpl in Hj.
    apply lookup_insert_cases in Hj as [(_ & -> & _)|[_ Hj]]; [discriminate|].
    now apply (Hwaits j x b gen rest).
  - apply Hkeep; auto using g_workers_set_barrier.
    intros b0 gen0 rest0 Heq. subst c. destruct (_ =? _); [|discriminate].
    inversion Heq; subst. exists done. rewrite Hbody. unfold remaining. now rewrite Hc.
Qed.

(** A thread that waits at [recordStart] has not added its buffers in
    this iteration. *)
Lemma waiting_at_recordStart w gen rest :
  worker_ok w -> w_control w = InBarrier RecordStart gen rest ->
  (exists done, body (w_thread w) = done ++ arrive_and_wait RecordStart :: rest) ->
  done_by add w = arrived_at RecordStart w - 1.
Proof.
  intros (Ht & _ & _) Hc [done Hbody].
  assert (Hsuffix : suffix (arrive_and_wait RecordStart :: rest) (body (w_thread w))).
  { now exists done. }
  unfold done_by, arrived_at, pending, remaining. rewrite Hc.
  destruct (w_thread w); try discriminate; simpl in Hsuffix;
    suffixes Hsuffix; inversion Hsuffix; subst; count_in; lia.
Qed.

(** When a recording barrier is not holding a worker, the worker has
    arrived as often as the barrier has released. *)
Lemma passed_barrier b g j w :
  barrier_ok b g -> g_workers g !! j = Some w ->
  (forall gen rest, w_control w <> InBarrier b gen rest) ->
  arrived_at b w = generation (barrier_of g b).
Proof.
  intros (_ & Hrange & Hwait & _) Hw Hc. cbv zeta in *.
  specialize (Hrange j w Hw).
  destruct (decide (arrived_at b w = generation (barrier_of g b) + 1)) as [Heq|Hne]; [|lia].
  destruct (Hwait j w Hw Heq) as [rest Hrest]. now destruct (Hc _ _ Hrest).
Qed.

(** Once the primary thread is past [recordCompleted], every worker has
    added its buffers in this iteration. *)
Lemma all_added graphs g w0 instr rest :
  group_ok g -> recorded_ok graphs g ->
  g_workers g !! 0%nat = Some w0 -> w_control w0 = Running (instr :: rest) ->
  instr = task_finish \/ instr = recorded_clear ->
  forall j w, g_workers g !! j = Some w -> done_by add w = done_by recorded_clear w0 + 1.
Proof.
  intros (Hoks & _ & _ & Hrc & _) (_ & w0_ & Hw0_ & _ & Hrange & _) Hw0 Hc Hinstr j w Hw.
  assert (w0_ = w0) as -> by congruence.
  pose proof (Forall_lookup_1 _ _ _ _ Hoks Hw0) as Hok0.
  assert (Hr : remaining w0 = instr :: rest) by (unfold remaining; now rewrite Hc).
  pose proof (before_call w0 instr rest Hok0 Hr) as Hbefore. cbv zeta in Hbefore.
  assert (Hcounts : arrived_at RecordCompleted w0 = Z.of_nat (w_iteration w0) /\
                    done_by recorded_clear w0 = Z.of_nat (w_iteration w0) - 1).
  { destruct Hinstr as [-> | ->]; exact Hbefore. }
  destruct Hcounts as [Hrc0 Hclear0].
  pose proof (passed_barrier RecordCompleted g 0%nat w0 Hrc Hw0) as Hgen.
  rewrite Hgen in Hrc0 by (intros gen r; rewrite Hc; discriminate).
  destruct Hrc as (_ & Hrange_rc & _). specialize (Hrange_rc j w Hw). cbv zeta in Hrange_rc.
  pose proof (body_order w (Forall_lookup_1 _ _ _ _ Hoks Hw)) as Horder.
  specialize (Hrange j w Hw). lia.
Qed.

Lemma recording_step graphs i g g' :
  recording_inv graphs g -> worker_step i g = Some g' -> recording_inv graphs g'.
Proof.
  intros (Hinv & Hrec & Hwaits) Hstep.
  split; [exact (group_step_inv (Sched i) g g' Hinv Hstep)|].
  pose proof Hinv as (Hgok & _). pose proof Hgok as (Hoks & Hprim1 & Hrs & Hrc & _).
  split.
  2:{ destruct (worker_step_steps i g g' Hstep) as (w & Hw & Hsteps).
      apply (waits_step i g w g'); auto. exact (Forall_lookup_1 _ _ _ _ Hoks Hw). }
  destruct (worker_step_cases i g g' Hstep) as (w & w' & Hw & Hws & Ht & Hcases).
  pose proof (Forall_lookup_1 _ _ _ _ Hoks Hw) as Hok.
  pose proof Hrec as (Hmap & w0 & Hw0 & Hprim & Hrange & Hperm).
  pose proof (Forall_lookup_1 _ _ _ _ Hoks Hw0) as Hok0.
  destruct Hcases as [(Hr & Hit & Hr' & Hsame)|[(Hit & Hr & Hsame)
                     |(instr & rest & Hc & Hit & Hr' & Hrecorded)]].
  - apply (recorded_same graphs g g' i w w' Hrec Hw Hws Ht); [| |exact Hsame].
    + apply done_by_wake; auto.
      destruct Hok as (Hgt & _). destruct (w_thread w); try discriminate; simpl; auto 10.
    + intros ->. assert (w = w0) as -> by congruence.
      apply done_by_wake; auto. destruct (w_thread w0); try discriminate; simpl; auto 10.
  - apply (recorded_same graphs g g' i w w' Hrec Hw Hws Ht); [| |exact Hsame].
    + apply done_by_same; [exact Hit|now rewrite Hr].
    + intros _. apply done_by_same; [exact Hit|now rewrite Hr].
  - assert (Hr : remaining w = instr :: rest) by (unfold remaining; now rewrite Hc).
    pose proof (fun x => done_by_call x w w' instr rest Hok Hr Hr' Hit) as Hcount.
    pose proof (before_call w instr rest Hok Hr) as Hbefore. cbv zeta in Hbefore.
    destruct (decide (instr = add)) as [->|Hnadd];
      [|destruct (decide (instr = recorded_clear)) as [->|Hnclear]].
    + destruct Hbefore as (Hrs_w & Hadd_w & Hclear_w).
      apply (recorded_add graphs g g' i w w' w0 Hrec Hw Hws Ht Hw0); [| | |exact Hrecorded].
      * destruct (decide (i = 0%nat)) as [->|Hi].
        { assert (w = w0) as -> by congruence. rewrite Hclear_w by exact Hprim. lia. }
        pose proof (passed_barrier RecordStart g i w Hrs Hw) as Hgen.
        rewrite Hgen in Hrs_w by (intros gen r; rewrite Hc; discriminate).
        destruct Hrs as (_ & Hrange_rs & _). specialize (Hrange_rs 0%nat w0 Hw0).
        cbv zeta in Hrange_rs. specialize (Hrange i w Hw).
        assert (arrived_at RecordStart w0 <= Z.of_nat (w_iteration w0)).
        { unfold arrived_at, pending. destruct (in_dec _ _ _); lia. }
        assert (Z.of_nat (w_iteration w0) - 1 <= done_by recorded_clear w0).
        { unfold done_by. destruct (in_dec _ _ _); lia. }
        lia.
      * rewrite (Hcount add), decide_True by reflexivity. lia.
      * intros _. rewrite (Hcount recorded_clear), decide_False by discriminate. lia.
    + assert (i = 0%nat) as ->.
      { apply (Hprim1 i w Hw). destruct (worker_ok_head w _ _ Hok Hr) as [Hin _].
        destruct (w_thread w); simpl in Hin |- *; intuition discriminate. }
      assert (w = w0) as -> by congruence.
      apply (recorded_cleared graphs g g' w0 w' Hrec Hw0 Hws Ht); [| | |exact Hrecorded].
      * apply (all_added graphs g w0 recorded_clear rest); auto.
      * rewrite (Hcount add), decide_False by discriminate. lia.
      * rewrite (Hcount recorded_clear), decide_True by reflexivity. lia.
    + apply (recorded_same graphs g g' i w w' Hrec Hw Hws Ht).
      * rewrite (Hcount add), decide_False by congruence. lia.
      * intros _. rewrite (Hcount recorded_clear), decide_False by congruence. lia.
      * rewrite Hrecorded. destruct instr; congruence.
Qed.

Lemma recording_run graphs schedule g g' :
  recording_inv graphs g -> group_run schedule g = Some g' -> recording_inv graphs g'.
Proof.
  revert g. induction schedule as [|a schedule IH]; intros g Hinv Hrun; simpl in Hrun.
  - now inversion Hrun; subst.
  - destruct (group_step a g) as [g1|] eqn:Hstep; simpl in Hrun; [|discriminate].
    apply (IH g1); [|exact Hrun].
    destruct a as [i|fs| |]; [now apply (recording_step graphs i g)| | |];
      (split; [exact (group_step_inv _ g g1 (proj1 Hinv) Hstep)|]);
      simpl in Hstep; inversion Hstep; subst g1; destruct Hinv as (_ & Hrec & Hwaits);
      (split; [exact Hrec|exact Hwaits]).
Qed.

Lemma recording_init next task fb sc cg0 rest :
  size (cg0 :: rest) < 2 ^ 32 ->
  let sd := SharedData_create next task fb sc (size (cg0 :: rest)) in
  recording_inv (map cg_id (cg0 :: rest))
                (group_init sd (run_primary sd cg0 :: map (run_secondary sd) rest)).
Proof.
  intros Hsize sd. split; [now apply group_init_inv|].
  assert (Hinit : forall j w,
             g_workers (group_init sd (run_primary sd cg0 :: map (run_secondary sd) rest)) !! j
             = Some w ->
             w_control w = AtFrameBlock /\ w_iteration w = 0%nat).
  { intros j w Hw. unfold group_init in Hw. cbn [g_workers] in Hw.
    rewrite lookup_map in Hw. destruct (_ !! j) as [t|]; inversion Hw. auto. }
  assert (Hzero : forall instr j w,
             g_workers (group_init sd (run_primary sd cg0 :: map (run_secondary sd) rest)) !! j
             = Some w -> done_by instr w = 0).
  { intros instr j w Hw. destruct (Hinit j w Hw) as [Hc Hit].
    unfold done_by, remaining. rewrite Hc, Hit. now destruct (in_dec _ _ _) as [[]|_]. }
  split.
  - split.
    + unfold group_init. cbn [g_workers]. simpl. f_equal.
      rewrite !map_map. reflexivity.
    + eexists. split; [reflexivity|]. split; [reflexivity|]. split.
      * intros j w Hw. rewrite (Hzero add j w Hw). unfold done_by. simpl. lia.
      * rewrite filter_none; [reflexivity|]. intros j w Hw. unfold has_added.
        rewrite (Hzero add j w Hw). reflexivity.
  - intros j w b gen r Hw Hc. destruct (Hinit j w Hw) as [Hc' _]. congruence.
Qed.

(** X28.  What [task->finish] is given.  In the group of a task with
    several command graphs, however its threads are scheduled and whatever
    the viewer publishes: when the primary thread is about to call
    [task->start()], the shared list of recorded buffers is empty; and when
    it is about to call [task->finish(recordedCommandBuffers)], the list
    holds the buffers of every command graph of the task, each once, in
    some order. *)
Theorem finish_gets_every_buffer task fb sc next cg0 rest schedule g w0 :
  size (cg0 :: rest) < 2 ^ 32 ->
  let sd := SharedData_create next task fb sc (size (cg0 :: rest)) in
  group_run schedule (group_init sd (run_primary sd cg0 :: map (run_secondary sd) rest))
  = Some g ->
  g_workers g !! 0%nat = Some w0 ->
  (forall instrs, w_control w0 = Running (task_start :: instrs) -> g_recorded g = []) /\
  (forall instrs, w_control w0 = Running (task_finish :: instrs) ->
                  g_recorded g ≡ₚ map cg_id (cg0 :: rest)).
Proof.
  intros Hsize sd Hrun Hw0.
  pose proof (recording_run _ schedule _ g (recording_init next task fb sc cg0 rest Hsize) Hrun)
    as ((Hgok & _) & Hrec & Hwaits).
  pose proof Hgok as (Hoks & _ & Hrs & _).
  pose proof Hrec as (Hmap & w0_ & Hw0_ & _ & Hrange & Hperm).
  assert (w0_ = w0) as -> by congruence.
  pose proof (Forall_lookup_1 _ _ _ _ Hoks Hw0) as Hok0.
  split; intros instrs Hc;
    assert (Hr : remaining w0 = _ :: instrs) by (unfold remaining; now rewrite Hc).
  - destruct (before_call w0 _ _ Hok0 Hr) as [Hrs0 Hclear0].
    rewrite filter_none in Hperm; [now apply Permutation_nil_r in Hperm|].
    intros j w Hw. unfold has_added. apply Z.eqb_neq. intros Hadded.
    pose proof (Forall_lookup_1 _ _ _ _ Hoks Hw) as Hok.
    pose proof (body_order w Hok) as Horder.
    pose proof Hrs as (_ & Hrange_rs & Hwait_rs & _). cbv zeta in Hrange_rs, Hwait_rs.
    pose proof (Hrange_rs 0%nat w0 Hw0). pose proof (Hrange_rs j w Hw).
    destruct (Hwait_rs j w Hw) as [r Hwaiting]; [lia|].
    pose proof (waiting_at_recordStart w _ r Hok Hwaiting (Hwaits j w _ _ r Hw Hwaiting)).
    lia.
  - rewrite filter_all in Hperm; [now rewrite Hperm, Hmap|].
    intros j w Hw. unfold has_added. apply Z.eqb_eq.
    apply (all_added _ g w0 task_finish instrs Hgok Hrec Hw0 Hc (or_introl eq_refl) j w Hw).
Qed.

(** ** Array3D: indices, sizes and buffers *)

Section Array3DProps.

Import Array3D.

Variable computeValueCountIncludingMipmaps : Z -> Z -> Z -> Z -> Z.

Lemma wrap32_idem z : wrap32 (wrap32 z) = wrap32 z.
Proof. unfold wrap32. apply Zmod_mod. Qed.

Lemma wrap32_mul_l a b : wrap32 (wrap32 a * b) = wrap32 (a * b).
Proof. unfold wrap32. apply Zmult_mod_idemp_l. Qed.

Lemma wrap32_add_r a b : wrap32 (a + wrap32 b) = wrap32 (a + b).
Proof. unfold wrap32. apply Zplus_mod_idemp_r. Qed.

Lemma wrap32_add_l' a b : wrap32 (wrap32 a + b) = wrap32 (a + b).
Proof. unfold wrap32. apply Zplus_mod_idemp_l. Qed.

Lemma wrap32_ex z : exists q, wrap32 z = z + q * 2 ^ 32.
Proof.
  exists (- (z / 2 ^ 32)). unfold wrap32. rewrite Z.mod_eq by lia. ring.
Qed.

Lemma wrap32_eq a b q : a = b + q * 2 ^ 32 -> wrap32 a = wrap32 b.
Proof. intros ->. unfold wrap32. apply Z_mod_plus_full. Qed.

Lemma index_wrap a i j k : index a i j k = wrap32 (offset a i j k).
Proof.
  unfold index, offset.
  destruct (wrap32_ex (k * _width a)) as [q1 ->].
  destruct (wrap32_ex ((k * _width a + q1 * 2 ^ 32) * _height a)) as [q2 ->].
  destruct (wrap32_ex (j * _width a)) as [q3 ->].
  match goal with |- wrap32 (wrap32 ?x + i) = _ => destruct (wrap32_ex x) as [q4 ->] end.
  apply (wrap32_eq _ _ (q1 * _height a + q2 + q3 + q4)). ring.
Qed.

Lemma offset_bound a i j k :
  0 <= i < _width a -> 0 <= j < _height a -> 0 <= k < _depth a ->
  0 <= offset a i j k < _width a * _height a * _depth a.
Proof.
  intros Hi Hj Hk. unfold offset.
  assert (H1 : 0 <= j * _width a <= (_height a - 1) * _width a) by nia.
  assert (H2 : 0 <= k * (_width a * _height a) <= (_depth a - 1) * (_width a * _height a))
    by nia.
  replace (k * _width a * _height a) with (k * (_width a * _height a)) by ring.
  replace (_width a * _height a * _depth a)
    with ((_depth a - 1) * (_width a * _height a) + (_height a - 1) * _width a + _width a)
    by ring.
  lia.
Qed.

Lemma offset_inj a i j k i' j' k' :
  0 <= i < _width a -> 0 <= j < _height a ->
  0 <= i' < _width a -> 0 <= j' < _height a ->
  offset a i j k = offset a i' j' k' -> i = i' /\ j = j' /\ k = k'.
Proof.
  unfold offset. intros Hi Hj Hi' Hj' Heq.
  assert (Hrow : 0 <= j * _width a + i < _width a * _height a).
  { assert (0 <= j * _width a <= (_height a - 1) * _width a) by nia. nia. }
  assert (Hrow' : 0 <= j' * _width a + i' < _width a * _height a).
  { assert (0 <= j' * _width a <= (_height a - 1) * _width a) by nia. nia. }
  assert (Hk : k = k').
  { assert (Hd : (k - k') * (_width a * _height a) =
                 (j' * _width a + i') - (j * _width a + i)) by lia.
    destruct (Z.lt_trichotomy k k') as [Hlt|[Heq'|Hgt]]; [|exact Heq'|]; nia. }
  subst k'.
  assert (Hjj : j = j').
  { assert (Hd : (j - j') * _width a = i' - i) by lia.
    destruct (Z.lt_trichotomy j j') as [Hlt|[Heq'|Hgt]]; [|exact Heq'|]; nia. }
  subst j'. split; [lia|auto].
Qed.


(** X18.  [Array3D::index] within bounds.  For an array without mipmaps
    whose width * height * depth is at most 2^32, the index of an element
    (i, j, k) inside the extents is the row-major offset
    k * width * height + j * width + i; it is below [size()]; and two
    elements inside the extents with the same index are the same
    element. *)
Theorem index_in_bounds_and_injective a i j k :
  in_range a ->
  maxNumMipmaps (_layout a) <= 1 ->
  _width a * _height a * _depth a <= 2 ^ 32 ->
  0 <= i < _width a -> 0 <= j < _height a -> 0 <= k < _depth a ->
  index a i j k = offset a i j k /\
  0 <= index a i j k < size computeValueCountIncludingMipmaps a /\
  forall i' j' k',
    0 <= i' < _width a -> 0 <= j' < _height a -> 0 <= k' < _depth a ->
    index a i j k = index a i' j' k' -> i = i' /\ j = j' /\ k = k'.
Proof.
  intros (Hw & Hh & Hd) Hmip Hprod Hi Hj Hk.
  pose proof (offset_bound a i j k Hi Hj Hk) as Hb.
  assert (Hidx : forall i' j' k',
             0 <= i' < _width a -> 0 <= j' < _height a -> 0 <= k' < _depth a ->
             index a i' j' k' = offset a i' j' k').
  { intros i' j' k' Hi' Hj' Hk'. rewrite index_wrap. apply wrap32_small.
    pose proof (offset_bound a i' j' k' Hi' Hj' Hk'). lia. }
  assert (Hsize : size computeValueCountIncludingMipmaps a = _width a * _height a * _depth a).
  { unfold size. destruct (Z.leb_spec (maxNumMipmaps (_layout a)) 1); [|lia].
    unfold wrap64. rewrite (Z.mod_small (_width a * _height a)) by nia.
    apply Z.mod_small. nia. }
  rewrite (Hidx i j k Hi Hj Hk), Hsize. split; [reflexivity|]. split; [lia|].
  intros i' j' k' Hi' Hj' Hk'. rewrite (Hidx i' j' k' Hi' Hj' Hk').
  now apply offset_inj.
Qed.

(** X19.  [Array3D::index] is computed in [uint32_t]: it is the row-major
    offset modulo 2^32, whatever the extents, and so equals the offset
    exactly when the offset is below 2^32.  When width * height is a
    multiple of 2^32, every depth slice has the indices of slice 0. *)
Theorem index_wraps_at_2_32 a i j k :
  index a i j k = offset a i j k mod 2 ^ 32 /\
  (0 <= offset a i j k -> (index a i j k = offset a i j k <-> offset a i j k < 2 ^ 32)) /\
  ((_width a * _height a) mod 2 ^ 32 = 0 -> index a i j k = index a i j 0).
Proof.
  split; [apply index_wrap|]. split.
  - intros Hnn. rewrite index_wrap. unfold wrap32. split.
    + intros Heq. rewrite <- Heq. apply Z.mod_pos_bound. lia.
    + intros Hlt. apply Z.mod_small. lia.
  - intros Hmul. rewrite !index_wrap. unfold offset, wrap32.
    replace (k * _width a * _height a + j * _width a + i)
      with (k * (_width a * _height a) + (0 * _width a * _height a + j * _width a + i))
      by ring.
    rewrite Zplus_mod, Zmult_mod, Hmul, Z.mul_0_r. simpl. rewrite Z.add_0_l.
    now rewrite Zmod_mod.
Qed.

(** X20.  What the allocating constructors allocate, against [size()].
    The operand of [new[]] is width * height * depth in [uint32_t], the
    product modulo 2^32; [size()] of an array without mipmaps is the
    product in [std::size_t], modulo 2^64.  They agree when the product is
    below 2^32; from 2^32 up to 2^64 the buffer is shorter than [size()]
    says. *)
Theorem allocation_and_size a :
  in_range a ->
  maxNumMipmaps (_layout a) <= 1 ->
  let product := _width a * _height a * _depth a in
  element_count (_width a) (_height a) (_depth a) = product mod 2 ^ 32 /\
  size computeValueCountIncludingMipmaps a = product mod 2 ^ 64 /\
  (product < 2 ^ 32 ->
   element_count (_width a) (_height a) (_depth a) = size computeValueCountIncludingMipmaps a) /\
  (2 ^ 32 <= product < 2 ^ 64 ->
   element_count (_width a) (_height a) (_depth a) < size computeValueCountIncludingMipmaps a).
Proof.
  intros (Hw & Hh & Hd) Hmip product.
  assert (Hcount : element_count (_width a) (_height a) (_depth a) = product mod 2 ^ 32).
  { unfold element_count. now rewrite wrap32_mul_l. }
  assert (Hsize : size computeValueCountIncludingMipmaps a = product mod 2 ^ 64).
  { unfold size. destruct (Z.leb_spec (maxNumMipmaps (_layout a)) 1); [|lia].
    unfold wrap64. now rewrite Zmult_mod_idemp_l. }
  rewrite Hcount, Hsize. split; [reflexivity|]. split; [reflexivity|].
  assert (0 <= product) by (unfold product; nia).
  split.
  - intros Hlt. rewrite !Z.mod_small by lia. reflexivity.
  - intros [Hlo Hhi]. rewrite (Z.mod_small product (2 ^ 64)) by lia.
    pose proof (Z.mod_pos_bound product (2 ^ 32) ltac:(lia)). lia.
Qed.


Lemma given_cons op ops : given (op :: ops) = given [op] ++ given ops.
Proof. unfold given. simpl. now destruct (match op with AssignData _ _ _ _ _ _ => _ | _ => _ end). Qed.

Lemma step_accounts deleted released a op :
  let '(deleted', released', a') := step (deleted, released, a) op in
  deleted' ++ released' ++ owned a' ≡ₚ deleted ++ released ++ owned a ++ given [op].
Proof.
  destruct op as [|s w h d p l|st o s w h d l|]; simpl.
  - change (owned (mkArray3D nullptr 0 0 0 None (_layout a))) with (@nil ptr).
    change (given [Clear]) with (@nil ptr). unfold owned.
    rewrite !app_nil_r, <- app_assoc.
    apply Permutation_app_head, Permutation_app_comm.
  - assert (Hown : owned (mkArray3D p w h d None (mkLayout s (maxNumMipmaps l))) =
                   given [AssignData s w h d p l]).
    { unfold owned, _delete, given. simpl. now destruct (p =? nullptr). }
    rewrite Hown. unfold owned. rewrite <- app_assoc.
    apply Permutation_app_head. rewrite app_assoc, (Permutation_app_comm (_delete a)).
    now rewrite <- app_assoc.
  - assert (Hown : owned (assign_storage st o s w h d l a).2 = []).
    { unfold owned, _delete, assign_storage. simpl.
      destruct st as [st0|]; [|reflexivity].
      destruct (storage_dataPointer st0 =? nullptr); reflexivity. }
    simpl in Hown. rewrite Hown, !app_nil_r, <- app_assoc.
    apply Permutation_app_head, Permutation_app_comm.
  - unfold dataRelease, owned, _delete.
    destruct (_storage a) as [st|] eqn:Hst; simpl.
    + rewrite ?Hst. simpl. now rewrite !app_nil_r.
    + rewrite ?Hst. simpl.
      destruct (_data a =? nullptr); simpl; now rewrite !app_nil_r.
Qed.

Lemma run_accounts ops deleted released a :
  let '(deleted', released', a') := fold_left step ops (deleted, released, a) in
  deleted' ++ released' ++ owned a' ≡ₚ deleted ++ released ++ owned a ++ given ops.
Proof.
  revert deleted released a. induction ops as [|op ops IH]; intros deleted released a.
  - simpl. unfold given. simpl. now rewrite app_nil_r.
  - cbn [fold_left]. pose proof (step_accounts deleted released a op) as Hstep.
    destruct (step (deleted, released, a) op) as [[d1 r1] a1].
    specialize (IH d1 r1 a1).
    destruct (fold_left step ops (d1, r1, a1)) as [[d2 r2] a2].
    rewrite IH, given_cons.
    rewrite (app_assoc d1), (app_assoc (d1 ++ r1)), <- (app_assoc d1), Hstep.
    now rewrite <- !app_assoc.
Qed.

(** X21.  Every buffer is accounted for once.  Over any run of [clear],
    the two [assign]s and [dataRelease], the buffers deleted, the buffers
    released to the caller and the buffer the array still owns are,
    together, the buffer it owned at the start and the non-null buffers it
    was given, each as often as it was given.  So when these are all
    different, no buffer is deleted twice, none is deleted after it was
    released, and the buffer still owned was neither deleted nor released;
    pointing the array into a storage object adds nothing that is deleted
    or released. *)
Theorem buffers_accounted_once ops a :
  let '(deleted, released, a') := run ops a in
  deleted ++ released ++ owned a' ≡ₚ owned a ++ given ops /\
  (List.NoDup (owned a ++ given ops) ->
   List.NoDup (deleted ++ released ++ owned a')).
Proof.
  unfold run. pose proof (run_accounts ops [] [] a) as Hacc.
  destruct (fold_left step ops ([], [], a)) as [[deleted released] a'].
  simpl in Hacc. split; [exact Hacc|].
  intros Hnd. apply NoDup_ListNoDup. rewrite Hacc. now apply NoDup_ListNoDup.
Qed.

(** X24.  [read] and the buffers.  What [read] deletes and what the array
    owns afterwards are what the array owned before and what [read]
    allocated, with one exception: when the array points into a storage
    object, the property "Data" follows and the sizes agree, [read] keeps
    the pointer into the storage object and drops its reference to that
    object.  It has then deleted and allocated nothing, and the array owns
    (its destructor will [delete[]]) a buffer it did not own before. *)
Theorem read_adopts_storage_buffer sizeof_value input a :
  in_new input <> nullptr ->
  let '(deleted, allocated, a') :=
    read computeValueCountIncludingMipmaps sizeof_value input a in
  if adopts computeValueCountIncludingMipmaps input a
  then deleted = [] /\ allocated = [] /\ owned a = [] /\
       _storage a' = None /\ owned a' = [_data a]
  else deleted ++ owned a' ≡ₚ owned a ++ allocated.
Proof.
  intros Hnew. unfold read, adopts, owned, _delete.
  apply Z.eqb_neq in Hnew.
  destruct (in_matchData input); simpl; [|now rewrite app_nil_r].
  destruct (_data a =? nullptr) eqn:Hdata; simpl.
  { rewrite Hnew, !andb_false_r. simpl. reflexivity. }
  destruct (size computeValueCountIncludingMipmaps a =?
            new_size computeValueCountIncludingMipmaps input); simpl.
  - destruct (bool_decide (is_Some (_storage a))); simpl; rewrite ?Hdata; simpl.
    + now split_and!.
    + reflexivity.
  - rewrite Hnew, !andb_false_r. simpl.
    destruct (negb (bool_decide (is_Some (_storage a)))); reflexivity.
Qed.

End Array3DProps.

(** ** The number of mipmap levels *)

Section MipMapLevels.

Import DescriptorImage.

Lemma clamp_mipLevels_spec fuel mipLevels maxDimension :
  1 <= mipLevels <= 32 -> 1 <= maxDimension -> mipLevels < Z.of_nat fuel ->
  exists r, clamp_mipLevels fuel mipLevels maxDimension = Some r /\
            1 <= r <= mipLevels /\ 2 ^ (r - 1) <= maxDimension /\
            (r = mipLevels \/ maxDimension < 2 ^ r).
Proof.
  revert mipLevels. induction fuel as [|fuel IH]; intros m Hm Hdim Hfuel; [lia|].
  simpl. rewrite (wrap32_small (m - 1)) by lia.
  destruct (Z.leb_spec 32 (m - 1)); [lia|].
  destruct (Z.gtb_spec (2 ^ (m - 1)) maxDimension) as [Hgt|Hle].
  - assert (Hm2 : 2 <= m).
    { destruct (Z.eq_dec m 1) as [->|]; [simpl in Hgt; lia|lia]. }
    destruct (IH (m - 1)) as (r & -> & Hr & Hpow & Hmax); [lia|lia|lia|].
    exists r. split; [reflexivity|]. split; [lia|]. split; [exact Hpow|].
    right. destruct Hmax as [->|]; lia.
  - exists m. split; [reflexivity|]. split; [lia|]. split; [exact Hle|]. now left.
Qed.

Lemma clamp_mipLevels_undefined fuel mipLevels maxDimension :
  0 <= mipLevels < 2 ^ 32 ->
  maxDimension = 0 \/ 32 < mipLevels ->
  clamp_mipLevels fuel mipLevels maxDimension = None.
Proof.
  revert mipLevels. induction fuel as [|fuel IH]; intros m Hm Hbad; [reflexivity|].
  simpl. destruct (Z.eq_dec m 0) as [->|Hnz].
  - reflexivity.
  - rewrite (wrap32_small (m - 1)) by lia.
    destruct (Z.leb_spec 32 (m - 1)); [reflexivity|].
    destruct Hbad as [->|]; [|lia].
    destruct (Z.gtb_spec (2 ^ (m - 1)) 0) as [Hgt|Hle].
    + apply IH; [lia|now left].
    + pose proof (Z.pow_pos_nonneg 2 (m - 1) ltac:(lia) ltac:(lia)). lia.
Qed.

(** X22.  [computeNumMipMapLevels] clamps.  For data with a largest extent
    of at least 1 and a sampler that is null or whose [ceil(maxLod)] is at
    most 32, it returns the number of levels asked for (1 for a null
    sampler or for 0) unless the largest extent supports fewer: the result
    [m] is at least 1, 2^(m-1) is at most the largest extent, and [m] is
    the number asked for or the largest such number. *)
Theorem computeNumMipMapLevels_clamps width height depth sampler :
  let requested := match sampler with Some ceil_maxLod => Z.max 1 ceil_maxLod | None => 1 end in
  let maxDimension := Z.max width (Z.max height depth) in
  match sampler with Some ceil_maxLod => 0 <= ceil_maxLod <= 32 | None => True end ->
  1 <= maxDimension ->
  exists mipLevels,
    computeNumMipMapLevels width height depth sampler = Some mipLevels /\
    1 <= mipLevels <= requested /\
    2 ^ (mipLevels - 1) <= maxDimension /\
    (mipLevels = requested \/ maxDimension < 2 ^ mipLevels).
Proof.
  intros requested maxDimension Hs Hdim. unfold computeNumMipMapLevels.
  fold maxDimension. remember (clamp_mipLevels 33) as clamp eqn:Hclamp.
  destruct sampler as [c|]; simpl.
  - destruct (Z.leb_spec 0 c); [|lia]. destruct (Z.ltb_spec c (2 ^ 32)); [|lia]. simpl.
    replace (if c =? 0 then 1 else c) with requested
      by (unfold requested; destruct (Z.eqb_spec c 0); lia).
    subst clamp. apply clamp_mipLevels_spec; unfold requested; lia.
  - subst clamp. apply clamp_mipLevels_spec; unfold requested; lia.
Qed.

(** X23.  [computeNumMipMapLevels] has no defined result for data whose
    extents are all 0: the loop decrements [mipLevels] to 0 and then shifts
    by 2^32 - 1.  Nor has it for a sampler whose [ceil(maxLod)] is above
    32 (the first shift is by 32 or more) or negative. *)
Theorem computeNumMipMapLevels_undefined width height depth sampler :
  0 <= width -> 0 <= height -> 0 <= depth ->
  (width = 0 /\ height = 0 /\ depth = 0) \/
  (exists ceil_maxLod, sampler = Some ceil_maxLod /\ (ceil_maxLod < 0 \/ 32 < ceil_maxLod)) ->
  computeNumMipMapLevels width height depth sampler = None.
Proof.
  intros Hw Hh Hd Hbad. unfold computeNumMipMapLevels.
  remember (clamp_mipLevels 33) as clamp eqn:Hclamp.
  destruct sampler as [c|]; simpl.
  - destruct (Z.leb_spec 0 c); [|reflexivity].
    destruct (Z.ltb_spec c (2 ^ 32)); [|reflexivity]. simpl.
    subst clamp. apply clamp_mipLevels_undefined.
    + destruct (Z.eqb_spec c 0); lia.
    + destruct Hbad as [(-> & -> & ->)|(c' & [= <-] & Hc)].
      * now left.
      * right. destruct (Z.eqb_spec c 0); lia.
  - subst clamp. apply clamp_mipLevels_undefined; [lia|].
    destruct Hbad as [(-> & -> & ->)|(c' & Habs & _)]; [now left|discriminate].
Qed.

End MipMapLevels.

(** ** The claims at concrete inputs *)

Lemma two_task_viewer_reachable : Reachable 64 two_task_viewer.
Proof.
  apply (reach_assign 64 (set_pagers {[ 7%nat := mkPager None false ]} Viewer_new)
           [graph_b1; graph_a; graph_b2] (Some 7%nat)).
  - apply reach_pagers, reach_new.
  - vm_compute. reflexivity.
Qed.

Lemma threaded_viewer_setup : setupThreading two_task_viewer = Some threaded_viewer.
Proof. vm_compute. reflexivity. Qed.

Lemma threaded_viewer_reachable : Reachable 64 threaded_viewer.
Proof.
  apply (reach_setupThreading 64 two_task_viewer).
  - exact two_task_viewer_reachable.
  - exact threaded_viewer_setup.
Qed.

Lemma setupThreading_topology_witness :
  (exists v' created,
      setupThreading two_task_viewer = Some v' /\
      threads v' = threads (stopThreading two_task_viewer) ++ created /\
      map kind created = [SingleThread; PrimaryThread; SecondaryThread] /\
      _threading v' = true) /\
  (exists v',
      setupThreading (Viewer_new : Viewer ScriptedWindow) = Some v' /\
      threads v' = [] /\ _threading v' = false) /\
  (exists v' created,
      setupThreading (set_recordAndSubmitTasks [task_b] Viewer_new
                      : Viewer ScriptedWindow) = Some v' /\
      _threading v' = true /\ threads v' = created /\ size created = 2 /\
      map kind created = [PrimaryThread; SecondaryThread]) /\
  (exists (v : Viewer ScriptedWindow) v' created,
      assignRecordAndSubmitTaskAndPresentation
        [graph_a; graph_b1] None Viewer_new = Some v /\
      setupThreading v = Some v' /\
      _threading v' = true /\ map kind created = [SingleThread; SingleThread] /\
      threads v' = created).
Proof.
  split; [|split; [|split]].
  - destruct (setupThreading_topology two_task_viewer) as (Hgen & _).
    destruct Hgen as (v' & created & Hs & Ht & Hk & Hth); [vm_compute; reflexivity|].
    exists v', created. auto.
  - destruct (setupThreading_topology (Viewer_new : Viewer ScriptedWindow))
      as (_ & Hnone & _).
    destruct Hnone as (v' & Hs & Ht & Hth); [vm_compute; discriminate|].
    exists v'. auto.
  - destruct (setupThreading_topology
                (set_recordAndSubmitTasks [task_b] Viewer_new : Viewer ScriptedWindow))
      as (_ & _ & Hone & _).
    destruct (Hone task_b eq_refl) as (v' & created & Hs & Hth & Ht & Hn & Hk);
      [vm_compute; split; [discriminate|reflexivity]|].
    exists v', created. auto.
  - destruct (assignRecordAndSubmitTaskAndPresentation
                [graph_a; graph_b1] None (Viewer_new : Viewer ScriptedWindow))
      as [v|] eqn:Ha; [|vm_compute in Ha; discriminate].
    vm_compute in Ha. injection Ha as Hv.
    destruct (setupThreading_topology v) as (_ & _ & _ & Hsingle).
    destruct Hsingle as (v' & fb & sc & Hs & Hth & Ht).
    + subst v. vm_compute. split; [discriminate|reflexivity].
    + subst v. repeat constructor.
    + exists v, v', (threads v'). rewrite Ht. subst v. split_and!; auto.
Defined.

(** C3 as worded fails: for the two valid tasks of the scenario the
    barrier is created for three parties, not two. *)
Lemma submissionCompleted_not_sized_by_valid_tasks :
  valid_task_count (recordAndSubmitTasks two_task_viewer) = 2 /\
  setupThreading two_task_viewer = Some threaded_viewer /\
  (required <$> _submissionCompleted threaded_viewer) = Some 3 /\
  ~ sized_by_valid_tasks two_task_viewer threaded_viewer.
Proof.
  split; [reflexivity|]. split; [exact threaded_viewer_setup|]. split; [reflexivity|].
  intros (b & Hb & Hreq). vm_compute in Hb. inversion Hb; subst. discriminate Hreq.
Qed.

Lemma submissionCompleted_counts_viewer_and_tasks_witness :
  valid_task_count (recordAndSubmitTasks two_task_viewer) = 2 /\
  total_command_graphs (recordAndSubmitTasks two_task_viewer) < 2 ^ 32 /\
  session_run (session_task_a_only ++ [SReturn]) (session_init two_task_viewer) = None /\
  exists s,
    session_run session_frame (session_init two_task_viewer) = Some s /\
    In (SE_return 1) (s_trace s) /\
    required (s_submissionCompleted s) = 3 /\
    returns_after_submissions 2 (s_trace s).
Proof.
  split; [reflexivity|]. split; [reflexivity|]. split; [vm_compute; reflexivity|].
  destruct (session_run session_frame (session_init two_task_viewer)) as [s|] eqn:Hrun;
    [|vm_compute in Hrun; discriminate Hrun].
  exists s. split; [reflexivity|].
  destruct (submissionCompleted_counts_viewer_and_tasks two_task_viewer session_frame s)
    as (v' & b & _ & _ & _ & _ & _ & _ & _ & Hreq & _ & Hret);
    [reflexivity | reflexivity | exact Hrun |].
  split; [|split; [exact Hreq|exact Hret]].
  vm_compute in Hrun. inversion Hrun; subst s. simpl. auto 20.
Defined.

Lemma primary_submits_after_recording_witness :
  2 <= size (commandGraphs task_b) < 2 ^ 32 /\
  exists g,
    group_run one_frame group_b = Some g /\
    In (0%nat, 1%nat, task_finish) (g_trace g) /\
    only_primary_submits (g_trace g) /\
    finish_after_recordCompleted 2 (g_trace g) /\
    start_opens_iteration (g_trace g).
Proof.
  split; [vm_compute; split; [discriminate|reflexivity]|].
  eexists. split; [vm_compute; reflexivity|].
  split; [vm_compute; tauto|].
  apply (primary_submits_after_recording
           task_b (FrameBlock_create 6) (Barrier_create 7 3) 8 10
           [run_primary shared_b graph_b1; run_secondary shared_b graph_b2]
           one_frame).
  - vm_compute. split; [discriminate|reflexivity].
  - vm_compute. reflexivity.
  - vm_compute. reflexivity.
Defined.

Lemma frameCount_increases_by_one_witness :
  _frameStamp second_frame_viewer = Some 0%nat /\
  stamps second_frame_viewer !! 0%nat = Some (mkFrameStamp 100 0) /\
  new_frame 200 1 second_frame_viewer (advance 64 200 second_frame_viewer) /\
  stamps (advance 64 200 second_frame_viewer) !! 0%nat = Some (mkFrameStamp 100 0) /\
  exists v',
    advanceToNextFrame 64 8 200 second_frame_viewer = Some (true, v') /\
    new_frame 200 1 second_frame_viewer v'.
Proof.
  split; [reflexivity|]. split; [reflexivity|].
  destruct (frameCount_increases_by_one 64 200 second_frame_viewer 0
              (mkFrameStamp 100 0) eq_refl eq_refl)
    as [(Hnew & _ & Hold) Hnext]; [simpl; lia | simpl; lia |].
  split; [exact Hnew|]. split; [exact Hold|].
  eexists. split; [vm_compute; reflexivity|].
  apply (Hnext 8%nat). vm_compute. reflexivity.
Defined.

Lemma assign_partitions_witness :
  (exists group,
      In (key_of graph_offscreen, group)
         (deviceCommandGraphsMap [graph_onscreen; graph_offscreen]) /\
      group = [graph_offscreen]) /\
  (exists v' : Viewer ScriptedWindow,
      assignRecordAndSubmitTaskAndPresentation
        [graph_onscreen; graph_offscreen] None Viewer_new = Some v' /\
      length (recordAndSubmitTasks v') = 2%nat /\ length (presentations v') = 1%nat) /\
  assignRecordAndSubmitTaskAndPresentation
    [graph_onscreen; graph_without_device] None
    (Viewer_new : Viewer ScriptedWindow) = None.
Proof.
  destruct (assign_partitions_by_device_queue_and_present
              [graph_onscreen; graph_offscreen] None (Viewer_new : Viewer ScriptedWindow))
    as (_ & Hgroups & Hcover & _ & Hsome).
  split; [|split].
  - destruct (Hcover graph_offscreen) as (group & Hin & _); [right; now left|].
    exists group. split; [exact Hin|].
    destruct (Hgroups _ _ Hin) as [-> _]. reflexivity.
  - destruct Hsome as (v' & objs & Ha & Hserved & Htasks & Hpres).
    + intros cg [<-|[<-|[]]]; discriminate.
    + exists v'. split; [exact Ha|].
      vm_compute in Ha. injection Ha as <-. split; reflexivity.
  - destruct (assign_partitions_by_device_queue_and_present
                [graph_onscreen; graph_without_device] None
                (Viewer_new : Viewer ScriptedWindow))
      as (_ & _ & _ & Hnone & _).
    apply Hnone. exists graph_without_device. split; [right; now left|reflexivity].
Defined.

Lemma recordAndSubmit_dispatch_witness :
  Reachable 64 two_task_viewer /\ Reachable 64 threaded_viewer /\
  (exists v',
      recordAndSubmit two_task_viewer = Some v' /\
      calls v' = [Task_submit 1 None; Task_submit 4 None]) /\
  exists v',
    recordAndSubmit threaded_viewer = Some v' /\
    calls v' = calls threaded_viewer ++
               [FrameBlock_set 6 None; Barrier_arrive_and_wait 7].
Proof.
  split; [exact two_task_viewer_reachable|].
  split; [exact threaded_viewer_reachable|]. split.
  - destruct (recordAndSubmit_dispatch 64 two_task_viewer two_task_viewer_reachable)
      as (v' & Hr & Hcalls).
    exists v'. split; [exact Hr|]. exact Hcalls.
  - destruct (recordAndSubmit_dispatch 64 threaded_viewer threaded_viewer_reachable)
      as (v' & Hr & Hcalls).
    exists v'. split; [exact Hr|].
    destruct Hcalls as (fb & sc & Hfb & Hsc & Hcalls).
    inversion Hfb; inversion Hsc; subst. exact Hcalls.
Defined.

Lemma stopThreading_noop_close_idempotent_witness :
  _threading two_task_viewer = false /\
  stopThreading two_task_viewer = two_task_viewer /\
  Reachable 64 threaded_viewer /\
  length (threads threaded_viewer) = 3%nat /\
  Nat.iter 2 close (close threaded_viewer) = close threaded_viewer /\
  _close (close threaded_viewer) = true /\
  _status (close threaded_viewer) = false /\
  threads (close threaded_viewer) = [].
Proof.
  split; [reflexivity|].
  split; [apply (stopThreading_noop_close_idempotent 64 two_task_viewer); reflexivity|].
  split; [exact threaded_viewer_reachable|]. split; [reflexivity|].
  destruct (stopThreading_noop_close_idempotent 64 threaded_viewer) as [_ Hclose].
  destruct (Hclose threaded_viewer_reachable) as (Hiter & Hc & Hs & _ & Hth).
  split; [exact (Hiter 2%nat)|].
  split; [exact Hc|]. split; [exact Hs|]. exact Hth.
Defined.

Lemma compile_pager_gets_first_device_witness :
  (forall task cg,
      In task (recordAndSubmitTasks shared_pager_viewer) ->
      In cg (commandGraphs task) -> _device cg <> nullptr) /\
  exists v',
    compile shared_pager_viewer = Some v' /\
    traversal_creations (calls v') = [(1, 0%nat); (2, 1%nat)] /\
    pager_assignments (calls v') = [(7%nat, 0%nat); (7%nat, 1%nat)] /\
    compileTraversal <$> pagers v' !! 7%nat = Some (Some 1%nat).
Proof.
  assert (Hnn : forall task cg,
             In task (recordAndSubmitTasks shared_pager_viewer) ->
             In cg (commandGraphs task) -> _device cg <> nullptr).
  { intros task cg [<-|[<-|[]]]; [intros [<-|[<-|[]]]|intros [<-|[]]]; discriminate. }
  split; [exact Hnn|].
  destruct (compile_pager_gets_first_device shared_pager_viewer Hnn)
    as (v' & created & Hc & Hcr & _ & _ & _ & _ & Hlog & _ & Hlast & _).
  destruct (Hlast [mkTask 0 1 [graph_a; graph_b1] [] (Some 7%nat) [] (getQueue 1 0)]
                  _ [] 7%nat graph_b2 [] eq_refl eq_refl eq_refl)
    as (ct & Hct & Hstore).
  { intros t []. }
  { vm_compute. eauto. }
  assert (Hcreated : created = [(1, 0%nat); (2, 1%nat)]).
  { vm_compute in Hc. injection Hc as <-. vm_compute in Hcr. now inversion Hcr. }
  subst created.
  exists v'. split; [exact Hc|]. split; [exact Hcr|]. split; [exact Hlog|].
  destruct Hct as [[= <-]|[[= <-]|[]]]. exact Hstore.
Defined.

Lemma first_frame_count_is_zero_witness :
  _frameStamp (addWindow succeeding_window Viewer_new) = None /\
  (exists a,
      _frameStamp second_frame_viewer = Some a /\
      (frameCount <$> stamps second_frame_viewer !! a) = Some 0 /\
      exists events, _events second_frame_viewer = events ++ [FrameEvent (Some a)]) /\
  exists v' a,
    advanceToNextFrame 64 8 100 (addWindow succeeding_window Viewer_new)
    = Some (true, v') /\
    _frameStamp v' = Some a /\ (frameCount <$> stamps v' !! a) = Some 0.
Proof.
  split; [reflexivity|].
  destruct (first_frame_count_is_zero 64 100 (addWindow succeeding_window Viewer_new)
              eq_refl) as [Hadv Hnext].
  split; [exact Hadv|].
  destruct (Hnext 8%nat _ eq_refl) as (a & Hr & Hst & _).
  eexists _, a. split; [reflexivity|]. auto.
Defined.

(** ** The further properties at concrete inputs *)

Lemma acquireNextFrame_without_visible_window_witness :
  acquireNextFrame 0 (close (addWindow succeeding_window Viewer_new)) =
  Some (false, close (addWindow succeeding_window Viewer_new)) /\
  acquireNextFrame 0 (addWindow hidden_window Viewer_new) =
  Some (true, addWindow hidden_window Viewer_new).
Proof.
  split.
  - apply (proj1 (acquireNextFrame_without_visible_window
                    0 (close (addWindow succeeding_window Viewer_new)))).
    reflexivity.
  - apply (proj2 (acquireNextFrame_without_visible_window
                    0 (addWindow hidden_window Viewer_new))); reflexivity.
Defined.

Lemma acquireNextFrame_last_visible_decides_witness :
  fst <$> acquireNextFrame 8 (addWindow hidden_window masked_failure_viewer) = Some true.
Proof.
  rewrite (acquireNextFrame_last_visible_decides
             8 (addWindow hidden_window masked_failure_viewer)
             [failing_window] succeeding_window [hidden_window]);
    reflexivity.
Defined.

Lemma acquire_loop_retries_witness :
  acquire_loop 3 rebuilt_window [] =
  Some (VK_SUCCESS, mkScriptedWindow true true 1 [] [] 2, []).
Proof.
  rewrite (acquire_loop_retries 2 3 rebuilt_window []).
  - reflexivity.
  - intros [|[|i]] Hi; [reflexivity|reflexivity|lia].
  - reflexivity.
  - lia.
Defined.

Lemma acquireNextFrame_never_returns_witness :
  acquireNextFrame 1000 (addWindow out_of_date_window Viewer_new) = None.
Proof.
  apply (acquireNextFrame_never_returns 1000 (addWindow out_of_date_window Viewer_new)
           [] out_of_date_window []); reflexivity.
Defined.

Lemma advanceToNextFrame_false_starts_no_frame_witness :
  advanceToNextFrame 64 8 200 (close second_frame_viewer) =
  Some (false, deviceWaitIdle (close second_frame_viewer)) /\
  frame_state (deviceWaitIdle (close second_frame_viewer)) =
  frame_state (close second_frame_viewer).
Proof.
  destruct (advanceToNextFrame_false_starts_no_frame 64 8 200 (close second_frame_viewer))
    as [Hinactive Hsame].
  split.
  - apply Hinactive. reflexivity.
  - apply Hsame. apply Hinactive. reflexivity.
Defined.

Lemma advance_counts_frames_witness :
  stamps (advances 64 [100; 200; 300] (addWindow succeeding_window Viewer_new)) =
  [mkFrameStamp 100 0; mkFrameStamp 200 1; mkFrameStamp 300 2] /\
  _frameStamp (advances 64 [100; 200; 300] (addWindow succeeding_window Viewer_new)) =
  Some 2%nat.
Proof.
  destruct (advance_counts_frames 64 [100; 200; 300]
              (addWindow succeeding_window Viewer_new) eq_refl) as [Hstamps Hlast].
  split; [exact Hstamps|].
  destruct (Hlast ltac:(discriminate)) as [Href _]. exact Href.
Defined.

Lemma compile_fails_on_null_device_witness :
  compile (set_recordAndSubmitTasks
             [mkTask 0 1 [graph_a; graph_without_device] [] None [] (getQueue 1 0)]
             (Viewer_new : Viewer ScriptedWindow)) = None.
Proof.
  apply compile_fails_on_null_device.
  eexists _, graph_without_device. split; [now left|]. split; [right; now left|reflexivity].
Defined.

Lemma compile_dispatches_then_waits_then_starts_witness :
  exists v' setup,
    compile multi_device_viewer = Some v' /\
    forallb is_setup setup = true /\
    calls v' = setup ++
               map Context_dispatch (created_traversals setup) ++
               map Context_waitForCompletion (created_traversals setup) ++
               [Pager_start 7].
Proof.
  destruct (compile_dispatches_then_waits_then_starts multi_device_viewer)
    as (v' & setup & Hc & Hsetup & _ & Hcalls & _).
  { intros task cg [<-|[]] [<-|[<-|[<-|[]]]]; discriminate. }
  exists v', setup. split; [exact Hc|]. split; [exact Hsetup|]. exact Hcalls.
Defined.

Lemma assigned_windows_unique_witness :
  assignRecordAndSubmitTaskAndPresentation
    [graph_b1; graph_a; graph_b2] (Some 7%nat)
    (set_pagers {[ 7%nat := mkPager None false ]} Viewer_new) = Some two_task_viewer /\
  In task_b (recordAndSubmitTasks two_task_viewer) /\
  task_windows task_b = [20; 21] /\
  StronglySorted Z.lt (task_windows task_b).
Proof.
  assert (Ha : assignRecordAndSubmitTaskAndPresentation
                 [graph_b1; graph_a; graph_b2] (Some 7%nat)
                 (set_pagers {[ 7%nat := mkPager None false ]} Viewer_new)
               = Some two_task_viewer).
  { vm_compute. reflexivity. }
  assert (Hin : In task_b (recordAndSubmitTasks two_task_viewer)).
  { vm_compute. auto. }
  split; [exact Ha|]. split; [exact Hin|]. split; [reflexivity|].
  destruct (assigned_windows_unique [graph_b1; graph_a; graph_b2] (Some 7%nat)
              (set_pagers {[ 7%nat := mkPager None false ]} Viewer_new)
              two_task_viewer task_b Ha Hin)
    as [[]|(Hsorted & _)].
  exact Hsorted.
Defined.

Lemma stopThreading_joins_created_threads_witness :
  exists v',
    setupThreading two_task_viewer = Some v' /\
    length (threads v') = 3%nat /\
    calls (stopThreading v') =
    calls v' ++ [cout_stopThreading; FrameBlock_wake 6] ++ map Thread_join (threads v') /\
    threads (stopThreading v') = [].
Proof.
  destruct (stopThreading_joins_created_threads 64 two_task_viewer)
    as (v' & fb & Hsetup & Hfb & Hkind & Hcalls & Hnone & _).
  - exact two_task_viewer_reachable.
  - vm_compute. split; [discriminate|reflexivity].
  - exists v'. split; [exact Hsetup|].
    assert (Hlen : length (threads v') = 3%nat).
    { rewrite <- (length_map kind), Hkind. reflexivity. }
    split; [exact Hlen|]. split; [|exact Hnone].
    rewrite Hcalls. rewrite threaded_viewer_setup in Hsetup. inversion Hsetup; subst v'.
    vm_compute in Hfb. inversion Hfb. reflexivity.
Defined.

Lemma close_is_final_witness :
  (active (advance 64 300 (close second_frame_viewer))).1 = false /\
  acquireNextFrame 8 (advance 64 300 (close second_frame_viewer)) =
  Some (false, advance 64 300 (close second_frame_viewer)).
Proof.
  destruct (close_is_final 64 second_frame_viewer
              (advance 64 300 (close second_frame_viewer)) 8 0)
    as (_ & _ & Hactive & _ & Hacquire).
  - apply rtc_once. apply step_advance.
  - split; [exact Hactive|exact Hacquire].
Defined.

Lemma inactive_session_never_submits_witness :
  _threading threaded_viewer = true /\
  exists s,
    session_run restarted_schedule (session_init threaded_viewer) = Some s /\
    s_trace s = [SE_set 1 (mkFrameStamp 100 0); SE_arrive 1] /\
    (forall n, ~ In (SE_return n) (s_trace s)) /\
    (exists g w, s_groups s !! 1%nat = Some g /\ g_workers g !! 1%nat = Some w /\
                 w_control w = Exited /\ w_iteration w = 0%nat) /\
    session_step (SWorker 1 1) s = None.
Proof.
  split; [reflexivity|].
  destruct (session_run restarted_schedule (session_init threaded_viewer)) as [s|] eqn:Hrun;
    [|vm_compute in Hrun; discriminate Hrun].
  exists s. split; [reflexivity|].
  destruct (inactive_session_never_submits threaded_viewer restarted_schedule s)
    as (_ & _ & Hnever & _ & _ & Hworkers & Hscheduled).
  - right. reflexivity.
  - vm_compute. discriminate.
  - vm_compute. reflexivity.
  - exact Hrun.
  - split; [vm_compute in Hrun; inversion Hrun; reflexivity|].
    split; [exact Hnever|].
    destruct (Hscheduled 1%nat 1%nat) as (g & w & Hg & Hw & Hc & Hit).
    { right. right. right. right. now left. }
    split; [exists g, w; auto|].
    destruct (Hworkers 1%nat g 1%nat w Hg Hw) as [_ [[Hat _]|[_ Hnone]]];
      [congruence|exact Hnone].
Defined.

Lemma tasks_keep_step_with_viewer_witness :
  exists s g w,
    session_run session_frame (session_init two_task_viewer) = Some s /\
    s_orchestrator s = OIdle /\ s_calls s = 1%nat /\
    s_groups s !! 1%nat = Some g /\ g_workers g !! 0%nat = Some w /\
    w_iteration w = 1%nat /\ sc_arrived w = 1.
Proof.
  destruct (session_run session_frame (session_init two_task_viewer)) as [s|] eqn:Hrun;
    [|vm_compute in Hrun; discriminate Hrun].
  destruct (s_groups s !! 1%nat) as [g|] eqn:Hg;
    [|vm_compute in Hrun; inversion Hrun; subst s; discriminate Hg].
  destruct (g_workers g !! 0%nat) as [w|] eqn:Hw;
    [|vm_compute in Hrun; inversion Hrun; subst s; vm_compute in Hg; inversion Hg; subst g;
      discriminate Hw].
  assert (Hidle : s_orchestrator s = OIdle /\ s_calls s = 1%nat).
  { vm_compute in Hrun. inversion Hrun. split; reflexivity. }
  destruct Hidle as [Hidle Hcalls].
  destruct (tasks_keep_step_with_viewer two_task_viewer session_frame s
              ltac:(vm_compute; reflexivity) Hrun 1%nat g w Hg Hw)
    as (_ & _ & Hstep).
  destruct (Hstep Hidle) as [Hit Harr]. rewrite Hcalls in Hit, Harr.
  exists s, g, w. split; [reflexivity|]. auto 10.
Defined.

Lemma index_in_bounds_and_injective_witness :
  Array3D.index small_array 3 2 1 = 23 /\
  Array3D.size (fun _ _ _ _ => 0) small_array = 24.
Proof.
  destruct (index_in_bounds_and_injective (fun _ _ _ _ => 0) small_array 3 2 1)
    as (Hidx & _ & _);
    [vm_compute; intuition discriminate | vm_compute; discriminate
    | vm_compute; discriminate | simpl; lia | simpl; lia | simpl; lia |].
  split; [rewrite Hidx; reflexivity|reflexivity].
Defined.

Lemma allocation_and_size_witness :
  Array3D.element_count 65536 65536 2 = 0 /\
  Array3D.size (fun _ _ _ _ => 0) huge_array = 2 ^ 33.
Proof.
  destruct (allocation_and_size (fun _ _ _ _ => 0) huge_array)
    as (Hcount & Hsize & _);
    [vm_compute; intuition discriminate | vm_compute; discriminate |].
  split; [exact Hcount|exact Hsize].
Defined.

Lemma computeNumMipMapLevels_clamps_witness :
  DescriptorImage.computeNumMipMapLevels 256 100 1 (Some 16) = Some 9 /\
  DescriptorImage.computeNumMipMapLevels 256 100 1 None = Some 1.
Proof.
  split.
  - destruct (computeNumMipMapLevels_clamps 256 100 1 (Some 16))
      as (m & Hm & _); [lia|vm_compute; discriminate|].
    rewrite Hm. vm_compute in Hm. symmetry. exact Hm.
  - destruct (computeNumMipMapLevels_clamps 256 100 1 None)
      as (m & Hm & _); [exact I|vm_compute; discriminate|].
    rewrite Hm. vm_compute in Hm. symmetry. exact Hm.
Defined.

Lemma computeNumMipMapLevels_undefined_witness :
  DescriptorImage.computeNumMipMapLevels 0 0 0 (Some 4) = None /\
  DescriptorImage.computeNumMipMapLevels 256 256 1 (Some 40) = None.
Proof.
  split.
  - apply computeNumMipMapLevels_undefined; [lia | lia | lia | left; auto].
  - apply computeNumMipMapLevels_undefined;
      [lia | lia | lia | right; exists 40; split; [reflexivity|lia]].
Defined.

Lemma unthreaded_frame_order_witness :
  _threading (advance 64 100 two_task_viewer) = false /\
  calls <$> (recordAndSubmit (update (advance 64 100 two_task_viewer))
               ≫= fun v' => Some (present v')) =
  Some [Pager_updateSceneGraph 7 (Some 0%nat);
        Pager_updateSceneGraph 7 (Some 0%nat);
        Task_submit 1 (Some 0%nat); Task_submit 4 (Some 0%nat);
        Presentation_present 2; Presentation_present 5].
Proof.
  split; [reflexivity|].
  rewrite (unthreaded_frame_order (advance 64 100 two_task_viewer)) by reflexivity.
  vm_compute. reflexivity.
Defined.

Lemma index_wraps_at_2_32_witness :
  Array3D.index huge_array 5 7 1 = Array3D.index huge_array 5 7 0 /\
  Array3D.index huge_array 5 7 1 <> Array3D.offset huge_array 5 7 1.
Proof.
  destruct (index_wraps_at_2_32 huge_array 5 7 1) as (_ & Hexact & Hslice).
  split.
  - apply Hslice. reflexivity.
  - intros Heq. apply Hexact in Heq; [|vm_compute; discriminate].
    vm_compute in Heq. discriminate.
Defined.

Lemma buffers_accounted_once_witness :
  List.NoDup (Array3D.owned small_array ++ Array3D.given buffer_ops) /\
  List.NoDup (let '(deleted, released, a') := Array3D.run buffer_ops small_array in
              deleted ++ released ++ Array3D.owned a').
Proof.
  assert (Hnd : List.NoDup (Array3D.owned small_array ++ Array3D.given buffer_ops)).
  { vm_compute. repeat constructor; simpl; intuition discriminate. }
  split; [exact Hnd|].
  pose proof (buffers_accounted_once buffer_ops small_array) as Hacc.
  destruct (Array3D.run buffer_ops small_array) as [[deleted released] a'].
  apply Hacc, Hnd.
Defined.

Lemma read_adopts_storage_buffer_witness :
  Array3D.owned stored_array = [] /\
  Array3D.owned (Array3D.read (fun w h d _ => w * h * d) 4 same_size_input stored_array).2 = [9016].
Proof.
  pose proof (read_adopts_storage_buffer (fun w h d _ => w * h * d) 4
                same_size_input stored_array) as Hread.
  destruct (Array3D.read (fun w h d _ => w * h * d) 4 same_size_input stored_array)
    as [[deleted allocated] a'].
  change (Array3D.adopts (fun w h d _ => w * h * d) same_size_input stored_array) with true in Hread.
  destruct Hread as (_ & _ & Howned & _ & Howned'); [vm_compute; discriminate|].
  split; [exact Howned|exact Howned'].
Defined.

Lemma stale_stamp_never_returns_witness :
  exists s s',
    session_run session_frame (session_init two_task_viewer) = Some s /\
    session_run [SSet (mkFrameStamp 100 0); SArrive] s = Some s' /\
    s_orchestrator s' <> OIdle /\
    s_calls s = 1%nat /\ s_calls s' = 2%nat /\
    forall k g w,
      s_groups s' !! k = Some g -> g_workers g !! 0%nat = Some w ->
      w_iteration w = 1%nat.
Proof.
  destruct (session_run session_frame (session_init two_task_viewer)) as [s|] eqn:Hrun;
    [|vm_compute in Hrun; discriminate Hrun].
  destruct (session_run [SSet (mkFrameStamp 100 0); SArrive] s) as [s'|] eqn:Hrun';
    [|vm_compute in Hrun; inversion Hrun; subst s; vm_compute in Hrun'; discriminate Hrun'].
  destruct (stale_stamp_never_returns two_task_viewer session_frame s
              (mkFrameStamp 100 0) [SArrive] s')
    as (_ & Hbusy & Hcalls & _ & _ & _ & Hthreads);
    [vm_compute; discriminate | vm_compute; reflexivity | exact Hrun
    | vm_compute in Hrun; inversion Hrun; reflexivity | exact Hrun' |].
  assert (Hone : s_calls s = 1%nat).
  { vm_compute in Hrun. inversion Hrun. reflexivity. }
  exists s, s'. split; [reflexivity|]. split; [exact Hrun'|]. split; [exact Hbusy|].
  split; [exact Hone|]. split; [now rewrite Hcalls, Hone|].
  intros k g w Hg Hw. destruct (Hthreads k g w Hg Hw) as [Hit _]. now rewrite Hit.
Defined.

Lemma threaded_frame_completes_witness :
  exists s rest s',
    session_run session_task_a_only (session_init two_task_viewer) = Some s /\
    s_orchestrator s <> OIdle /\
    forallb in_frame rest = true /\ session_run rest s = Some s' /\
    s_orchestrator s' = OIdle /\ s_calls s' = 1%nat.
Proof.
  destruct (session_run session_task_a_only (session_init two_task_viewer)) as [s|] eqn:Hrun;
    [|vm_compute in Hrun; discriminate Hrun].
  assert (Hs : s_orchestrator s <> OIdle /\ s_calls s = 1%nat).
  { vm_compute in Hrun. inversion Hrun. split; [discriminate|reflexivity]. }
  destruct Hs as [Hbusy Hcalls].
  destruct (threaded_frame_completes two_task_viewer session_task_a_only s)
    as [_ (rest & s' & Hrest & Hrun' & Hidle & Hc)];
    [reflexivity | reflexivity | vm_compute; reflexivity | vm_compute; reflexivity
    | split; [repeat constructor; discriminate | repeat constructor] | exact Hrun |].
  exists s, rest, s'. rewrite Hc, Hcalls. auto 10.
Defined.

Lemma threads_work_on_current_stamp_witness :
  exists s g w,
    session_run (firstn 4 session_task_a_only) (session_init two_task_viewer) = Some s /\
    s_groups s !! 0%nat = Some g /\ g_workers g !! 0%nat = Some w /\
    remaining w = [arrive_and_drop SubmissionCompleted] /\
    w_iteration w = 1%nat /\ w_frameStamp w = Some (mkFrameStamp 100 0).
Proof.
  destruct (session_run (firstn 4 session_task_a_only) (session_init two_task_viewer))
    as [s|] eqn:Hrun; [|vm_compute in Hrun; discriminate Hrun].
  destruct (s_groups s !! 0%nat) as [g|] eqn:Hg;
    [|vm_compute in Hrun; inversion Hrun; subst s; discriminate Hg].
  destruct (g_workers g !! 0%nat) as [w|] eqn:Hw;
    [|vm_compute in Hrun; inversion Hrun; subst s; vm_compute in Hg; inversion Hg; subst g;
      discriminate Hw].
  assert (Hstate : remaining w = [arrive_and_drop SubmissionCompleted] /\
                   s_calls s = 1%nat).
  { vm_compute in Hrun. inversion Hrun; subst s. vm_compute in Hg. inversion Hg; subst g.
    vm_compute in Hw. inversion Hw. split; reflexivity. }
  destruct Hstate as [Hr Hcalls].
  destruct (threads_work_on_current_stamp two_task_viewer (firstn 4 session_task_a_only) s)
    as [Hvalue Hall];
    [reflexivity | reflexivity | vm_compute; reflexivity | vm_compute; reflexivity
    | split; [repeat constructor; discriminate | repeat constructor] | exact Hrun |].
  destruct (Hall 0%nat g 0%nat w Hg Hw) as (_ & _ & Hbusy).
  destruct Hbusy as [Hit Hfs]; [rewrite Hr; discriminate|].
  exists s, g, w. rewrite Hit, Hfs, Hvalue, Hcalls. auto 10.
Defined.

Lemma finish_gets_every_buffer_witness :
  exists g w0 instrs,
    group_run (firstn 13 one_frame) group_b = Some g /\
    g_workers g !! 0%nat = Some w0 /\
    w_control w0 = Running (task_finish :: instrs) /\
    g_recorded g ≡ₚ [101; 102].
Proof.
  destruct (group_run (firstn 13 one_frame) group_b) as [g|] eqn:Hrun;
    [|vm_compute in Hrun; discriminate Hrun].
  destruct (g_workers g !! 0%nat) as [w0|] eqn:Hw0;
    [|vm_compute in Hrun; inversion Hrun; subst g; discriminate Hw0].
  assert (Hc : w_control w0 = Running [task_finish; recorded_clear;
                                       arrive_and_wait SubmissionCompleted]).
  { vm_compute in Hrun. inversion Hrun; subst g. vm_compute in Hw0.
    inversion Hw0. reflexivity. }
  destruct (finish_gets_every_buffer task_b (FrameBlock_create 6) (Barrier_create 7 3) 8
              graph_b1 [graph_b2] (firstn 13 one_frame) g w0) as [_ Hfinish];
    [vm_compute; reflexivity | exact Hrun | exact Hw0 |].
  exists g, w0, [recorded_clear; arrive_and_wait SubmissionCompleted].
  split; [reflexivity|]. split; [exact Hw0|]. split; [exact Hc|].
  exact (Hfinish _ Hc).
Defined.
